(** * topola: the colorful renderer (src/colorful-renderer.ts)

    A shallow embedding of [ColorfulRenderer]: the size estimation
    ([getPreferredIndiSize], [getPreferredFamSize]), the offsets of the
    people of a layout node, the family transform, and the d3 enter/update
    rendering ([render], [renderIndi], [renderFamily]) over a model of the
    DOM and of the d3 selections the source uses.

    Numbers are JavaScript numbers restricted to integers (pixels, years),
    with [NaN] and [undefined] kept, since the source relies on both
    ([d3.max] of an empty array, [undefined + 22]). *)

From Stdlib Require Import ZArith String Ascii DecimalString Decimal Lia.
From stdpp Require Import base option gmap strings list.

Local Open Scope Z_scope.

(** ** JavaScript values *)

(** A value of TypeScript type [number | undefined]. The finite numbers
    are the integers, on which [+] and [-] are exact: the rounding of
    fractional doubles (measured text widths) is out of this model. *)
Inductive jsnum : Type :=
  | Num (z : Z)
  | NaN
  | Undefined.

#[global] Instance jsnum_eq_dec : EqDecision jsnum.
Proof. solve_decision. Defined.

(** [a + b] on numbers: [undefined] converts to [NaN]. *)
Definition js_add (a b : jsnum) : jsnum :=
  match a, b with
  | Num x, Num y => Num (x + y)
  | _, _ => NaN
  end.

(** [a - b]. *)
Definition js_sub (a b : jsnum) : jsnum :=
  match a, b with
  | Num x, Num y => Num (x - y)
  | _, _ => NaN
  end.

(** Unary minus. *)
Definition js_neg (a : jsnum) : jsnum :=
  match a with
  | Num x => Num (- x)
  | _ => NaN
  end.

(** Truthiness of a number: [0], [NaN] and [undefined] are falsy. *)
Definition truthy (a : jsnum) : bool :=
  match a with
  | Num x => negb (x =? 0)
  | _ => false
  end.

(** Truthiness of a [string | null]: [null] and the empty string are falsy. *)
Definition truthy_s (s : option string) : bool :=
  match s with
  | Some (String _ _) => true
  | _ => false
  end.

(** [s || ''] *)
Definition or_empty (s : option string) : string :=
  if truthy_s s then default ""%string s else ""%string.

(** [a || b] on numbers. *)
Definition js_or (a b : jsnum) : jsnum := if truthy a then a else b.

(** [String(z)] for an integer. *)
Definition Z_to_string (z : Z) : string := NilZero.string_of_int (Z.to_int z).

(** [String(a)], the conversion of template literals and of [+] with a string. *)
Definition js_str (a : jsnum) : string :=
  match a with
  | Num z => Z_to_string z
  | NaN => "NaN"%string
  | Undefined => "undefined"%string
  end.

(** [String(a / 2)] for an integer [a]: a half-integer prints with [.5]. *)
Definition js_half_str (a : jsnum) : string :=
  match a with
  | Num z =>
      if Z.even z then Z_to_string (z / 2)
      else (if z <? 0 then "-"%string else ""%string)
             +:+ Z_to_string (Z.abs z / 2) +:+ ".5"%string
  | _ => "NaN"%string
  end.

(** [String(s)] for a [string | undefined]. *)
Definition js_str_s (s : option string) : string :=
  match s with
  | Some s => s
  | None => "undefined"%string
  end.

(** [d3.max(values)] (d3-array): the greatest of the comparable values
    ([undefined] and [NaN] are skipped), [undefined] when there is none. *)
Definition d3_max_step (max value : jsnum) : jsnum :=
  match value, max with
  | Num v, Num m => if m <? v then value else max
  | Num v, _ => value
  | _, _ => max
  end.

Definition d3_max (values : list jsnum) : jsnum :=
  fold_left d3_max_step values Undefined.

(** ** Data model (data.ts, api.ts) *)

(** Modelled from the spec: the date types of data.ts, which is not among
    the sources. A date or range is "either an exact date or a from/to
    range"; the fields are optional, as the non-null assertions of the
    source ([date!], [dateRange!], [from!], [to!]) show. The source reads
    only [year]. *)
Record Date := mkDate {
  day : jsnum;
  month : jsnum;
  year : jsnum;
}.

Record DateRange := mkDateRange {
  from : option Date;
  to : option Date;
}.

Record DateOrRange := mkDateOrRange {
  date : option Date;
  dateRange : option DateRange;
}.

(** An individual, as the accessors of [IndiDetails] return it. *)
Record IndiDetails := mkIndiDetails {
  getFirstName : option string;
  getLastName : option string;
  getBirthDate : option DateOrRange;
  getDeathDate : option DateOrRange;
  getBirthPlace : option string;
  getDeathPlace : option string;
  getImageUrl : option string;
  getSex : option string;
}.

(** A family, as the accessors of [FamDetails] return it. *)
Record FamDetails := mkFamDetails {
  getMarriageDate : option DateOrRange;
  getMarriagePlace : option string;
}.

(** The data provider: [getIndi(id)], [getFam(id)]. *)
Record DataProvider := mkDataProvider {
  getIndi : string → option IndiDetails;
  getFam : string → option FamDetails;
}.

(** A sized entry of a layout node (api.ts): [width?] and [height?] are
    optional, the source reads them with a non-null assertion. *)
Module TreeEntry.
Record t := mk {
  id : string;
  width : jsnum;
  height : jsnum;
}.
End TreeEntry.

(** A layout node (api.ts); [generation?] is optional. *)
Module TreeNode.
Record t := mk {
  indi : option TreeEntry.t;
  spouse : option TreeEntry.t;
  family : option TreeEntry.t;
  generation : jsnum;
}.
End TreeNode.

(** [RendererOptions]: the callbacks are kept as "configured or not", the
    hyperlink functions as functions from an id to a URL. *)
Record RendererOptions := mkOptions {
  data : DataProvider;
  horizontal : bool;
  animate : bool;
  locale : option string;
  indiHrefFunc : option (string → string);
  famHrefFunc : option (string → string);
  indiCallback : bool;
  famCallback : bool;
}.

Definition INDI_MIN_HEIGHT : Z := 43.
Definition INDI_MIN_WIDTH : Z := 64.
Definition FAM_MIN_HEIGHT : Z := 10.
Definition FAM_MIN_WIDTH : Z := 15.
Definition IMAGE_WIDTH : Z := 70.
Definition IMAGE_HEIGHT : Z := 90.

Definition ANIMATION_DELAY_MS : Z := 200.
Definition ANIMATION_DURATION_MS : Z := 500.

Definition SEX_COLORS : gmap string string :=
  list_to_map [("F", "#fcb7bd"); ("M", "#b1e2e2")]%string.

Record DetailsLine := mkLine {
  symbol : string;
  centered : bool;
  text : string;
}.

#[global] Instance DetailsLine_eq_dec : EqDecision DetailsLine.
Proof. solve_decision. Defined.

Module OffsetIndi.
Record t := mk {
  indi : TreeEntry.t;
  generation : jsnum;
  xOffset : jsnum;
  yOffset : jsnum;
}.
End OffsetIndi.

(** The union marker, U+26AD, in UTF-8. *)
Definition UNION_SYMBOL : string :=
  String (ascii_of_nat 226) (String (ascii_of_nat 154) (String (ascii_of_nat 173) EmptyString)).


(** ** The DOM and d3 selections

    The renderer draws through d3 (version 5: d3-selection, d3-transition,
    d3-array): it appends elements to the document, sets attributes and text
    on them, and binds data to them. The document is a store of elements
    indexed by a handle; every element keeps its parent, its children in
    document order, its bound datum ([__data__]) and its listeners.
    Attribute changes made through a d3 transition do not reach the element
    during the pass: they are recorded as pending tweens. *)

(** The datum bound to an element: a layout node (the [data] of a
    d3-hierarchy node) or a person of the person-level join. *)
Inductive Datum : Type :=
  | DNode (node : TreeNode.t)
  | DIndi (d : OffsetIndi.t).

(** A click listener calls [indiCallback] or [famCallback] of the options
    with the id and the generation of the datum bound at the time of the
    click. *)
Inductive Listener : Type :=
  | IndiClick
  | FamClick.

Record Element := mkElement {
  tagName : string;
  attributes : gmap string string;
  textContent : option string;
  childNodes : list nat;
  parentNode : option nat;
  datum : option Datum;
  listeners : gmap string Listener;
}.

(** An attribute change scheduled by a transition: [None] removes the
    attribute. *)
Record Tween := mkTween {
  tw_node : nat;
  tw_name : string;
  tw_value : option string;
  tw_delay : Z;
  tw_duration : Z;
}.

#[global] Instance Tween_eq_dec : EqDecision Tween.
Proof. solve_decision. Defined.

Record DOM := mkDOM {
  elements : gmap nat Element;
  next_id : nat;
  tweens : list Tween;
}.

(** A pass over the document: state passing, [None] is a thrown exception
    (the state is the document at the time of the throw). *)
Definition M (A : Type) : Type := DOM → option A * DOM.

#[global] Instance M_ret : MRet M := λ A a d, (Some a, d).
#[global] Instance M_bind : MBind M := λ A B k m d,
  match m d with
  | (Some a, d') => k a d'
  | (None, d') => (None, d')
  end.

(** [m |> f]: the method chaining of d3, [m.f(...)]. *)
Notation "m |> f" := (mbind f m) (at level 66, left associativity, only parsing).

(** The result of a fallible pure computation, thrown when it failed. *)
Definition lift {A} (o : option A) : M A := λ d, (o, d).

Fixpoint for_each {A B} (f : A → M B) (l : list A) : M (list B) :=
  match l with
  | [] => mret []
  | x :: l => y ← f x; ys ← for_each f l; mret (y :: ys)
  end.

(** Apply [f] to the elements of a selection, keeping the empty slots. *)
Definition for_nodes {A B} (f : A → M B) (sel : list (option A)) : M (list (option B)) :=
  for_each (λ slot, match slot with
                    | Some e => y ← f e; mret (Some y)
                    | None => mret None
                    end) sel.

Definition getElements : M (gmap nat Element) := λ d, (Some (elements d), d).

Definition getDatum (e : nat) : M (option Datum) :=
  λ d, (Some (elements d !! e ≫= datum), d).

(** Change the element [e] in place. *)
Definition modify (f : Element → Element) (e : nat) : M unit :=
  λ d, (Some (), mkDOM (alter f e (elements d)) (next_id d) (tweens d)).

(** [document.createElement(tag)], with its parent and datum set. *)
Definition createElement (tag : string) (parent : nat) (dat : option Datum) : M nat :=
  λ d, let e := next_id d in
       (Some e,
        mkDOM (<[e := mkElement tag ∅ None [] (Some parent) dat ∅]> (elements d))
              (S e) (tweens d)).

Definition schedule (tw : Tween) : M unit :=
  λ d, (Some (), mkDOM (elements d) (next_id d) (tweens d ++ [tw])).

Definition set_attribute (name : string) (v : option string) (el : Element) : Element :=
  mkElement (tagName el)
    (match v with
     | Some s => <[name := s]> (attributes el)
     | None => delete name (attributes el)
     end)
    (textContent el) (childNodes el) (parentNode el) (datum el) (listeners el).

Definition set_text (v : string) (el : Element) : Element :=
  mkElement (tagName el) (attributes el) (Some v) (childNodes el) (parentNode el)
    (datum el) (listeners el).

Definition set_children (c : list nat) (el : Element) : Element :=
  mkElement (tagName el) (attributes el) (textContent el) c (parentNode el)
    (datum el) (listeners el).

Definition set_datum (dat : option Datum) (el : Element) : Element :=
  mkElement (tagName el) (attributes el) (textContent el) (childNodes el)
    (parentNode el) dat (listeners el).

Definition set_listener (type : string) (l : Listener) (el : Element) : Element :=
  mkElement (tagName el) (attributes el) (textContent el) (childNodes el)
    (parentNode el) (datum el) (<[type := l]> (listeners el)).

(** *** Selectors *)

(** A compound selector [tag] or [tag.class]. *)
Record Compound := mkCompound {
  sel_tag : string;
  sel_class : option string;
}.

(** The selectors of the source: a compound selector, or one under an
    ancestor (['clipPath rect']). *)
Inductive Selector : Type :=
  | Simple (c : Compound)
  | Descendant (ancestor : Compound) (c : Compound).

(** The space-separated tokens of a [class] attribute. *)
Fixpoint tokens_aux (s : string) (current : string) : list string :=
  match s with
  | EmptyString => match current with EmptyString => [] | _ => [current] end
  | String c s =>
      if Ascii.eqb c " "%char
      then match current with
           | EmptyString => tokens_aux s EmptyString
           | _ => current :: tokens_aux s EmptyString
           end
      else tokens_aux s (current +:+ String c EmptyString)
  end.

Definition tokens (s : string) : list string := tokens_aux s EmptyString.

Definition matches_compound (c : Compound) (el : Element) : bool :=
  bool_decide (tagName el = sel_tag c) &&
  match sel_class c with
  | None => true
  | Some cls =>
      match attributes el !! "class"%string with
      | Some v => bool_decide (cls ∈ tokens v)
      | None => false
      end
  end.

(** Whether a proper ancestor of [e] matches [c]. *)
Fixpoint has_ancestor (fuel : nat) (els : gmap nat Element) (c : Compound) (e : nat) : bool :=
  match fuel with
  | O => false
  | S fuel =>
      match els !! e ≫= parentNode with
      | Some p =>
          match els !! p with
          | Some pel => matches_compound c pel || has_ancestor fuel els c p
          | None => false
          end
      | None => false
      end
  end.

Definition matches (els : gmap nat Element) (s : Selector) (e : nat) : bool :=
  match els !! e with
  | Some el =>
      match s with
      | Simple c => matches_compound c el
      | Descendant a c => matches_compound c el && has_ancestor (size els) els a e
      end
  | None => false
  end.

(** The descendants of [e] in document order. The depth of a document is
    at most its number of elements, which is the fuel given below. *)
Fixpoint descendants (fuel : nat) (els : gmap nat Element) (e : nat) : list nat :=
  match fuel with
  | O => []
  | S fuel =>
      match els !! e with
      | Some el => flat_map (λ c, c :: descendants fuel els c) (childNodes el)
      | None => []
      end
  end.

(** [e.querySelectorAll(s)] *)
Definition querySelectorAll (els : gmap nat Element) (s : Selector) (e : nat) : list nat :=
  filter (λ c, matches els s c = true) (descendants (size els) els e).

(** [e.querySelector(s)] *)
Definition querySelector (els : gmap nat Element) (s : Selector) (e : nat) : option nat :=
  head (querySelectorAll els s e).

(** *** d3-selection

    A selection is the list of its slots in order, an empty slot being a
    missing element ([null]); the operations keep the slots aligned, as
    [merge] needs. The callbacks are typed in the source: a callback on
    the datum of a layout node applied to an element without such a datum
    is a TypeError. *)

Definition with_node {A} (f : TreeNode.t → option A) (dat : option Datum) : option A :=
  match dat with
  | Some (DNode node) => f node
  | _ => None
  end.

Definition with_indi {A} (f : OffsetIndi.t → option A) (dat : option Datum) : option A :=
  match dat with
  | Some (DIndi d) => f d
  | _ => None
  end.

(** [parent.appendChild(document.createElement(tag))]; the child inherits
    the datum of its parent. *)
Definition appendChild (tag : string) (parent : nat) : M nat :=
  dat ← getDatum parent;
  c ← createElement tag parent dat;
  _ ← modify (λ el, set_children (childNodes el ++ [c]) el) parent;
  mret c.

(** [selection.append(tag)] *)
Definition d3_append (tag : string) (sel : list (option nat)) : M (list (option nat)) :=
  for_nodes (appendChild tag) sel.

(** [selection.attr(name, value)] with a function: a [null] or [undefined]
    value removes the attribute. *)
Definition d3_attr (name : string) (value : option Datum → option (option string))
    (sel : list (option nat)) : M (list (option nat)) :=
  for_nodes (λ e, dat ← getDatum e;
                  v ← lift (value dat);
                  _ ← modify (set_attribute name v) e;
                  mret e) sel.

(** [selection.attr(name, value)] with a constant. *)
Definition d3_attr_const (name : string) (value : string)
    (sel : list (option nat)) : M (list (option nat)) :=
  for_nodes (λ e, _ ← modify (set_attribute name (Some value)) e; mret e) sel.

(** [selection.text(value)]: a [null] value gives the empty text. *)
Definition d3_text (value : option Datum → option (option string))
    (sel : list (option nat)) : M (list (option nat)) :=
  for_nodes (λ e, dat ← getDatum e;
                  v ← lift (value dat);
                  _ ← modify (set_text (default ""%string v)) e;
                  mret e) sel.

(** [selection.on(type, listener)] *)
Definition d3_on (type : string) (l : Listener) (sel : list (option nat)) : M unit :=
  _ ← for_nodes (modify (set_listener type l)) sel; mret ().

(** [selection.select(selector)]: the first matching descendant of every
    element, which receives the datum of the element. *)
Definition d3_select (s : Selector) (sel : list (option nat)) : M (list (option nat)) :=
  for_each (λ slot,
    match slot with
    | Some e =>
        els ← getElements;
        match querySelector els s e with
        | Some c =>
            dat ← getDatum e;
            _ ← match dat with
                | Some _ => modify (set_datum dat) c
                | None => mret ()
                end;
            mret (Some c)
        | None => mret None
        end
    | None => mret None
    end) sel.

(** [selection.select(function (d) { return test(d) ? this : null; })] *)
Definition d3_select_this (test : option Datum → option bool)
    (sel : list (option nat)) : M (list (option nat)) :=
  for_each (λ slot,
    match slot with
    | Some e =>
        dat ← getDatum e;
        b ← lift (test dat);
        mret (if b : bool then Some e else None)
    | None => mret None
    end) sel.

(** [selection.filter(test)]: the elements that pass, without empty slots. *)
Definition d3_filter (test : option Datum → option bool)
    (sel : list (option nat)) : M (list (option nat)) :=
  r ← d3_select_this test sel;
  mret (filter (λ slot, is_Some slot) r).

(** [selection.merge(other)]: slot by slot, the element of [sel] if there
    is one, else that of [other]. *)
Fixpoint d3_merge (sel other : list (option nat)) : list (option nat) :=
  match sel with
  | [] => []
  | slot :: sel =>
      (match slot with Some _ => slot | None => mjoin (head other) end)
        :: d3_merge sel (tail other)
  end.

(** [selection.each(f)], for a function that reads the datum and updates a
    local accumulator. *)
Fixpoint d3_each {S} (f : option Datum → S → option S) (sel : list (option nat)) (acc : S)
    : M S :=
  match sel with
  | [] => mret acc
  | Some e :: sel => dat ← getDatum e; acc ← lift (f dat acc); d3_each f sel acc
  | None :: sel => d3_each f sel acc
  end.

(** *** The data join *)

(** A placeholder of the enter selection: the parent to append to, the
    datum, and the element to insert before. *)
Record EnterNode := mkEnterNode {
  en_parent : nat;
  en_datum : Datum;
  en_next : option nat;
}.

(** The first loop of d3's [bindKey]: the elements by key, the first
    element winning among those with the same key. *)
Fixpoint nodesByKey (key : option Datum → option string) (group : list nat)
    (nodeByKeyValue : gmap string nat) : M (gmap string nat) :=
  match group with
  | [] => mret nodeByKeyValue
  | node :: group =>
      dat ← getDatum node;
      keyValue ← lift (key dat);
      nodesByKey key group
        (match nodeByKeyValue !! keyValue with
         | Some _ => nodeByKeyValue
         | None => <[keyValue := node]> nodeByKeyValue
         end)
  end.

(** The second loop of [bindKey]: every datum takes the element of its key
    (which receives the datum) or becomes a placeholder. *)
Fixpoint bindData (key : option Datum → option string) (parent : nat)
    (data : list Datum) (nodeByKeyValue : gmap string nat)
    : M (list (option nat * option EnterNode)) :=
  match data with
  | [] => mret []
  | dat :: data =>
      keyValue ← lift (key (Some dat));
      match nodeByKeyValue !! keyValue with
      | Some node =>
          _ ← modify (set_datum (Some dat)) node;
          rest ← bindData key parent data (delete keyValue nodeByKeyValue);
          mret ((Some node, None) :: rest)
      | None =>
          rest ← bindData key parent data nodeByKeyValue;
          mret ((None, Some (mkEnterNode parent dat None)) :: rest)
      end
  end.

(** The last loop of d3's [data]: a placeholder is linked to the next
    element of the update group. *)
Fixpoint linkEnter (slots : list (option nat * option EnterNode))
    : list (option EnterNode) :=
  match slots with
  | [] => []
  | (_, en) :: slots =>
      ((λ en, mkEnterNode (en_parent en) (en_datum en)
                (mjoin (head (filter (λ slot, is_Some slot) (fst <$> slots))))) <$> en)
        :: linkEnter slots
  end.

(** [selection.selectAll(selector).data(value, key)]: for every element of
    the selection, its matching descendants joined by key with the data its
    datum gives. Returns the update and the enter selection. *)
Definition d3_selectAll_data (s : Selector) (value : option Datum → option (list Datum))
    (key : option Datum → option string) (sel : list (option nat))
    : M (list (option nat) * list (option EnterNode)) :=
  groups ← for_each (λ parent,
      els ← getElements;
      let group := querySelectorAll els s parent in
      dat ← getDatum parent;
      data ← lift (value dat);
      nodeByKeyValue ← nodesByKey key group ∅;
      slots ← bindData key parent data nodeByKeyValue;
      mret (fst <$> slots, linkEnter slots))
    (omap id sel);
  mret (mjoin (fst <$> groups), mjoin (snd <$> groups)).

(** [parent.insertBefore(child, next)] for a placeholder; [next] must be a
    child of the parent. *)
Definition insertBefore (tag : string) (en : EnterNode) : M nat :=
  els ← getElements;
  let siblings := default [] (childNodes <$> els !! en_parent en) in
  position ← lift (match en_next en with
                   | None => Some (length siblings)
                   | Some next => list_find (λ c, c = next) siblings ≫= λ r, Some (fst r)
                   end);
  c ← createElement tag (en_parent en) (Some (en_datum en));
  _ ← modify (λ el, set_children
                (take position (childNodes el) ++ c :: drop position (childNodes el)) el)
        (en_parent en);
  mret c.

(** [selection.enter().append(tag)] *)
Definition d3_enter_append (tag : string) (sel : list (option EnterNode))
    : M (list (option nat)) :=
  for_nodes (insertBefore tag) sel.

(** *** d3-transition *)

Record Transition := mkTransition {
  tr_nodes : list (option nat);
  tr_delay : Z;
  tr_duration : Z;
}.

(** [selection.transition()], with d3's default timing. *)
Definition d3_transition (sel : list (option nat)) : Transition :=
  mkTransition sel 0 250.

Definition d3_delay (ms : Z) (t : Transition) : Transition :=
  mkTransition (tr_nodes t) ms (tr_duration t).

Definition d3_duration (ms : Z) (t : Transition) : Transition :=
  mkTransition (tr_nodes t) (tr_delay t) ms.

(** [transition.attr(name, value)]: the value is computed at once, the
    change of the attribute is scheduled. *)
Definition d3_transition_attr (name : string) (value : option Datum → option (option string))
    (t : Transition) : M Transition :=
  _ ← for_nodes (λ e, dat ← getDatum e;
                      v ← lift (value dat);
                      schedule (mkTween e name v (tr_delay t) (tr_duration t)))
        (tr_nodes t);
  mret t.

(** What [this.transition(selection)] returns: the selection or a
    transition on it. *)
Inductive Target : Type :=
  | OfSelection (sel : list (option nat))
  | OfTransition (t : Transition).

(** [.attr(name, value)] on either. *)
Definition target_attr (name : string) (value : option Datum → option (option string))
    (t : Target) : M Target :=
  match t with
  | OfSelection sel => sel ← d3_attr name value sel; mret (OfSelection sel)
  | OfTransition t => t ← d3_transition_attr name value t; mret (OfTransition t)
  end.

(** ** The renderer *)

Section Renderer.

(** Functions of this repository that are imported by the source and are
    not part of it: text measurement (detailed-renderer.ts), date formatting
    (date-format.ts) and the raw position of the family box
    (composite-renderer.ts). *)
Variable getLength : string → string → jsnum.
Variable formatDate : Date → option string → string.
Variable getFamPositionVertical : TreeNode.t → jsnum.
Variable getFamPositionHorizontal : TreeNode.t → jsnum.

(** [birthDate && (birthDate.date || birthDate.dateRange)], as a truth value. *)
Definition isValidDate (d : option DateOrRange) : bool :=
  match d with
  | Some d => bool_decide (is_Some (date d)) || bool_decide (is_Some (dateRange d))
  | None => false
  end.

(** Lines 67-75: the left part of the lifespan. [None] is the TypeError of
    [dateRange!.from!.year] on a range without [from]. *)
Definition lifespanLeft (birthDate : option DateOrRange) : option string :=
  if isValidDate birthDate then
    b ← birthDate;
    match date b with
    | Some d => Some (js_str (year d))
    | None => r ← dateRange b; f ← from r; Some (js_str (year f))
    end
  else Some "?"%string.

(** Lines 79-85: the right part of the lifespan. *)
Definition lifespanRight (deathDate : option DateOrRange) : option string :=
  if isValidDate deathDate then
    d ← deathDate;
    match date d with
    | Some e => Some (js_str (year e))
    | None => r ← dateRange d; t ← to r; Some (js_str (year t))
    end
  else Some ""%string.

(** [getIndiDetails(indi)]: the lines of details of a person. *)
Definition getIndiDetails (indi : IndiDetails) : option (list DetailsLine) :=
  let detailsList : list DetailsLine := [] in
  let birthDate := getBirthDate indi in
  let deathDate := getDeathDate indi in
  let isValidBirthDate := isValidDate birthDate in
  let isValidDeathDate := isValidDate deathDate in
  detailsList ←
    (if isValidBirthDate || isValidDeathDate then
       let lifespan := ""%string in
       l ← lifespanLeft birthDate;
       let lifespan := lifespan +:+ l in
       let lifespan := lifespan +:+ " - " in
       r ← lifespanRight deathDate;
       let lifespan := lifespan +:+ r in
       Some (detailsList ++ [mkLine "" true lifespan])
     else Some detailsList);
  let birthPlace := getBirthPlace indi in
  let deathPlace := getDeathPlace indi in
  let detailsList :=
    if truthy_s birthPlace then
      detailsList ++ [mkLine "" true (default ""%string birthPlace)]
    else if truthy_s deathPlace then
      detailsList ++ [mkLine "" true (default ""%string deathPlace)]
    else detailsList in
  Some detailsList.

(** [getFamDetails(fam)]: the lines of details of a family. [None] would be
    the TypeError of [detailsList[0].symbol = ...] on an empty list. *)
Definition getFamDetails (options : RendererOptions) (fam : FamDetails)
    : option (list DetailsLine) :=
  let detailsList : list DetailsLine := [] in
  let marriageDate : option string :=
    m ← getMarriageDate fam; d ← date m; Some (formatDate d (locale options)) in
  let marriagePlace := getMarriagePlace fam in
  let detailsList :=
    if truthy_s marriageDate then
      detailsList ++ [mkLine "" false (default ""%string marriageDate)]
    else detailsList in
  let detailsList :=
    if truthy_s marriagePlace then
      detailsList ++ [mkLine "" false (default ""%string marriagePlace)]
    else detailsList in
  if truthy_s marriageDate || truthy_s marriagePlace then
    match detailsList with
    | first :: rest => Some (mkLine UNION_SYMBOL (centered first) (text first) :: rest)
    | [] => None
    end
  else Some detailsList.

(** [cond ? a : 0] with an image URL as the condition. *)
Definition ifImage (indi : IndiDetails) (a : Z) : jsnum :=
  if truthy_s (getImageUrl indi) then Num a else Num 0.

(** [getPreferredIndiSize(id)]: [[width, height]]. [None] is the TypeError
    of calling an accessor on an individual that [getIndi] does not know. *)
Definition getPreferredIndiSize (options : RendererOptions) (id : string)
    : option (jsnum * jsnum) :=
  indi ← getIndi (data options) id;
  details ← getIndiDetails indi;
  let height := d3_max [
    Num (INDI_MIN_HEIGHT + Z.of_nat (length details) * 14);
    ifImage indi IMAGE_HEIGHT
  ] in
  let maxDetailsWidth := d3_max (map (λ x, getLength (text x) "details") details) in
  let width :=
    js_add
      (d3_max [
        js_add maxDetailsWidth (Num 22);
        js_add (getLength (or_empty (getFirstName indi)) "name") (Num 8);
        js_add (getLength (or_empty (getLastName indi)) "name") (Num 8);
        Num INDI_MIN_WIDTH
      ])
      (ifImage indi IMAGE_WIDTH) in
  Some (width, height).

(** [getPreferredFamSize(id)]: [[width, height]]. *)
Definition getPreferredFamSize (options : RendererOptions) (id : string)
    : option (jsnum * jsnum) :=
  fam ← getFam (data options) id;
  details ← getFamDetails options fam;
  let height := d3_max [Num (10 + Z.of_nat (length details) * 14); Num FAM_MIN_HEIGHT] in
  let maxDetailsWidth := d3_max (map (λ x, getLength (text x) "details") details) in
  let width := d3_max [js_add maxDetailsWidth (Num 22); Num FAM_MIN_WIDTH] in
  Some (width, height).

(** The data function of the person-level join in [render] (lines 162-195):
    the 0 to 2 people of a layout node with their offsets. *)
Definition render_data (options : RendererOptions) (node : TreeNode.t)
    : list OffsetIndi.t :=
  let result : list OffsetIndi.t := [] in
  let famXOffset :=
    if negb (horizontal options) && bool_decide (is_Some (TreeNode.family node))
    then d3_max [js_neg (getFamPositionVertical node); Num 0]
    else Num 0 in
  let famYOffset :=
    if horizontal options && bool_decide (is_Some (TreeNode.family node))
    then d3_max [js_neg (getFamPositionHorizontal node); Num 0]
    else Num 0 in
  let result :=
    match TreeNode.indi node with
    | Some indi =>
        result ++ [OffsetIndi.mk indi (TreeNode.generation node) famXOffset (Num 0)]
    | None => result
    end in
  let result :=
    match TreeNode.spouse node with
    | Some spouse =>
        result ++ [OffsetIndi.mk spouse (TreeNode.generation node)
          (match TreeNode.indi node with
           | Some indi =>
               if negb (horizontal options)
               then js_add (TreeEntry.width indi) famXOffset else Num 0
           | None => Num 0
           end)
          (match TreeNode.indi node with
           | Some indi =>
               if horizontal options
               then js_add (TreeEntry.height indi) famYOffset else Num 0
           | None => Num 0
           end)]
    | None => result
    end in
  result.

(** The key function of the person-level join (line 196). *)
Definition render_key (d : OffsetIndi.t) : string :=
  TreeEntry.id (OffsetIndi.indi d).

(** The transform of a person's group (line 205). *)
Definition render_transform (node : OffsetIndi.t) : string :=
  "translate(" +:+ js_str (OffsetIndi.xOffset node) +:+ ", "
    +:+ js_str (OffsetIndi.yOffset node) +:+ ")".

(** [(node.indi && node.indi.width) || node.spouse!.width], for either
    dimension. [None] is the TypeError of reading a dimension of an absent
    spouse. *)
Definition famAnchor (dim : TreeEntry.t → jsnum) (node : TreeNode.t) : option jsnum :=
  let first := match TreeNode.indi node with Some i => dim i | None => Undefined end in
  if truthy first then Some first
  else s ← TreeNode.spouse node; Some (dim s).

(** [getFamTransform(node)]. *)
Definition getFamTransform (options : RendererOptions) (node : TreeNode.t)
    : option string :=
  if horizontal options then
    a ← famAnchor TreeEntry.width node;
    Some ("translate(" +:+ js_str a +:+ ", "
            +:+ js_str (d3_max [getFamPositionHorizontal node; Num 0]) +:+ ")")
  else
    a ← famAnchor TreeEntry.height node;
    Some ("translate(" +:+ js_str (d3_max [getFamPositionVertical node; Num 0])
            +:+ ", " +:+ js_str a +:+ ")").

(** The style of the background rectangle (line 368):
    ['fill: ' + SEX_COLORS.get(getIndi(data)!.getSex() || '') || ''],
    where [+] binds tighter than [||]. *)
Definition background_style (options : RendererOptions) (d : OffsetIndi.t)
    : option string :=
  indi ← getIndi (data options) (TreeEntry.id (OffsetIndi.indi d));
  let s := "fill: " +:+ js_str_s (SEX_COLORS !! or_empty (getSex indi)) in
  Some (or_empty (Some s)).

(** [this.transition(selection)] *)
Definition transition (options : RendererOptions) (selection : list (option nat)) : Target :=
  if animate options
  then OfTransition
         (d3_duration ANIMATION_DURATION_MS
            (d3_delay ANIMATION_DELAY_MS (d3_transition selection)))
  else OfSelection selection.

(** An attribute holding a number: [undefined] removes the attribute. *)
Definition attr_num (a : jsnum) : option string :=
  match a with
  | Undefined => None
  | _ => Some (js_str a)
  end.

(** [getIndi(data)] of [renderIndi] (line 356). *)
Definition render_getIndi (options : RendererOptions) (d : OffsetIndi.t)
    : option IndiDetails :=
  getIndi (data options) (TreeEntry.id (OffsetIndi.indi d)).

(** [getDetailsWidth(data)] of [renderIndi] (line 359). *)
Definition getDetailsWidth (options : RendererOptions) (d : OffsetIndi.t)
    : option jsnum :=
  indi ← render_getIndi options d;
  Some (js_sub (TreeEntry.width (OffsetIndi.indi d)) (ifImage indi IMAGE_WIDTH)).

(** [getClipId(id)] *)
Definition getClipId (id : string) : string := "clip-" +:+ id.

Definition indi_width (d : OffsetIndi.t) : option (option string) :=
  Some (attr_num (TreeEntry.width (OffsetIndi.indi d))).

Definition indi_height (d : OffsetIndi.t) : option (option string) :=
  Some (attr_num (TreeEntry.height (OffsetIndi.indi d))).

(** [details.get(data.indi.id)!] *)
Definition details_get (details : gmap string (list DetailsLine)) (d : OffsetIndi.t)
    : option (list DetailsLine) :=
  details !! TreeEntry.id (OffsetIndi.indi d).

(** [d3.max(Array.from(details.values(), v => v.length))] as the bound of
    the loop [for (let i = 0; i < maxDetails; ++i)]: no round when it is
    [undefined]. *)
Definition loop_bound (details : gmap string (list DetailsLine)) : list nat :=
  match d3_max (map (λ kv, Num (Z.of_nat (length (snd kv)))) (map_to_list details)) with
  | Num maxDetails => seq 0 (Z.to_nat maxDetails)
  | _ => []
  end.

(** The y coordinate of line [i]: [base + i * 14]. *)
Definition line_y (base : Z) (i : nat) : string :=
  Z_to_string (base + Z.of_nat i * 14).

(** One round of the loop of [renderIndi] that draws the details
    (lines 411-434). *)
Definition renderIndi_line (options : RendererOptions)
    (details : gmap string (list DetailsLine)) (enter : list (option nat)) (i : nat)
    : M unit :=
  lineGroup ← d3_filter
    (with_indi (λ d, l ← details_get details d; Some (bool_decide (i < length l)%nat)))
    enter;
  centeredGroup ← d3_filter
    (with_indi (λ d, l ← details_get details d; line ← l !! i; Some (centered line)))
    lineGroup;
  _ ← d3_append "text" centeredGroup
      |> d3_attr_const "text-anchor" "middle"
      |> d3_attr_const "class" "details"
      |> d3_attr "transform" (with_indi (λ node,
            w ← getDetailsWidth options node;
            Some (Some ("translate(" +:+ js_half_str w +:+ ", " +:+ line_y 49 i +:+ ")"))))
      |> d3_text (with_indi (λ d,
            l ← details_get details d; line ← l !! i; Some (Some (text line))));
  nonCentered ← d3_filter
    (with_indi (λ d, l ← details_get details d; line ← l !! i;
                     Some (negb (centered line))))
    lineGroup;
  _ ← d3_append "text" nonCentered
      |> d3_attr_const "text-anchor" "middle"
      |> d3_attr_const "class" "details symbol"
      |> d3_attr_const "transform" ("translate(9, " +:+ line_y 49 i +:+ ")")
      |> d3_text (with_indi (λ d,
            l ← details_get details d; line ← l !! i; Some (Some (symbol line))));
  _ ← d3_append "text" nonCentered
      |> d3_attr_const "class" "details"
      |> d3_attr_const "transform" ("translate(15, " +:+ line_y 49 i +:+ ")")
      |> d3_text (with_indi (λ d,
            l ← details_get details d; line ← l !! i; Some (Some (text line))));
  mret ().

(** [renderIndi(enter, update)] *)
Definition renderIndi (options : RendererOptions) (enter update : list (option nat))
    : M unit :=
  '(enter, update) ←
    match indiHrefFunc options with
    | Some indiHrefFunc =>
        enter ← d3_append "a" enter
          |> d3_attr "href" (with_indi (λ d,
                Some (Some (indiHrefFunc (TreeEntry.id (OffsetIndi.indi d))))));
        update ← d3_select (Simple (mkCompound "a" None)) update;
        mret (enter, update)
    | None => mret (enter, update)
    end;
  _ ← (if indiCallback options then d3_on "click" IndiClick enter else mret ());
  (* Background. *)
  background ← d3_append "rect" enter
    |> d3_attr_const "rx" "5"
    |> d3_attr_const "stroke-width" "0"
    |> d3_attr_const "class" "background"
    |> d3_attr "style" (with_indi (λ d, s ← background_style options d; Some (Some s)));
  selected ← d3_select (Simple (mkCompound "rect" (Some "background"%string))) update;
  let background := d3_merge background selected in
  _ ← target_attr "width" (with_indi indi_width) (transition options background)
      |> target_attr "height" (with_indi indi_height);
  (* Clip path. *)
  clip ← d3_append "clipPath" enter
    |> d3_attr "id" (with_indi (λ node,
          Some (Some (getClipId (TreeEntry.id (OffsetIndi.indi node))))))
    |> d3_append "rect"
    |> d3_attr_const "rx" "5";
  selected ← d3_select
    (Descendant (mkCompound "clipPath" None) (mkCompound "rect" None)) update;
  _ ← d3_attr "width" (with_indi indi_width) (d3_merge clip selected)
      |> d3_attr "height" (with_indi indi_height);
  (* Name. *)
  _ ← d3_append "text" enter
      |> d3_attr_const "text-anchor" "middle"
      |> d3_attr_const "class" "name"
      |> d3_attr "transform" (with_indi (λ node,
            w ← getDetailsWidth options node;
            Some (Some ("translate(" +:+ js_half_str w +:+ ", 17)"))))
      |> d3_text (with_indi (λ node,
            indi ← render_getIndi options node; Some (getFirstName indi)));
  _ ← d3_append "text" enter
      |> d3_attr_const "text-anchor" "middle"
      |> d3_attr_const "class" "name"
      |> d3_attr "transform" (with_indi (λ node,
            w ← getDetailsWidth options node;
            Some (Some ("translate(" +:+ js_half_str w +:+ ", 33)"))))
      |> d3_text (with_indi (λ node,
            indi ← render_getIndi options node; Some (getLastName indi)));
  (* Extract details. *)
  details ← d3_each (λ dat (details : gmap string (list DetailsLine)),
      with_indi (λ node,
        indi ← render_getIndi options node;
        detailsList ← getIndiDetails indi;
        Some (<[TreeEntry.id (OffsetIndi.indi node) := detailsList]> details)) dat)
    enter ∅;
  (* Render details. *)
  _ ← for_each (renderIndi_line options details enter) (loop_bound details);
  (* Image. *)
  _ ← d3_filter (with_indi (λ d,
          indi ← render_getIndi options d; Some (truthy_s (getImageUrl indi)))) enter
      |> d3_append "image"
      |> d3_attr_const "width" (Z_to_string IMAGE_WIDTH)
      |> d3_attr "height" (with_indi indi_height)
      |> d3_attr_const "preserveAspectRatio" "xMidYMin"
      |> d3_attr "transform" (with_indi (λ d,
            Some (Some ("translate("
              +:+ js_str (js_sub (TreeEntry.width (OffsetIndi.indi d)) (Num IMAGE_WIDTH))
              +:+ ", 0)"))))
      |> d3_attr "clip-path" (with_indi (λ d,
            Some (Some ("url(#" +:+ getClipId (TreeEntry.id (OffsetIndi.indi d)) +:+ ")"))))
      |> d3_attr "href" (with_indi (λ d,
            indi ← render_getIndi options d; Some (getImageUrl indi)));
  (* Border on top. *)
  border ← d3_append "rect" enter
    |> d3_attr_const "rx" "5"
    |> d3_attr_const "fill-opacity" "0"
    |> d3_attr_const "class" "border";
  selected ← d3_select (Simple (mkCompound "rect" (Some "border"%string))) update;
  _ ← target_attr "width" (with_indi indi_width)
        (transition options (d3_merge border selected))
      |> target_attr "height" (with_indi indi_height);
  mret ().

(** [node.data.family!.id] and the like: the family of a layout node. *)
Definition with_family {A} (f : TreeEntry.t → option A) : option Datum → option A :=
  with_node (λ node, fam ← TreeNode.family node; f fam).

(** One round of the loop of [renderFamily] that draws the details
    (lines 498-512). *)
Definition renderFamily_line (details : gmap string (list DetailsLine))
    (enter : list (option nat)) (i : nat) : M unit :=
  lineGroup ← d3_filter
    (with_family (λ fam, l ← details !! TreeEntry.id fam;
                         Some (bool_decide (i < length l)%nat)))
    enter;
  _ ← d3_append "text" lineGroup
      |> d3_attr_const "text-anchor" "middle"
      |> d3_attr_const "class" "details"
      |> d3_attr_const "transform" ("translate(9, " +:+ line_y 16 i +:+ ")")
      |> d3_text (with_family (λ fam,
            l ← details !! TreeEntry.id fam; line ← l !! i; Some (Some (symbol line))));
  _ ← d3_append "text" lineGroup
      |> d3_attr_const "text-anchor" "start"
      |> d3_attr_const "class" "details"
      |> d3_attr_const "transform" ("translate(15, " +:+ line_y 16 i +:+ ")")
      |> d3_text (with_family (λ fam,
            l ← details !! TreeEntry.id fam; line ← l !! i; Some (Some (text line))));
  mret ().

(** [renderFamily(enter, update)]; [update] is not used by the source. *)
Definition renderFamily (options : RendererOptions) (enter update : list (option nat))
    : M unit :=
  enter ←
    match famHrefFunc options with
    | Some famHrefFunc =>
        d3_append "a" enter
          |> d3_attr "href" (with_family (λ fam, Some (Some (famHrefFunc (TreeEntry.id fam)))))
    | None => mret enter
    end;
  _ ← (if famCallback options then d3_on "click" FamClick enter else mret ());
  (* Box. *)
  _ ← d3_append "rect" enter
      |> d3_attr_const "rx" "5"
      |> d3_attr_const "ry" "5"
      |> d3_attr "width" (with_family (λ fam, Some (attr_num (TreeEntry.width fam))))
      |> d3_attr "height" (with_family (λ fam, Some (attr_num (TreeEntry.height fam))));
  (* Extract details. *)
  details ← d3_each (λ dat (details : gmap string (list DetailsLine)),
      with_family (λ family,
        let famId := TreeEntry.id family in
        fam ← getFam (data options) famId;
        detailsList ← getFamDetails options fam;
        Some (<[famId := detailsList]> details)) dat)
    enter ∅;
  (* Render details. *)
  _ ← for_each (renderFamily_line details enter) (loop_bound details);
  mret ().

(** [node.data.family ? this : null] *)
Definition has_family : option Datum → option bool :=
  with_node (λ node, Some (bool_decide (is_Some (TreeNode.family node)))).

(** [render(enter, update)] *)
Definition render (options : RendererOptions) (enter update : list (option nat))
    : M unit :=
  enter ← d3_append "g" enter |> d3_attr_const "class" "detailed";
  update ← d3_select (Simple (mkCompound "g" None)) update;
  '(indiUpdate, indiUpdate_enter) ←
    d3_selectAll_data (Simple (mkCompound "g" (Some "indi"%string)))
      (with_node (λ node, Some (map DIndi (render_data options node))))
      (with_indi (λ d, Some (render_key d)))
      (d3_merge enter update);
  indiEnter ← d3_enter_append "g" indiUpdate_enter |> d3_attr_const "class" "indi";
  _ ← target_attr "transform" (with_indi (λ node, Some (Some (render_transform node))))
        (transition options (d3_merge indiEnter indiUpdate));
  _ ← renderIndi options indiEnter indiUpdate;
  familyEnter ← d3_select_this has_family enter
    |> d3_append "g"
    |> d3_attr_const "class" "family";
  familyUpdate ← d3_select_this has_family update
    |> d3_select (Simple (mkCompound "g" (Some "family"%string)));
  _ ← target_attr "transform" (with_node (λ node, t ← getFamTransform options node;
                                                   Some (Some t)))
        (transition options (d3_merge familyEnter familyUpdate));
  renderFamily options familyEnter familyUpdate.

End Renderer.

(** ** Specification-side definitions *)

(** The options with the orientation set to [h]. *)
Definition with_horizontal (h : bool) (o : RendererOptions) : RendererOptions :=
  mkOptions (data o) h (animate o) (locale o) (indiHrefFunc o) (famHrefFunc o)
    (indiCallback o) (famCallback o).

(** The dimension that [getFamTransform] anchors the family box at: the
    width in horizontal mode, the height in vertical mode. *)
Definition relevant_dim (o : RendererOptions) : TreeEntry.t → jsnum :=
  if horizontal o then TreeEntry.width else TreeEntry.height.

(** A date is valid when it has an exact date or a range. *)
Definition spec_valid (d : option DateOrRange) : Prop :=
  ∃ x, d = Some x ∧ (is_Some (date x) ∨ is_Some (dateRange x)).

(** The year shown for a date: the year of the exact date, else the year
    of the given end of the range. *)
Definition spec_year (side : DateRange → option Date) (d : DateOrRange) : option string :=
  match date d, dateRange d with
  | Some e, _ => Some (js_str (year e))
  | None, Some r => (λ e, js_str (year e)) <$> side r
  | None, None => None
  end.

(** The text of the lifespan line: ["<left> - <right>"], where the left
    part is the birth year or ["?"] and the right part is the death year or
    empty. *)
Definition spec_lifespan (birth death : option DateOrRange) : string :=
  default "?"%string (birth ≫= spec_year from) +:+ " - "
    +:+ default ""%string (death ≫= spec_year to).

(** The place line: the birth place if there is one, else the death place. *)
Definition spec_place (indi : IndiDetails) : list DetailsLine :=
  if truthy_s (getBirthPlace indi)
  then [mkLine "" true (or_empty (getBirthPlace indi))]
  else if truthy_s (getDeathPlace indi)
  then [mkLine "" true (or_empty (getDeathPlace indi))]
  else [].

(** The ranges that the lifespan reads have the end it reads: a birth
    range has [from], a death range has [to]. *)
Definition range_has (side : DateRange → option Date) (d : option DateOrRange) : Prop :=
  ∀ x r, d = Some x → date x = None → dateRange x = Some r → is_Some (side r).

(** The transform of the family box anchored at [a], given the raw
    positions of the family box. *)
Definition famTransformAt (getFamPositionVertical getFamPositionHorizontal : TreeNode.t → jsnum)
    (o : RendererOptions) (node : TreeNode.t) (a : jsnum) : string :=
  if horizontal o
  then "translate(" +:+ js_str a +:+ ", "
         +:+ js_str (d3_max [getFamPositionHorizontal node; Num 0]) +:+ ")"
  else "translate(" +:+ js_str (d3_max [getFamPositionVertical node; Num 0])
         +:+ ", " +:+ js_str a +:+ ")".

(** The text of the marriage date line: the formatted exact date. *)
Definition marriage_text (formatDate : Date → option string → string)
    (o : RendererOptions) (fam : FamDetails) : option string :=
  m ← getMarriageDate fam; d ← date m; Some (formatDate d (locale o)).

(** The lines that carry the union marker. *)
Definition marked (lines : list DetailsLine) : list DetailsLine :=
  filter (λ l, symbol l = UNION_SYMBOL) lines.

(** *** Invariants of a pass *)

(** [m] keeps the invariant [I] of the document, also when it throws, and
    what it returns satisfies [Q]. *)
Definition keeps {A} (I : DOM → Prop) (m : M A) (Q : A → Prop) : Prop :=
  ∀ d, I d → I (m d).2 ∧ ∀ a, (m d).1 = Some a → Q a.

(** Elements that a pass may patch: groups, links and rectangles. *)
Definition patchable (tag : string) : Prop :=
  tag = "g"%string ∨ tag = "a"%string ∨ tag = "rect"%string.

(** The attributes that depend on size and position. *)
Definition geometry (name : string) : Prop :=
  name = "transform"%string ∨ name = "width"%string ∨ name = "height"%string.

(** The attributes that an update sets again: the transform of a group,
    the width and the height of a rectangle. *)
Definition may_change (tag name : string) : Prop :=
  (tag = "g"%string ∧ name = "transform"%string)
  ∨ (tag = "rect"%string ∧ (name = "width"%string ∨ name = "height"%string)).

(** What an update may do to an element: the tag, the text, the parent
    and the listeners stay, and so do all attributes other than the
    transform of a group and the width and height of a rectangle; only a
    group may get children; an element that is not patchable stays as it
    is. *)
Definition patched (el el' : Element) : Prop :=
  tagName el' = tagName el
  ∧ textContent el' = textContent el
  ∧ parentNode el' = parentNode el
  ∧ listeners el' = listeners el
  ∧ (∀ name, ¬ may_change (tagName el) name →
             attributes el' !! name = attributes el !! name)
  ∧ (tagName el ≠ "g"%string → childNodes el' = childNodes el)
  ∧ (¬ patchable (tagName el) → el' = el).

(** A change that [patched] allows on an element with the tag [t]. *)
Definition gentle (t : string) (f : Element → Element) : Prop :=
  ∀ el, tagName (f el) = tagName el
        ∧ parentNode (f el) = parentNode el
        ∧ (tagName el = t →
           textContent (f el) = textContent el
           ∧ listeners (f el) = listeners el
           ∧ (∀ name, ¬ may_change t name →
                      attributes (f el) !! name = attributes el !! name)
           ∧ (t ≠ "g"%string → childNodes (f el) = childNodes el)).

(** A change of an element that keeps its place in the document. *)
Definition structural (f : Element → Element) : Prop :=
  ∀ el, tagName (f el) = tagName el ∧ parentNode (f el) = parentNode el.

(** The handles of a document are below its counter. *)
Definition well_formed (d : DOM) : Prop :=
  map_Forall (λ e _, (e < next_id d)%nat) (elements d).

#[global] Instance well_formed_dec (d : DOM) : Decision (well_formed d).
Proof. unfold well_formed. apply _. Defined.


(** Created by the pass that started from [d0]. *)
Definition fresh (d0 : DOM) (e : nat) : Prop := (next_id d0 ≤ e)%nat.

(** Created by the pass, or an element with the tag [t]. *)
Definition soft (d0 : DOM) (t : string) (e : nat) : Prop :=
  fresh d0 e ∨ ∀ el, elements d0 !! e = Some el → tagName el = t.

Definition Fresh (d0 : DOM) (sel : list (option nat)) : Prop :=
  ∀ e, Some e ∈ sel → fresh d0 e.

Definition Soft (d0 : DOM) (t : string) (sel : list (option nat)) : Prop :=
  ∀ e, Some e ∈ sel → soft d0 t e.

(** The invariant of a pass that started from [d0]: the elements of [d0]
    are at most patched, and what the pass created outside of groups hangs
    under elements that the pass created. *)
Record Frame (d0 d : DOM) : Prop := mkFrame {
  frame_next : (next_id d0 ≤ next_id d)%nat;
  frame_old : ∀ e el, elements d0 !! e = Some el →
    ∃ el', elements d !! e = Some el' ∧ patched el el';
  frame_new : ∀ e el, fresh d0 e → elements d !! e = Some el →
    tagName el ≠ "g"%string → ∃ p, parentNode el = Some p ∧ fresh d0 p;
}.

(** The compound selector that the selected element itself matches. *)
Definition subject (s : Selector) : Compound :=
  match s with
  | Simple c => c
  | Descendant _ c => c
  end.

(** The slots of a join: elements with the tag [t], and placeholders under
    the given parent. *)
Definition slot_ok (d0 : DOM) (t : string) (parent : nat)
    (slot : option nat * option EnterNode) : Prop :=
  (∀ n, slot.1 = Some n → soft d0 t n) ∧ (∀ en, slot.2 = Some en → en_parent en = parent).

(** A target of [.attr] over elements with the tag [t]. *)
Definition Soft_target (d0 : DOM) (t : string) (tgt : Target) : Prop :=
  match tgt with
  | OfSelection sel => Soft d0 t sel
  | OfTransition _ => True
  end.



(** A tween with the timing of the renderer, on a geometry attribute. *)
Definition timed (tw : Tween) : Prop :=
  tw_delay tw = ANIMATION_DELAY_MS
  ∧ tw_duration tw = ANIMATION_DURATION_MS
  ∧ geometry (tw_name tw).

(** The invariant of a pass that started from [d0]: the pass has only
    scheduled tweens with the timing of the renderer, and none without
    animation. *)
Definition Scheduled (o : RendererOptions) (d0 d : DOM) : Prop :=
  ∃ new, tweens d = tweens d0 ++ new
         ∧ Forall timed new
         ∧ (animate o = false → new = []).

(** A target whose transition, if any, has the timing of the renderer. *)
Definition Timed_target (o : RendererOptions) (t : Target) : Prop :=
  match t with
  | OfSelection _ => True
  | OfTransition t =>
      animate o = true
      ∧ tr_delay t = ANIMATION_DELAY_MS ∧ tr_duration t = ANIMATION_DURATION_MS
  end.

(** The attribute [name] of the element [e] is what [value] gives for the
    datum of [e]. *)
Definition holds_attr (name : string) (value : option Datum → option (option string))
    (d : DOM) (e : nat) : Prop :=
  ∀ el, elements d !! e = Some el → value (datum el) = Some (attributes el !! name).

(** The tweens that [transition.attr(name, value)] schedules in the
    document [d]. *)
Definition tweens_of (name : string) (value : option Datum → option (option string))
    (t : Transition) (d : DOM) : list Tween :=
  omap (λ slot, e ← slot; v ← value (elements d !! e ≫= datum);
                Some (mkTween e name v (tr_delay t) (tr_duration t)))
       (tr_nodes t).

(** *** Dates that cannot be read, and the image column *)

(** A date that is a range without the given end, and no exact date. *)
Definition lacks (side : DateRange → option Date) (d : option DateOrRange) : Prop :=
  ∃ x r, d = Some x ∧ date x = None ∧ dateRange x = Some r ∧ side r = None.

(** The width of the image column of a person: 70 with an image, else 0. *)
Definition image_width (indi : IndiDetails) : Z :=
  if truthy_s (getImageUrl indi) then IMAGE_WIDTH else 0.

(** *** What a pass creates *)

(** The tags of the elements that a pass creates: a link only when a
    function for links is configured. *)
Definition creates (o : RendererOptions) (tag : string) : Prop :=
  tag = "g"%string ∨ tag = "rect"%string ∨ tag = "clipPath"%string
  ∨ tag = "text"%string ∨ tag = "image"%string
  ∨ (tag = "a"%string ∧ (is_Some (indiHrefFunc o) ∨ is_Some (famHrefFunc o))).

(** The listeners that a pass attaches: click listeners, for the callbacks
    that are configured. *)
Definition listens (o : RendererOptions) (type : string) (l : Listener) : Prop :=
  type = "click"%string
  ∧ match l with
    | IndiClick => indiCallback o = true
    | FamClick => famCallback o = true
    end.

(** The changes that a pass makes to an element. *)
Inductive touch (o : RendererOptions) : (Element → Element) → Prop :=
  | touch_children g : touch o (λ el, set_children (g el) el)
  | touch_datum dat : touch o (set_datum dat)
  | touch_attribute name v : touch o (set_attribute name v)
  | touch_text v : touch o (set_text v)
  | touch_listener type l : listens o type l → touch o (set_listener type l).

(** An element as a pass leaves a created one. *)
Definition created (o : RendererOptions) (el : Element) : Prop :=
  creates o (tagName el)
  ∧ ∀ type l, listeners el !! type = Some l → listens o type l.

(** The invariant of a pass that started from [d0], on what it creates:
    handles are given out from the counter of [d0] on. *)
Definition Creating (o : RendererOptions) (d0 d : DOM) : Prop :=
  (next_id d0 ≤ next_id d)%nat
  ∧ (∀ e, (e < next_id d0)%nat → elements d0 !! e = None → elements d !! e = None)
  ∧ (∀ e el, (next_id d0 ≤ e)%nat → elements d !! e = Some el → created o el).

(** *** Passes that return *)

(** [__data__] of the element [e]. *)
Definition datum_of (d : DOM) (e : nat) : option Datum := elements d !! e ≫= datum.

(** Every element of the selection has a datum, which satisfies [P]. *)
Definition Bound (P : Datum → Prop) (sel : list (option nat)) (d : DOM) : Prop :=
  ∀ e, Some e ∈ sel → ∃ x, datum_of d e = Some x ∧ P x.

(** The same for the elements of a target. *)
Definition Bound_target (P : Datum → Prop) (t : Target) (d : DOM) : Prop :=
  match t with
  | OfSelection sel => Bound P sel d
  | OfTransition t => Bound P (tr_nodes t) d
  end.

(** The elements of the selection are there and have no children. *)
Definition Childless (sel : list (option nat)) (d : DOM) : Prop :=
  ∀ e, Some e ∈ sel → ∃ el, elements d !! e = Some el ∧ childNodes el = [].

(** The elements created since the counter was [n0] have no children. *)
Definition Leaves (n0 : nat) (d : DOM) : Prop :=
  (n0 ≤ next_id d)%nat
  ∧ ∀ e el, (n0 ≤ e)%nat → elements d !! e = Some el → childNodes el = [].

(** The document [d'] is well formed and has the bound data of [d]. *)
Definition extends (d d' : DOM) : Prop :=
  well_formed d' ∧ ∀ e x, datum_of d e = Some x → datum_of d' e = Some x.

(** [m] returns from the document [d]; the document that it leaves
    extends [d], and [Q] holds of what it returns and leaves. *)
Definition returns {A} (m : M A) (d : DOM) (Q : A → DOM → Prop) : Prop :=
  ∃ a d', m d = (Some a, d') ∧ extends d d' ∧ Q a d'.

(** A person of the layout that the data provider knows, with dates that
    [getIndiDetails] can read. *)
Definition known_indi (o : RendererOptions) (entry : TreeEntry.t) : Prop :=
  ∃ indi, getIndi (data o) (TreeEntry.id entry) = Some indi
          ∧ is_Some (getIndiDetails indi).

(** The datum of the group of a person that is known. *)
Definition known_person (o : RendererOptions) (x : Datum) : Prop :=
  ∃ i, x = DIndi i ∧ known_indi o (OffsetIndi.indi i).

(** The datum of the group of a known person whose lines of details are in
    [details]. *)
Definition listed_person (o : RendererOptions) (details : gmap string (list DetailsLine))
    (x : Datum) : Prop :=
  ∃ i l, x = DIndi i ∧ known_indi o (OffsetIndi.indi i)
         ∧ details !! TreeEntry.id (OffsetIndi.indi i) = Some l.

(** The same, for a person with a line [n]. *)
Definition lined_person (o : RendererOptions) (details : gmap string (list DetailsLine))
    (n : nat) (x : Datum) : Prop :=
  ∃ i l line, x = DIndi i ∧ known_indi o (OffsetIndi.indi i)
              ∧ details !! TreeEntry.id (OffsetIndi.indi i) = Some l
              ∧ l !! n = Some line.

(** The datum of a group whose layout node has a family that the data
    provider knows. *)
Definition known_family (o : RendererOptions) (x : Datum) : Prop :=
  ∃ node f, x = DNode node ∧ TreeNode.family node = Some f
            ∧ is_Some (getFam (data o) (TreeEntry.id f)).

(** The same, for a family whose lines of details are in [details]. *)
Definition listed_family (details : gmap string (list DetailsLine)) (x : Datum) : Prop :=
  ∃ node f l, x = DNode node ∧ TreeNode.family node = Some f
              ∧ details !! TreeEntry.id f = Some l.

(** The same, for a family with a line [n]. *)
Definition lined_family (details : gmap string (list DetailsLine)) (n : nat)
    (x : Datum) : Prop :=
  ∃ node f l line, x = DNode node ∧ TreeNode.family node = Some f
                   ∧ details !! TreeEntry.id f = Some l ∧ l !! n = Some line.

(** A layout node that [render] can draw: its people are known and have
    dates that [getIndiDetails] can read; its family, if it has one, is
    known and [getFamTransform] finds an anchor for its box. *)
Definition drawable (getFamPositionVertical getFamPositionHorizontal : TreeNode.t → jsnum)
    (o : RendererOptions) (node : TreeNode.t) : Prop :=
  (∀ i, TreeNode.indi node = Some i → known_indi o i)
  ∧ (∀ s, TreeNode.spouse node = Some s → known_indi o s)
  ∧ (∀ f, TreeNode.family node = Some f →
          is_Some (getFam (data o) (TreeEntry.id f))
          ∧ is_Some (getFamTransform getFamPositionVertical getFamPositionHorizontal
                       o node)).

Definition drawable_node
    (getFamPositionVertical getFamPositionHorizontal : TreeNode.t → jsnum)
    (o : RendererOptions) (x : Datum) : Prop :=
  ∃ node, x = DNode node
          ∧ drawable getFamPositionVertical getFamPositionHorizontal o node.

(** *** Passes that return only on data that can be drawn *)

(** Some element of the selection is bound to [x]. *)
Definition Has (x : Datum) (sel : list (option nat)) (d : DOM) : Prop :=
  ∃ e, Some e ∈ sel ∧ datum_of d e = Some x.

(** The elements of the selection that are there have no children. *)
Definition Bare (sel : list (option nat)) (d : DOM) : Prop :=
  ∀ e el, Some e ∈ sel → elements d !! e = Some el → childNodes el = [].

(** If [m] returns from the document [d], the document that it leaves
    extends [d], and [Q] holds of what it returns and leaves. *)
Definition ensures {A} (m : M A) (d : DOM) (Q : A → DOM → Prop) : Prop :=
  ∀ a d', m d = (Some a, d') → extends d d' ∧ Q a d'.

(** The elements of a target. *)
Definition target_nodes (t : Target) : list (option nat) :=
  match t with
  | OfSelection sel => sel
  | OfTransition t => tr_nodes t
  end.

(** *** The two orientations *)

(** The layout with the two axes exchanged: an entry with its width and
    its height exchanged, a layout node of such entries, a person with its
    two offsets exchanged, and a position function read on the transposed
    node. *)
Definition transpose_entry (e : TreeEntry.t) : TreeEntry.t :=
  TreeEntry.mk (TreeEntry.id e) (TreeEntry.height e) (TreeEntry.width e).

Definition transpose_node (node : TreeNode.t) : TreeNode.t :=
  TreeNode.mk (transpose_entry <$> TreeNode.indi node)
              (transpose_entry <$> TreeNode.spouse node)
              (transpose_entry <$> TreeNode.family node)
              (TreeNode.generation node).

Definition transpose_indi (d : OffsetIndi.t) : OffsetIndi.t :=
  OffsetIndi.mk (transpose_entry (OffsetIndi.indi d)) (OffsetIndi.generation d)
                (OffsetIndi.yOffset d) (OffsetIndi.xOffset d).

Definition mirrored (position : TreeNode.t → jsnum) : TreeNode.t → jsnum :=
  λ node, position (transpose_node node).

(** What a change of orientation that only exchanges the axes gives for
    the people of a node: the people of the transposed node under the other
    orientation, with their offsets exchanged. *)
Definition render_data_mirrored
    (getFamPositionVertical getFamPositionHorizontal : TreeNode.t → jsnum)
    (o : RendererOptions) (node : TreeNode.t) : list OffsetIndi.t :=
  transpose_indi <$>
    render_data (mirrored getFamPositionHorizontal) (mirrored getFamPositionVertical)
      (with_horizontal (negb (horizontal o)) o) (transpose_node node).

(** The translation by [x] and [y]. *)
Definition translate (x y : jsnum) : string :=
  "translate(" +:+ js_str x +:+ ", " +:+ js_str y +:+ ")".

(** *** The update of a node that is drawn *)

(** The attribute [name] of the element [e]. *)
Definition attribute_of (d : DOM) (e : nat) (name : string) : option string :=
  elements d !! e ≫= λ el, attributes el !! name.

(** What a query reads of an element: its tag, its classes, its children
    and its parent. *)
Definition shape (el : Element) : string * option string * list nat * option nat :=
  (tagName el, attributes el !! "class"%string, childNodes el, parentNode el).

(** What an update pass never changes of an element. *)
Definition fixed_fields (el : Element)
    : string * option string * list nat * option nat * gmap string Listener :=
  (tagName el, textContent el, childNodes el, parentNode el, listeners el).

(** The document after the given changes of elements, in order. *)
Fixpoint alter_all (fs : list (nat * (Element → Element))) (d : DOM) : DOM :=
  match fs with
  | [] => d
  | (e, f) :: fs => alter_all fs (mkDOM (alter f e (elements d)) (next_id d) (tweens d))
  end.

(** The document with the given tweens scheduled. *)
Definition schedule_all (tws : list Tween) (d : DOM) : DOM :=
  mkDOM (elements d) (next_id d) (tweens d ++ tws).

(** The document after data have been bound to the elements [key a] for
    [a] in [l]; after an attribute has been set on them; after a tween of
    an attribute has been scheduled on them with the timing of the
    renderer; and after an attribute has been set through the transition
    helper. *)
Definition bind_layer {A} (key : A → nat) (dat : A → Datum) (l : list A) (d : DOM) : DOM :=
  alter_all ((λ a, (key a, set_datum (Some (dat a)))) <$> l) d.

Definition attr_layer {A} (name : string) (key : A → nat) (val : A → option string)
    (l : list A) (d : DOM) : DOM :=
  alter_all ((λ a, (key a, set_attribute name (val a))) <$> l) d.

Definition tween_layer {A} (name : string) (key : A → nat) (val : A → option string)
    (l : list A) (d : DOM) : DOM :=
  schedule_all
    ((λ a, mkTween (key a) name (val a) ANIMATION_DELAY_MS ANIMATION_DURATION_MS) <$> l) d.

Definition helper_layer {A} (o : RendererOptions) (name : string) (key : A → nat)
    (val : A → option string) (l : list A) (d : DOM) : DOM :=
  if animate o then tween_layer name key val l d else attr_layer name key val l d.

(** The elements that draw a person: the group of the person, the element
    that holds what is drawn (the link under the group when a function for
    the links of people is configured, else the group itself), the
    background, the rectangle of the clip path and the border. *)
Record PersonBox := mkPersonBox {
  box_group : nat;
  box_content : nat;
  box_background : nat;
  box_clip : nat;
  box_border : nat;
}.

(** The selections of [renderIndi] on update find the elements of the
    box [b] in the document [d]. *)
Definition box_queries (o : RendererOptions) (d : DOM) (b : PersonBox) : Prop :=
  match indiHrefFunc o with
  | Some _ =>
      querySelector (elements d) (Simple (mkCompound "a" None)) (box_group b)
      = Some (box_content b)
  | None => box_content b = box_group b
  end
  ∧ querySelector (elements d) (Simple (mkCompound "rect" (Some "background"%string)))
      (box_content b) = Some (box_background b)
  ∧ querySelector (elements d)
      (Descendant (mkCompound "clipPath" None) (mkCompound "rect" None))
      (box_content b) = Some (box_clip b)
  ∧ querySelector (elements d) (Simple (mkCompound "rect" (Some "border"%string)))
      (box_content b) = Some (box_border b).

(** The width and the height attribute of the box of a person. *)
Definition person_width (a : PersonBox * OffsetIndi.t) : option string :=
  attr_num (TreeEntry.width (OffsetIndi.indi a.2)).

Definition person_height (a : PersonBox * OffsetIndi.t) : option string :=
  attr_num (TreeEntry.height (OffsetIndi.indi a.2)).

(** What [renderIndi] does to the document when it updates the boxes [l]
    of people, each paired with the person bound to its group, and nobody
    enters. *)
Definition renderIndi_update (o : RendererOptions) (l : list (PersonBox * OffsetIndi.t))
    (d : DOM) : DOM :=
  let new := λ a : PersonBox * OffsetIndi.t, DIndi a.2 in
  let d := match indiHrefFunc o with
           | Some _ => bind_layer (λ a, box_content a.1) new l d
           | None => d
           end in
  let d := bind_layer (λ a, box_background a.1) new l d in
  let d := helper_layer o "width" (λ a, box_background a.1) person_width l d in
  let d := helper_layer o "height" (λ a, box_background a.1) person_height l d in
  let d := bind_layer (λ a, box_clip a.1) new l d in
  let d := attr_layer "width" (λ a, box_clip a.1) person_width l d in
  let d := attr_layer "height" (λ a, box_clip a.1) person_height l d in
  let d := bind_layer (λ a, box_border a.1) new l d in
  let d := helper_layer o "width" (λ a, box_border a.1) person_width l d in
  helper_layer o "height" (λ a, box_border a.1) person_height l d.

(** During [renderIndi] on update: the document [d'] has the shape of [d]
    and the people are bound to the elements that hold their boxes. *)
Definition settled (l : list (PersonBox * OffsetIndi.t)) (d d' : DOM) : Prop :=
  (∀ e, shape <$> elements d' !! e = shape <$> elements d !! e)
  ∧ ∀ a, a ∈ l → datum_of d' (box_content a.1) = Some (DIndi a.2).

(** The elements that an update pass writes to: the group [gd] under the
    group of the layout node, the group of the family if there is one, and
    the elements of the boxes of the people. *)
Definition node_handles (o : RendererOptions) (gd : nat) (fam : option nat)
    (l : list (PersonBox * OffsetIndi.t)) : list nat :=
  gd :: option_list fam
    ++ ((λ a, box_group a.1) <$> l)
    ++ match indiHrefFunc o with
       | Some _ => (λ a, box_content a.1) <$> l
       | None => []
       end
    ++ ((λ a, box_background a.1) <$> l)
    ++ ((λ a, box_clip a.1) <$> l)
    ++ ((λ a, box_border a.1) <$> l).

(** The group [u] of a layout node is drawn in the document [d] with the
    people [l]: under [u] the first group is [gd]; the groups of people
    under [gd] are those of the boxes of [l], in order; the group of the
    family under [gd] is [fam], if there is one; every box is found by the
    selections of [renderIndi], and its group is bound to a person with the
    id of the person it is paired with; all these elements are distinct. *)
Definition drawn (o : RendererOptions) (d : DOM) (u gd : nat) (fam : option nat)
    (l : list (PersonBox * OffsetIndi.t)) : Prop :=
  querySelector (elements d) (Simple (mkCompound "g" None)) u = Some gd
  ∧ querySelectorAll (elements d) (Simple (mkCompound "g" (Some "indi"%string))) gd
    = (λ a, box_group a.1) <$> l
  ∧ querySelector (elements d) (Simple (mkCompound "g" (Some "family"%string))) gd = fam
  ∧ (∀ a, a ∈ l →
       box_queries o d a.1
       ∧ ∃ old, datum_of d (box_group a.1) = Some (DIndi old)
                ∧ TreeEntry.id (OffsetIndi.indi old) = TreeEntry.id (OffsetIndi.indi a.2))
  ∧ NoDup (u :: node_handles o gd fam l).

(** What an update pass of [render] does to the document when the layout
    node [node] is bound to a group that is drawn with the people [l], each
    box paired with the person of [node] that it draws. *)
Definition render_update
    (getFamPositionVertical getFamPositionHorizontal : TreeNode.t → jsnum)
    (o : RendererOptions) (gd : nat) (fam : option nat)
    (l : list (PersonBox * OffsetIndi.t)) (node : TreeNode.t) (d : DOM) : DOM :=
  let d := bind_layer (λ _ : (), gd) (λ _, DNode node) [()] d in
  let d := bind_layer (λ a, box_group a.1) (λ a, DIndi a.2) l d in
  let d := helper_layer o "transform" (λ a, box_group a.1)
             (λ a, Some (render_transform a.2)) l d in
  let d := renderIndi_update o l d in
  match TreeNode.family node, fam with
  | Some _, Some fg =>
      helper_layer o "transform" (λ _ : (), fg)
        (λ _, getFamTransform getFamPositionVertical getFamPositionHorizontal o node)
        [()]
        (bind_layer (λ _ : (), fg) (λ _, DNode node) [()] d)
  | _, _ => d
  end.

(** The attribute [name] of [e] is set to [v] through the transition
    helper: it holds [v] in [d'], or, when the pass is animated, a tween to
    [v] is pending in [d']. *)
Definition reapplied (o : RendererOptions) (d' : DOM) (e : nat) (name : string)
    (v : option string) : Prop :=
  if animate o
  then mkTween e name v ANIMATION_DELAY_MS ANIMATION_DURATION_MS ∈ tweens d'
  else attribute_of d' e name = v.

(** The tweens that an animated update pass schedules, in order, for the
    boxes of the people [l] and for the group of the family. *)
Definition update_tweens (o : RendererOptions) (l : list (PersonBox * OffsetIndi.t))
    (family : option (nat * option string)) : list Tween :=
  let tween := λ e name v, mkTween e name v ANIMATION_DELAY_MS ANIMATION_DURATION_MS in
  ((λ a, tween (box_group a.1) "transform" (Some (render_transform a.2))) <$> l)
  ++ ((λ a, tween (box_background a.1) "width" (person_width a)) <$> l)
  ++ ((λ a, tween (box_background a.1) "height" (person_height a)) <$> l)
  ++ ((λ a, tween (box_border a.1) "width" (person_width a)) <$> l)
  ++ ((λ a, tween (box_border a.1) "height" (person_height a)) <$> l)
  ++ match family with
     | Some (fg, t) => [tween fg "transform" t]
     | None => []
     end.

(** The group of the family that an update pass sets the transform of, with
    the transform: there is one when the node has a family and its group is
    in the document. *)
Definition family_update
    (getFamPositionVertical getFamPositionHorizontal : TreeNode.t → jsnum)
    (o : RendererOptions) (fam : option nat) (node : TreeNode.t)
    : option (nat * option string) :=
  match TreeNode.family node, fam with
  | Some _, Some fg =>
      Some (fg, getFamTransform getFamPositionVertical getFamPositionHorizontal o node)
  | _, _ => None
  end.

(** ** Examples: a data provider, layout nodes and documents *)

Module Ex.

Local Open Scope string_scope.

(** Text measurement for the examples: 6 pixels per character. *)
Definition getLength (s cls : string) : jsnum := Num (Z.of_nat (String.length s) * 6).

(** Date formatting for the examples: the year alone. *)
Definition formatDate (d : Date) (locale : option string) : string := js_str (year d).

(** Position of the family box for the examples: centred on the column or
    row of the people of the node (halves rounded down). *)
Definition entry_dim (dim : TreeEntry.t → jsnum) (e : option TreeEntry.t) : jsnum :=
  match e with Some e => dim e | None => Num 0 end.

Definition centre (dim : TreeEntry.t → jsnum) (node : TreeNode.t) : jsnum :=
  match js_sub (js_add (entry_dim dim (TreeNode.indi node))
                       (entry_dim dim (TreeNode.spouse node)))
               (entry_dim dim (TreeNode.family node)) with
  | Num z => Num (z / 2)
  | _ => NaN
  end.

Definition getFamPositionVertical : TreeNode.t → jsnum := centre TreeEntry.width.
Definition getFamPositionHorizontal : TreeNode.t → jsnum := centre TreeEntry.height.

Definition exact (y : Z) : option DateOrRange :=
  Some (mkDateOrRange (Some (mkDate Undefined Undefined (Num y))) None).

Definition between (y1 y2 : Z) : option DateOrRange :=
  Some (mkDateOrRange None
          (Some (mkDateRange (Some (mkDate Undefined Undefined (Num y1)))
                             (Some (mkDate Undefined Undefined (Num y2)))))).

(** Born in 1900, nothing else known. *)
Definition born1900 : IndiDetails :=
  mkIndiDetails (Some "Jan") (Some "Kowalski") (exact 1900) None None None None (Some "M").

(** Died in 1950, nothing else known, sex not recorded. *)
Definition died1950 : IndiDetails :=
  mkIndiDetails (Some "Ewa") None None (exact 1950) None None None None.

(** A person with a portrait and a sex that is not in the lookup. *)
Definition portrait : IndiDetails :=
  mkIndiDetails (Some "Ola") (Some "Nowak") (between 1920 1925) None (Some "Lublin")
    (Some "Gdynia") (Some "ola.png") (Some "U").

(** Married in 1925 in Krakow. *)
Definition married : FamDetails := mkFamDetails (exact 1925) (Some "Krakow").

(** Married between 1925 and 1930, place unknown. *)
Definition married_range : FamDetails := mkFamDetails (between 1925 1930) None.

(** Nothing known about the marriage. *)
Definition unknown_marriage : FamDetails := mkFamDetails None None.

Definition provider : DataProvider :=
  mkDataProvider
    (λ id, if String.eqb id "I1" then Some born1900
           else if String.eqb id "I2" then Some died1950
           else if String.eqb id "I3" then Some portrait
           else None)
    (λ id, if String.eqb id "F1" then Some married
           else if String.eqb id "F2" then Some married_range
           else if String.eqb id "F3" then Some unknown_marriage
           else None).

(** Vertical layout, no animation, no links, no callbacks. *)
Definition options : RendererOptions :=
  mkOptions provider false false None None None false false.

Definition horizontal_options : RendererOptions := with_horizontal true options.

Definition animated_options : RendererOptions :=
  mkOptions provider false true None None None false false.

(** A couple with their family box. *)
Definition couple : TreeNode.t :=
  TreeNode.mk (Some (TreeEntry.mk "I1" (Num 64) (Num 57)))
              (Some (TreeEntry.mk "I2" (Num 64) (Num 57)))
              (Some (TreeEntry.mk "F1" (Num 58) (Num 38))) (Num 0).

(** The same couple after the family box has grown. *)
Definition couple_resized : TreeNode.t :=
  TreeNode.mk (Some (TreeEntry.mk "I1" (Num 80) (Num 71)))
              (Some (TreeEntry.mk "I2" (Num 64) (Num 57)))
              (Some (TreeEntry.mk "F1" (Num 100) (Num 52))) (Num 0).

(** One person with a family box that is taller and wider than the person. *)
Definition single_parent : TreeNode.t :=
  TreeNode.mk (Some (TreeEntry.mk "I1" (Num 64) (Num 57))) None
              (Some (TreeEntry.mk "F1" (Num 164) (Num 113))) (Num 0).

(** A spouse without a primary individual. *)
Definition spouse_only : TreeNode.t :=
  TreeNode.mk None (Some (TreeEntry.mk "I2" (Num 64) (Num 57)))
              (Some (TreeEntry.mk "F3" (Num 15) (Num 10))) (Num 1).

(** A document as the chart hands it to the renderer: a root group and
    under it the group of one layout node, with the node bound to it. *)
Definition document (node : TreeNode.t) : DOM :=
  mkDOM (<[1%nat := mkElement "g" ∅ None [] (Some 0%nat) (Some (DNode node)) ∅]>
           (<[0%nat := mkElement "g" ∅ None [1%nat] None None ∅]> ∅))
        2 [].

(** The chart binds new data to the group of the layout node before an
    update pass. *)
Definition rebind (node : TreeNode.t) (d : DOM) : DOM :=
  mkDOM (alter (set_datum (Some (DNode node))) 1%nat (elements d)) (next_id d) (tweens d).

Definition render (o : RendererOptions) :=
  render formatDate getFamPositionVertical getFamPositionHorizontal o.

(** The document after a first pass that enters [node]. *)
Definition entered (o : RendererOptions) (node : TreeNode.t) : DOM :=
  (render o [Some 1%nat] [None] (document node)).2.

(** The document after a first pass that enters [node] and a second pass
    that updates it to [node']. *)
Definition updated (o : RendererOptions) (node node' : TreeNode.t) : DOM :=
  (render o [None] [Some 1%nat] (rebind node' (entered o node))).2.

(** The document before the second pass of [updated]. *)
Definition before_update (o : RendererOptions) (node node' : TreeNode.t) : DOM :=
  rebind node' (entered o node).

(** The attribute [name] of the element [e]. *)
Definition attribute (d : DOM) (e : nat) (name : string) : option string :=
  elements d !! e ≫= λ el, attributes el !! name.

(** The text of the element [e]. *)
Definition text_of (d : DOM) (e : nat) : option string :=
  elements d !! e ≫= textContent.

(** The tag, the class and the parent of the element [e]. *)
Definition kind (d : DOM) (e : nat) : option (string * option string * option nat) :=
  (λ el, (tagName el, attributes el !! "class", parentNode el)) <$> elements d !! e.

(** A person bound to a group, at the origin. *)
Definition person (id : string) : OffsetIndi.t :=
  OffsetIndi.mk (TreeEntry.mk id (Num 64) (Num 57)) (Num 0) (Num 0) (Num 0).

(** The boxes of the two people of [couple] in [entered o couple]: their
    groups are the elements 3 and 4. *)
Definition boxes : list PersonBox :=
  [mkPersonBox 3 3 5 9 17; mkPersonBox 4 4 6 10 18].

(** The people of [couple_resized]. *)
Definition people (o : RendererOptions) : list OffsetIndi.t :=
  render_data getFamPositionVertical getFamPositionHorizontal o couple_resized.

End Ex.

(** ** Examples: a date with an open end *)

Module Edge.

Local Open Scope string_scope.

(** Before 1900: a range that has an end and no start. *)
Definition before1900 : option DateOrRange :=
  Some (mkDateOrRange None
          (Some (mkDateRange None (Some (mkDate Undefined Undefined (Num 1900)))))).

(** Born before 1900, nothing else known. *)
Definition born_before1900 : IndiDetails :=
  mkIndiDetails (Some "Iga") (Some "Lis") before1900 None None None None (Some "F").

(** The lines of details of one entering person. *)
Definition details : gmap string (list DetailsLine) :=
  {[ "I1" := [mkLine "" true "1900 - "] ]}.

End Edge.

(** * Properties *)

(** ** Sizes, details and offsets *)

Section Properties.
Variable getLength : string → string → jsnum.
Variable formatDate : Date → option string → string.
Variable getFamPositionVertical : TreeNode.t → jsnum.
Variable getFamPositionHorizontal : TreeNode.t → jsnum.

Lemma string_app_assoc (a b c : string) : ((a +:+ b) +:+ c = a +:+ b +:+ c)%string.
Proof.
  induction a as [|x a IH]; [reflexivity|].
  change (String x ((a +:+ b) +:+ c) = String x (a +:+ b +:+ c)). by f_equal.
Qed.

Lemma isValidDate_spec d : isValidDate d = true ↔ spec_valid d.
Proof.
  unfold isValidDate, spec_valid. split.
  - destruct d as [x|]; [|done]. intros H. exists x. split; [done|].
    apply orb_true_iff in H as [H|H]; apply bool_decide_eq_true in H; auto.
  - intros (x & -> & [H|H]); apply orb_true_iff; [left|right];
      by apply bool_decide_eq_true.
Qed.

Lemma lifespanLeft_spec birth :
  range_has from birth →
  lifespanLeft birth = Some (default "?"%string (birth ≫= spec_year from)).
Proof.
  intros Hr. unfold lifespanLeft, isValidDate, spec_year.
  destruct birth as [[[e|] [r|]]|]; cbn; try done.
  destruct (Hr _ r eq_refl eq_refl eq_refl) as [f Hf]. cbn in Hf. by rewrite Hf.
Qed.

Lemma lifespanRight_spec death :
  range_has to death →
  lifespanRight death = Some (default ""%string (death ≫= spec_year to)).
Proof.
  intros Hr. unfold lifespanRight, isValidDate, spec_year.
  destruct death as [[[e|] [r|]]|]; cbn; try done.
  destruct (Hr _ r eq_refl eq_refl eq_refl) as [f Hf]. cbn in Hf. by rewrite Hf.
Qed.

Lemma getIndiDetails_spec indi :
  range_has from (getBirthDate indi) →
  range_has to (getDeathDate indi) →
  getIndiDetails indi
  = Some ((if isValidDate (getBirthDate indi) || isValidDate (getDeathDate indi)
           then [mkLine "" true (spec_lifespan (getBirthDate indi) (getDeathDate indi))]
           else []) ++ spec_place indi).
Proof.
  intros Hb Hd. unfold getIndiDetails, spec_place, spec_lifespan, or_empty.
  rewrite (lifespanLeft_spec _ Hb), (lifespanRight_spec _ Hd).
  destruct (isValidDate (getBirthDate indi) || isValidDate (getDeathDate indi));
    cbn [mbind option_bind app];
    destruct (truthy_s (getBirthPlace indi)), (truthy_s (getDeathPlace indi)).  all: by rewrite ?string_app_assoc.
Qed.

Lemma d3_max_pair (a b : Z) : d3_max [Num a; Num b] = Num (Z.max a b).
Proof. cbn. destruct (Z.ltb_spec a b); f_equal; lia. Qed.

Lemma d3_max_clamp (a : jsnum) :
  d3_max [a; Num 0] = match a with Num z => Num (Z.max z 0) | _ => Num 0 end.
Proof.
  destruct a as [z| |]; cbn; try done.
  destruct (Z.ltb_spec z 0); f_equal; lia.
Qed.

Lemma d3_max_clamp_neg (p : Z) : d3_max [js_neg (Num p); Num 0] = Num (Z.max 0 (- p)).
Proof. rewrite d3_max_clamp. cbn. f_equal; lia. Qed.

(** In vertical mode the primary individual is shifted along x. *)
Lemma render_data_indi_vertical options node i f p :
  horizontal options = false →
  TreeNode.indi node = Some i →
  TreeNode.family node = Some f →
  getFamPositionVertical node = Num p →
  head (render_data getFamPositionVertical getFamPositionHorizontal options node)
  = Some (OffsetIndi.mk i (TreeNode.generation node) (Num (Z.max 0 (- p))) (Num 0)).
Proof.
  intros Hh Hi Hf Hp. unfold render_data.
  rewrite Hh, Hi, Hf, Hp. cbn [negb andb].
  rewrite bool_decide_true by eauto. rewrite d3_max_clamp_neg.
  by destruct (TreeNode.spouse node).
Qed.

Lemma render_data_indi_horizontal options node i :
  horizontal options = true →
  TreeNode.indi node = Some i →
  head (render_data getFamPositionVertical getFamPositionHorizontal options node)
  = Some (OffsetIndi.mk i (TreeNode.generation node) (Num 0) (Num 0)).
Proof.
  intros Hh Hi. unfold render_data.
  rewrite Hh, Hi. cbn [negb andb].
  by destruct (TreeNode.spouse node).
Qed.

Lemma render_data_spouse options node i s :
  TreeNode.indi node = Some i →
  TreeNode.spouse node = Some s →
  last (render_data getFamPositionVertical getFamPositionHorizontal options node)
  = Some (OffsetIndi.mk s (TreeNode.generation node)
      (if horizontal options then Num 0
       else js_add (TreeEntry.width i)
              (if bool_decide (is_Some (TreeNode.family node))
               then d3_max [js_neg (getFamPositionVertical node); Num 0] else Num 0))
      (if horizontal options
       then js_add (TreeEntry.height i)
              (if bool_decide (is_Some (TreeNode.family node))
               then d3_max [js_neg (getFamPositionHorizontal node); Num 0] else Num 0)
       else Num 0)).
Proof.
  intros Hi Hs. unfold render_data. rewrite Hi, Hs.
  by destruct (horizontal options).
Qed.

Lemma getFamTransform_anchor options node :
  getFamTransform getFamPositionVertical getFamPositionHorizontal options node
  = famTransformAt getFamPositionVertical getFamPositionHorizontal options node <$> famAnchor (relevant_dim options) node.
Proof.
  unfold getFamTransform, famTransformAt, relevant_dim.
  destruct (horizontal options); by destruct (famAnchor _ node).
Qed.

Lemma famAnchor_spouse dim node :
  (TreeNode.indi node = None
   ∨ ∃ i, TreeNode.indi node = Some i ∧ (dim i = Num 0 ∨ dim i = Undefined)) →
  famAnchor dim node = dim <$> TreeNode.spouse node.
Proof.
  unfold famAnchor. intros [-> | (i & -> & [-> | ->])]; cbn;
    by destruct (TreeNode.spouse node).
Qed.

Lemma famAnchor_defined dim node :
  ((∃ i z, TreeNode.indi node = Some i ∧ dim i = Num z ∧ 0 < z)
   ∨ (∃ s, TreeNode.spouse node = Some s ∧ dim s ≠ Undefined)) →
  is_Some (famAnchor dim node).
Proof.
  unfold famAnchor. intros [(i & z & -> & -> & Hz) | (s & -> & _)].
  - cbn. destruct (Z.eqb_spec z 0); [lia | by eexists].
  - cbn. by destruct (truthy _).
Qed.

Lemma SEX_COLORS_lookup s :
  SEX_COLORS !! s = if String.eqb s "F" then Some "#fcb7bd"%string
                    else if String.eqb s "M" then Some "#b1e2e2"%string else None.
Proof.
  unfold SEX_COLORS. cbn [list_to_map foldr fst snd curry uncurry].
  destruct (String.eqb_spec s "F") as [-> | HF]; [by rewrite lookup_insert_eq |].
  rewrite lookup_insert_ne by done.
  destruct (String.eqb_spec s "M") as [-> | HM]; [by rewrite lookup_insert_eq |].
  by rewrite lookup_insert_ne.
Qed.

Lemma background_style_known options d indi sex color :
  getIndi (data options) (TreeEntry.id (OffsetIndi.indi d)) = Some indi →
  getSex indi = Some sex →
  SEX_COLORS !! sex = Some color →
  background_style options d = Some ("fill: " +:+ color)%string.
Proof.
  intros Hi Hs Hc. unfold background_style. rewrite Hi. cbn [mbind option_bind].
  assert (or_empty (getSex indi) = sex) as ->.
  { rewrite Hs. destruct sex; [by rewrite SEX_COLORS_lookup in Hc | done]. }
  by rewrite Hc.
Qed.

Lemma background_style_unknown options d indi :
  getIndi (data options) (TreeEntry.id (OffsetIndi.indi d)) = Some indi →
  SEX_COLORS !! or_empty (getSex indi) = None →
  background_style options d = Some "fill: undefined"%string.
Proof.
  intros Hi Hc. unfold background_style. rewrite Hi.
  cbn [mbind option_bind]. by rewrite Hc.
Qed.

Lemma truthy_s_or_empty s : truthy_s s = true → s = Some (or_empty s).
Proof. by destruct s as [[|]|]. Qed.

Lemma getFamDetails_spec options fam :
  getFamDetails formatDate options fam
  = Some (match
            (if truthy_s (marriage_text formatDate options fam)
             then [mkLine "" false (or_empty (marriage_text formatDate options fam))]
             else [])
            ++ (if truthy_s (getMarriagePlace fam)
                then [mkLine "" false (or_empty (getMarriagePlace fam))] else [])
          with
          | first :: rest => mkLine UNION_SYMBOL false (text first) :: rest
          | [] => []
          end).
Proof.
  unfold getFamDetails, marriage_text, or_empty.
  destruct (truthy_s (_ ≫= _)), (truthy_s (getMarriagePlace fam)); done.
Qed.

Lemma UNION_SYMBOL_nonempty : UNION_SYMBOL ≠ ""%string.
Proof. done. Qed.

(** ** The claims on sizes, details and offsets *)

(** C4 (as amended): for every individual whose birth range, if it is
    read, has a from-date and whose death range, if it is read, has a
    to-date, the details are the lifespan line, if any, followed by the
    place line, if any; the lifespan line is there iff the birth date or the
    death date is valid, and its text is "<left> - <right>", the left part
    being the birth year (or the from-year of the range, or "?") and the
    right part the death year (or the to-year of the range) or empty. An
    individual with only the birth year 1900 has the one line "1900 - ",
    with the space after the dash, and the height 43 + 14; one with only the
    death year 1950 has the line "? - 1950". *)
Theorem getIndiDetails_lifespan options :
  (∀ indi,
     range_has from (getBirthDate indi) →
     range_has to (getDeathDate indi) →
     ∃ lifespan,
       getIndiDetails indi = Some (lifespan ++ spec_place indi)
       ∧ (spec_valid (getBirthDate indi) ∨ spec_valid (getDeathDate indi) →
          lifespan = [mkLine "" true
                        (spec_lifespan (getBirthDate indi) (getDeathDate indi))])
       ∧ (¬ (spec_valid (getBirthDate indi) ∨ spec_valid (getDeathDate indi)) →
          lifespan = []))
  ∧ (∀ id indi b d,
       getIndi (data options) id = Some indi →
       getBirthDate indi = Some b → date b = Some d → year d = Num 1900 →
       getDeathDate indi = None →
       getBirthPlace indi = None → getDeathPlace indi = None →
       getImageUrl indi = None →
       getIndiDetails indi = Some [mkLine "" true "1900 - "]
       ∧ snd <$> getPreferredIndiSize getLength options id
         = Some (Num (INDI_MIN_HEIGHT + 14)))
  ∧ (∀ indi b d,
       ¬ spec_valid (getBirthDate indi) →
       getDeathDate indi = Some b → date b = Some d → year d = Num 1950 →
       getBirthPlace indi = None → getDeathPlace indi = None →
       getIndiDetails indi = Some [mkLine "" true "? - 1950"]).
Proof.
  split; [|split].
  - intros indi Hb Hd. eexists. split; [by apply getIndiDetails_spec|].
    split.
    + intros H. rewrite <- !isValidDate_spec, <- orb_true_iff in H. by rewrite H.
    + intros H. rewrite <- !isValidDate_spec, <- orb_true_iff in H.
      by destruct (_ || _).
  - intros id indi b d Hi Hb Hdate Hy Hdeath Hbp Hdp Himg.
    assert (getIndiDetails indi = Some [mkLine "" true "1900 - "]) as Hdet.
    { rewrite getIndiDetails_spec.
      - unfold spec_place, spec_lifespan, spec_year, isValidDate.
        rewrite Hb, Hdeath, Hbp, Hdp. cbn. rewrite Hdate. cbn. by rewrite Hy.
      - intros x r. rewrite Hb. intros [= <-]. by rewrite Hdate.
      - intros x r. by rewrite Hdeath. }
    split; [done|].
    unfold getPreferredIndiSize. rewrite Hi. cbn [mbind option_bind].
    rewrite Hdet. cbn [mbind option_bind fmap option_fmap option_map snd length].
    unfold ifImage. rewrite Himg. cbn [truthy_s]. by rewrite d3_max_pair.
  - intros indi b d Hnb Hd Hdate Hy Hbp Hdp.
    rewrite getIndiDetails_spec.
    + unfold spec_place, spec_lifespan, spec_year.
      rewrite <- isValidDate_spec in Hnb. apply not_true_is_false in Hnb.
      rewrite Hnb, Hd, Hbp, Hdp. unfold isValidDate. cbn.
      rewrite Hdate. cbn. rewrite Hy.
      destruct (getBirthDate indi) as [[[?|] [?|]]|]; try done.
    + intros x r Hx H1 H2. rewrite <- isValidDate_spec in Hnb.
      rewrite Hx in Hnb. unfold isValidDate in Hnb. rewrite H2 in Hnb.
      exfalso. apply Hnb. apply orb_true_iff. right. by apply bool_decide_eq_true.
    + intros x r. rewrite Hd. intros [= <-]. by rewrite Hdate.
Qed.

(** C5 (as amended): for every family, if the marriage has an exact date
    whose formatted text is not empty, or a place that is not empty, then
    the details are the date line, if any, followed by the place line, if
    any, and exactly one line, the first, carries the union marker U+26AD;
    otherwise (in particular when only a range of dates is known, or
    nothing) the details are empty and the preferred size of the family is
    the minimum, 15 x 10. *)
Theorem getFamDetails_union_marker options fam :
  let dateText := marriage_text formatDate options fam in
  let place := getMarriagePlace fam in
  (truthy_s dateText = true ∨ truthy_s place = true →
   ∃ first rest,
     getFamDetails formatDate options fam = Some (first :: rest)
     ∧ map text (first :: rest)
       = (if truthy_s dateText then [or_empty dateText] else [])
         ++ (if truthy_s place then [or_empty place] else [])
     ∧ symbol first = UNION_SYMBOL
     ∧ marked (first :: rest) = [first])
  ∧ (truthy_s dateText = false → truthy_s place = false →
     getFamDetails formatDate options fam = Some []
     ∧ ∀ id, getFam (data options) id = Some fam →
         getPreferredFamSize getLength formatDate options id
         = Some (Num FAM_MIN_WIDTH, Num FAM_MIN_HEIGHT)).
Proof.
  intros dateText place. split.
  - intros H. rewrite getFamDetails_spec. fold dateText place.
    destruct (truthy_s dateText), (truthy_s place);
      [| | |by destruct H]; eexists _, _; (split; [done|]); by cbn.
  - intros Hd Hp.
    assert (getFamDetails formatDate options fam = Some []) as Hdet.
    { rewrite getFamDetails_spec. fold dateText place. by rewrite Hd, Hp. }
    split; [done|]. intros id Hid.
    unfold getPreferredFamSize. rewrite Hid. cbn [mbind option_bind].
    by rewrite Hdet.
Qed.

Lemma transpose_entry_involutive e : transpose_entry (transpose_entry e) = e.
Proof. by destruct e. Qed.

Lemma transpose_node_involutive node : transpose_node (transpose_node node) = node.
Proof.
  destruct node as [i s f g]. unfold transpose_node. cbn. f_equal.
  - destruct i; cbn; by rewrite ?transpose_entry_involutive.
  - destruct s; cbn; by rewrite ?transpose_entry_involutive.
  - destruct f; cbn; by rewrite ?transpose_entry_involutive.
Qed.

Lemma famAnchor_transpose node :
  famAnchor TreeEntry.height (transpose_node node) = famAnchor TreeEntry.width node.
Proof.
  unfold famAnchor. destruct node as [[i|] [s|] f g]; cbn; done.
Qed.

(** C7: what the orientation changes. The preferred sizes do not depend
    on it: [getPreferredIndiSize] and [getPreferredFamSize] return the same
    with the horizontal option set either way. The transform of the family
    box only changes axis: in horizontal mode it is the translation by the
    anchor (the width of the individual, else of the spouse) and the
    clamped position, and on the transposed node (widths and heights
    exchanged) in vertical mode it is the translation by the same two
    numbers on the exchanged axes. The offset of the spouse only changes
    axis as well: it is the offset of the spouse of the transposed node in
    vertical mode with x and y exchanged. The offset of the individual does
    not: the source leaves the individual at (0, 0) in horizontal mode,
    where the exchange of axes of the vertical offset gives
    (0, max(-position, 0)) when the node has a family. On a node with one
    person and a family box that is 56 taller, the individual is at (0, 0)
    and the exchange of axes puts it at (0, 28). *)
Theorem orientation_toggle options :
  let o := with_horizontal true options in
  (∀ h id, getPreferredIndiSize getLength (with_horizontal h options) id
           = getPreferredIndiSize getLength options id)
  ∧ (∀ h id, getPreferredFamSize getLength formatDate (with_horizontal h options) id
             = getPreferredFamSize getLength formatDate options id)
  ∧ (∀ node,
       getFamTransform getFamPositionVertical getFamPositionHorizontal o node
       = (λ a, translate a (d3_max [getFamPositionHorizontal node; Num 0]))
           <$> famAnchor TreeEntry.width node
       ∧ getFamTransform (mirrored getFamPositionHorizontal)
           (mirrored getFamPositionVertical) (with_horizontal false options)
           (transpose_node node)
         = (λ a, translate (d3_max [getFamPositionHorizontal node; Num 0]) a)
             <$> famAnchor TreeEntry.width node)
  ∧ (∀ node s, TreeNode.spouse node = Some s →
       last (render_data getFamPositionVertical getFamPositionHorizontal o node)
       = last (render_data_mirrored getFamPositionVertical getFamPositionHorizontal
                 o node))
  ∧ (∀ node i, TreeNode.indi node = Some i →
       head (render_data getFamPositionVertical getFamPositionHorizontal o node)
       = Some (OffsetIndi.mk i (TreeNode.generation node) (Num 0) (Num 0))
       ∧ head (render_data_mirrored getFamPositionVertical getFamPositionHorizontal
                 o node)
         = Some (OffsetIndi.mk i (TreeNode.generation node) (Num 0)
                   (if bool_decide (is_Some (TreeNode.family node))
                    then d3_max [js_neg (getFamPositionHorizontal node); Num 0]
                    else Num 0)))
  ∧ Ex.getFamPositionHorizontal Ex.single_parent = Num (-28)
  ∧ render_data Ex.getFamPositionVertical Ex.getFamPositionHorizontal
      Ex.horizontal_options Ex.single_parent
    = [OffsetIndi.mk (TreeEntry.mk "I1" (Num 64) (Num 57)) (Num 0) (Num 0) (Num 0)]
  ∧ render_data_mirrored Ex.getFamPositionVertical Ex.getFamPositionHorizontal
      Ex.horizontal_options Ex.single_parent
    = [OffsetIndi.mk (TreeEntry.mk "I1" (Num 64) (Num 57)) (Num 0) (Num 0) (Num 28)].
Proof.
  intros o. split; [done|]. split; [done|]. split; [|split; [|split]].
  - intros node. split.
    + unfold getFamTransform, translate. cbn [horizontal with_horizontal o].
      by destruct (famAnchor _ node).
    + unfold getFamTransform, translate, mirrored. cbn [horizontal with_horizontal].
      rewrite famAnchor_transpose, transpose_node_involutive.
      by destruct (famAnchor _ node).
  - intros node s Hs. unfold render_data_mirrored, render_data, mirrored.
    cbn [horizontal with_horizontal o negb andb].
    rewrite transpose_node_involutive.
    destruct node as [[i|] [s'|] [f|] g]; cbn in Hs |- *; try done;
      injection Hs as ->; unfold transpose_indi; cbn;
      by rewrite ?transpose_entry_involutive.
  - intros node i Hi. unfold render_data_mirrored, render_data, mirrored.
    cbn [horizontal with_horizontal o negb andb].
    rewrite transpose_node_involutive.
    destruct node as [[i'|] [s'|] [f|] g]; cbn in Hi |- *; try done;
      injection Hi as ->; unfold transpose_indi; cbn;
      by rewrite ?transpose_entry_involutive.
  - repeat split.
Qed.

(** C9: for every layout node that has a spouse and no primary individual,
    the only person of the node is the spouse, with the offset (0, 0), in
    both orientations: neither the shift along the main axis nor the offset
    of the family is applied. *)
Theorem spouse_alone_offsets options node s :
  TreeNode.indi node = None →
  TreeNode.spouse node = Some s →
  render_data getFamPositionVertical getFamPositionHorizontal options node
  = [OffsetIndi.mk s (TreeNode.generation node) (Num 0) (Num 0)].
Proof.
  intros Hi Hs. unfold render_data. by rewrite Hi, Hs.
Qed.

(** C10: whenever the individual is absent, or its relevant dimension (the
    width in horizontal mode, the height in vertical mode) is 0 or unset,
    [getFamTransform] anchors the family box at that dimension of the
    spouse, and fails exactly when there is no spouse; when the node has an
    individual with a positive relevant dimension, or a spouse with that
    dimension set, [getFamTransform] returns a transform. *)
Theorem getFamTransform_spouse_anchor options node :
  ((TreeNode.indi node = None
    ∨ ∃ i, TreeNode.indi node = Some i
           ∧ (relevant_dim options i = Num 0 ∨ relevant_dim options i = Undefined)) →
   famAnchor (relevant_dim options) node = relevant_dim options <$> TreeNode.spouse node
   ∧ getFamTransform getFamPositionVertical getFamPositionHorizontal options node
     = (λ s, famTransformAt getFamPositionVertical getFamPositionHorizontal
               options node (relevant_dim options s)) <$> TreeNode.spouse node)
  ∧ (((∃ i z, TreeNode.indi node = Some i ∧ relevant_dim options i = Num z ∧ 0 < z)
      ∨ (∃ s, TreeNode.spouse node = Some s ∧ relevant_dim options s ≠ Undefined)) →
     is_Some (getFamTransform getFamPositionVertical getFamPositionHorizontal
                options node)).
Proof.
  split.
  - intros H. rewrite getFamTransform_anchor, (famAnchor_spouse _ _ H).
    split; [done | by destruct (TreeNode.spouse node)].
  - intros H. rewrite getFamTransform_anchor.
    destruct (famAnchor_defined _ _ H) as [a ->]. by eexists.
Qed.

End Properties.

(** ** Invariants of a pass *)

Section Keeps.
Context (I : DOM → Prop).

Lemma keeps_ret {A} (a : A) (Q : A → Prop) : Q a → keeps I (mret a) Q.
Proof. intros HQ d Hd. split; [done|]. by intros ? [= <-]. Qed.

Lemma keeps_bind {A B} (m : M A) (k : A → M B) (P : A → Prop) (Q : B → Prop) :
  keeps I m P → (∀ a, P a → keeps I (k a) Q) → keeps I (m ≫= k) Q.
Proof.
  intros Hm Hk d Hd. destruct (Hm d Hd) as [Hd' Ha].
  unfold mbind, M_bind. destruct (m d) as [[a|] d']; cbn in *; [|done].
  by apply Hk; [apply Ha|].
Qed.

Lemma keeps_weaken {A} (m : M A) (P Q : A → Prop) :
  keeps I m P → (∀ a, P a → Q a) → keeps I m Q.
Proof. intros Hm HPQ d Hd. destruct (Hm d Hd). split; auto. Qed.

Lemma keeps_lift {A} (o : option A) : keeps I (lift o) (λ a, o = Some a).
Proof. intros d Hd. split; [done|]. by intros a. Qed.

Lemma keeps_getDatum e : keeps I (getDatum e) (λ _, True).
Proof. by intros d Hd. Qed.

Lemma keeps_getElements : keeps I getElements (λ els, ∃ d, I d ∧ els = elements d).
Proof. intros d Hd. split; [done|]. intros a [= <-]. eauto. Qed.

Lemma keeps_for_each {A B} (f : A → M B) (l : list A) (Q : B → Prop) :
  (∀ x, x ∈ l → keeps I (f x) Q) → keeps I (for_each f l) (Forall Q).
Proof.
  induction l as [|x l IH]; intros Hf; cbn [for_each].
  - by apply keeps_ret.
  - eapply keeps_bind; [apply Hf; left|]. intros y Hy.
    eapply keeps_bind; [apply IH; intros; apply Hf; by right|]. intros ys Hys.
    apply keeps_ret. by constructor.
Qed.

End Keeps.

Section KeepsNodes.
Context (I : DOM → Prop).

Lemma keeps_for_nodes {A B} (f : A → M B) (sel : list (option A)) (Q : B → Prop) :
  (∀ e, Some e ∈ sel → keeps I (f e) Q) →
  keeps I (for_nodes f sel) (λ r, ∀ y, Some y ∈ r → Q y).
Proof.
  intros Hf. unfold for_nodes. eapply keeps_weaken.
  - apply (keeps_for_each I _ _ (λ slot, ∀ y, slot = Some y → Q y)).
    intros [e|] He.
    + eapply keeps_bind; [by apply Hf|]. intros y Hy.
      apply keeps_ret. by intros ? [= <-].
    + by apply keeps_ret.
  - intros r Hr y Hy. rewrite Forall_forall in Hr. by eapply Hr.
Qed.

Lemma keeps_for_nodes_same {A} (f : A → M A) (sel : list (option A)) :
  (∀ e, Some e ∈ sel → keeps I (f e) (λ y, y = e)) →
  keeps I (for_nodes f sel) (λ r, r = sel).
Proof.
  unfold for_nodes. induction sel as [|[e|] sel IH]; intros Hf; cbn [for_each].
  - by apply keeps_ret.
  - eapply keeps_bind.
    { eapply keeps_bind; [apply Hf; left|]. intros y ->. by apply (keeps_ret _ _ (λ s, s = Some e)). }
    intros ? ->. eapply keeps_bind; [apply IH; intros; apply Hf; by right|].
    intros ? ->. by apply keeps_ret.
  - eapply keeps_bind; [by apply (keeps_ret _ _ (λ s, s = None))|].
    intros ? ->. eapply keeps_bind; [apply IH; intros; apply Hf; by right|].
    intros ? ->. by apply keeps_ret.
Qed.

End KeepsNodes.

(** ** The frame of a pass *)

Section FrameLemmas.
Context (d0 : DOM) (d0_wf : well_formed d0).

Lemma well_formed_lt d e : well_formed d → is_Some (elements d !! e) → (e < next_id d)%nat.
Proof. intros Hd [el He]. by apply (Hd e el). Qed.

Lemma patched_refl el : patched el el.
Proof. by repeat split. Qed.

Lemma Frame_init : Frame d0 d0.
Proof.
  split; [done| |].
  - intros e el He. eauto using patched_refl.
  - intros e el Hf He. assert (e < next_id d0)%nat by (apply (well_formed_lt _ _ d0_wf); eauto).
    unfold fresh in *. lia.
Qed.

Lemma gentle_structural t f : gentle t f → structural f.
Proof. intros Hf el. destruct (Hf el) as (? & ? & ?). auto. Qed.

Lemma Fresh_Soft t sel : Fresh d0 sel → Soft d0 t sel.
Proof. intros H e He. left. by apply H. Qed.

Lemma keeps_modify_fresh f e :
  fresh d0 e → structural f → keeps (Frame d0) (modify f e) (λ _, True).
Proof.
  intros He Hf d [Hn Ho Hw]. split; [|done]. cbn. split; cbn; [done| |].
  - intros e' el Hel. destruct (Ho e' el Hel) as (el' & Hel' & Hp).
    exists el'. split; [|done]. rewrite lookup_alter_ne; [done|].
    intros <-. assert (e < next_id d0)%nat by (apply (well_formed_lt _ _ d0_wf); eauto).
    unfold fresh in *; lia.
  - intros e' el Hf' Hel Htag. rewrite lookup_alter in Hel.
    case_decide as Heq; [subst e'|by eauto].
    destruct (elements d !! e) as [el0|] eqn:E; [|done].
    injection Hel as <-. destruct (Hf el0) as [Ht Hp].
    rewrite Hp. rewrite Ht in Htag. eauto.
Qed.

Lemma keeps_modify_soft t f e :
  patchable t → soft d0 t e → gentle t f → keeps (Frame d0) (modify f e) (λ _, True).
Proof.
  intros Ht He Hf. destruct (decide (next_id d0 ≤ e)%nat) as [Hfr|Hold].
  { apply keeps_modify_fresh; [done|by eapply gentle_structural]. }
  destruct He as [?|He]; [done|].
  intros d [Hn Ho Hw]. split; [|done]. cbn. split; cbn; [done| |].
  - intros e' el Hel. destruct (Ho e' el Hel) as (el' & Hel' & Hp).
    rewrite lookup_alter. case_decide as Heq; [subst e'|by eauto].
    rewrite Hel'. eexists; split; [done|].
    destruct Hp as (H1 & H2 & H3 & H4 & H5 & H6 & H7).
    pose proof (He el Hel) as Htag.
    destruct (Hf el') as (G1 & G2 & G3).
    destruct G3 as (G3 & G4 & G5 & G6); [congruence|].
    repeat split; [congruence..| | |].
    + intros name Hname. rewrite Htag in Hname. rewrite G5 by done.
      apply H5. by rewrite Htag.
    + intros Hg. rewrite G6 by congruence. by apply H6.
    + intros Hnp. destruct Hnp. by rewrite Htag.
  - intros e' el Hf' Hel Htag. rewrite lookup_alter_ne in Hel; [by eauto|].
    by intros <-.
Qed.

Lemma keeps_createElement tag p dat :
  (tag ≠ "g"%string → fresh d0 p) → keeps (Frame d0) (createElement tag p dat) (fresh d0).
Proof.
  intros Hp d [Hn Ho Hw]. split; [|intros a [= <-]; done]. cbn. split; cbn.
  - lia.
  - intros e el Hel. destruct (Ho e el Hel) as (el' & Hel' & HP).
    exists el'. split; [|done]. rewrite lookup_insert_ne; [done|].
    intros <-. assert (next_id d < next_id d0)%nat by (apply (well_formed_lt _ _ d0_wf); eauto). lia.
  - intros e el Hf Hel Htag. rewrite lookup_insert in Hel.
    case_decide as Heq; [|by eauto].
    injection Hel as <-. cbn in *. eauto.
Qed.

Lemma keeps_schedule tw : keeps (Frame d0) (schedule tw) (λ _, True).
Proof. intros d [Hn Ho Hw]. split; [|done]. by split. Qed.


Lemma matches_subject els s c :
  matches els s c = true →
  ∃ el, els !! c = Some el ∧ tagName el = sel_tag (subject s).
Proof.
  unfold matches. destruct (els !! c) as [el|]; [|done]. intros H.
  exists el. split; [done|].
  assert (matches_compound (subject s) el = true) as Hm.
  { destruct s; cbn; [done|]. by apply andb_true_iff in H as [? _]. }
  unfold matches_compound in Hm. apply andb_true_iff in Hm as [Hm _].
  by apply bool_decide_eq_true in Hm.
Qed.

Lemma querySelectorAll_matches els s e c :
  c ∈ querySelectorAll els s e → matches els s c = true.
Proof. unfold querySelectorAll. rewrite list_elem_of_filter. by intros [? _]. Qed.

Lemma querySelector_matches els s e c :
  querySelector els s e = Some c → matches els s c = true.
Proof.
  unfold querySelector. intros H. apply head_Some_elem_of in H.
  by eapply querySelectorAll_matches.
Qed.

Lemma d3_merge_elem sel other e :
  Some e ∈ d3_merge sel other → Some e ∈ sel ∨ Some e ∈ other.
Proof.
  revert other. induction sel as [|slot sel IH]; intros other; cbn [d3_merge].
  - by rewrite elem_of_nil.
  - rewrite !elem_of_cons. intros [H|H].
    + destruct slot; [by left; left|]. right.
      destruct other as [|[x|] other]; cbn in H; try done.
      injection H as ->. by left.
    + destruct (IH _ H) as [?|?]; [by left; right|]. right.
      destruct other; cbn in *; [done|]. by right.
Qed.

Lemma set_children_gentle c : gentle "g" (λ el, set_children (c el) el).
Proof. by intros el. Qed.

Lemma set_datum_gentle t dat : gentle t (set_datum dat).
Proof. by intros el. Qed.

Lemma set_attribute_gentle t name v :
  may_change t name → gentle t (set_attribute name v).
Proof.
  intros Hg el. repeat split. intros n Hn. cbn.
  assert (name ≠ n) by (by intros ->).
  destruct v; [by rewrite lookup_insert_ne | by rewrite lookup_delete_ne].
Qed.

Lemma may_change_patchable t name : may_change t name → patchable t.
Proof. intros [[-> _]|[-> _]]; [by left | by right; right]. Qed.

Lemma set_attribute_structural name v : structural (set_attribute name v).
Proof. by intros el. Qed.

Lemma set_text_structural v : structural (set_text v).
Proof. by intros el. Qed.

Lemma set_listener_structural t l : structural (set_listener t l).
Proof. by intros el. Qed.


Lemma Frame_soft d c el :
  Frame d0 d → elements d !! c = Some el → soft d0 (tagName el) c.
Proof.
  intros [Hn Ho Hw] Hc. right. intros el0 H0.
  destruct (Ho c el0 H0) as (el' & Hel' & Hpatched).
  assert (el' = el) as -> by congruence.
  by destruct Hpatched as (<- & _).
Qed.

Lemma Soft_merge t a b : Soft d0 t a → Soft d0 t b → Soft d0 t (d3_merge a b).
Proof. intros Ha Hb e He. destruct (d3_merge_elem _ _ _ He); auto. Qed.

Lemma Fresh_merge a b : Fresh d0 a → Fresh d0 b → Fresh d0 (d3_merge a b).
Proof. intros Ha Hb e He. destruct (d3_merge_elem _ _ _ He); auto. Qed.

Lemma Fresh_nil : Fresh d0 [].
Proof. intros e He. by apply elem_of_nil in He. Qed.

Lemma keeps_appendChild tag p :
  soft d0 "g" p → (tag ≠ "g"%string → fresh d0 p) →
  keeps (Frame d0) (appendChild tag p) (fresh d0).
Proof.
  intros Hs Hf. unfold appendChild.
  eapply keeps_bind; [apply keeps_getDatum|]. intros dat _.
  eapply keeps_bind; [by apply keeps_createElement|]. intros c Hc.
  eapply keeps_bind;
    [eapply keeps_modify_soft; [by left|done|apply set_children_gentle]|].
  intros _ _. by apply keeps_ret.
Qed.

Lemma keeps_append_g sel :
  Soft d0 "g" sel → keeps (Frame d0) (d3_append "g" sel) (Fresh d0).
Proof.
  intros Hs. apply keeps_for_nodes. intros e He.
  apply keeps_appendChild; [by apply Hs|done].
Qed.

Lemma keeps_append tag sel :
  Fresh d0 sel → keeps (Frame d0) (d3_append tag sel) (Fresh d0).
Proof.
  intros Hs. apply keeps_for_nodes. intros e He.
  apply keeps_appendChild; [left; by apply Hs|intros _; by apply Hs].
Qed.

Lemma keeps_attr_fresh name v sel :
  Fresh d0 sel → keeps (Frame d0) (d3_attr name v sel) (λ r, r = sel).
Proof.
  intros Hs. apply keeps_for_nodes_same. intros e He.
  eapply keeps_bind; [apply keeps_getDatum|]. intros dat _.
  eapply keeps_bind; [apply keeps_lift|]. intros val _.
  eapply keeps_bind;
    [apply keeps_modify_fresh; [by apply Hs|apply set_attribute_structural]|].
  intros _ _. by apply keeps_ret.
Qed.

Lemma keeps_attr_geometry t name v sel :
  may_change t name → Soft d0 t sel →
  keeps (Frame d0) (d3_attr name v sel) (λ r, r = sel).
Proof.
  intros Hg Hs. apply keeps_for_nodes_same. intros e He.
  eapply keeps_bind; [apply keeps_getDatum|]. intros dat _.
  eapply keeps_bind; [apply keeps_lift|]. intros val _.
  eapply keeps_bind;
    [eapply keeps_modify_soft;
       [by eapply may_change_patchable|by apply Hs|by apply set_attribute_gentle]|].
  intros _ _. by apply keeps_ret.
Qed.

Lemma keeps_attr_const name v sel :
  Fresh d0 sel → keeps (Frame d0) (d3_attr_const name v sel) (λ r, r = sel).
Proof.
  intros Hs. apply keeps_for_nodes_same. intros e He.
  eapply keeps_bind;
    [apply keeps_modify_fresh; [by apply Hs|apply set_attribute_structural]|].
  intros _ _. by apply keeps_ret.
Qed.

Lemma keeps_text v sel :
  Fresh d0 sel → keeps (Frame d0) (d3_text v sel) (λ r, r = sel).
Proof.
  intros Hs. apply keeps_for_nodes_same. intros e He.
  eapply keeps_bind; [apply keeps_getDatum|]. intros dat _.
  eapply keeps_bind; [apply keeps_lift|]. intros val _.
  eapply keeps_bind;
    [apply keeps_modify_fresh; [by apply Hs|apply set_text_structural]|].
  intros _ _. by apply keeps_ret.
Qed.

Lemma keeps_on type l sel :
  Fresh d0 sel → keeps (Frame d0) (d3_on type l sel) (λ _, True).
Proof.
  intros Hs. unfold d3_on. eapply keeps_bind.
  - apply keeps_for_nodes. intros e He.
    apply keeps_modify_fresh; [by apply Hs|apply set_listener_structural].
  - intros _ _. by apply keeps_ret.
Qed.

Lemma keeps_select s sel :
  patchable (sel_tag (subject s)) →
  keeps (Frame d0) (d3_select s sel) (Soft d0 (sel_tag (subject s))).
Proof.
  intros Hp. unfold d3_select. eapply keeps_weaken.
  - apply (keeps_for_each _ _ _
      (λ slot, ∀ c, slot = Some c → soft d0 (sel_tag (subject s)) c)).
    intros [e|] _; [|by apply keeps_ret].
    eapply keeps_bind; [apply keeps_getElements|]. intros els (d & Hd & ->).
    destruct (querySelector (elements d) s e) as [c|] eqn:Hq; [|by apply keeps_ret].
    assert (soft d0 (sel_tag (subject s)) c) as Hc.
    { apply querySelector_matches, matches_subject in Hq as (el & Hel & Htag).
      rewrite <- Htag. by eapply Frame_soft. }
    eapply keeps_bind; [apply keeps_getDatum|]. intros dat _.
    eapply keeps_bind.
    { instantiate (1 := λ _, True). destruct dat; [|by apply keeps_ret].
      eapply keeps_modify_soft; [done..|apply set_datum_gentle]. }
    intros _ _. apply keeps_ret. by intros ? [= <-].
  - intros r Hr e He. rewrite Forall_forall in Hr. by eapply Hr.
Qed.

Lemma keeps_select_this test sel :
  keeps (Frame d0) (d3_select_this test sel) (λ r, ∀ e, Some e ∈ r → Some e ∈ sel).
Proof.
  unfold d3_select_this. eapply keeps_weaken.
  - apply (keeps_for_each _ _ _ (λ slot, ∀ c, slot = Some c → Some c ∈ sel)).
    intros [e|] He; [|by apply keeps_ret].
    eapply keeps_bind; [apply keeps_getDatum|]. intros dat _.
    eapply keeps_bind; [apply keeps_lift|]. intros b _.
    apply keeps_ret. destruct b; [|done]. by intros ? [= <-].
  - intros r Hr e He. rewrite Forall_forall in Hr. by eapply Hr.
Qed.

Lemma keeps_filter test sel :
  keeps (Frame d0) (d3_filter test sel) (λ r, ∀ e, Some e ∈ r → Some e ∈ sel).
Proof.
  unfold d3_filter. eapply keeps_bind; [apply keeps_select_this|].
  intros r Hr. apply keeps_ret. intros e He.
  apply list_elem_of_filter in He as [_ He]. by apply Hr.
Qed.

Lemma keeps_each {S} (f : option Datum → S → option S) sel acc :
  keeps (Frame d0) (d3_each f sel acc) (λ _, True).
Proof.
  revert acc. induction sel as [|[e|] sel IH]; intros acc; cbn [d3_each].
  - by apply keeps_ret.
  - eapply keeps_bind; [apply keeps_getDatum|]. intros dat _.
    eapply keeps_bind; [apply keeps_lift|]. intros acc' _. apply IH.
  - apply IH.
Qed.



Lemma keeps_nodesByKey t key group map :
  (∀ k n, map !! k = Some n → soft d0 t n) →
  (∀ n, n ∈ group → soft d0 t n) →
  keeps (Frame d0) (nodesByKey key group map)
    (λ m, ∀ k n, m !! k = Some n → soft d0 t n).
Proof.
  revert map. induction group as [|node group IH]; intros map Hm Hg; cbn [nodesByKey].
  - by apply keeps_ret.
  - eapply keeps_bind; [apply keeps_getDatum|]. intros dat _.
    eapply keeps_bind; [apply keeps_lift|]. intros keyValue _.
    apply IH; [|intros; apply Hg; by right].
    destruct (map !! keyValue) eqn:E; [done|].
    intros k n. rewrite lookup_insert. case_decide; [|by eauto].
    intros [= <-]. apply Hg. by left.
Qed.

Lemma keeps_bindData t key parent data map :
  patchable t →
  (∀ k n, map !! k = Some n → soft d0 t n) →
  keeps (Frame d0) (bindData key parent data map) (Forall (slot_ok d0 t parent)).
Proof.
  intros Ht. revert map. induction data as [|dat data IH]; intros map Hm; cbn [bindData].
  - by apply keeps_ret.
  - eapply keeps_bind; [apply keeps_lift|]. intros keyValue _.
    destruct (map !! keyValue) as [node|] eqn:E.
    + eapply keeps_bind;
        [eapply keeps_modify_soft; [done|by eauto|apply set_datum_gentle]|].
      intros _ _. eapply keeps_bind.
      { apply IH. intros k n Hk. apply lookup_delete_Some in Hk as [_ Hk]. eauto. }
      intros rest Hrest. apply keeps_ret. constructor; [|done].
      split; cbn; [intros ? [= <-]; eauto | done].
    + eapply keeps_bind; [by apply IH|].
      intros rest Hrest. apply keeps_ret. constructor; [|done].
      split; cbn; [done | by intros ? [= <-]].
Qed.

Lemma linkEnter_parent t parent slots en :
  Forall (slot_ok d0 t parent) slots → Some en ∈ linkEnter slots →
  en_parent en = parent.
Proof.
  induction 1 as [|[u [e|]] slots [_ Hs] _ IH]; cbn [linkEnter fmap option_fmap option_map].
  - by rewrite elem_of_nil.
  - rewrite elem_of_cons. intros [[= ->]|?]; [|by auto]. cbn. by apply Hs.
  - rewrite elem_of_cons. intros [?|?]; [done|by auto].
Qed.

Lemma keeps_selectAll_data s value key sel :
  patchable (sel_tag (subject s)) →
  Soft d0 "g" sel →
  keeps (Frame d0) (d3_selectAll_data s value key sel)
    (λ r, Soft d0 (sel_tag (subject s)) r.1
          ∧ ∀ en, Some en ∈ r.2 → soft d0 "g" (en_parent en)).
Proof.
  intros Hp Hs. unfold d3_selectAll_data.
  eapply keeps_bind.
  - apply (keeps_for_each _ _ _
      (λ g, Soft d0 (sel_tag (subject s)) g.1
            ∧ ∀ en, Some en ∈ g.2 → soft d0 "g" (en_parent en))).
    intros parent Hparent.
    assert (soft d0 "g" parent) as Hsp.
    { apply Hs. apply list_elem_of_omap in Hparent as (x & Hx & Hid).
      cbn in Hid. by subst x. }
    eapply keeps_bind; [apply keeps_getElements|]. intros els (d & Hd & ->).
    eapply keeps_bind; [apply keeps_getDatum|]. intros dat _.
    eapply keeps_bind; [apply keeps_lift|]. intros data _.
    eapply keeps_bind.
    { apply (keeps_nodesByKey (sel_tag (subject s))).
      - intros k n. by rewrite lookup_empty.
      - intros n Hn. apply querySelectorAll_matches, matches_subject in Hn
          as (el & Hel & Htag).
        rewrite <- Htag. by eapply Frame_soft. }
    intros map Hmap.
    eapply keeps_bind; [by apply keeps_bindData|]. intros slots Hslots.
    apply keeps_ret. cbn. split.
    + intros e He. apply list_elem_of_fmap in He as ([u en] & Hu & Hin).
      cbn in Hu. subst u. rewrite Forall_forall in Hslots.
      destruct (Hslots _ Hin) as [H1 _]. by apply H1.
    + intros en Hen. by rewrite (linkEnter_parent _ _ _ _ Hslots Hen).
  - intros groups Hg. apply keeps_ret. cbn. rewrite Forall_forall in Hg. split.
    + intros e He. apply list_elem_of_join in He as (l & He & Hl).
      apply list_elem_of_fmap in Hl as (g & -> & Hin).
      destruct (Hg _ Hin) as [H1 _]. by apply H1.
    + intros en Hen. apply list_elem_of_join in Hen as (l & Hen & Hl).
      apply list_elem_of_fmap in Hl as (g & -> & Hin).
      destruct (Hg _ Hin) as [_ H2]. by apply H2.
Qed.

Lemma keeps_insertBefore_g en :
  soft d0 "g" (en_parent en) → keeps (Frame d0) (insertBefore "g" en) (fresh d0).
Proof.
  intros Hs. unfold insertBefore.
  eapply keeps_bind; [apply keeps_getElements|]. intros els _.
  eapply keeps_bind; [apply keeps_lift|]. intros position _.
  eapply keeps_bind; [by apply keeps_createElement|]. intros c Hc.
  eapply keeps_bind;
    [eapply keeps_modify_soft; [by left|done|apply set_children_gentle]|].
  intros _ _. by apply keeps_ret.
Qed.

Lemma keeps_enter_append_g sel :
  (∀ en, Some en ∈ sel → soft d0 "g" (en_parent en)) →
  keeps (Frame d0) (d3_enter_append "g" sel) (Fresh d0).
Proof.
  intros Hs. apply keeps_for_nodes. intros en Hen.
  apply keeps_insertBefore_g; by auto.
Qed.

Lemma Soft_transition t options sel :
  Soft d0 t sel → Soft_target d0 t (transition options sel).
Proof. unfold transition. by destruct (animate options). Qed.

Lemma keeps_target_attr t name v tgt :
  may_change t name → Soft_target d0 t tgt →
  keeps (Frame d0) (target_attr name v tgt) (Soft_target d0 t).
Proof.
  intros Hg Ht. destruct tgt as [sel|tr]; cbn [target_attr].
  - eapply keeps_bind; [by eapply keeps_attr_geometry|]. intros ? ->.
    by apply keeps_ret.
  - eapply keeps_bind; [|intros; by apply keeps_ret].
    unfold d3_transition_attr. eapply keeps_bind.
    + apply (keeps_for_nodes _ _ _ (λ _, True)). intros e He.
      eapply keeps_bind; [apply keeps_getDatum|]. intros dat _.
      eapply keeps_bind; [apply keeps_lift|]. intros val _.
      apply keeps_schedule.
    + intros _ _. by apply (keeps_ret _ _ (λ _, True)).
Qed.

Lemma Fresh_sub r sel :
  (∀ e, Some e ∈ r → Some e ∈ sel) → Fresh d0 sel → Fresh d0 r.
Proof. intros Hr Hs e He. by apply Hs, Hr. Qed.

Lemma Soft_sub t r sel :
  (∀ e, Some e ∈ r → Some e ∈ sel) → Soft d0 t sel → Soft d0 t r.
Proof. intros Hr Hs e He. by apply Hs, Hr. Qed.

Lemma patchable_g : patchable "g".
Proof. by left. Qed.

Lemma patchable_a : patchable "a".
Proof. by right; left. Qed.

Lemma patchable_rect : patchable "rect".
Proof. by right; right. Qed.

Lemma geometry_transform : geometry "transform".
Proof. by left. Qed.

Lemma geometry_width : geometry "width".
Proof. by right; left. Qed.

Lemma geometry_height : geometry "height".
Proof. by right; right. Qed.

Lemma may_change_transform : may_change "g" "transform".
Proof. by left. Qed.

Lemma may_change_width : may_change "rect" "width".
Proof. right. split; [done|by left]. Qed.

Lemma may_change_height : may_change "rect" "height".
Proof. right. split; [done|by right]. Qed.

Ltac side :=
  solve [ done
        | eauto using Fresh_Soft, Fresh_merge, Soft_merge, Soft_transition, Fresh_nil,
            Fresh_sub, Soft_sub, patchable_g, patchable_a, patchable_rect,
            may_change_transform, may_change_width, may_change_height ].

(** The rules in the form that a chain of calls needs: what comes out is
    fresh, or may be patched, whenever what goes in is. *)
Lemma chain_attr_const name v sel :
  Fresh d0 sel → keeps (Frame d0) (d3_attr_const name v sel) (Fresh d0).
Proof.
  intros. eapply keeps_weaken; [by apply keeps_attr_const|]. by intros ? ->.
Qed.

Lemma chain_attr name v sel :
  Fresh d0 sel → keeps (Frame d0) (d3_attr name v sel) (Fresh d0).
Proof.
  intros. eapply keeps_weaken; [by apply keeps_attr_fresh|]. by intros ? ->.
Qed.

Lemma chain_attr_geometry t name v sel :
  may_change t name → Soft d0 t sel →
  keeps (Frame d0) (d3_attr name v sel) (Soft d0 t).
Proof.
  intros. eapply keeps_weaken; [by eapply keeps_attr_geometry|]. by intros ? ->.
Qed.

Lemma chain_text v sel :
  Fresh d0 sel → keeps (Frame d0) (d3_text v sel) (Fresh d0).
Proof.
  intros. eapply keeps_weaken; [by apply keeps_text|]. by intros ? ->.
Qed.

Lemma chain_filter test sel :
  Fresh d0 sel → keeps (Frame d0) (d3_filter test sel) (Fresh d0).
Proof.
  intros. eapply keeps_weaken; [by apply keeps_filter|]. intros r Hr. side.
Qed.

Lemma chain_select_this test sel :
  Fresh d0 sel → keeps (Frame d0) (d3_select_this test sel) (Fresh d0).
Proof.
  intros. eapply keeps_weaken; [by apply keeps_select_this|]. intros r Hr. side.
Qed.

Lemma chain_select_this_soft t test sel :
  Soft d0 t sel → keeps (Frame d0) (d3_select_this test sel) (Soft d0 t).
Proof.
  intros. eapply keeps_weaken; [by apply keeps_select_this|]. intros r Hr. side.
Qed.

Ltac frame_op :=
  lazymatch goal with
  | |- keeps _ (mret _) _ => apply keeps_ret; side
  | |- keeps _ (d3_append "g" _) _ => apply keeps_append_g; side
  | |- keeps _ (d3_append _ _) _ => apply keeps_append; side
  | |- keeps _ (d3_attr_const _ _ _) _ => apply chain_attr_const; side
  | |- keeps _ (d3_attr _ _ _) _ =>
      first [apply chain_attr; side | eapply chain_attr_geometry; side]
  | |- keeps _ (d3_text _ _) _ => apply chain_text; side
  | |- keeps _ (d3_on _ _ _) _ => apply keeps_on; side
  | |- keeps _ (d3_select _ _) _ => apply keeps_select; side
  | |- keeps _ (d3_select_this _ _) _ =>
      first [apply chain_select_this; side | eapply chain_select_this_soft; side]
  | |- keeps _ (d3_filter _ _) _ => apply chain_filter; side
  | |- keeps _ (d3_each _ _ _) _ => apply keeps_each
  | |- keeps _ (target_attr _ _ _) _ => eapply keeps_target_attr; side
  | |- keeps _ (d3_enter_append "g" _) _ => apply keeps_enter_append_g; side
  | |- keeps _ (d3_selectAll_data _ _ _ _) _ => apply keeps_selectAll_data; side
  end.

Ltac frame_chain :=
  lazymatch goal with
  | |- keeps _ (mbind _ _) _ =>
      eapply keeps_bind; [frame_chain | intros ? ?; frame_chain]
  | |- keeps _ (let _ := _ in _) _ => cbv zeta; frame_chain
  | |- keeps _ (if ?b then _ else _) _ => destruct b; frame_chain
  | |- keeps _ (match ?x with _ => _ end) _ => destruct x; frame_chain
  | |- _ => frame_op
  end.

Section Render.
Context (formatDate : Date → option string → string).
Context (getFamPositionVertical getFamPositionHorizontal : TreeNode.t → jsnum).

Lemma keeps_renderFamily_line details enter i :
  Fresh d0 enter → keeps (Frame d0) (renderFamily_line details enter i) (λ _, True).
Proof. intros He. unfold renderFamily_line. frame_chain. Qed.

Lemma keeps_renderIndi_line options details enter i :
  Fresh d0 enter →
  keeps (Frame d0) (renderIndi_line options details enter i) (λ _, True).
Proof. intros He. unfold renderIndi_line. frame_chain. Qed.

Lemma keeps_renderFamily options enter update :
  Fresh d0 enter →
  keeps (Frame d0) (renderFamily formatDate options enter update) (λ _, True).
Proof.
  intros He. unfold renderFamily.
  eapply keeps_bind; [frame_chain|]. intros enter' He'.
  eapply keeps_bind; [frame_chain|]. intros _ _.
  eapply keeps_bind; [frame_chain|]. intros _ _.
  eapply keeps_bind; [frame_chain|]. intros details _.
  eapply keeps_bind; [|intros _ _; frame_chain].
  apply (keeps_for_each _ _ _ (λ _, True)). intros i _.
  by apply keeps_renderFamily_line.
Qed.

Lemma keeps_renderIndi options enter update :
  Fresh d0 enter →
  keeps (Frame d0) (renderIndi options enter update) (λ _, True).
Proof.
  intros He. unfold renderIndi.
  eapply (keeps_bind _ _ _ (λ p, Fresh d0 p.1)).
  { destruct (indiHrefFunc options) as [href|]; [|by apply keeps_ret].
    eapply keeps_bind; [frame_chain|]. intros enter' He'.
    eapply keeps_bind; [frame_chain|]. intros update' Hu'.
    by apply keeps_ret. }
  intros [enter' update'] He'. cbn [fst snd] in *.
  eapply keeps_bind; [frame_chain|]. intros _ _.
  eapply keeps_bind; [frame_chain|]. intros background Hb.
  eapply keeps_bind; [frame_chain|]. intros selected Hs. cbv zeta.
  eapply keeps_bind; [frame_chain|]. intros _ _.
  eapply keeps_bind; [frame_chain|]. intros clip Hc.
  eapply keeps_bind; [frame_chain|]. intros selected' Hs'.
  eapply keeps_bind; [frame_chain|]. intros _ _.
  eapply keeps_bind; [frame_chain|]. intros _ _.
  eapply keeps_bind; [frame_chain|]. intros _ _.
  eapply keeps_bind; [frame_chain|]. intros details _.
  eapply keeps_bind.
  { apply (keeps_for_each _ _ _ (λ _, True)). intros i _.
    by apply keeps_renderIndi_line. }
  intros _ _.
  eapply keeps_bind; [frame_chain|]. intros _ _.
  eapply keeps_bind; [frame_chain|]. intros border Hbo.
  eapply keeps_bind; [frame_chain|]. intros selected'' Hs''.
  eapply keeps_bind; [frame_chain|]. intros _ _.
  frame_chain.
Qed.

Lemma keeps_render options enter update :
  Soft d0 "g" enter → Soft d0 "g" update →
  keeps (Frame d0)
    (render formatDate getFamPositionVertical getFamPositionHorizontal
       options enter update)
    (λ _, True).
Proof.
  intros He Hu. unfold render.
  eapply keeps_bind; [frame_chain|]. intros enter' He'.
  eapply keeps_bind; [frame_chain|]. intros update' Hu'.
  eapply keeps_bind; [frame_chain|].
  intros [indiUpdate indiUpdate_enter] [H1 H2]. cbn [fst snd] in *.
  eapply keeps_bind; [frame_chain|]. intros indiEnter Hie.
  eapply keeps_bind; [frame_chain|]. intros _ _.
  eapply keeps_bind; [by apply keeps_renderIndi|]. intros _ _.
  eapply keeps_bind; [frame_chain|]. intros familyEnter Hfe.
  eapply keeps_bind; [frame_chain|]. intros familyUpdate Hfu.
  eapply keeps_bind; [frame_chain|]. intros _ _.
  by apply keeps_renderFamily.
Qed.

End Render.

End FrameLemmas.

(** ** Operations that leave the tweens alone *)

Section Quiet.
Context (I : DOM → Prop).
Hypothesis I_modify : ∀ f e, keeps I (modify f e) (λ _, True).
Hypothesis I_create : ∀ tag p dat, keeps I (createElement tag p dat) (λ _, True).

Ltac quiet :=
  cbv beta;
  lazymatch goal with
  | |- keeps _ (mbind _ _) _ =>
      eapply (keeps_bind _ _ _ (λ _, True)); [quiet | intros ? _; quiet]
  | |- keeps _ (mret _) _ => by apply keeps_ret
  | |- keeps _ (lift _) _ => eapply keeps_weaken; [apply keeps_lift | done]
  | |- keeps _ (getDatum _) _ => apply keeps_getDatum
  | |- keeps _ getElements _ => eapply keeps_weaken; [apply keeps_getElements | done]
  | |- keeps _ (modify _ _) _ => apply I_modify
  | |- keeps _ (createElement _ _ _) _ => apply I_create
  | |- keeps _ (match ?x with _ => _ end) _ => destruct x; quiet
  end.

Lemma quiet_for_each {A B} (f : A → M B) l :
  (∀ x, keeps I (f x) (λ _, True)) → keeps I (for_each f l) (λ _, True).
Proof.
  intros Hf. eapply keeps_weaken; [|done].
  apply (keeps_for_each _ _ _ (λ _, True)). auto.
Qed.

Lemma quiet_for_nodes {A B} (f : A → M B) sel :
  (∀ x, keeps I (f x) (λ _, True)) → keeps I (for_nodes f sel) (λ _, True).
Proof.
  intros Hf. apply quiet_for_each. intros [x|]; [|quiet].
  eapply (keeps_bind _ _ _ (λ _, True)); [apply Hf|]. intros; by apply keeps_ret.
Qed.

Lemma quiet_append tag sel : keeps I (d3_append tag sel) (λ _, True).
Proof. apply quiet_for_nodes. intros p. unfold appendChild. quiet. Qed.

Lemma quiet_attr name v sel : keeps I (d3_attr name v sel) (λ _, True).
Proof. apply quiet_for_nodes. intros e. quiet. Qed.

Lemma quiet_attr_const name v sel : keeps I (d3_attr_const name v sel) (λ _, True).
Proof. apply quiet_for_nodes. intros e. quiet. Qed.

Lemma quiet_text v sel : keeps I (d3_text v sel) (λ _, True).
Proof. apply quiet_for_nodes. intros e. quiet. Qed.

Lemma quiet_on type l sel : keeps I (d3_on type l sel) (λ _, True).
Proof.
  unfold d3_on. eapply (keeps_bind _ _ _ (λ _, True)); [|intros; by apply keeps_ret].
  apply quiet_for_nodes. intros e. quiet.
Qed.

Lemma quiet_select s sel : keeps I (d3_select s sel) (λ _, True).
Proof.
  apply quiet_for_each. intros [e|]; [|quiet].
  eapply (keeps_bind _ _ _ (λ _, True));
    [eapply keeps_weaken; [apply keeps_getElements | done]|].
  intros els _. destruct (querySelector els s e); quiet.
Qed.

Lemma quiet_select_this test sel : keeps I (d3_select_this test sel) (λ _, True).
Proof. apply quiet_for_each. intros [e|]; quiet. Qed.

Lemma quiet_filter test sel : keeps I (d3_filter test sel) (λ _, True).
Proof.
  unfold d3_filter.
  eapply (keeps_bind _ _ _ (λ _, True)); [apply quiet_select_this|].
  intros; by apply keeps_ret.
Qed.

Lemma quiet_each {S} (f : option Datum → S → option S) sel acc :
  keeps I (d3_each f sel acc) (λ _, True).
Proof.
  revert acc. induction sel as [|[e|] sel IH]; intros acc; cbn [d3_each];
    [quiet| |apply IH].
  eapply (keeps_bind _ _ _ (λ _, True)); [quiet|]. intros dat _.
  eapply (keeps_bind _ _ _ (λ _, True)); [quiet|]. intros acc' _. apply IH.
Qed.

Lemma quiet_nodesByKey key group map :
  keeps I (nodesByKey key group map) (λ _, True).
Proof.
  revert map. induction group as [|n group IH]; intros map; cbn [nodesByKey]; [quiet|].
  eapply (keeps_bind _ _ _ (λ _, True)); [quiet|]. intros dat _.
  eapply (keeps_bind _ _ _ (λ _, True)); [quiet|]. intros k _. apply IH.
Qed.

Lemma quiet_bindData key parent data map :
  keeps I (bindData key parent data map) (λ _, True).
Proof.
  revert map. induction data as [|dat data IH]; intros map; cbn [bindData]; [quiet|].
  eapply (keeps_bind _ _ _ (λ _, True)); [quiet|]. intros k _.
  destruct (map !! k).
  - eapply (keeps_bind _ _ _ (λ _, True)); [quiet|]. intros _ _.
    eapply (keeps_bind _ _ _ (λ _, True)); [apply IH|]. intros; by apply keeps_ret.
  - eapply (keeps_bind _ _ _ (λ _, True)); [apply IH|]. intros; by apply keeps_ret.
Qed.

Lemma quiet_selectAll_data s value key sel :
  keeps I (d3_selectAll_data s value key sel) (λ _, True).
Proof.
  unfold d3_selectAll_data.
  eapply (keeps_bind _ _ _ (λ _, True)); [|intros; by apply keeps_ret].
  apply quiet_for_each. intros parent.
  eapply (keeps_bind _ _ _ (λ _, True)); [quiet|]. intros els _.
  eapply (keeps_bind _ _ _ (λ _, True)); [quiet|]. intros dat _.
  eapply (keeps_bind _ _ _ (λ _, True)); [quiet|]. intros data _.
  eapply (keeps_bind _ _ _ (λ _, True)); [apply quiet_nodesByKey|]. intros map _.
  eapply (keeps_bind _ _ _ (λ _, True)); [apply quiet_bindData|].
  intros; by apply keeps_ret.
Qed.

Lemma quiet_enter_append tag sel : keeps I (d3_enter_append tag sel) (λ _, True).
Proof. apply quiet_for_nodes. intros en. unfold insertBefore. quiet. Qed.

End Quiet.

Section Scheduled.
Context (o : RendererOptions) (d0 : DOM).

Lemma Scheduled_init : Scheduled o d0 d0.
Proof. exists []. by rewrite app_nil_r. Qed.

Lemma Scheduled_modify f e : keeps (Scheduled o d0) (modify f e) (λ _, True).
Proof. by intros d Hd. Qed.

Lemma Scheduled_create tag p dat :
  keeps (Scheduled o d0) (createElement tag p dat) (λ _, True).
Proof. by intros d Hd. Qed.

Lemma Scheduled_schedule tw :
  timed tw → animate o = true → keeps (Scheduled o d0) (schedule tw) (λ _, True).
Proof.
  intros Htw Ha d (new & Hnew & Hall & Hoff). split; [|done]. cbn.
  exists (new ++ [tw]). rewrite Hnew, app_assoc. split; [done|]. split.
  - apply Forall_app. split; [done|]. by constructor.
  - intros Hf. congruence.
Qed.

Lemma Timed_transition sel : Timed_target o (transition o sel).
Proof. unfold transition. by destruct (animate o) eqn:E. Qed.

Lemma Scheduled_target_attr name v t :
  geometry name → Timed_target o t →
  keeps (Scheduled o d0) (target_attr name v t) (Timed_target o).
Proof.
  intros Hg Ht. destruct t as [sel|t]; cbn [target_attr].
  - eapply (keeps_bind _ _ _ (λ _, True)); [|intros; by apply keeps_ret].
    apply quiet_attr; [apply Scheduled_modify].
  - destruct Ht as (Ha & Hd & Hdur).
    eapply (keeps_bind _ _ _ (λ r, r = t)); [|intros ? ->; by apply keeps_ret].
    unfold d3_transition_attr.
    eapply (keeps_bind _ _ _ (λ _, True)); [|intros; by apply keeps_ret].
    apply quiet_for_nodes. intros e.
    eapply (keeps_bind _ _ _ (λ _, True)); [apply keeps_getDatum|]. intros dat _.
    eapply (keeps_bind _ _ _ (λ _, True));
      [eapply keeps_weaken; [apply keeps_lift|done]|]. intros val _.
    by apply Scheduled_schedule.
Qed.

Ltac sched_op :=
  lazymatch goal with
  | |- keeps _ (mret _) _ => by apply (keeps_ret _ _ (λ _, True))
  | |- keeps _ (d3_append _ _) _ => apply quiet_append
  | |- keeps _ (d3_attr_const _ _ _) _ => apply quiet_attr_const
  | |- keeps _ (d3_attr _ _ _) _ => apply quiet_attr
  | |- keeps _ (d3_text _ _) _ => apply quiet_text
  | |- keeps _ (d3_on _ _ _) _ => apply quiet_on
  | |- keeps _ (d3_select _ _) _ => apply quiet_select
  | |- keeps _ (d3_select_this _ _) _ => apply quiet_select_this
  | |- keeps _ (d3_filter _ _) _ => apply quiet_filter
  | |- keeps _ (d3_each _ _ _) _ => apply quiet_each
  | |- keeps _ (d3_enter_append _ _) _ => apply quiet_enter_append
  | |- keeps _ (d3_selectAll_data _ _ _ _) _ => apply quiet_selectAll_data
  | |- keeps _ (target_attr _ _ _) _ =>
      apply Scheduled_target_attr;
      solve [ assumption | apply Timed_transition
            | apply geometry_transform | apply geometry_width | apply geometry_height ]
  end;
  try solve [ apply Scheduled_modify | apply Scheduled_create ].

Ltac sched_chain :=
  lazymatch goal with
  | |- keeps _ (mbind _ _) _ =>
      eapply keeps_bind; [sched_chain | intros ? ?; sched_chain]
  | |- keeps _ (let _ := _ in _) _ => cbv zeta; sched_chain
  | |- keeps _ (if ?b then _ else _) _ => destruct b; sched_chain
  | |- keeps _ (match ?x with _ => _ end) _ => destruct x; sched_chain
  | |- _ => sched_op
  end.

Section Render.
Context (formatDate : Date → option string → string).
Context (getFamPositionVertical getFamPositionHorizontal : TreeNode.t → jsnum).

Lemma Scheduled_renderFamily_line details enter i :
  keeps (Scheduled o d0) (renderFamily_line details enter i) (λ _, True).
Proof. unfold renderFamily_line. sched_chain. Qed.

Lemma Scheduled_renderIndi_line details enter i :
  keeps (Scheduled o d0) (renderIndi_line o details enter i) (λ _, True).
Proof. unfold renderIndi_line. sched_chain. Qed.

Lemma Scheduled_renderFamily enter update :
  keeps (Scheduled o d0) (renderFamily formatDate o enter update) (λ _, True).
Proof.
  unfold renderFamily.
  eapply (keeps_bind _ _ _ (λ _, True)); [sched_chain|]. intros enter' _.
  eapply (keeps_bind _ _ _ (λ _, True)); [sched_chain|]. intros _ _.
  eapply (keeps_bind _ _ _ (λ _, True)); [sched_chain|]. intros _ _.
  eapply (keeps_bind _ _ _ (λ _, True)); [sched_chain|]. intros details _.
  eapply (keeps_bind _ _ _ (λ _, True)); [|intros _ _; sched_chain].
  apply quiet_for_each. intros i. apply Scheduled_renderFamily_line.
Qed.

Lemma Scheduled_renderIndi enter update :
  keeps (Scheduled o d0) (renderIndi o enter update) (λ _, True).
Proof.
  unfold renderIndi.
  eapply (keeps_bind _ _ _ (λ _, True)); [sched_chain|].
  intros [enter' update'] _.
  eapply keeps_bind; [sched_chain|]. intros _ _.
  eapply keeps_bind; [sched_chain|]. intros background _.
  eapply keeps_bind; [sched_chain|]. intros selected _. cbv zeta.
  eapply keeps_bind; [sched_chain|]. intros _ _.
  eapply keeps_bind; [sched_chain|]. intros clip _.
  eapply keeps_bind; [sched_chain|]. intros selected' _.
  eapply keeps_bind; [sched_chain|]. intros _ _.
  eapply keeps_bind; [sched_chain|]. intros _ _.
  eapply keeps_bind; [sched_chain|]. intros _ _.
  eapply keeps_bind; [sched_chain|]. intros details _.
  eapply (keeps_bind _ _ _ (λ _, True)).
  { apply quiet_for_each. intros i. apply Scheduled_renderIndi_line. }
  intros _ _.
  eapply keeps_bind; [sched_chain|]. intros _ _.
  eapply keeps_bind; [sched_chain|]. intros border _.
  eapply keeps_bind; [sched_chain|]. intros selected'' _.
  eapply keeps_bind; [sched_chain|]. intros _ _.
  sched_chain.
Qed.

Lemma Scheduled_render enter update :
  keeps (Scheduled o d0)
    (render formatDate getFamPositionVertical getFamPositionHorizontal o enter update)
    (λ _, True).
Proof.
  unfold render.
  eapply keeps_bind; [sched_chain|]. intros enter' _.
  eapply keeps_bind; [sched_chain|]. intros update' _.
  eapply keeps_bind; [sched_chain|]. intros [indiUpdate indiUpdate_enter] _.
  eapply keeps_bind; [sched_chain|]. intros indiEnter _.
  eapply keeps_bind; [sched_chain|]. intros _ _.
  eapply keeps_bind; [apply Scheduled_renderIndi|]. intros _ _.
  eapply keeps_bind; [sched_chain|]. intros familyEnter _.
  eapply keeps_bind; [sched_chain|]. intros familyUpdate _.
  eapply keeps_bind; [sched_chain|]. intros _ _.
  apply Scheduled_renderFamily.
Qed.

End Render.
End Scheduled.

(** ** Attributes set through the transition helper *)

Lemma M_bind_run {A B} (m : M A) (k : A → M B) d :
  (m ≫= k) d = match m d with (Some a, d') => k a d' | (None, d') => (None, d') end.
Proof. done. Qed.

Section Attr.
Context (name : string) (value : option Datum → option (option string)).

Lemma d3_attr_nil d : d3_attr name value [] d = (Some [], d).
Proof. done. Qed.

Lemma d3_attr_none sel d :
  d3_attr name value (None :: sel) d
  = match d3_attr name value sel d with
    | (Some r, d') => (Some (None :: r), d')
    | (None, d') => (None, d')
    end.
Proof.
  unfold d3_attr, for_nodes. cbn [for_each]. unfold mbind, M_bind, mret, M_ret.
  by destruct (for_each _ sel d) as [[r|] d'].
Qed.

Lemma d3_attr_some e sel d :
  d3_attr name value (Some e :: sel) d
  = match value (elements d !! e ≫= datum) with
    | Some v =>
        match d3_attr name value sel
                (mkDOM (alter (set_attribute name v) e (elements d))
                       (next_id d) (tweens d)) with
        | (Some r, d') => (Some (Some e :: r), d')
        | (None, d') => (None, d')
        end
    | None => (None, d)
    end.
Proof.
  unfold d3_attr, for_nodes. cbn [for_each].
  unfold mbind, M_bind, mret, M_ret, getDatum, lift, modify.
  destruct (value _) as [v|]; [|done].
  by destruct (for_each _ sel _) as [[r|] d'].
Qed.

Lemma d3_attr_tweens sel d : tweens (d3_attr name value sel d).2 = tweens d.
Proof.
  revert d. induction sel as [|[e|] sel IH]; intros d.
  - done.
  - rewrite d3_attr_some. destruct (value _) as [v|]; [|done].
    specialize (IH (mkDOM (alter (set_attribute name v) e (elements d))
                          (next_id d) (tweens d))).
    by destruct (d3_attr name value sel _) as [[r|] d'].
  - rewrite d3_attr_none. specialize (IH d).
    by destruct (d3_attr name value sel d) as [[r|] d'].
Qed.

Lemma d3_attr_result sel d r : (d3_attr name value sel d).1 = Some r → r = sel.
Proof.
  revert d r. induction sel as [|[e|] sel IH]; intros d r.
  - by intros [= <-].
  - rewrite d3_attr_some. destruct (value _) as [v|]; [|done].
    destruct (d3_attr name value sel _) as [[r'|] d'] eqn:E; [|done].
    intros [= <-]. f_equal. eapply IH. by rewrite E.
  - rewrite d3_attr_none.
    destruct (d3_attr name value sel d) as [[r'|] d'] eqn:E; [|done].
    intros [= <-]. f_equal. eapply IH. by rewrite E.
Qed.

Lemma holds_attr_set e v d :
  value (elements d !! e ≫= datum) = Some v →
  holds_attr name value
    (mkDOM (alter (set_attribute name v) e (elements d)) (next_id d) (tweens d)) e.
Proof.
  intros Hv el. cbn. rewrite lookup_alter_eq.
  destruct (elements d !! e) as [el0|]; [|done]. intros [= <-]. cbn in *.
  rewrite Hv. f_equal. destruct v; [by rewrite lookup_insert_eq|by rewrite lookup_delete_eq].
Qed.

Lemma holds_attr_kept sel d e :
  holds_attr name value d e → holds_attr name value (d3_attr name value sel d).2 e.
Proof.
  revert d. induction sel as [|[e'|] sel IH]; intros d Hd.
  - done.
  - rewrite d3_attr_some. destruct (value _) as [v|] eqn:Hv; [|done].
    set (d1 := mkDOM _ _ _).
    assert (holds_attr name value d1 e) as H1.
    { destruct (decide (e' = e)) as [->|Hne]; [by apply holds_attr_set|].
      intros el. unfold d1. cbn. rewrite lookup_alter_ne by done. apply Hd. }
    specialize (IH d1 H1). by destruct (d3_attr name value sel d1) as [[r|] d'].
  - rewrite d3_attr_none. specialize (IH d Hd).
    by destruct (d3_attr name value sel d) as [[r|] d'].
Qed.

Lemma d3_attr_applied sel d r e :
  (d3_attr name value sel d).1 = Some r → Some e ∈ sel →
  holds_attr name value (d3_attr name value sel d).2 e.
Proof.
  revert d r. induction sel as [|[e'|] sel IH]; intros d r Hr He.
  - by apply elem_of_nil in He.
  - rewrite d3_attr_some in Hr |- *. destruct (value _) as [v|] eqn:Hv; [|done].
    set (d1 := mkDOM _ _ _) in *.
    apply elem_of_cons in He as [[= ->]|He].
    + pose proof (holds_attr_kept sel d1 e' (holds_attr_set _ _ _ Hv)) as H.
      by destruct (d3_attr name value sel d1) as [[r'|] d'].
    + destruct (d3_attr name value sel d1) as [[r'|] d'] eqn:E; [|done].
      specialize (IH d1 r'). rewrite E in IH. by apply IH.
  - rewrite d3_attr_none in Hr |- *.
    apply elem_of_cons in He as [?|He]; [done|].
    destruct (d3_attr name value sel d) as [[r'|] d'] eqn:E; [|done].
    specialize (IH d r'). rewrite E in IH. by apply IH.
Qed.

Lemma schedule_loop delay duration sel d :
  let res := for_nodes (λ e, dat ← getDatum e; v ← lift (value dat);
                             schedule (mkTween e name v delay duration)) sel d in
  is_Some res.1 →
  elements res.2 = elements d
  ∧ tweens res.2 = tweens d ++
      omap (λ slot, e ← slot; v ← value (elements d !! e ≫= datum);
                    Some (mkTween e name v delay duration)) sel.
Proof.
  unfold for_nodes. revert d.
  induction sel as [|[e|] sel IH]; intros d; cbn [for_each omap].
  - intros _. cbn. by rewrite app_nil_r.
  - unfold mbind, M_bind, mret, M_ret, getDatum, lift, schedule.
    cbn [option_bind]. destruct (value _) as [v|] eqn:Hv; cbn zeta.
    + set (d1 := mkDOM _ _ _).
      specialize (IH d1). cbn zeta in IH.
      unfold mbind, M_bind, mret, M_ret, getDatum, lift, schedule in IH.
      destruct (for_each _ sel d1) as [[r'|] d'] eqn:E; cbn in *.
      * intros _. destruct IH as [IH1 IH2]; [by eexists|].
        rewrite IH1, IH2. split; [done|]. rewrite <- app_assoc. cbn.
        unfold mbind in Hv. by rewrite Hv.
      * by intros [? ?].
    + by intros [? ?].
  - unfold mbind, M_bind, mret, M_ret.
    specialize (IH d). cbn zeta in IH.
    unfold mbind, M_bind, mret, M_ret in IH.
    destruct (for_each _ sel d) as [[r'|] d'] eqn:E; cbn in *.
    + intros _. apply IH. by eexists.
    + by intros [? ?].
Qed.

Lemma d3_transition_attr_scheduled t d r :
  (d3_transition_attr name value t d).1 = Some r →
  r = t
  ∧ elements (d3_transition_attr name value t d).2 = elements d
  ∧ tweens (d3_transition_attr name value t d).2 = tweens d ++ tweens_of name value t d.
Proof.
  pose proof (schedule_loop (tr_delay t) (tr_duration t) (tr_nodes t) d) as Hloop.
  cbn zeta in Hloop. unfold d3_transition_attr, tweens_of.
  rewrite M_bind_run.
  destruct (for_nodes _ (tr_nodes t) d) as [[r'|] d'] eqn:E; [|done].
  intros [= <-]. destruct Hloop as [H1 H2]; [by eexists|]. done.
Qed.

End Attr.

(** ** The claims on the enter and update passes *)

(** The frame of a pass: a pass of [render] over a well-formed document,
    given the groups of the layout nodes, only patches what was there
    before. Every element keeps its handle, its tag, its text, its parent
    and its listeners, and all its attributes other than the transform of a
    group and the width and height of a rectangle (the background, the
    border and the clip rectangle of a person); only groups get children.
    Elements other than groups, links and rectangles (the name and details
    texts, the images, the clip paths) are not touched at all. Every element
    that the pass creates, other than a group, is created under an element
    that the same pass created. *)
Lemma render_update_frame formatDate getFamPositionVertical getFamPositionHorizontal
    options d0 enter update :
  well_formed d0 →
  (∀ e, Some e ∈ enter ++ update →
        tagName <$> elements d0 !! e = Some "g"%string) →
  let d := (render formatDate getFamPositionVertical getFamPositionHorizontal
              options enter update d0).2 in
  (∀ e el, elements d0 !! e = Some el →
           ∃ el', elements d !! e = Some el' ∧ patched el el')
  ∧ (∀ e el, elements d0 !! e = Some el →
             tagName el = "text"%string ∨ tagName el = "image"%string →
             elements d !! e = Some el)
  ∧ (∀ e el, fresh d0 e → elements d !! e = Some el → tagName el ≠ "g"%string →
             ∃ p, parentNode el = Some p ∧ fresh d0 p).
Proof.
  intros Hwf Hg d. subst d.
  assert (∀ sel, (∀ e, Some e ∈ sel → Some e ∈ enter ++ update) → Soft d0 "g" sel)
    as Hsoft.
  { intros sel Hsel e He. right. intros el Hel.
    specialize (Hg e (Hsel e He)). rewrite Hel in Hg. by injection Hg. }
  destruct (keeps_render d0 Hwf formatDate getFamPositionVertical
              getFamPositionHorizontal options enter update) with (d := d0)
    as [[Hn Ho Hw] _].
  - apply Hsoft. intros e He. apply elem_of_app. by left.
  - apply Hsoft. intros e He. apply elem_of_app. by right.
  - by apply Frame_init.
  - split; [exact Ho|]. split; [|exact Hw].
    intros e el Hel Htag. destruct (Ho e el Hel) as (el' & Hel' & Hp).
    destruct Hp as (_ & _ & _ & _ & _ & _ & Heq). rewrite Hel'. f_equal. apply Heq.
    unfold patchable. intros [H|[H|H]]; rewrite H in Htag; by destruct Htag.
Qed.

(** The transition helper and the tweens of a pass:
    [this.transition(selection)] returns the selection itself when animate
    is false and a transition on it with the delay 200 ms and the duration
    500 ms when animate is true. Without animation an attribute set through
    the helper is on the elements when the call returns and no tween is
    pending, and a whole pass of [render] leaves no tween pending; with
    animation the call leaves the elements as they are and schedules one
    tween per element, with that delay and that duration, and every tween
    that a pass of [render] schedules has that delay and that duration and
    is on transform, width or height. *)
Lemma transition_helper options :
  (ANIMATION_DELAY_MS = 200 ∧ ANIMATION_DURATION_MS = 500)
  ∧ (∀ sel, transition options sel
            = if animate options
              then OfTransition
                     (mkTransition sel ANIMATION_DELAY_MS ANIMATION_DURATION_MS)
              else OfSelection sel)
  ∧ (animate options = false →
     (∀ name value sel d r,
        (target_attr name value (transition options sel) d).1 = Some r →
        r = OfSelection sel
        ∧ tweens (target_attr name value (transition options sel) d).2 = tweens d
        ∧ ∀ e, Some e ∈ sel →
               holds_attr name value
                 (target_attr name value (transition options sel) d).2 e)
     ∧ (∀ formatDate getFamPositionVertical getFamPositionHorizontal enter update d,
          tweens (render formatDate getFamPositionVertical getFamPositionHorizontal
                    options enter update d).2 = tweens d))
  ∧ (animate options = true →
     (∀ name value sel d r,
        (target_attr name value (transition options sel) d).1 = Some r →
        let t := mkTransition sel ANIMATION_DELAY_MS ANIMATION_DURATION_MS in
        r = OfTransition t
        ∧ elements (target_attr name value (transition options sel) d).2 = elements d
        ∧ tweens (target_attr name value (transition options sel) d).2
          = tweens d ++ tweens_of name value t d)
     ∧ (∀ formatDate getFamPositionVertical getFamPositionHorizontal enter update d,
          ∃ new,
            tweens (render formatDate getFamPositionVertical getFamPositionHorizontal
                      options enter update d).2 = tweens d ++ new
            ∧ Forall timed new)).
Proof.
  split; [done|]. split; [intros sel; unfold transition; by destruct (animate options)|].
  split.
  - intros Ha. split.
    + intros name value sel d r. unfold transition. rewrite Ha. cbn [target_attr].
      rewrite M_bind_run.
      pose proof (d3_attr_result name value sel d) as Hres.
      pose proof (d3_attr_tweens name value sel d) as Htw.
      pose proof (d3_attr_applied name value sel d) as Happ.
      destruct (d3_attr name value sel d) as [[r'|] d'] eqn:E; [|done].
      cbn in *. intros [= <-]. rewrite (Hres r' eq_refl). split; [done|].
      split; [done|]. intros e He. by eapply Happ.
    + intros formatDate posV posH enter update d.
      destruct (Scheduled_render options d formatDate posV posH enter update d
                  (Scheduled_init options d)) as [(new & Hnew & _ & Hoff) _].
      by rewrite Hnew, (Hoff Ha), app_nil_r.
  - intros Ha. split.
    + intros name value sel d r. unfold transition. rewrite Ha. cbn [target_attr].
      rewrite M_bind_run.
      pose proof (d3_transition_attr_scheduled name value
                    (d3_duration ANIMATION_DURATION_MS
                       (d3_delay ANIMATION_DELAY_MS (d3_transition sel))) d) as Hs.
      destruct (d3_transition_attr name value _ d) as [[r'|] d'] eqn:E; [|done].
      cbn in Hs |- *. intros [= <-]. destruct (Hs r' eq_refl) as (-> & H1 & H2).
      done.
    + intros formatDate posV posH enter update d.
      destruct (Scheduled_render options d formatDate posV posH enter update d
                  (Scheduled_init options d)) as [(new & Hnew & Hall & _) _].
      eauto.
Qed.

(** ** Passes without entering elements *)

Lemma M_ret_run {A} (a : A) d : (mret a : M A) d = (Some a, d).
Proof. done. Qed.

Lemma for_nodes_empty {A B} (f : A → M B) n d :
  for_nodes f (replicate n None) d = (Some (replicate n None), d).
Proof.
  unfold for_nodes. induction n as [|n IH]; [done|].
  cbn [replicate for_each]. rewrite !M_bind_run. cbn. rewrite M_bind_run, IH. done.
Qed.

Lemma d3_select_this_empty test n d :
  d3_select_this test (replicate n None) d = (Some (replicate n None), d).
Proof.
  unfold d3_select_this. induction n as [|n IH]; [done|].
  cbn [replicate for_each]. rewrite !M_bind_run. cbn. rewrite M_bind_run, IH. done.
Qed.

Lemma d3_filter_empty test n d : d3_filter test (replicate n None) d = (Some [], d).
Proof.
  unfold d3_filter. rewrite M_bind_run, d3_select_this_empty. cbn. f_equal. f_equal.
  induction n as [|n IH]; [done|]. cbn [replicate]. rewrite filter_cons_False; [done|].
  by intros [? ?].
Qed.

Lemma d3_each_empty {S} (f : option Datum → S → option S) n acc d :
  d3_each f (replicate n None) acc d = (Some acc, d).
Proof. induction n as [|n IH]; [done|]. by cbn [replicate d3_each]. Qed.

Lemma d3_select_empty s n d :
  d3_select s (replicate n None) d = (Some (replicate n None), d).
Proof.
  unfold d3_select. induction n as [|n IH]; [done|].
  cbn [replicate for_each]. rewrite !M_bind_run. cbn. rewrite M_bind_run, IH. done.
Qed.

Lemma for_nodes_nil {A B} (f : A → M B) d : for_nodes f [] d = (Some [], d).
Proof. done. Qed.

Lemma target_attr_empty name value o n d :
  target_attr name value (transition o (replicate n None)) d
  = (Some (transition o (replicate n None)), d).
Proof.
  unfold transition. destruct (animate o); cbn [target_attr].
  - unfold d3_transition_attr, d3_duration, d3_delay, d3_transition. cbn [tr_nodes].
    by rewrite !M_bind_run, for_nodes_empty.
  - unfold d3_attr. by rewrite M_bind_run, for_nodes_empty.
Qed.

Lemma loop_bound_empty : loop_bound ∅ = [].
Proof. unfold loop_bound. by rewrite map_to_list_empty. Qed.

(** On a pass where no family enters, [renderFamily] leaves the document
    as it is, whatever the update selection holds: the source does not read
    its [update] argument. *)
Lemma renderFamily_without_enter formatDate options n update d :
  renderFamily formatDate options (replicate n None) update d = (Some (), d).
Proof.
  unfold renderFamily, d3_append, d3_attr, d3_attr_const, d3_on.
  destruct (famHrefFunc options), (famCallback options);
    repeat first [ rewrite M_bind_run | rewrite for_nodes_empty
                 | rewrite d3_each_empty | rewrite loop_bound_empty
                 | rewrite M_ret_run | progress cbv beta iota ];
    done.
Qed.

(** ** The update of a node that is drawn

    An update pass in which every person of the layout node persists is a
    sequence of selections, which bind the new data to the elements that are
    there, and of attributes set on them. The document that it leaves is
    computed below, layer by layer, and read back. *)

(** *** Queries see the shape of the document only *)

Section Shape.
Context (els els' : gmap nat Element).
Hypothesis Hshape : ∀ e, shape <$> els' !! e = shape <$> els !! e.

Lemma shape_size : size els' = size els.
Proof.
  rewrite <- !size_dom. f_equal. apply set_eq. intros e.
  by rewrite !elem_of_dom, <- !(fmap_is_Some shape), Hshape.
Qed.

Lemma shape_matches_compound c el el' :
  shape el' = shape el → matches_compound c el' = matches_compound c el.
Proof.
  unfold shape, matches_compound. intros H. injection H as H1 H2 _ _.
  by rewrite H1, H2.
Qed.

Lemma shape_lookup e el' :
  els' !! e = Some el' → ∃ el, els !! e = Some el ∧ shape el' = shape el.
Proof.
  intros H. pose proof (Hshape e) as He. rewrite H in He. cbn in He.
  destruct (els !! e) as [el|]; [|done]. apply (inj Some) in He. by exists el.
Qed.

Lemma shape_lookup_None e : els' !! e = None → els !! e = None.
Proof.
  intros H. pose proof (Hshape e) as He. rewrite H in He. cbn in He.
  by destruct (els !! e).
Qed.

Lemma shape_has_ancestor fuel c e :
  has_ancestor fuel els' c e = has_ancestor fuel els c e.
Proof.
  revert e. induction fuel as [|fuel IH]; intros e; [done|]. cbn [has_ancestor].
  assert (els' !! e ≫= parentNode = els !! e ≫= parentNode) as ->.
  { destruct (els' !! e) as [el'|] eqn:E.
    - destruct (shape_lookup _ _ E) as (el & -> & Hs). cbn.
      unfold shape in Hs. injection Hs as _ _ _ Hp. by rewrite Hp.
    - by rewrite (shape_lookup_None _ E). }
  destruct (els !! e ≫= parentNode) as [p|]; [|done].
  destruct (els' !! p) as [pel'|] eqn:E.
  - destruct (shape_lookup _ _ E) as (pel & -> & Hs).
    by rewrite (shape_matches_compound _ _ _ Hs), IH.
  - by rewrite (shape_lookup_None _ E).
Qed.

Lemma shape_matches s e : matches els' s e = matches els s e.
Proof.
  unfold matches. destruct (els' !! e) as [el'|] eqn:E.
  - destruct (shape_lookup _ _ E) as (el & -> & Hs).
    destruct s; rewrite (shape_matches_compound _ _ _ Hs); [done|].
    by rewrite shape_size, shape_has_ancestor.
  - by rewrite (shape_lookup_None _ E).
Qed.

Lemma shape_descendants fuel e : descendants fuel els' e = descendants fuel els e.
Proof.
  revert e. induction fuel as [|fuel IH]; intros e; [done|]. cbn [descendants].
  destruct (els' !! e) as [el'|] eqn:E.
  - destruct (shape_lookup _ _ E) as (el & -> & Hs).
    unfold shape in Hs. injection Hs as _ _ Hc _. rewrite Hc.
    apply flat_map_ext. intros c. by rewrite IH.
  - by rewrite (shape_lookup_None _ E).
Qed.

Lemma shape_querySelectorAll s e : querySelectorAll els' s e = querySelectorAll els s e.
Proof.
  unfold querySelectorAll. rewrite shape_size, shape_descendants.
  apply list_filter_iff. intros c. by rewrite shape_matches.
Qed.

Lemma shape_querySelector s e : querySelector els' s e = querySelector els s e.
Proof. unfold querySelector. by rewrite shape_querySelectorAll. Qed.

End Shape.

(** *** Changes of several elements *)

Lemma alter_all_next_id fs d : next_id (alter_all fs d) = next_id d.
Proof. revert d. induction fs as [|[e f] fs IH]; intros d; [done|]. cbn. by rewrite IH. Qed.

Lemma alter_all_tweens fs d : tweens (alter_all fs d) = tweens d.
Proof. revert d. induction fs as [|[e f] fs IH]; intros d; [done|]. cbn. by rewrite IH. Qed.

Lemma alter_all_miss fs d e :
  e ∉ fs.*1 → elements (alter_all fs d) !! e = elements d !! e.
Proof.
  revert d. induction fs as [|[e' f] fs IH]; intros d He; [done|]. cbn in *.
  apply not_elem_of_cons in He as [Hne He]. rewrite IH by done. cbn.
  by rewrite lookup_alter_ne.
Qed.

Lemma alter_all_hit fs d e f :
  NoDup fs.*1 → (e, f) ∈ fs → elements (alter_all fs d) !! e = f <$> elements d !! e.
Proof.
  revert d. induction fs as [|[e' f'] fs IH]; intros d Hnd He.
  - by apply elem_of_nil in He.
  - cbn in *. apply NoDup_cons in Hnd as [Hnotin Hnd].
    apply elem_of_cons in He as [[= <- <-]|He].
    + rewrite alter_all_miss by done. cbn. by rewrite lookup_alter_eq.
    + rewrite IH by done. cbn. rewrite lookup_alter_ne; [done|].
      intros ->. apply Hnotin. apply list_elem_of_fmap. by exists (e, f).
Qed.

Lemma alter_all_proj {X} (proj : Element → X) fs d e :
  (∀ e' f el, (e', f) ∈ fs → proj (f el) = proj el) →
  proj <$> elements (alter_all fs d) !! e = proj <$> elements d !! e.
Proof.
  revert d. induction fs as [|[e' f] fs IH]; intros d H; [done|]. cbn.
  rewrite IH by (intros ????; eapply H; by right). cbn.
  destruct (decide (e' = e)) as [->|Hne].
  - rewrite lookup_alter_eq. destruct (elements d !! e) as [el|]; [|done]. cbn.
    f_equal. eapply H. by left.
  - by rewrite lookup_alter_ne.
Qed.

Lemma alter_all_is_Some fs d e :
  is_Some (elements (alter_all fs d) !! e) ↔ is_Some (elements d !! e).
Proof.
  rewrite <- !(fmap_is_Some (λ _ : Element, ())).
  by rewrite (alter_all_proj (λ _, ()) fs d e).
Qed.

Lemma shape_set_datum x el : shape (set_datum x el) = shape el.
Proof. done. Qed.

Lemma shape_set_attribute name v el :
  name ≠ "class"%string → shape (set_attribute name v el) = shape el.
Proof.
  intros Hne. unfold shape, set_attribute. cbn. f_equal. f_equal. f_equal.
  destruct v; [by rewrite lookup_insert_ne|by rewrite lookup_delete_ne].
Qed.

Lemma datum_of_alter_all fs d e :
  (∀ e' f el, (e', f) ∈ fs → datum (f el) = datum el) →
  datum_of (alter_all fs d) e = datum_of d e.
Proof.
  intros H. unfold datum_of.
  pose proof (alter_all_proj datum fs d e H) as Hp.
  destruct (elements (alter_all fs d) !! e), (elements d !! e); cbn in *; congruence.
Qed.

Lemma attribute_of_alter_all fs d e name :
  (∀ e' f el, (e', f) ∈ fs → attributes (f el) !! name = attributes el !! name) →
  attribute_of (alter_all fs d) e name = attribute_of d e name.
Proof.
  intros H. unfold attribute_of.
  pose proof (alter_all_proj (λ el, attributes el !! name) fs d e H) as Hp.
  destruct (elements (alter_all fs d) !! e), (elements d !! e); cbn in *; congruence.
Qed.

Lemma alter_all_shape fs d :
  (∀ e' f el, (e', f) ∈ fs → shape (f el) = shape el) →
  ∀ e, shape <$> elements (alter_all fs d) !! e = shape <$> elements d !! e.
Proof. intros H e. by apply alter_all_proj. Qed.

(** *** Runs of the operations on given elements *)

Section Runs.
Context {A : Type}.

Lemma d3_attr_run name value (key : A → nat) (val : A → option string) (l : list A) d :
  (∀ a, a ∈ l → value (datum_of d (key a)) = Some (val a)) →
  d3_attr name value ((Some ∘ key) <$> l) d
  = (Some ((Some ∘ key) <$> l), attr_layer name key val l d).
Proof.
  unfold attr_layer.
  revert d. induction l as [|a l IH]; intros d H; [done|].
  cbn [fmap list_fmap compose]. rewrite d3_attr_some.
  unfold datum_of in H. rewrite (H a) by left.
  rewrite IH; [done|].
  intros b Hb. rewrite <- (H b) by (by right).
  apply (f_equal value).
  apply (datum_of_alter_all [(key a, set_attribute name (val a))] d (key b)).
  intros e' f el Hin%list_elem_of_singleton. by injection Hin as -> ->.
Qed.

Lemma d3_select_some s e sel d c x :
  querySelector (elements d) s e = Some c →
  datum_of d e = Some x →
  d3_select s (Some e :: sel) d
  = match d3_select s sel (alter_all [(c, set_datum (Some x))] d) with
    | (Some r, d') => (Some (Some c :: r), d')
    | (None, d') => (None, d')
    end.
Proof.
  intros Hq Hx. unfold d3_select. cbn [for_each].
  rewrite !M_bind_run. unfold getElements at 1. cbn beta iota. rewrite Hq.
  rewrite !M_bind_run. unfold getDatum at 1. cbn beta iota.
  unfold datum_of in Hx. rewrite Hx. rewrite !M_bind_run. unfold modify at 1.
  cbn beta iota. rewrite M_ret_run. rewrite M_bind_run. cbn [alter_all].
  by destruct (for_each _ sel _) as [[r|] d'].
Qed.

Lemma d3_select_run s (parent child : A → nat) (dat : A → Datum) (l : list A) d :
  (∀ a, a ∈ l → querySelector (elements d) s (parent a) = Some (child a)
                ∧ datum_of d (parent a) = Some (dat a)) →
  (∀ a b, a ∈ l → b ∈ l → parent b ≠ child a) →
  d3_select s ((Some ∘ parent) <$> l) d
  = (Some ((Some ∘ child) <$> l), bind_layer child dat l d).
Proof.
  unfold bind_layer. revert d. induction l as [|a l IH]; intros d H Hne; [done|].
  cbn [fmap list_fmap compose].
  destruct (H a) as [Hq Hx]; [by left|].
  rewrite (d3_select_some _ _ _ _ _ _ Hq Hx).
  rewrite IH; [done| |].
  - intros b Hb. destruct (H b) as [Hq' Hx']; [by right|]. split.
    + rewrite <- Hq'. apply shape_querySelector. apply alter_all_shape.
      intros e' f el Hin%list_elem_of_singleton. by injection Hin as -> ->.
    + rewrite <- Hx'. unfold datum_of. rewrite alter_all_miss; [done|].
      cbn. intros Hin%list_elem_of_singleton.
      by apply (Hne a b); [left|right|].
  - intros b b' Hb Hb'. apply Hne; by right.
Qed.

Lemma schedule_run name value delay duration (key : A → nat) (val : A → option string)
    (l : list A) d :
  (∀ a, a ∈ l → value (datum_of d (key a)) = Some (val a)) →
  for_nodes (λ e, dat ← getDatum e; v ← lift (value dat);
                  schedule (mkTween e name v delay duration))
    ((Some ∘ key) <$> l) d
  = (Some ((λ _, Some ()) <$> l),
     schedule_all ((λ a, mkTween (key a) name (val a) delay duration) <$> l) d).
Proof.
  revert d. induction l as [|a l IH]; intros d H.
  - unfold schedule_all. cbn. rewrite app_nil_r. by destruct d.
  - unfold for_nodes in *. cbn [fmap list_fmap compose for_each].
    rewrite !M_bind_run. unfold getDatum at 1. cbn beta iota.
    rewrite M_bind_run. unfold lift at 1. cbn beta iota.
    unfold datum_of in H. rewrite (H a) by left.
    unfold schedule at 1. cbn beta iota. rewrite M_ret_run, M_bind_run.
    rewrite IH by (intros b Hb; apply (H b); by right).
    rewrite M_ret_run. f_equal. unfold schedule_all. cbn. f_equal.
    by rewrite <- app_assoc.
Qed.

Lemma target_attr_run o name value (key : A → nat) (val : A → option string)
    (l : list A) d :
  (∀ a, a ∈ l → value (datum_of d (key a)) = Some (val a)) →
  target_attr name value (transition o ((Some ∘ key) <$> l)) d
  = (Some (transition o ((Some ∘ key) <$> l)), helper_layer o name key val l d).
Proof.
  intros H. unfold transition, helper_layer. destruct (animate o).
  - unfold target_attr, d3_transition_attr. rewrite !M_bind_run.
    cbn [tr_nodes tr_delay tr_duration d3_duration d3_delay d3_transition].
    by rewrite (schedule_run _ _ _ _ _ val) by done.
  - unfold target_attr. by rewrite M_bind_run, (d3_attr_run _ _ _ val) by done.
Qed.

End Runs.

Section Join.
Context {A : Type}.

Lemma nodesByKey_run key (node : A → nat) (kv : A → string) (l : list A) m d :
  (∀ a, a ∈ l → key (datum_of d (node a)) = Some (kv a)) →
  nodesByKey key (node <$> l) m d
  = (Some (m ∪ list_to_map ((λ a, (kv a, node a)) <$> l)), d).
Proof.
  revert m. induction l as [|a l IH]; intros m H.
  - cbn. by rewrite (right_id ∅ (∪)).
  - cbn [fmap list_fmap nodesByKey]. rewrite !M_bind_run.
    unfold getDatum at 1. cbn beta iota. rewrite M_bind_run. unfold lift at 1.
    cbn beta iota. unfold datum_of in H. rewrite (H a) by left.
    rewrite IH by (intros b Hb; apply (H b); by right).
    f_equal. f_equal. cbn [list_to_map foldr fst snd].
    destruct (m !! kv a) as [n|] eqn:E.
    + apply map_eq. intros k. rewrite !lookup_union.
      destruct (decide (k = kv a)) as [->|Hne].
      * rewrite E, lookup_insert_eq. by destruct (list_to_map _ !! kv a).
      * by rewrite lookup_insert_ne.
    + by rewrite <- insert_union_l, insert_union_r.
Qed.

Lemma bindData_run key parent (node : A → nat) (dat : A → Datum) (kv : A → string)
    (l : list A) m d :
  (∀ a, a ∈ l → key (Some (dat a)) = Some (kv a) ∧ m !! kv a = Some (node a)) →
  NoDup (kv <$> l) →
  bindData key parent (dat <$> l) m d
  = (Some ((λ a, (Some (node a), None)) <$> l),
     alter_all ((λ a, (node a, set_datum (Some (dat a)))) <$> l) d).
Proof.
  revert m d. induction l as [|a l IH]; intros m d H Hnd; [done|].
  cbn [fmap list_fmap bindData]. rewrite !M_bind_run. unfold lift at 1.
  cbn beta iota. destruct (H a) as [-> ->]; [by left|].
  rewrite !M_bind_run. unfold modify at 1. cbn beta iota.
  rewrite fmap_cons in Hnd. apply NoDup_cons in Hnd as [Hnotin Hnd].
  rewrite M_bind_run, IH; [done| |done].
  intros b Hb. destruct (H b) as [Hk Hm]; [by right|]. split; [done|].
  rewrite lookup_delete_ne; [done|].
  intros Heq. apply Hnotin. rewrite Heq. apply list_elem_of_fmap. by exists b.
Qed.

Lemma linkEnter_matched (node : A → nat) (l : list A) :
  linkEnter ((λ a, (Some (node a), None)) <$> l) = replicate (length l) None.
Proof. induction l as [|a l IH]; [done|]. cbn. by rewrite IH. Qed.

Lemma d3_selectAll_data_run s value key (node : A → nat) (dat : A → Datum)
    (kv : A → string) (l : list A) parent x d :
  querySelectorAll (elements d) s parent = node <$> l →
  datum_of d parent = Some x →
  value (Some x) = Some (dat <$> l) →
  (∀ a, a ∈ l → key (datum_of d (node a)) = Some (kv a)
                ∧ key (Some (dat a)) = Some (kv a)) →
  NoDup (kv <$> l) →
  d3_selectAll_data s value key [Some parent] d
  = (Some ((Some ∘ node) <$> l, replicate (length l) None), bind_layer node dat l d).
Proof.
  intros Hq Hx Hv H Hnd. unfold d3_selectAll_data. cbn [omap list_omap id for_each].
  rewrite !M_bind_run. unfold getElements at 1. cbn beta iota zeta.
  rewrite !M_bind_run. unfold getDatum at 1. cbn beta iota.
  unfold datum_of in Hx. rewrite Hx. rewrite !M_bind_run. unfold lift at 1.
  cbn beta iota. rewrite Hv. rewrite !M_bind_run, Hq.
  rewrite (nodesByKey_run key node kv l ∅ d) by (intros a Ha; by apply H).
  rewrite (left_id ∅ (∪)).
  rewrite M_bind_run, (bindData_run key parent node dat kv); [| |done].
  - unfold mbind, mret, M_bind, M_ret. cbn. rewrite !app_nil_r, linkEnter_matched.
    by rewrite <- list_fmap_compose.
  - intros a Ha. split; [by apply H|].
    apply elem_of_list_to_map_1.
    + by rewrite <- list_fmap_compose.
    + apply list_elem_of_fmap. by exists a.
Qed.

End Join.

Lemma d3_merge_update sel : d3_merge (replicate (length sel) None) sel = sel.
Proof. induction sel as [|[e|] sel IH]; [done| |]; cbn; by rewrite IH. Qed.

Lemma d3_attr_const_empty name value n d :
  d3_attr_const name value (replicate n None) d = (Some (replicate n None), d).
Proof. apply for_nodes_empty. Qed.

Lemma d3_attr_empty name value n d :
  d3_attr name value (replicate n None) d = (Some (replicate n None), d).
Proof. apply for_nodes_empty. Qed.

Lemma d3_text_empty value n d :
  d3_text value (replicate n None) d = (Some (replicate n None), d).
Proof. apply for_nodes_empty. Qed.

Lemma d3_append_empty tag n d :
  d3_append tag (replicate n None) d = (Some (replicate n None), d).
Proof. apply for_nodes_empty. Qed.

Lemma d3_enter_append_empty tag n d :
  d3_enter_append tag (replicate n None) d = (Some (replicate n None), d).
Proof. apply for_nodes_empty. Qed.

Lemma d3_on_empty type l n d : d3_on type l (replicate n None) d = (Some (), d).
Proof. unfold d3_on. by rewrite M_bind_run, for_nodes_empty. Qed.

Lemma d3_append_nil tag d : d3_append tag [] d = (Some [], d).
Proof. done. Qed.


(** *** Reading a document through the layers *)

Section Layers.
Context {A : Type}.
Implicit Types (key : A → nat) (l : list A) (d : DOM).

Lemma bind_layer_fst key (dat : A → Datum) l :
  ((λ a, (key a, set_datum (Some (dat a)))) <$> l).*1 = key <$> l.
Proof. by rewrite <- list_fmap_compose. Qed.

Lemma attr_layer_fst name key (val : A → option string) l :
  ((λ a, (key a, set_attribute name (val a))) <$> l).*1 = key <$> l.
Proof. by rewrite <- list_fmap_compose. Qed.

Lemma bind_layer_shape key dat l d e :
  shape <$> elements (bind_layer key dat l d) !! e = shape <$> elements d !! e.
Proof.
  apply alter_all_shape. intros e' f el (a & [= -> ->] & _)%list_elem_of_fmap. done.
Qed.

Lemma attr_layer_shape name key val l d e :
  name ≠ "class"%string →
  shape <$> elements (attr_layer name key val l d) !! e = shape <$> elements d !! e.
Proof.
  intros Hne. apply alter_all_shape.
  intros e' f el (a & [= -> ->] & _)%list_elem_of_fmap. by apply shape_set_attribute.
Qed.

Lemma helper_layer_shape o name key val l d e :
  name ≠ "class"%string →
  shape <$> elements (helper_layer o name key val l d) !! e = shape <$> elements d !! e.
Proof.
  intros Hne. unfold helper_layer. destruct (animate o); [done|].
  by apply attr_layer_shape.
Qed.

Lemma bind_layer_miss key dat l d e :
  e ∉ key <$> l → elements (bind_layer key dat l d) !! e = elements d !! e.
Proof. intros H. apply alter_all_miss. by rewrite bind_layer_fst. Qed.

Lemma attr_layer_miss name key val l d e :
  e ∉ key <$> l → elements (attr_layer name key val l d) !! e = elements d !! e.
Proof. intros H. apply alter_all_miss. by rewrite attr_layer_fst. Qed.

Lemma helper_layer_miss o name key val l d e :
  e ∉ key <$> l → elements (helper_layer o name key val l d) !! e = elements d !! e.
Proof.
  intros H. unfold helper_layer. destruct (animate o); [done|]. by apply attr_layer_miss.
Qed.

Lemma bind_layer_hit key dat l d a :
  NoDup (key <$> l) → a ∈ l →
  elements (bind_layer key dat l d) !! key a
  = set_datum (Some (dat a)) <$> elements d !! key a.
Proof.
  intros Hnd Ha. apply alter_all_hit; [by rewrite bind_layer_fst|].
  apply list_elem_of_fmap. by exists a.
Qed.

Lemma attr_layer_hit name key val l d a :
  NoDup (key <$> l) → a ∈ l →
  elements (attr_layer name key val l d) !! key a
  = set_attribute name (val a) <$> elements d !! key a.
Proof.
  intros Hnd Ha. apply alter_all_hit; [by rewrite attr_layer_fst|].
  apply list_elem_of_fmap. by exists a.
Qed.

Lemma bind_layer_datum_miss key dat l d e :
  e ∉ key <$> l → datum_of (bind_layer key dat l d) e = datum_of d e.
Proof. intros H. unfold datum_of. by rewrite bind_layer_miss. Qed.

Lemma bind_layer_datum_hit key dat l d a :
  NoDup (key <$> l) → a ∈ l → is_Some (elements d !! key a) →
  datum_of (bind_layer key dat l d) (key a) = Some (dat a).
Proof.
  intros Hnd Ha [el Hel]. unfold datum_of. rewrite bind_layer_hit by done.
  by rewrite Hel.
Qed.

Lemma attr_layer_datum name key val l d e :
  datum_of (attr_layer name key val l d) e = datum_of d e.
Proof.
  apply datum_of_alter_all. intros e' f el (a & [= -> ->] & _)%list_elem_of_fmap. done.
Qed.

Lemma helper_layer_datum o name key val l d e :
  datum_of (helper_layer o name key val l d) e = datum_of d e.
Proof.
  unfold helper_layer. destruct (animate o); [done|]. apply attr_layer_datum.
Qed.

Lemma bind_layer_attribute key dat l d e name :
  attribute_of (bind_layer key dat l d) e name = attribute_of d e name.
Proof.
  apply attribute_of_alter_all.
  intros e' f el (a & [= -> ->] & _)%list_elem_of_fmap. done.
Qed.

Lemma attr_layer_attribute_other name key val l d e name' :
  name' ≠ name →
  attribute_of (attr_layer name key val l d) e name' = attribute_of d e name'.
Proof.
  intros Hne. apply attribute_of_alter_all.
  intros e' f el (a & [= -> ->] & _)%list_elem_of_fmap. cbn.
  destruct (val a); [by rewrite lookup_insert_ne|by rewrite lookup_delete_ne].
Qed.

Lemma attr_layer_attribute_miss name key val l d e name' :
  e ∉ key <$> l →
  attribute_of (attr_layer name key val l d) e name' = attribute_of d e name'.
Proof. intros H. unfold attribute_of. by rewrite attr_layer_miss. Qed.

Lemma attr_layer_attribute_hit name key val l d a :
  NoDup (key <$> l) → a ∈ l → is_Some (elements d !! key a) →
  attribute_of (attr_layer name key val l d) (key a) name = val a.
Proof.
  intros Hnd Ha [el Hel]. unfold attribute_of. rewrite attr_layer_hit by done.
  rewrite Hel. cbn. destruct (val a); [by rewrite lookup_insert_eq|by rewrite lookup_delete_eq].
Qed.

Lemma bind_layer_next_id key dat l d : next_id (bind_layer key dat l d) = next_id d.
Proof. apply alter_all_next_id. Qed.

Lemma attr_layer_next_id name key val l d :
  next_id (attr_layer name key val l d) = next_id d.
Proof. apply alter_all_next_id. Qed.

Lemma helper_layer_next_id o name key val l d :
  next_id (helper_layer o name key val l d) = next_id d.
Proof. unfold helper_layer. destruct (animate o); [done|]. apply alter_all_next_id. Qed.

Lemma bind_layer_tweens key dat l d : tweens (bind_layer key dat l d) = tweens d.
Proof. apply alter_all_tweens. Qed.

Lemma attr_layer_tweens name key val l d :
  tweens (attr_layer name key val l d) = tweens d.
Proof. apply alter_all_tweens. Qed.

End Layers.

Lemma shape_is_Some (els els' : gmap nat Element) :
  (∀ e, shape <$> els' !! e = shape <$> els !! e) →
  ∀ e, is_Some (els' !! e) ↔ is_Some (els !! e).
Proof. intros H e. by rewrite <- !(fmap_is_Some shape), H. Qed.

Lemma querySelector_is_Some els s e c :
  querySelector els s e = Some c → is_Some (els !! c).
Proof.
  intros H%querySelector_matches. unfold matches in H.
  destruct (els !! c); [by eexists|done].
Qed.

Lemma d3_merge_entering {A} (f : A → option nat) (l : list A) :
  d3_merge (replicate (length l) None) (f <$> l) = f <$> l.
Proof. induction l as [|a l IH]; [done|]. cbn. by rewrite IH. Qed.

Lemma for_each_nil {A B} (f : A → M B) d : for_each f [] d = (Some [], d).
Proof. done. Qed.

Lemma d3_attr_const_nil name value d : d3_attr_const name value [] d = (Some [], d).
Proof. done. Qed.

Ltac quiet_step :=
  first [ rewrite M_bind_run
        | rewrite d3_append_empty | rewrite d3_attr_empty | rewrite d3_attr_const_empty
        | rewrite d3_text_empty | rewrite d3_on_empty | rewrite d3_filter_empty
        | rewrite d3_each_empty | rewrite loop_bound_empty | rewrite d3_select_this_empty
        | rewrite for_nodes_nil | rewrite d3_attr_nil | rewrite d3_append_nil
        | rewrite for_each_nil | rewrite d3_attr_const_nil
        | rewrite d3_enter_append_empty | rewrite d3_select_empty
        | rewrite M_ret_run | progress cbv beta iota ].

Section Indi.
Context (o : RendererOptions) (l : list (PersonBox * OffsetIndi.t)).

Local Abbreviation grp := (λ a : PersonBox * OffsetIndi.t, box_group a.1).
Local Abbreviation cont := (λ a : PersonBox * OffsetIndi.t, box_content a.1).
Local Abbreviation bg := (λ a : PersonBox * OffsetIndi.t, box_background a.1).
Local Abbreviation clip := (λ a : PersonBox * OffsetIndi.t, box_clip a.1).
Local Abbreviation bd := (λ a : PersonBox * OffsetIndi.t, box_border a.1).
Local Abbreviation new := (λ a : PersonBox * OffsetIndi.t, DIndi a.2).

Lemma settled_bind key d d' :
  (∀ a b, a ∈ l → b ∈ l → box_content b.1 ≠ key a) →
  settled l d d' → settled l d (bind_layer key new l d').
Proof.
  intros Hne [Hs Hd]. split.
  - intros e. by rewrite bind_layer_shape.
  - intros a Ha. rewrite bind_layer_datum_miss; [by apply Hd|].
    intros (b & Heq & Hb)%list_elem_of_fmap. by apply (Hne b a).
Qed.

Lemma settled_attr name key val d d' :
  name ≠ "class"%string → settled l d d' → settled l d (attr_layer name key val l d').
Proof.
  intros Hne [Hs Hd]. split.
  - intros e. by rewrite attr_layer_shape.
  - intros a Ha. rewrite attr_layer_datum. by apply Hd.
Qed.

Lemma settled_helper name key val d d' :
  name ≠ "class"%string → settled l d d' → settled l d (helper_layer o name key val l d').
Proof.
  intros Hne [Hs Hd]. split.
  - intros e. by rewrite helper_layer_shape.
  - intros a Ha. rewrite helper_layer_datum. by apply Hd.
Qed.

Lemma settled_query d d' s e :
  settled l d d' → querySelector (elements d') s e = querySelector (elements d) s e.
Proof. intros [Hs _]. by apply shape_querySelector. Qed.

Lemma settled_select s key d d' :
  settled l d d' →
  (∀ a, a ∈ l → querySelector (elements d) s (box_content a.1) = Some (key a)) →
  (∀ a b, a ∈ l → b ∈ l → box_content b.1 ≠ key a) →
  d3_select s ((Some ∘ cont) <$> l) d'
  = (Some ((Some ∘ key) <$> l), bind_layer key new l d').
Proof.
  intros Hst Hq Hne. apply (d3_select_run s cont key new l d').
  - intros a Ha. split; [|by apply Hst].
    rewrite (settled_query d d') by done. by apply Hq.
  - intros a b Ha Hb. by apply Hne.
Qed.

Lemma settled_bound s key d d' a :
  settled l d d' →
  (∀ a, a ∈ l → querySelector (elements d) s (box_content a.1) = Some (key a)) →
  NoDup (key <$> l) → a ∈ l →
  datum_of (bind_layer key new l d') (key a) = Some (DIndi a.2).
Proof.
  intros [Hs _] Hq Hnd Ha. apply (bind_layer_datum_hit key new l d' a Hnd Ha).
  apply (shape_is_Some _ _ Hs). apply (querySelector_is_Some _ _ _ _ (Hq a Ha)).
Qed.

Lemma renderIndi_update_run d :
  (∀ a, a ∈ l → box_queries o d a.1 ∧ datum_of d (box_group a.1) = Some (DIndi a.2)) →
  (is_Some (indiHrefFunc o) → NoDup (cont <$> l)) →
  NoDup (bg <$> l) → NoDup (clip <$> l) → NoDup (bd <$> l) →
  (∀ a b, a ∈ l → b ∈ l →
     (is_Some (indiHrefFunc o) → box_group b.1 ≠ box_content a.1)
     ∧ box_content b.1 ≠ box_background a.1
     ∧ box_content b.1 ≠ box_clip a.1
     ∧ box_content b.1 ≠ box_border a.1) →
  renderIndi o (replicate (length l) None) ((Some ∘ grp) <$> l) d
  = (Some (), renderIndi_update o l d).
Proof.
  intros H Hndc Hndbg Hndcl Hndbd Hne.
  unfold renderIndi, renderIndi_update.
  set (d1 := match indiHrefFunc o with
             | Some _ => bind_layer cont new l d
             | None => d
             end).
  assert (∀ e, shape <$> elements d1 !! e = shape <$> elements d !! e) as Hs1.
  { intros e. unfold d1. destruct (indiHrefFunc o); [apply bind_layer_shape|done]. }
  assert (∀ a, a ∈ l → datum_of d1 (cont a) = Some (new a)) as Hd1.
  { intros a Ha. destruct (H a Ha) as [(Hq & _) Hdat]. unfold d1.
    destruct (indiHrefFunc o) eqn:Hh.
    - apply (bind_layer_datum_hit cont new l d a); [by apply Hndc|done|].
      by apply querySelector_is_Some in Hq.
    - cbn beta. by rewrite Hq. }
  assert (∀ s a, a ∈ l → querySelector (elements d1) s (cont a)
                         = querySelector (elements d) s (cont a)) as Hq1.
  { intros s a _. by apply shape_querySelector. }
  match goal with
  | |- (?m ≫= ?k) d = _ =>
      assert (m d = (Some (replicate (length l) None, (Some ∘ cont) <$> l), d1)) as Hfirst
  end.
  { unfold d1. destruct (indiHrefFunc o) eqn:Hh.
    - repeat quiet_step.
      rewrite (d3_select_run _ grp cont new l d); [done| |].
      + intros a Ha. destruct (H a Ha) as [(Hq & _) Hdat]. by rewrite Hh in Hq.
      + intros a b Ha Hb. apply (Hne a b Ha Hb). by eexists.
    - rewrite M_ret_run. do 3 f_equal. apply list_fmap_ext. intros i a Ha.
      apply list_elem_of_lookup_2 in Ha. destruct (H a Ha) as [(Hq & _) _].
      rewrite Hh in Hq. cbn. by rewrite Hq. }
  rewrite M_bind_run, Hfirst. cbv beta iota. clear Hfirst.
  assert ((if indiCallback o
           then d3_on "click" IndiClick (replicate (length l) None) else mret ()) d1
          = (Some (), d1)) as Hcb.
  { destruct (indiCallback o); [apply d3_on_empty|done]. }
  rewrite M_bind_run, Hcb. cbv beta iota. clear Hcb.
  assert (settled l d d1) as Hst1 by done.
  clearbody d1. clear Hs1 Hd1 Hq1.
  assert (∀ a, a ∈ l →
            querySelector (elements d)
              (Simple (mkCompound "rect" (Some "background"%string))) (box_content a.1)
            = Some (box_background a.1)) as Hqbg.
  { intros a Ha. apply (H a Ha). }
  assert (∀ a, a ∈ l →
            querySelector (elements d)
              (Descendant (mkCompound "clipPath" None) (mkCompound "rect" None))
              (box_content a.1)
            = Some (box_clip a.1)) as Hqcl.
  { intros a Ha. apply (H a Ha). }
  assert (∀ a, a ∈ l →
            querySelector (elements d)
              (Simple (mkCompound "rect" (Some "border"%string))) (box_content a.1)
            = Some (box_border a.1)) as Hqbd.
  { intros a Ha. apply (H a Ha). }
  assert (∀ a b, a ∈ l → b ∈ l → box_content b.1 ≠ box_background a.1) as Hnbg.
  { intros a b Ha Hb. apply (Hne a b Ha Hb). }
  assert (∀ a b, a ∈ l → b ∈ l → box_content b.1 ≠ box_clip a.1) as Hncl.
  { intros a b Ha Hb. apply (Hne a b Ha Hb). }
  assert (∀ a b, a ∈ l → b ∈ l → box_content b.1 ≠ box_border a.1) as Hnbd.
  { intros a b Ha Hb. apply (Hne a b Ha Hb). }
  (* Background. *)
  repeat quiet_step.
  rewrite (settled_select _ bg d d1 Hst1 Hqbg Hnbg). cbv beta iota.
  rewrite d3_merge_entering.
  pose proof (settled_bind bg d d1 Hnbg Hst1) as Hst2.
  pose proof (λ a, settled_bound _ bg d d1 a Hst1 Hqbg Hndbg) as Hb2.
  set (d2 := bind_layer bg new l d1) in *.
  rewrite !M_bind_run.
  rewrite (target_attr_run o "width" _ bg person_width l d2).
  2:{ intros a Ha. by rewrite (Hb2 a Ha). }
  cbv beta iota.
  rewrite (target_attr_run o "height" _ bg person_height l).
  2:{ intros a Ha. by rewrite helper_layer_datum, (Hb2 a Ha). }
  cbv beta iota.
  pose proof (settled_helper "height" bg person_height d _
                ltac:(done) (settled_helper "width" bg person_width d d2
                               ltac:(done) Hst2)) as Hst4.
  set (d4 := helper_layer o "height" _ _ _ (helper_layer o "width" _ _ _ d2)) in *.
  clearbody d4. clear Hb2 Hst2. clearbody d2.
  (* Clip path. *)
  repeat quiet_step.
  rewrite (settled_select _ clip d d4 Hst4 Hqcl Hncl). cbv beta iota.
  rewrite d3_merge_entering.
  pose proof (settled_bind clip d d4 Hncl Hst4) as Hst5.
  pose proof (λ a, settled_bound _ clip d d4 a Hst4 Hqcl Hndcl) as Hb5.
  set (d5 := bind_layer clip new l d4) in *.
  rewrite !M_bind_run.
  rewrite (d3_attr_run "width" _ clip person_width l d5).
  2:{ intros a Ha. by rewrite (Hb5 a Ha). }
  cbv beta iota.
  rewrite (d3_attr_run "height" _ clip person_height l).
  2:{ intros a Ha. by rewrite attr_layer_datum, (Hb5 a Ha). }
  cbv beta iota.
  pose proof (settled_attr "height" clip person_height d _
                ltac:(done) (settled_attr "width" clip person_width d d5
                               ltac:(done) Hst5)) as Hst7.
  set (d7 := attr_layer "height" _ _ _ (attr_layer "width" _ _ _ d5)) in *.
  clearbody d7. clear Hb5 Hst5. clearbody d5.
  (* Texts, details, image, border. *)
  repeat quiet_step.
  rewrite (settled_select _ bd d d7 Hst7 Hqbd Hnbd). cbv beta iota.
  rewrite d3_merge_entering.
  pose proof (λ a, settled_bound _ bd d d7 a Hst7 Hqbd Hndbd) as Hb8.
  set (d8 := bind_layer bd new l d7) in *.
  rewrite !M_bind_run.
  rewrite (target_attr_run o "width" _ bd person_width l d8).
  2:{ intros a Ha. by rewrite (Hb8 a Ha). }
  cbv beta iota.
  rewrite (target_attr_run o "height" _ bd person_height l).
  2:{ intros a Ha. by rewrite helper_layer_datum, (Hb8 a Ha). }
  done.
Qed.

End Indi.

Lemma d3_select_this_one test e b d :
  test (datum_of d e) = Some b →
  d3_select_this test [Some e] d = (Some [if b then Some e else None], d).
Proof.
  intros H. unfold d3_select_this. cbn [for_each]. rewrite !M_bind_run.
  unfold getDatum at 1. cbn beta iota. rewrite M_bind_run. unfold lift at 1.
  cbn beta iota. unfold datum_of in H. by rewrite H.
Qed.

Lemma d3_select_one_none s e d :
  querySelector (elements d) s e = None → d3_select s [Some e] d = (Some [None], d).
Proof.
  intros H. unfold d3_select. cbn [for_each]. rewrite !M_bind_run.
  unfold getElements at 1. cbn beta iota. by rewrite H.
Qed.

Lemma map_fmap {A B} (f : A → B) (l : list A) : map f l = f <$> l.
Proof. induction l as [|a l IH]; [done|]. cbn. by rewrite IH. Qed.

Section Boxes.
Context (o : RendererOptions) (l : list (PersonBox * OffsetIndi.t)).

Lemma renderIndi_update_shape d e :
  shape <$> elements (renderIndi_update o l d) !! e = shape <$> elements d !! e.
Proof.
  unfold renderIndi_update. cbv zeta.
  repeat first [ rewrite helper_layer_shape by done | rewrite bind_layer_shape
               | rewrite attr_layer_shape by done ].
  destruct (indiHrefFunc o); [apply bind_layer_shape|done].
Qed.

Lemma renderIndi_update_next_id d : next_id (renderIndi_update o l d) = next_id d.
Proof.
  unfold renderIndi_update. cbv zeta.
  repeat first [ rewrite helper_layer_next_id | rewrite bind_layer_next_id
               | rewrite attr_layer_next_id ].
  destruct (indiHrefFunc o); [apply bind_layer_next_id|done].
Qed.

Lemma renderIndi_update_miss d e :
  (is_Some (indiHrefFunc o) → e ∉ (λ a, box_content a.1) <$> l) →
  e ∉ (λ a, box_background a.1) <$> l →
  e ∉ (λ a, box_clip a.1) <$> l →
  e ∉ (λ a, box_border a.1) <$> l →
  elements (renderIndi_update o l d) !! e = elements d !! e.
Proof.
  intros Hc Hbg Hcl Hbd. unfold renderIndi_update. cbv zeta.
  repeat first [ rewrite helper_layer_miss by done | rewrite bind_layer_miss by done
               | rewrite attr_layer_miss by done ].
  destruct (indiHrefFunc o); [|done]. apply bind_layer_miss. apply Hc. by eexists.
Qed.

End Boxes.

Lemma handles_NoDup (u gd : nat) (F G C B K R : list nat) :
  NoDup (u :: gd :: F ++ G ++ C ++ B ++ K ++ R) →
  (u ≠ gd ∧ (u ∉ F) ∧ (u ∉ G) ∧ (u ∉ C) ∧ (u ∉ B) ∧ (u ∉ K) ∧ (u ∉ R))
  ∧ ((gd ∉ F) ∧ (gd ∉ G) ∧ (gd ∉ C) ∧ (gd ∉ B) ∧ (gd ∉ K) ∧ (gd ∉ R))
  ∧ (∀ x, x ∈ F → (x ∉ G) ∧ (x ∉ C) ∧ (x ∉ B) ∧ (x ∉ K) ∧ (x ∉ R))
  ∧ (∀ x, x ∈ G → (x ∉ C) ∧ (x ∉ B) ∧ (x ∉ K) ∧ (x ∉ R))
  ∧ (∀ x, x ∈ C → (x ∉ B) ∧ (x ∉ K) ∧ (x ∉ R))
  ∧ (∀ x, x ∈ B → (x ∉ K) ∧ (x ∉ R))
  ∧ (∀ x, x ∈ K → x ∉ R)
  ∧ NoDup G ∧ NoDup C ∧ NoDup B ∧ NoDup K ∧ NoDup R.
Proof.
  intros H. apply NoDup_cons in H as [Hu H]. apply NoDup_cons in H as [Hgd H].
  apply NoDup_app in H as (_ & HF & H). apply NoDup_app in H as (HG & HGx & H).
  apply NoDup_app in H as (HC & HCx & H). apply NoDup_app in H as (HB & HBx & H).
  apply NoDup_app in H as (HK & HKx & HR).
  repeat split; try done; set_solver.
Qed.

Lemma box_queries_shape o d d' b :
  (∀ e, shape <$> elements d' !! e = shape <$> elements d !! e) →
  box_queries o d b → box_queries o d' b.
Proof.
  intros Hs (H1 & H2 & H3 & H4). unfold box_queries.
  rewrite !(shape_querySelector _ _ Hs). by repeat split.
Qed.

Section Pass.
Context (formatDate : Date → option string → string).
Context (getFamPositionVertical getFamPositionHorizontal : TreeNode.t → jsnum).
Context (o : RendererOptions) (l : list (PersonBox * OffsetIndi.t)).
Context (d : DOM) (u gd : nat) (fam : option nat) (node : TreeNode.t).

Local Abbreviation grp := (λ a : PersonBox * OffsetIndi.t, box_group a.1).
Local Abbreviation cont := (λ a : PersonBox * OffsetIndi.t, box_content a.1).
Local Abbreviation bg := (λ a : PersonBox * OffsetIndi.t, box_background a.1).
Local Abbreviation clip := (λ a : PersonBox * OffsetIndi.t, box_clip a.1).
Local Abbreviation bd := (λ a : PersonBox * OffsetIndi.t, box_border a.1).
Local Abbreviation new := (λ a : PersonBox * OffsetIndi.t, DIndi a.2).

Hypothesis Hdrawn : drawn o d u gd fam l.
Hypothesis Hnode : datum_of d u = Some (DNode node).
Hypothesis Hpeople :
  snd <$> l = render_data getFamPositionVertical getFamPositionHorizontal o node.
Hypothesis Hids : NoDup ((λ a, TreeEntry.id (OffsetIndi.indi a.2)) <$> l).
Hypothesis Hfam :
  is_Some (TreeNode.family node) → is_Some fam →
  is_Some (getFamTransform getFamPositionVertical getFamPositionHorizontal o node).

Lemma drawn_distinct :
  (u ≠ gd ∧ (u ∉ option_list fam) ∧ (u ∉ grp <$> l)
   ∧ (is_Some (indiHrefFunc o) → u ∉ cont <$> l)
   ∧ (u ∉ bg <$> l) ∧ (u ∉ clip <$> l) ∧ (u ∉ bd <$> l))
  ∧ ((gd ∉ option_list fam) ∧ (gd ∉ grp <$> l)
     ∧ (is_Some (indiHrefFunc o) → gd ∉ cont <$> l)
     ∧ (gd ∉ bg <$> l) ∧ (gd ∉ clip <$> l) ∧ (gd ∉ bd <$> l))
  ∧ (∀ x, x ∈ option_list fam →
       (x ∉ grp <$> l) ∧ (is_Some (indiHrefFunc o) → x ∉ cont <$> l)
       ∧ (x ∉ bg <$> l) ∧ (x ∉ clip <$> l) ∧ (x ∉ bd <$> l))
  ∧ (∀ x, x ∈ grp <$> l →
       (is_Some (indiHrefFunc o) → x ∉ cont <$> l)
       ∧ (x ∉ bg <$> l) ∧ (x ∉ clip <$> l) ∧ (x ∉ bd <$> l))
  ∧ (∀ x, x ∈ cont <$> l → (x ∉ bg <$> l) ∧ (x ∉ clip <$> l) ∧ (x ∉ bd <$> l))
  ∧ (∀ x, x ∈ bg <$> l → (x ∉ clip <$> l) ∧ (x ∉ bd <$> l))
  ∧ (∀ x, x ∈ clip <$> l → x ∉ bd <$> l)
  ∧ NoDup (grp <$> l) ∧ (is_Some (indiHrefFunc o) → NoDup (cont <$> l))
  ∧ NoDup (bg <$> l) ∧ NoDup (clip <$> l) ∧ NoDup (bd <$> l).
Proof.
  destruct Hdrawn as (_ & _ & _ & Hq & Hnd). unfold node_handles in Hnd.
  apply handles_NoDup in Hnd
    as ((?&?&?&?&?&?&?) & (?&?&?&?&?&?) & HF & HG & HC & HB & HK & ?&?&?&?&?).
  assert (∀ x, x ∈ cont <$> l →
            (x ∉ bg <$> l) ∧ (x ∉ clip <$> l) ∧ (x ∉ bd <$> l)) as HC'.
  { intros x Hx. destruct (indiHrefFunc o) eqn:Hh.
    - destruct (HC x Hx) as (?&?&?). done.
    - apply list_elem_of_fmap in Hx as (a & -> & Ha).
      destruct (Hq a Ha) as [(Hc & _) _]. rewrite Hh in Hc. cbn beta. rewrite Hc.
      destruct (HG (box_group a.1)) as (?&?&?&?); [|done].
      apply list_elem_of_fmap. by exists a. }
  split; [|split; [|split; [|split; [|split; [|split; [|split]]]]]].
  - repeat split; try done. intros [h Hh]. by rewrite Hh in *.
  - repeat split; try done. intros [h Hh]. by rewrite Hh in *.
  - intros x Hx. destruct (HF x Hx) as (?&?&?&?&?). repeat split; try done.
    intros [h Hh]. by rewrite Hh in *.
  - intros x Hx. destruct (HG x Hx) as (?&?&?&?). repeat split; try done.
    intros [h Hh]. by rewrite Hh in *.
  - done.
  - done.
  - done.
  - repeat split; try done. intros [h Hh]. by rewrite Hh in *.
Qed.


Lemma render_update_run :
  render formatDate getFamPositionVertical getFamPositionHorizontal o [None] [Some u] d
  = (Some (),
     render_update getFamPositionVertical getFamPositionHorizontal o gd fam l node d).
Proof.
  destruct drawn_distinct
    as ((Hugd & _) & (HgdF & HgdG & HgdC & HgdB & HgdK & HgdR) & HF & HG & HC & HB & HK
        & HnG & HnC & HnB & HnK & HnR).
  destruct Hdrawn as (Hqgd & Hqall & Hqfam & Hq & _).
  unfold render, render_update. change [@None nat] with (replicate 1 (@None nat)).
  repeat quiet_step.
  (* The group of the node. *)
  pose proof (d3_select_run (Simple (mkCompound "g" None))
                (λ _ : (), u) (λ _, gd) (λ _, DNode node) [()] d) as Hsel.
  cbn [fmap list_fmap compose] in Hsel. rewrite Hsel; clear Hsel.
  2:{ intros _ _. done. }
  2:{ intros _ _ _ _. done. }
  cbv beta iota.
  set (d1 := bind_layer (λ _ : (), gd) (λ _, DNode node) [()] d).
  assert (∀ e, shape <$> elements d1 !! e = shape <$> elements d !! e) as Hs1.
  { intros e. apply bind_layer_shape. }
  assert (datum_of d1 gd = Some (DNode node)) as Hgd1.
  { apply (bind_layer_datum_hit (λ _ : (), gd) (λ _, DNode node) [()] d ()).
    - apply NoDup_singleton.
    - by left.
    - by apply querySelector_is_Some in Hqgd. }
  (* The join. *)
  change (d3_merge (replicate 1 None) [Some gd]) with [Some gd].
  rewrite M_bind_run.
  rewrite (d3_selectAll_data_run _ _ _ grp new
             (λ a, TreeEntry.id (OffsetIndi.indi a.2)) l gd (DNode node) d1).
  2:{ rewrite <- Hqall. by apply shape_querySelectorAll. }
  2:{ done. }
  2:{ cbn. rewrite <- Hpeople, map_fmap. by rewrite <- list_fmap_compose. }
  2:{ intros a Ha. split; [|done].
      destruct (Hq a Ha) as [_ (old & Hold & Hid)].
      unfold d1. rewrite bind_layer_datum_miss.
      - rewrite Hold. cbn. unfold render_key. by rewrite Hid.
      - cbn. intros Hin%list_elem_of_singleton. apply HgdG. rewrite <- Hin.
        apply list_elem_of_fmap. by exists a. }
  2:{ done. }
  cbv beta iota.
  set (d2 := bind_layer grp new l d1).
  assert (∀ e, shape <$> elements d2 !! e = shape <$> elements d !! e) as Hs2.
  { intros e. unfold d2. by rewrite bind_layer_shape. }
  assert (∀ a, a ∈ l → is_Some (elements d !! box_group a.1)) as Hexg.
  { intros a Ha. destruct (Hq a Ha) as [_ (old & Hold & _)]. unfold datum_of in Hold.
    destruct (elements d !! box_group a.1); [by eexists|done]. }
  assert (∀ a, a ∈ l → datum_of d2 (box_group a.1) = Some (DIndi a.2)) as Hg2.
  { intros a Ha. apply (bind_layer_datum_hit grp new l d1 a HnG Ha).
    apply (shape_is_Some _ _ Hs1). by apply Hexg. }
  assert (datum_of d2 gd = Some (DNode node)) as Hgd2.
  { unfold d2. by rewrite bind_layer_datum_miss. }
  (* The transform of the groups of the people. *)
  repeat quiet_step. rewrite d3_merge_entering.
  rewrite (target_attr_run o "transform" _ grp (λ a, Some (render_transform a.2)) l d2).
  2:{ intros a Ha. by rewrite (Hg2 a Ha). }
  cbv beta iota.
  set (d3 := helper_layer o "transform" grp _ l d2).
  assert (∀ e, shape <$> elements d3 !! e = shape <$> elements d !! e) as Hs3.
  { intros e. unfold d3. by rewrite helper_layer_shape. }
  (* The boxes of the people. *)
  rewrite M_bind_run.
  rewrite (renderIndi_update_run o l d3); [|
    | done | done | done | done | ].
  2:{ intros a Ha. destruct (Hq a Ha) as [Hqa _]. split.
      - by apply (box_queries_shape o d).
      - unfold d3. rewrite helper_layer_datum. by apply Hg2. }
  2:{ intros a b Ha Hb.
      assert (box_content b.1 ∈ cont <$> l) as Hcb.
      { apply list_elem_of_fmap. by exists b. }
      destruct (HC _ Hcb) as (H1 & H2 & H3). repeat split.
      - intros Hh Heq. destruct (HG (box_group b.1)) as (H4 & _).
        { apply list_elem_of_fmap. by exists b. }
        apply (H4 Hh). rewrite Heq. apply list_elem_of_fmap. by exists a.
      - intros Heq. apply H1. rewrite Heq. apply list_elem_of_fmap. by exists a.
      - intros Heq. apply H2. rewrite Heq. apply list_elem_of_fmap. by exists a.
      - intros Heq. apply H3. rewrite Heq. apply list_elem_of_fmap. by exists a. }
  cbv beta iota.
  set (d4 := renderIndi_update o l d3).
  assert (∀ e, shape <$> elements d4 !! e = shape <$> elements d !! e) as Hs4.
  { intros e. unfold d4. by rewrite renderIndi_update_shape. }
  assert (datum_of d4 gd = Some (DNode node)) as Hgd4.
  { unfold datum_of, d4. rewrite renderIndi_update_miss by done.
    unfold d3. fold (datum_of (helper_layer o "transform" grp
                                (λ a, Some (render_transform a.2)) l d2) gd).
    by rewrite helper_layer_datum. }
  (* The family. *)
  repeat quiet_step.
  rewrite (d3_select_this_one _ gd (bool_decide (is_Some (TreeNode.family node))) d4).
  2:{ by rewrite Hgd4. }
  cbv beta iota.
  destruct (TreeNode.family node) as [f|] eqn:Hf.
  - rewrite bool_decide_true by (by eexists).
    destruct fam as [fg|] eqn:Hfg.
    + pose proof (d3_select_run (Simple (mkCompound "g" (Some "family"%string)))
                    (λ _ : (), gd) (λ _, fg) (λ _, DNode node) [()] d4) as Hsel.
      cbn [fmap list_fmap compose] in Hsel. rewrite Hsel; clear Hsel.
      2:{ intros _ _. split; [|done]. rewrite <- Hqfam. by apply shape_querySelector. }
      2:{ intros _ _ _ _ Heq. apply HgdF. rewrite Heq. by left. }
      cbv beta iota.
      change (d3_merge (replicate 1 None) [Some fg]) with [Some fg].
      set (d5 := bind_layer (λ _ : (), fg) (λ _, DNode node) [()] d4).
      assert (datum_of d5 fg = Some (DNode node)) as Hfg5.
      { apply (bind_layer_datum_hit (λ _ : (), fg) (λ _, DNode node) [()] d4 ()).
        - apply NoDup_singleton.
        - by left.
        - apply (shape_is_Some _ _ Hs4). by apply querySelector_is_Some in Hqfam. }
      rewrite M_bind_run.
      pose proof (target_attr_run o "transform"
                    (with_node (λ node0, getFamTransform getFamPositionVertical
                                           getFamPositionHorizontal o node0
                                         ≫= λ t, Some (Some t)))
                    (λ _ : (), fg)
                    (λ _, getFamTransform getFamPositionVertical
                            getFamPositionHorizontal o node) [()] d5) as Htr.
      cbn [fmap list_fmap compose] in Htr. rewrite Htr; clear Htr.
      2:{ intros _ _. rewrite Hfg5. cbn.
          destruct Hfam as [t ->]; [by eexists|by eexists|done]. }
      cbv beta iota. by rewrite renderFamily_without_enter.
    + rewrite d3_select_one_none.
      2:{ rewrite <- Hqfam. by apply shape_querySelector. }
      cbv beta iota. change (d3_merge (replicate 1 None) [None]) with (replicate 1 (@None nat)).
      rewrite M_bind_run, target_attr_empty. cbv beta iota.
      by rewrite renderFamily_without_enter.
  - rewrite bool_decide_false by (by intros [? ?]).
    change [@None nat] with (replicate 1 (@None nat)). rewrite d3_select_empty.
    cbv beta iota. change (d3_merge (replicate 1 None) (replicate 1 None))
      with (replicate 1 (@None nat)).
    rewrite M_bind_run, target_attr_empty. cbv beta iota.
    by rewrite renderFamily_without_enter.
Qed.

End Pass.

Section HelperLayers.
Context {A : Type}.
Implicit Types (key : A → nat) (l : list A) (d : DOM).

Lemma helper_layer_attribute_other o name key val l d e name' :
  name' ≠ name →
  attribute_of (helper_layer o name key val l d) e name' = attribute_of d e name'.
Proof.
  intros H. unfold helper_layer. destruct (animate o); [done|].
  by apply attr_layer_attribute_other.
Qed.

Lemma helper_layer_attribute_miss o name key val l d e name' :
  e ∉ key <$> l →
  attribute_of (helper_layer o name key val l d) e name' = attribute_of d e name'.
Proof.
  intros H. unfold helper_layer. destruct (animate o); [done|].
  by apply attr_layer_attribute_miss.
Qed.

Lemma helper_layer_attribute_hit o name key val l d a :
  NoDup (key <$> l) → a ∈ l → is_Some (elements d !! key a) →
  attribute_of (helper_layer o name key val l d) (key a) name
  = if animate o then attribute_of d (key a) name else val a.
Proof.
  intros Hnd Ha Hex. unfold helper_layer. destruct (animate o); [done|].
  by apply attr_layer_attribute_hit.
Qed.

Lemma bind_layer_fixed key dat l d e :
  fixed_fields <$> elements (bind_layer key dat l d) !! e = fixed_fields <$> elements d !! e.
Proof.
  apply alter_all_proj. intros e' f el (a & [= -> ->] & _)%list_elem_of_fmap. done.
Qed.

Lemma attr_layer_fixed name key val l d e :
  fixed_fields <$> elements (attr_layer name key val l d) !! e = fixed_fields <$> elements d !! e.
Proof.
  apply alter_all_proj. intros e' f el (a & [= -> ->] & _)%list_elem_of_fmap. done.
Qed.

Lemma helper_layer_fixed o name key val l d e :
  fixed_fields <$> elements (helper_layer o name key val l d) !! e = fixed_fields <$> elements d !! e.
Proof. unfold helper_layer. destruct (animate o); [done|]. apply attr_layer_fixed. Qed.

Lemma helper_layer_tweens o name key val l d :
  tweens (helper_layer o name key val l d)
  = tweens d ++
    if animate o
    then (λ a, mkTween (key a) name (val a) ANIMATION_DELAY_MS ANIMATION_DURATION_MS) <$> l
    else [].
Proof.
  unfold helper_layer. destruct (animate o); [done|].
  by rewrite attr_layer_tweens, app_nil_r.
Qed.

End HelperLayers.

Ltac peel_attribute :=
  repeat first
    [ rewrite bind_layer_attribute
    | rewrite helper_layer_attribute_other by done
    | rewrite attr_layer_attribute_other by done
    | rewrite helper_layer_attribute_miss by done
    | rewrite attr_layer_attribute_miss by done ].

Ltac peel_datum :=
  repeat first
    [ rewrite helper_layer_datum
    | rewrite attr_layer_datum
    | rewrite bind_layer_datum_miss by done ].

Ltac peel_fixed :=
  repeat first
    [ rewrite helper_layer_fixed | rewrite attr_layer_fixed | rewrite bind_layer_fixed ].

Ltac peel_shape :=
  repeat first
    [ rewrite helper_layer_shape by done | rewrite attr_layer_shape by done
    | rewrite bind_layer_shape ].

Ltac peel_miss :=
  repeat first
    [ rewrite helper_layer_miss by done | rewrite attr_layer_miss by done
    | rewrite bind_layer_miss by done ].

Ltac peel_next_id :=
  repeat first
    [ rewrite helper_layer_next_id | rewrite attr_layer_next_id
    | rewrite bind_layer_next_id ].

Section Reading.
Context (getFamPositionVertical getFamPositionHorizontal : TreeNode.t → jsnum).
Context (o : RendererOptions) (l : list (PersonBox * OffsetIndi.t)).
Context (d : DOM) (u gd : nat) (fam : option nat) (node : TreeNode.t).

Local Abbreviation grp := (λ a : PersonBox * OffsetIndi.t, box_group a.1).
Local Abbreviation cont := (λ a : PersonBox * OffsetIndi.t, box_content a.1).
Local Abbreviation bg := (λ a : PersonBox * OffsetIndi.t, box_background a.1).
Local Abbreviation clip := (λ a : PersonBox * OffsetIndi.t, box_clip a.1).
Local Abbreviation bd := (λ a : PersonBox * OffsetIndi.t, box_border a.1).
Local Abbreviation new := (λ a : PersonBox * OffsetIndi.t, DIndi a.2).
Local Abbreviation d' :=
  (render_update getFamPositionVertical getFamPositionHorizontal o gd fam l node d).

Hypothesis Hdrawn : drawn o d u gd fam l.

Lemma render_update_next_id : next_id d' = next_id d.
Proof.
  unfold render_update, renderIndi_update. cbv zeta.
  destruct (TreeNode.family node), fam, (indiHrefFunc o); by peel_next_id.
Qed.

Lemma render_update_fixed e : fixed_fields <$> elements d' !! e = fixed_fields <$> elements d !! e.
Proof.
  unfold render_update, renderIndi_update. cbv zeta.
  destruct (TreeNode.family node), fam, (indiHrefFunc o); by peel_fixed.
Qed.

Lemma render_update_shape e : shape <$> elements d' !! e = shape <$> elements d !! e.
Proof.
  unfold render_update, renderIndi_update. cbv zeta.
  destruct (TreeNode.family node), fam, (indiHrefFunc o); by peel_shape.
Qed.

Lemma render_update_tweens :
  tweens d'
  = tweens d ++
    if animate o
    then ((λ a, mkTween (box_group a.1) "transform" (Some (render_transform a.2))
                  ANIMATION_DELAY_MS ANIMATION_DURATION_MS) <$> l)
         ++ ((λ a, mkTween (box_background a.1) "width" (person_width a)
                     ANIMATION_DELAY_MS ANIMATION_DURATION_MS) <$> l)
         ++ ((λ a, mkTween (box_background a.1) "height" (person_height a)
                     ANIMATION_DELAY_MS ANIMATION_DURATION_MS) <$> l)
         ++ ((λ a, mkTween (box_border a.1) "width" (person_width a)
                     ANIMATION_DELAY_MS ANIMATION_DURATION_MS) <$> l)
         ++ ((λ a, mkTween (box_border a.1) "height" (person_height a)
                     ANIMATION_DELAY_MS ANIMATION_DURATION_MS) <$> l)
         ++ match TreeNode.family node, fam with
            | Some _, Some fg =>
                [mkTween fg "transform"
                   (getFamTransform getFamPositionVertical getFamPositionHorizontal
                      o node)
                   ANIMATION_DELAY_MS ANIMATION_DURATION_MS]
            | _, _ => []
            end
    else [].
Proof.
  unfold render_update, renderIndi_update. cbv zeta.
  destruct (TreeNode.family node), fam, (indiHrefFunc o);
    repeat first [ rewrite helper_layer_tweens | rewrite attr_layer_tweens
                 | rewrite bind_layer_tweens ];
    destruct (animate o); cbn [fmap list_fmap]; by rewrite <- ?app_assoc, ?app_nil_r.
Qed.


Lemma unit_layer_miss (e x : nat) : e ≠ x → e ∉ (λ _ : (), x) <$> [()].
Proof. intros Hne Hin%list_elem_of_singleton. done. Qed.

Ltac present :=
  rewrite <- (fmap_is_Some shape); peel_shape; rewrite (fmap_is_Some shape).

Lemma drawn_present a :
  a ∈ l →
  is_Some (elements d !! gd)
  ∧ is_Some (elements d !! box_group a.1)
  ∧ is_Some (elements d !! box_content a.1)
  ∧ is_Some (elements d !! box_background a.1)
  ∧ is_Some (elements d !! box_clip a.1)
  ∧ is_Some (elements d !! box_border a.1).
Proof.
  intros Ha. destruct Hdrawn as (Hqgd & _ & _ & Hq & _).
  destruct (Hq a Ha) as [(Hc & Hb & Hk & Hr) (old & Hold & _)].
  assert (is_Some (elements d !! box_group a.1)) as Hg.
  { unfold datum_of in Hold. destruct (elements d !! box_group a.1); [by eexists|done]. }
  repeat split; try by eapply querySelector_is_Some.
  - done.
  - destruct (indiHrefFunc o); [by eapply querySelector_is_Some|by rewrite Hc].
Qed.

Lemma render_update_person a :
  a ∈ l →
  datum_of d' (box_group a.1) = Some (DIndi a.2)
  ∧ attribute_of d' (box_group a.1) "transform"
    = (if animate o then attribute_of d (box_group a.1) "transform"
       else Some (render_transform a.2))
  ∧ attribute_of d' (box_background a.1) "width"
    = (if animate o then attribute_of d (box_background a.1) "width"
       else person_width a)
  ∧ attribute_of d' (box_background a.1) "height"
    = (if animate o then attribute_of d (box_background a.1) "height"
       else person_height a)
  ∧ attribute_of d' (box_clip a.1) "width" = person_width a
  ∧ attribute_of d' (box_clip a.1) "height" = person_height a
  ∧ attribute_of d' (box_border a.1) "width"
    = (if animate o then attribute_of d (box_border a.1) "width"
       else person_width a)
  ∧ attribute_of d' (box_border a.1) "height"
    = (if animate o then attribute_of d (box_border a.1) "height"
       else person_height a).
Proof.
  intros Ha.
  destruct (drawn_distinct o l d u gd fam Hdrawn)
    as (_ & (HgdF & HgdG & _) & HF & HG & HC & HB & HK & HnG & HnC & HnB & HnK & HnR).
  destruct (drawn_present a Ha) as (Hxgd & Hxg & Hxc & Hxb & Hxk & Hxr).
  assert (box_group a.1 ∈ grp <$> l) as Hg by (apply list_elem_of_fmap; by exists a).
  assert (box_background a.1 ∈ bg <$> l) as Hb by (apply list_elem_of_fmap; by exists a).
  assert (box_clip a.1 ∈ clip <$> l) as Hk by (apply list_elem_of_fmap; by exists a).
  assert (box_border a.1 ∈ bd <$> l) as Hr by (apply list_elem_of_fmap; by exists a).
  destruct (HG _ Hg) as (HgC & HgB & HgK & HgR).
  destruct (HB _ Hb) as (HbK & HbR).
  pose proof (HK _ Hk) as HkR.
  assert (box_clip a.1 ∉ bg <$> l) as HkB.
  { intros Hin. by destruct (HB _ Hin). }
  assert (box_border a.1 ∉ bg <$> l) as HrB.
  { intros Hin. by destruct (HB _ Hin). }
  assert (box_border a.1 ∉ clip <$> l) as HrK by (intros Hin; by apply (HK _ Hin)).
  assert (box_group a.1 ≠ gd) as Hggd.
  { intros Heq. apply HgdG. by rewrite <- Heq. }
  pose proof (unit_layer_miss _ _ Hggd) as Hggd'.
  assert (∀ fg, fam = Some fg → box_group a.1 ∉ (λ _ : (), fg) <$> [()]) as Hgf.
  { intros fg Hfg. apply unit_layer_miss. intros Heq.
    destruct (HF fg) as (H1 & _); [rewrite Hfg; by left|]. apply H1. by rewrite <- Heq. }
  unfold render_update, renderIndi_update. cbv zeta.
  destruct (TreeNode.family node) as [f|], fam as [fg|] eqn:Hfg;
    try specialize (Hgf fg eq_refl).
  all: destruct (indiHrefFunc o) as [href|] eqn:Hh;
    try specialize (HgC ltac:(by eexists)).
  all: repeat split.
  all: peel_datum; peel_attribute.
  all: try match goal with
           | |- datum_of (bind_layer ?key ?dat l ?dd) _ = _ =>
               apply (bind_layer_datum_hit key dat l dd a); [done|done|by present]
           | |- attribute_of (attr_layer ?n ?key ?val l ?dd) _ ?n = _ =>
               apply (attr_layer_attribute_hit n key val l dd a); [done|done|by present]
           | |- attribute_of (helper_layer o ?n ?key ?val l ?dd) _ ?n = _ =>
               rewrite (helper_layer_attribute_hit o n key val l dd a);
               [|done|done|by present];
               destruct (animate o); [by peel_attribute|done]
           end.
Qed.


Lemma render_update_family f fg :
  TreeNode.family node = Some f → fam = Some fg →
  datum_of d' fg = Some (DNode node)
  ∧ attribute_of d' fg "transform"
    = (if animate o then attribute_of d fg "transform"
       else getFamTransform getFamPositionVertical getFamPositionHorizontal o node).
Proof.
  intros Hf Hfg.
  destruct (drawn_distinct o l d u gd fam Hdrawn)
    as (_ & (HgdF & _) & HF & _).
  destruct Hdrawn as (_ & _ & Hqfam & _).
  destruct (HF fg) as (HfG & HfC & HfB & HfK & HfR); [rewrite Hfg; by left|].
  assert (is_Some (elements d !! fg)) as Hxf.
  { rewrite Hfg in Hqfam. by apply querySelector_is_Some in Hqfam. }
  assert (fg ∉ (λ _ : (), gd) <$> [()]) as Hfgd.
  { apply unit_layer_miss. intros ->. apply HgdF. rewrite Hfg. by left. }
  unfold render_update, renderIndi_update. cbv zeta. rewrite Hf, Hfg.
  destruct (indiHrefFunc o) as [href|] eqn:Hh;
    try specialize (HfC ltac:(by eexists)).
  all: split.
  all: peel_datum; peel_attribute.
  all: try match goal with
           | |- datum_of (bind_layer ?key ?dat ?l' ?dd) _ = _ =>
               apply (bind_layer_datum_hit key dat l' dd ());
               [apply NoDup_singleton|by left|by present]
           | |- attribute_of (helper_layer o ?n ?key ?val ?l' ?dd) _ ?n = _ =>
               rewrite (helper_layer_attribute_hit o n key val l' dd ());
               [|apply NoDup_singleton|by left|by present];
               destruct (animate o); [by peel_attribute|done]
           end.
Qed.

Lemma render_update_untouched e :
  e ∉ node_handles o gd fam l → elements d' !! e = elements d !! e.
Proof.
  unfold node_handles. rewrite not_elem_of_cons, !not_elem_of_app.
  intros (Hgd & HF & HG & HC & HB & HK & HR).
  pose proof (unit_layer_miss _ _ Hgd) as Hgd'.
  assert (∀ fg, fam = Some fg → e ∉ (λ _ : (), fg) <$> [()]) as Hf.
  { intros fg Hfg. apply unit_layer_miss. intros ->. apply HF. rewrite Hfg. by left. }
  unfold render_update, renderIndi_update. cbv zeta.
  destruct (TreeNode.family node) as [f|], fam as [fg|] eqn:Hfg;
    try specialize (Hf fg eq_refl).
  all: destruct (indiHrefFunc o) as [href|] eqn:Hh.
  all: by peel_miss.
Qed.

Lemma render_update_attributes e name :
  attribute_of d' e name = attribute_of d e name
  ∨ (name = "transform"%string ∧ (e ∈ grp <$> l ∨ fam = Some e))
  ∨ ((name = "width"%string ∨ name = "height"%string)
     ∧ (e ∈ bg <$> l ∨ e ∈ clip <$> l ∨ e ∈ bd <$> l)).
Proof.
  destruct (decide (name = "transform"%string)) as [->|Hnt].
  - destruct (decide (e ∈ grp <$> l)) as [?|HG]; [right; left; by auto|].
    destruct (decide (fam = Some e)) as [?|Hf]; [right; left; by auto|].
    left.
    assert (∀ fg, fam = Some fg → e ∉ (λ _ : (), fg) <$> [()]) as Hf'.
    { intros fg Hfg. apply unit_layer_miss. intros ->. done. }
    unfold render_update, renderIndi_update. cbv zeta.
    destruct (TreeNode.family node) as [f|], fam as [fg|] eqn:Hfg;
      try specialize (Hf' fg eq_refl).
    all: destruct (indiHrefFunc o) as [href|] eqn:Hh.
    all: by peel_attribute.
  - destruct (decide (name = "width"%string ∨ name = "height"%string)) as [Hwh|Hwh].
    + destruct (decide (e ∈ bg <$> l)) as [?|HB]; [right; right; by auto|].
      destruct (decide (e ∈ clip <$> l)) as [?|HK]; [right; right; by auto|].
      destruct (decide (e ∈ bd <$> l)) as [?|HR]; [right; right; by auto|].
      left. unfold render_update, renderIndi_update. cbv zeta.
      destruct (TreeNode.family node) as [f|], fam as [fg|] eqn:Hfg.
      all: destruct (indiHrefFunc o) as [href|] eqn:Hh.
      all: by peel_attribute.
    + left.
      assert (name ≠ "width"%string) as Hw by (intros ->; apply Hwh; by left).
      assert (name ≠ "height"%string) as Hh' by (intros ->; apply Hwh; by right).
      unfold render_update, renderIndi_update. cbv zeta.
      destruct (TreeNode.family node) as [f|], fam as [fg|] eqn:Hfg.
      all: destruct (indiHrefFunc o) as [href|] eqn:Hh.
      all: by peel_attribute.
Qed.

Lemma drawn_tags e :
  e ∈ node_handles o gd fam l →
  ∃ el, elements d !! e = Some el ∧ tagName el ∈ ["g"; "a"; "rect"]%string.
Proof.
  destruct Hdrawn as (Hqgd & Hqall & Hqfam & Hq & _).
  assert (∀ s x c, querySelector (elements d) s x = Some c →
            sel_tag (subject s) ∈ ["g"; "a"; "rect"]%string →
            ∃ el, elements d !! c = Some el ∧ tagName el ∈ ["g"; "a"; "rect"]%string)
    as Hsel.
  { intros s x c Hc Hs. apply querySelector_matches, matches_subject in Hc.
    destruct Hc as (el & Hel & Ht). exists el. by rewrite Ht. }
  unfold node_handles. rewrite elem_of_cons, !elem_of_app.
  intros [->|[Hf|[HG|[HC|[HB|[HK|HR]]]]]].
  - apply (Hsel _ _ _ Hqgd). cbn. rewrite !elem_of_cons. by auto.
  - destruct fam as [fg|]; [|by apply elem_of_nil in Hf].
    apply list_elem_of_singleton in Hf as ->. apply (Hsel _ _ _ Hqfam). cbn. rewrite !elem_of_cons. by auto.
  - assert (e ∈ querySelectorAll (elements d)
                  (Simple (mkCompound "g" (Some "indi"%string))) gd) as Hin
      by (by rewrite Hqall).
    apply querySelectorAll_matches, matches_subject in Hin.
    destruct Hin as (el & Hel & Ht). exists el. rewrite Ht. cbn. rewrite !elem_of_cons. by auto.
  - destruct (indiHrefFunc o) eqn:Hh; [|by apply elem_of_nil in HC].
    apply list_elem_of_fmap in HC as (a & -> & Ha).
    destruct (Hq a Ha) as [(Hc & _) _]. rewrite Hh in Hc.
    apply (Hsel _ _ _ Hc). cbn. rewrite !elem_of_cons. by auto.
  - apply list_elem_of_fmap in HB as (a & -> & Ha).
    destruct (Hq a Ha) as [(_ & Hb & _) _]. apply (Hsel _ _ _ Hb). cbn. rewrite !elem_of_cons. by auto.
  - apply list_elem_of_fmap in HK as (a & -> & Ha).
    destruct (Hq a Ha) as [(_ & _ & Hk & _) _]. apply (Hsel _ _ _ Hk). cbn. rewrite !elem_of_cons. by auto.
  - apply list_elem_of_fmap in HR as (a & -> & Ha).
    destruct (Hq a Ha) as [(_ & _ & _ & Hr) _]. apply (Hsel _ _ _ Hr). cbn. rewrite !elem_of_cons. by auto.
Qed.

End Reading.

Section Update.
Context (formatDate : Date → option string → string).
Context (getFamPositionVertical getFamPositionHorizontal : TreeNode.t → jsnum).

Lemma zip_people {A B} (xs : list A) (ys : list B) :
  length xs = length ys → (zip xs ys).*1 = xs ∧ (zip xs ys).*2 = ys.
Proof. intros H. split; [apply fst_zip|apply snd_zip]; lia. Qed.


End Update.


(** ** The renderer on the examples *)

Local Open Scope string_scope.

(** C1: in horizontal mode the offset of the family box is left out of
    the offset of the primary individual. The family box of the node is 56
    pixels taller than its only person, so that its raw position is -28: the
    claim puts the person at (0, 28), the source puts it at (0, 0). In
    vertical mode the same node gets the shift along x that the claim
    states. *)
Theorem render_data_horizontal_drops_family_offset :
  Ex.getFamPositionHorizontal Ex.single_parent = Num (-28)
  ∧ d3_max [js_neg (Ex.getFamPositionHorizontal Ex.single_parent); Num 0] = Num 28
  ∧ render_data Ex.getFamPositionVertical Ex.getFamPositionHorizontal
      Ex.horizontal_options Ex.single_parent
    = [OffsetIndi.mk (TreeEntry.mk "I1" (Num 64) (Num 57)) (Num 0) (Num 0) (Num 0)]
  ∧ Ex.getFamPositionVertical Ex.single_parent = Num (-50)
  ∧ render_data Ex.getFamPositionVertical Ex.getFamPositionHorizontal
      Ex.options Ex.single_parent
    = [OffsetIndi.mk (TreeEntry.mk "I1" (Num 64) (Num 57)) (Num 0) (Num 50) (Num 0)].
Proof. repeat split. Qed.

(** C2: on update the rectangle of a family keeps its old size. The
    family box of the couple grows from 58 x 38 to 100 x 52; after the
    update pass the rectangle of the family (element 20, under the group of
    the family, element 19) still has the width 58 and the height 38, while
    the background of the person whose box grew (element 5) has the new
    width. *)
Theorem renderFamily_update_keeps_old_size :
  (Ex.render Ex.options [None] [Some 1%nat]
     (Ex.before_update Ex.options Ex.couple Ex.couple_resized)).1 = Some ()
  ∧ TreeNode.family Ex.couple_resized = Some (TreeEntry.mk "F1" (Num 100) (Num 52))
  ∧ Ex.kind (Ex.updated Ex.options Ex.couple Ex.couple_resized) 19
    = Some ("g", Some "family", Some 2%nat)
  ∧ Ex.kind (Ex.updated Ex.options Ex.couple Ex.couple_resized) 20
    = Some ("rect", None, Some 19%nat)
  ∧ Ex.attribute (Ex.updated Ex.options Ex.couple Ex.couple_resized) 20 "width"
    = Some "58"
  ∧ Ex.attribute (Ex.updated Ex.options Ex.couple Ex.couple_resized) 20 "height"
    = Some "38"
  ∧ Ex.attribute (Ex.updated Ex.options Ex.couple Ex.couple_resized) 5 "width"
    = Some "80".
Proof. repeat split; by vm_compute. Qed.

(** C3: for a person without a recorded sex, or with a sex that is not in
    the lookup, the style of the background is "fill: undefined", not the
    empty string: [+] binds tighter than [||], so that the fallback is never
    taken. The known sexes get their colour. *)
Theorem background_style_unrecognized_sex :
  getSex Ex.died1950 = None
  ∧ background_style Ex.options (Ex.person "I2") = Some "fill: undefined"
  ∧ getSex Ex.portrait = Some "U"
  ∧ background_style Ex.options (Ex.person "I3") = Some "fill: undefined"
  ∧ background_style Ex.options (Ex.person "I1") = Some "fill: #b1e2e2"
  ∧ Ex.kind (Ex.entered Ex.options Ex.couple) 6
    = Some ("rect", Some "background", Some 4%nat)
  ∧ Ex.attribute (Ex.entered Ex.options Ex.couple) 6 "style" = Some "fill: undefined".
Proof. repeat split; by vm_compute. Qed.

(** The update pass on the example: the geometry of the person whose box
    grew is set again (background, clip rectangle, border, and the transform
    of the spouse), and the texts keep what they had. *)
Example update_reapplies_geometry :
  Ex.attribute (Ex.updated Ex.options Ex.couple Ex.couple_resized) 5 "height" = Some "71"
  ∧ Ex.attribute (Ex.updated Ex.options Ex.couple Ex.couple_resized) 9 "width" = Some "80"
  ∧ Ex.attribute (Ex.updated Ex.options Ex.couple Ex.couple_resized) 17 "width" = Some "80"
  ∧ Ex.attribute (Ex.updated Ex.options Ex.couple Ex.couple_resized) 4 "transform"
    = Some "translate(80, 0)"
  ∧ Ex.attribute (Ex.entered Ex.options Ex.couple) 4 "transform"
    = Some "translate(64, 0)"
  ∧ Ex.text_of (Ex.updated Ex.options Ex.couple Ex.couple_resized) 15 = Some "1900 - "
  ∧ next_id (Ex.updated Ex.options Ex.couple Ex.couple_resized)
    = next_id (Ex.entered Ex.options Ex.couple).
Proof. repeat split; by vm_compute. Qed.

(** With animation the sizes of the clip rectangle are still set at once:
    they do not go through the transition helper, unlike those of the
    background and of the border, which are pending. *)
Example animated_update_clip_rectangle :
  Ex.attribute (Ex.updated Ex.animated_options Ex.couple Ex.couple_resized) 9 "width"
  = Some "80"
  ∧ Ex.attribute (Ex.updated Ex.animated_options Ex.couple Ex.couple_resized) 5 "width"
    = None
  ∧ mkTween 5 "width" (Some "80") 200 500
    ∈ tweens (Ex.updated Ex.animated_options Ex.couple Ex.couple_resized).
Proof.
  repeat split; try by vm_compute.
  apply (bool_decide_unpack _). by vm_compute.
Qed.


(** C4, the claim as stated fails: the lifespan line of a person born in
    1900, with nothing else known, is not "1900 -". *)
Lemma lifespan_trailing_space :
  ¬ ∃ line, getIndiDetails Ex.born1900 = Some [line] ∧ text line = "1900 -".
Proof. intros (line & H & Ht). vm_compute in H. injection H as <-. discriminate. Qed.

(** C5, the claim as stated fails: a family whose marriage date is a range
    has its marriage date set, and no line of its details carries the
    union marker. *)
Lemma marriage_range_no_marker :
  ¬ (is_Some (getMarriageDate Ex.married_range)
     ∨ is_Some (getMarriagePlace Ex.married_range) →
     ∃ lines, getFamDetails Ex.formatDate Ex.options Ex.married_range = Some lines
              ∧ length (marked lines) = 1%nat).
Proof.
  intros H. destruct H as (lines & H & Hlen); [left; by eexists|].
  vm_compute in H. injection H as <-. discriminate.
Qed.

(** ** The theorems at concrete inputs *)

Lemma getIndiDetails_lifespan_witness :
  getIndi (data Ex.options) "I1" = Some Ex.born1900
  ∧ getIndiDetails Ex.born1900 = Some [mkLine "" true "1900 - "]
  ∧ snd <$> getPreferredIndiSize Ex.getLength Ex.options "I1" = Some (Num 57).
Proof.
  split; [reflexivity|].
  apply (proj1 (proj2 (getIndiDetails_lifespan Ex.getLength Ex.options))
           "I1" Ex.born1900
           (mkDateOrRange (Some (mkDate Undefined Undefined (Num 1900))) None)
           (mkDate Undefined Undefined (Num 1900)));
    reflexivity.
Defined.

Lemma getFamDetails_union_marker_witness :
  truthy_s (marriage_text Ex.formatDate Ex.options Ex.married) = true
  ∧ ∃ first rest,
      getFamDetails Ex.formatDate Ex.options Ex.married = Some (first :: rest)
      ∧ map text (first :: rest) = ["1925"; "Krakow"]
      ∧ symbol first = UNION_SYMBOL
      ∧ marked (first :: rest) = [first].
Proof.
  split; [reflexivity|].
  apply (proj1 (getFamDetails_union_marker Ex.getLength Ex.formatDate
                  Ex.options Ex.married)).
  left. reflexivity.
Defined.



Lemma spouse_alone_offsets_witness :
  TreeNode.indi Ex.spouse_only = None
  ∧ render_data Ex.getFamPositionVertical Ex.getFamPositionHorizontal
      Ex.horizontal_options Ex.spouse_only
    = [OffsetIndi.mk (TreeEntry.mk "I2" (Num 64) (Num 57)) (Num 1) (Num 0) (Num 0)].
Proof.
  split; [reflexivity|].
  apply (spouse_alone_offsets Ex.getFamPositionVertical Ex.getFamPositionHorizontal
           Ex.horizontal_options Ex.spouse_only); reflexivity.
Defined.

Lemma getFamTransform_spouse_anchor_witness :
  TreeNode.indi Ex.spouse_only = None
  ∧ getFamTransform Ex.getFamPositionVertical Ex.getFamPositionHorizontal
      Ex.options Ex.spouse_only = Some "translate(24, 57)"
  ∧ is_Some (getFamTransform Ex.getFamPositionVertical Ex.getFamPositionHorizontal
               Ex.options Ex.couple).
Proof.
  split; [reflexivity|]. split.
  - apply (proj2 (proj1 (getFamTransform_spouse_anchor Ex.getFamPositionVertical
                           Ex.getFamPositionHorizontal Ex.options Ex.spouse_only)
                    (or_introl eq_refl))).
  - apply (proj2 (getFamTransform_spouse_anchor Ex.getFamPositionVertical
                    Ex.getFamPositionHorizontal Ex.options Ex.couple)).
    left. exists (TreeEntry.mk "I1" (Num 64) (Num 57)), 57.
    split; [reflexivity|]. split; [reflexivity|]. lia.
Defined.

(** * Further properties *)

Local Close Scope string_scope.

(** ** d3.max *)

Lemma d3_max_fold vs acc :
  acc ≠ NaN →
  let r := fold_left d3_max_step vs acc in
  r ≠ NaN
  ∧ (r = acc ∨ r ∈ vs)
  ∧ (∀ a, acc = Num a → ∃ m, r = Num m ∧ a ≤ m)
  ∧ (∀ z, Num z ∈ vs → ∃ m, r = Num m ∧ z ≤ m).
Proof.
  revert acc. induction vs as [|v vs IH]; intros acc Hacc; cbn.
  - split; [done|]. split; [by left|]. split; [by eauto with lia|].
    intros z Hz. by apply elem_of_nil in Hz.
  - assert (d3_max_step acc v ≠ NaN) as Hstep.
    { destruct v, acc; cbn; try done. by destruct (_ <? _). }
    destruct (IH _ Hstep) as (H1 & H2 & H3 & H4). cbn zeta in *.
    split; [done|]. split; [|split].
    + destruct H2 as [H2|H2]; [|right; by right]. rewrite H2.
      destruct v as [z| |], acc as [a| |]; cbn; try (by left); try done;
        try (right; by left).
      destruct (a <? z); [right; by left|by left].
    + intros a ->. destruct v as [z| |]; cbn in *; try by apply H3.
      destruct (Z.ltb_spec a z).
      * destruct (H3 z eq_refl) as (m & -> & ?). eauto with lia.
      * by apply H3.
    + intros z Hz. apply elem_of_cons in Hz as [<-|Hz]; [|by apply H4].
      destruct acc as [a| |]; cbn in *; try done; try by apply H3.
      destruct (Z.ltb_spec a z).
      * by apply H3.
      * destruct (H3 a eq_refl) as (m & -> & ?). eauto with lia.
Qed.

(** [d3.max]: never NaN; one of the values, or [undefined]; at least
    every comparable value. *)
Lemma d3_max_spec vs :
  d3_max vs ≠ NaN
  ∧ (d3_max vs = Undefined ∨ d3_max vs ∈ vs)
  ∧ (∀ z, Num z ∈ vs → ∃ m, d3_max vs = Num m ∧ z ≤ m).
Proof.
  destruct (d3_max_fold vs Undefined) as (H1 & H2 & _ & H4); [done|].
  by repeat split.
Qed.

Lemma d3_max_Num vs z : Num z ∈ vs → ∃ m, d3_max vs = Num m ∧ z ≤ m.
Proof. apply d3_max_spec. Qed.

Lemma d3_max_elem vs m : d3_max vs = Num m → Num m ∈ vs.
Proof.
  intros H. destruct (d3_max_spec vs) as (_ & [H2|H2] & _); [congruence|].
  by rewrite <- H.
Qed.

(** ** Details, sizes and offsets *)

Section Layout.
Variable getLength : string → string → jsnum.
Variable formatDate : Date → option string → string.
Variable getFamPositionVertical : TreeNode.t → jsnum.
Variable getFamPositionHorizontal : TreeNode.t → jsnum.

Lemma lifespanLeft_None birth : lifespanLeft birth = None ↔ lacks from birth.
Proof.
  unfold lifespanLeft, isValidDate, lacks. split.
  - destruct birth as [[[e|] [[f t]|]]|]; cbn; try done.
    destruct f; [done|]. intros _. by eexists _, _.
  - intros (x & r & -> & Hd & Hr & Hf). destruct x as [dt rg]. cbn in *. subst.
    cbn. by rewrite Hf.
Qed.

Lemma lifespanRight_None death : lifespanRight death = None ↔ lacks to death.
Proof.
  unfold lifespanRight, isValidDate, lacks. split.
  - destruct death as [[[e|] [[f t]|]]|]; cbn; try done.
    destruct t; [done|]. intros _. by eexists _, _.
  - intros (x & r & -> & Hd & Hr & Hf). destruct x as [dt rg]. cbn in *. subst.
    cbn. by rewrite Hf.
Qed.

Lemma lacks_valid side d : lacks side d → isValidDate d = true.
Proof.
  intros (x & r & -> & Hd & Hr & _). unfold isValidDate. rewrite Hr.
  apply orb_true_iff. right. by apply bool_decide_eq_true.
Qed.

(** X1: [getIndiDetails] throws exactly on a birth date that is a range
    without [from] and has no exact date, or on a death date that is a
    range without [to] and has no exact date: the lifespan reads
    [dateRange!.from!.year] and [dateRange!.to!.year]. For every other
    individual it returns its lines. *)
Theorem getIndiDetails_fails indi :
  getIndiDetails indi = None
  ↔ lacks from (getBirthDate indi) ∨ lacks to (getDeathDate indi).
Proof.
  unfold getIndiDetails.
  destruct (isValidDate (getBirthDate indi) || isValidDate (getDeathDate indi)) eqn:Hv.
  - destruct (lifespanLeft (getBirthDate indi)) as [l|] eqn:Hl.
    + destruct (lifespanRight (getDeathDate indi)) as [r|] eqn:Hr; cbn.
      * split; [done|]. intros [H|H].
        -- apply lifespanLeft_None in H. congruence.
        -- apply lifespanRight_None in H. congruence.
      * split; [|done]. intros _. right. by apply lifespanRight_None.
    + cbn. split; [|done]. intros _. left. by apply lifespanLeft_None.
  - cbn. split; [done|]. apply orb_false_iff in Hv as [H1 H2].
    intros [H|H]; apply lacks_valid in H; congruence.
Qed.

(** X2: the lines that [getIndiDetails] returns are centred and carry no
    symbol. There is one line for the lifespan when the birth date or the
    death date is valid, and one line for the place when the birth place or
    the death place is a non-empty string: two lines at most. *)
Theorem getIndiDetails_shape indi lines :
  getIndiDetails indi = Some lines →
  Forall (λ l, centered l = true ∧ symbol l = ""%string) lines
  ∧ length lines
    = ((if isValidDate (getBirthDate indi) || isValidDate (getDeathDate indi)
        then 1 else 0)
       + (if truthy_s (getBirthPlace indi) || truthy_s (getDeathPlace indi)
          then 1 else 0))%nat
  ∧ (length lines ≤ 2)%nat.
Proof.
  unfold getIndiDetails.
  destruct (isValidDate (getBirthDate indi) || isValidDate (getDeathDate indi));
    [destruct (lifespanLeft _); [|done]; destruct (lifespanRight _); [|done]|];
    cbn [mbind option_bind];
    destruct (truthy_s (getBirthPlace indi)), (truthy_s (getDeathPlace indi));
    intros [= <-]; cbn; repeat split; repeat constructor.
Qed.

Lemma getIndiDetails_lines indi lines :
  getIndiDetails indi = Some lines →
  ∃ lifespan,
    lines = lifespan ++ spec_place indi
    ∧ (lifespan = []
       ∨ ∃ t, lifespan = [mkLine "" true t]
              ∧ (isValidDate (getBirthDate indi)
                 || isValidDate (getDeathDate indi)) = true).
Proof.
  unfold getIndiDetails, spec_place, or_empty.
  destruct (isValidDate (getBirthDate indi) || isValidDate (getDeathDate indi));
    [destruct (lifespanLeft _); [|done]; destruct (lifespanRight _); [|done]|];
    cbn [mbind option_bind];
    destruct (truthy_s (getBirthPlace indi)), (truthy_s (getDeathPlace indi));
    intros [= <-];
    first [ exists []; split; [reflexivity|by left]
          | eexists [_]; split; [reflexivity|right; by eexists] ].
Qed.

(** X14: the place line of a person. When the birth place is a non-empty
    string the last line is the birth place, whatever the death place is;
    otherwise, when the death place is a non-empty string, the last line is
    the death place; when neither is, there is no line but the lifespan.
    The death place is never shown next to a birth place. *)
Theorem getIndiDetails_place indi lines :
  getIndiDetails indi = Some lines →
  (∀ p, getBirthPlace indi = Some p → p ≠ ""%string →
        last lines = Some (mkLine "" true p)
        ∧ (∀ q, getDeathPlace indi = Some q → q ≠ p → mkLine "" true q ∉ tail lines))
  ∧ (truthy_s (getBirthPlace indi) = false →
     ∀ q, getDeathPlace indi = Some q → q ≠ ""%string →
          last lines = Some (mkLine "" true q))
  ∧ (truthy_s (getBirthPlace indi) = false →
     truthy_s (getDeathPlace indi) = false →
     lines = [] ∨ ∃ lifespan, lines = [mkLine "" true lifespan]
                              ∧ (isValidDate (getBirthDate indi)
                                 || isValidDate (getDeathDate indi)) = true).
Proof.
  intros H. destruct (getIndiDetails_lines indi lines H) as (pre & -> & Hpre).
  unfold spec_place, or_empty. split; [|split].
  - intros p Hp Hne. rewrite Hp. destruct p as [|c p]; [done|]. cbn [truthy_s default].
    split; [by rewrite last_snoc|].
    intros q Hq Hqp Hin.
    destruct Hpre as [->|(t & -> & _)]; cbn in Hin.
    + by apply elem_of_nil in Hin.
    + apply elem_of_cons in Hin as [Hin|Hin]; [by injection Hin|].
      by apply elem_of_nil in Hin.
  - intros Hb q Hq Hne. rewrite Hb, Hq. destruct q as [|c q]; [done|].
    cbn [truthy_s default]. by rewrite last_snoc.
  - intros -> ->. rewrite app_nil_r. destruct Hpre as [->|(t & -> & Hv)]; [by left|].
    right. by exists t.
Qed.

Lemma getIndiDetails_length indi lines :
  getIndiDetails indi = Some lines → (length lines ≤ 2)%nat.
Proof.
  unfold getIndiDetails.
  destruct (isValidDate (getBirthDate indi) || isValidDate (getDeathDate indi));
    [destruct (lifespanLeft _); [|done]; destruct (lifespanRight _); [|done]|];
    cbn [mbind option_bind];
    destruct (truthy_s (getBirthPlace indi)), (truthy_s (getDeathPlace indi));
    intros [= <-]; cbn; lia.
Qed.

Lemma ifImage_Num indi a : ifImage indi a = Num (if truthy_s (getImageUrl indi) then a else 0).
Proof. unfold ifImage. by destruct (truthy_s _). Qed.

(** The preferred size of a person whose details are [lines]. *)
Lemma getPreferredIndiSize_known options id indi lines :
  getIndi (data options) id = Some indi →
  getIndiDetails indi = Some lines →
  ∃ w,
    getPreferredIndiSize getLength options id
    = Some (Num (w + image_width indi),
            Num (Z.max (INDI_MIN_HEIGHT + Z.of_nat (length lines) * 14)
                       (if truthy_s (getImageUrl indi) then IMAGE_HEIGHT else 0)))
    ∧ INDI_MIN_WIDTH ≤ w
    ∧ (∀ z, getLength (or_empty (getFirstName indi)) "name" = Num z → z + 8 ≤ w)
    ∧ (∀ z, getLength (or_empty (getLastName indi)) "name" = Num z → z + 8 ≤ w)
    ∧ (∀ line z, line ∈ lines → getLength (text line) "details" = Num z →
                 z + 22 ≤ w).
Proof.
  intros Hi Hl. unfold getPreferredIndiSize. rewrite Hi. cbn [mbind option_bind].
  rewrite Hl. cbn [mbind option_bind].
  set (vs := [js_add _ (Num 22); js_add _ (Num 8); js_add _ (Num 8); Num INDI_MIN_WIDTH]).
  destruct (d3_max_Num vs INDI_MIN_WIDTH) as (w & Hw & Hmin);
    [do 3 right; by left|].
  assert (∀ v, Num v ∈ vs → v ≤ w) as Hle.
  { intros v Hv. destruct (d3_max_Num vs v Hv) as (w' & Hw' & ?).
    assert (w' = w) by congruence. lia. }
  exists w. split; [|split; [done|]].
  - rewrite Hw, !ifImage_Num, d3_max_pair. cbn [js_add]. unfold image_width. done.
  - split; [|split].
    + intros z Hz. apply Hle. unfold vs. rewrite Hz. right; by left.
    + intros z Hz. apply Hle. unfold vs. rewrite Hz. do 2 right; by left.
    + intros line z Hin Hz.
      destruct (d3_max_Num (map (λ x, getLength (text x) "details") lines) z)
        as (m & Hm & Hzm).
      { rewrite <- Hz. apply list_elem_of_In, in_map_iff. exists line.
        split; [done|]. by apply list_elem_of_In. }
      assert (m + 22 ≤ w); [|lia]. apply Hle. unfold vs. rewrite Hm. by left.
Qed.

(** X3: [getPreferredIndiSize] throws exactly when the data provider does
    not know the id or [getIndiDetails] throws. Otherwise the width and the
    height are numbers, whatever the text measurement returns ([d3.max]
    skips [NaN] and [undefined]): the width is at least 64, and at least
    134 for a person with an image; the height is 43, 57, 71 or 90, and 90
    for a person with an image. *)
Theorem getPreferredIndiSize_bounds options id :
  (getPreferredIndiSize getLength options id = None
   ↔ getIndi (data options) id = None
     ∨ ∃ indi, getIndi (data options) id = Some indi ∧ getIndiDetails indi = None)
  ∧ (∀ indi size,
       getIndi (data options) id = Some indi →
       getPreferredIndiSize getLength options id = Some size →
       ∃ w h, size = (Num w, Num h)
              ∧ INDI_MIN_WIDTH + image_width indi ≤ w
              ∧ INDI_MIN_HEIGHT ≤ h
              ∧ (truthy_s (getImageUrl indi) = true → IMAGE_HEIGHT ≤ h)
              ∧ (h = 43 ∨ h = 57 ∨ h = 71 ∨ h = 90)).
Proof.
  split.
  - destruct (getIndi (data options) id) as [indi|] eqn:Hi.
    + destruct (getIndiDetails indi) as [lines|] eqn:Hl.
      * destruct (getPreferredIndiSize_known options id indi lines Hi Hl) as (w & -> & _).
        split; [done|]. intros [?|(indi' & [= <-] & ?)]; congruence.
      * unfold getPreferredIndiSize. rewrite Hi. cbn [mbind option_bind]. rewrite Hl.
        split; [|done]. intros _. right. eauto.
    + unfold getPreferredIndiSize. rewrite Hi. split; [|done]. by left.
  - intros indi size Hi Hs.
    destruct (getIndiDetails indi) as [lines|] eqn:Hl.
    + destruct (getPreferredIndiSize_known options id indi lines Hi Hl)
        as (w & Hw & Hmin & _).
      rewrite Hw in Hs. injection Hs as <-.
      pose proof (getIndiDetails_length indi lines Hl) as Hlen.
      eexists _, _. split; [done|]. unfold INDI_MIN_HEIGHT, IMAGE_HEIGHT in *.
      destruct (truthy_s (getImageUrl indi)); repeat split; try lia.
    + unfold getPreferredIndiSize in Hs. rewrite Hi in Hs.
      cbn [mbind option_bind] in Hs. by rewrite Hl in Hs.
Qed.

Lemma getFamDetails_Some options fam :
  ∃ lines, getFamDetails formatDate options fam = Some lines
           ∧ (length lines ≤ 2)%nat
           ∧ Forall (λ l, centered l = false) lines
           ∧ Forall (λ l, symbol l = ""%string) (tail lines).
Proof.
  unfold getFamDetails.
  destruct (truthy_s (_ ≫= _)), (truthy_s (getMarriagePlace fam)); cbn;
    eexists; (split; [done|]); cbn; repeat split; repeat constructor.
Qed.

(** The preferred size of a family that the data provider knows. *)
Lemma getPreferredFamSize_known options id fam :
  getFam (data options) id = Some fam →
  ∃ lines w,
    getFamDetails formatDate options fam = Some lines
    ∧ (length lines ≤ 2)%nat
    ∧ getPreferredFamSize getLength formatDate options id
      = Some (Num w, Num (10 + Z.of_nat (length lines) * 14))
    ∧ FAM_MIN_WIDTH ≤ w
    ∧ (∀ line z, line ∈ lines → getLength (text line) "details" = Num z →
                 z + 22 ≤ w).
Proof.
  unfold getPreferredFamSize.
  intros ->. destruct (getFamDetails_Some options fam) as (lines & Hl & Hlen & _).
  cbn [mbind option_bind]. rewrite Hl. cbn [mbind option_bind].
  set (vs := [js_add _ (Num 22); Num FAM_MIN_WIDTH]).
  destruct (d3_max_Num vs FAM_MIN_WIDTH) as (w & Hw & Hmin);
    [right; by left|].
  exists lines, w. split; [done|]. split; [done|]. split.
  - rewrite Hw. do 3 f_equal. rewrite d3_max_pair. unfold FAM_MIN_HEIGHT. f_equal. lia.
  - split; [done|]. intros line z Hin Hz.
    destruct (d3_max_Num (map (λ x, getLength (text x) "details") lines) z)
      as (m & Hm & Hzm).
    { rewrite <- Hz. apply list_elem_of_In, in_map_iff. exists line.
      split; [done|]. by apply list_elem_of_In. }
    destruct (d3_max_Num vs (m + 22)) as (w' & Hw' & Hle).
    { unfold vs. rewrite Hm. by left. }
    assert (w' = w) by congruence. lia.
Qed.

(** X5: [getPreferredFamSize] throws exactly when the data provider does
    not know the id; [getFamDetails] itself never throws (its access to the
    first line is guarded). Otherwise the family has at most two lines of
    details and the size is a pair of numbers: the height is 10 plus 14 per
    line, the width is at least 15 and at least the measured width of each
    line plus 22. *)
Theorem getPreferredFamSize_result options id :
  (getPreferredFamSize getLength formatDate options id = None
   ↔ getFam (data options) id = None)
  ∧ (∀ fam, getFam (data options) id = Some fam →
       ∃ lines w,
         getFamDetails formatDate options fam = Some lines
         ∧ (length lines ≤ 2)%nat
         ∧ getPreferredFamSize getLength formatDate options id
           = Some (Num w, Num (10 + Z.of_nat (length lines) * 14))
         ∧ FAM_MIN_WIDTH ≤ w
         ∧ (∀ line z, line ∈ lines → getLength (text line) "details" = Num z →
                      z + 22 ≤ w)).
Proof.
  split; [|apply getPreferredFamSize_known].
  destruct (getFam (data options) id) as [fam|] eqn:Hf.
  - destruct (getPreferredFamSize_known options id fam Hf) as (? & ? & _ & _ & -> & _).
    done.
  - unfold getPreferredFamSize. by rewrite Hf.
Qed.

(** X6: the lines of details are drawn inside the box of the preferred
    size. The baseline of line [i] of a person, [49 + i * 14], and of line
    [i] of a family, [16 + i * 14], lies at least 8 above the lower edge of
    a box with the preferred height. *)
Theorem baselines_inside_box options :
  (∀ id indi lines w h i,
     getIndi (data options) id = Some indi →
     getIndiDetails indi = Some lines →
     getPreferredIndiSize getLength options id = Some (w, Num h) →
     (i < length lines)%nat →
     ∃ y, line_y 49 i = Z_to_string y ∧ 0 < y ∧ y + 8 ≤ h)
  ∧ (∀ id fam lines w h i,
       getFam (data options) id = Some fam →
       getFamDetails formatDate options fam = Some lines →
       getPreferredFamSize getLength formatDate options id = Some (w, Num h) →
       (i < length lines)%nat →
       ∃ y, line_y 16 i = Z_to_string y ∧ 0 < y ∧ y + 8 ≤ h).
Proof.
  split.
  - intros id indi lines w h i Hi Hl Hs Hlt.
    destruct (getPreferredIndiSize_known options id indi lines Hi Hl) as (w' & Hw & _).
    rewrite Hw in Hs. injection Hs as _ <-.
    eexists. split; [reflexivity|]. unfold INDI_MIN_HEIGHT. lia.
  - intros id fam lines w h i Hi Hl Hs Hlt.
    destruct (getPreferredFamSize_known options id fam Hi)
      as (lines' & w' & Hl' & _ & Hs' & _).
    assert (lines' = lines) as -> by congruence.
    rewrite Hs' in Hs. injection Hs as _ <-.
    eexists. split; [reflexivity|]. lia.
Qed.

(** X7: the two people of a node do not overlap, whatever the position
    of the family box is. In vertical mode the spouse is placed directly to
    the right of the individual, whose offset is not negative; in horizontal
    mode both are at x = 0 and the spouse is placed below the individual, at
    the height of the individual or lower. *)
Theorem render_data_no_overlap options node i s wi hi :
  TreeNode.indi node = Some i →
  TreeNode.spouse node = Some s →
  TreeEntry.width i = Num wi →
  TreeEntry.height i = Num hi →
  ∃ x xs ys,
    render_data getFamPositionVertical getFamPositionHorizontal options node
    = [OffsetIndi.mk i (TreeNode.generation node) (Num x) (Num 0);
       OffsetIndi.mk s (TreeNode.generation node) (Num xs) (Num ys)]
    ∧ 0 ≤ x
    ∧ (horizontal options = false → xs = x + wi ∧ ys = 0)
    ∧ (horizontal options = true → x = 0 ∧ xs = 0 ∧ hi ≤ ys).
Proof.
  intros Hi Hs Hw Hh. unfold render_data. rewrite Hi, Hs, Hw, Hh.
  destruct (horizontal options); cbn [negb andb].
  - destruct (bool_decide _).
    + destruct (d3_max_Num [js_neg (getFamPositionHorizontal node); Num 0] 0)
        as (m & -> & ?); [right; by left|].
      eexists 0, 0, _. cbn. split; [done|]. repeat split; lia.
    + eexists 0, 0, _. cbn. split; [done|]. repeat split; lia.
  - destruct (bool_decide _).
    + destruct (d3_max_Num [js_neg (getFamPositionVertical node); Num 0] 0)
        as (m & -> & ?); [right; by left|].
      eexists m, _, 0. cbn. split; [done|]. repeat split; try done; lia.
    + eexists 0, _, 0. cbn. split; [done|]. repeat split; try done; lia.
Qed.

Lemma famAnchor_cases dim node :
  (famAnchor dim node = None
   ∧ TreeNode.spouse node = None
   ∧ ∀ i, TreeNode.indi node = Some i → truthy (dim i) = false)
  ∨ (∃ i, TreeNode.indi node = Some i ∧ truthy (dim i) = true
          ∧ famAnchor dim node = Some (dim i))
  ∨ (∃ s, TreeNode.spouse node = Some s
          ∧ (∀ i, TreeNode.indi node = Some i → truthy (dim i) = false)
          ∧ famAnchor dim node = Some (dim s)).
Proof.
  unfold famAnchor. destruct (TreeNode.indi node) as [i|].
  - destruct (truthy (dim i)) eqn:Ht.
    + right; left. eauto.
    + destruct (TreeNode.spouse node) as [s|].
      * right; right. exists s. split; [done|]. split; [|done]. by intros ? [= <-].
      * left. split; [done|]. split; [done|]. by intros ? [= <-].
  - cbn. destruct (TreeNode.spouse node) as [s|].
    + right; right. exists s. by split.
    + left. by split.
Qed.

(** X8: [getFamTransform] throws exactly when the node has no spouse and
    no individual with a truthy dimension (the width in horizontal mode, the
    height in vertical mode). Otherwise the family box is moved along the
    cross axis to that dimension of the individual, or of the spouse when
    the individual has none, and along the main axis to the raw position of
    the family box clamped at 0: a position that is negative, [NaN] or
    [undefined] gives 0. *)
Theorem getFamTransform_result options node :
  let dim := if horizontal options then TreeEntry.width else TreeEntry.height in
  let pos := if horizontal options
             then getFamPositionHorizontal node else getFamPositionVertical node in
  (getFamTransform getFamPositionVertical getFamPositionHorizontal options node = None
   ↔ TreeNode.spouse node = None
     ∧ ∀ i, TreeNode.indi node = Some i → truthy (dim i) = false)
  ∧ (∀ t,
       getFamTransform getFamPositionVertical getFamPositionHorizontal options node
       = Some t →
       ∃ a p,
         t = (if horizontal options
              then "translate(" +:+ js_str a +:+ ", " +:+ Z_to_string p +:+ ")"
              else "translate(" +:+ Z_to_string p +:+ ", " +:+ js_str a +:+ ")")%string
         ∧ 0 ≤ p
         ∧ (∀ z, pos = Num z → p = Z.max z 0)
         ∧ (pos = NaN ∨ pos = Undefined → p = 0)
         ∧ ((∃ i, TreeNode.indi node = Some i ∧ truthy (dim i) = true ∧ a = dim i)
            ∨ (∃ s, TreeNode.spouse node = Some s ∧ a = dim s
                    ∧ ∀ i, TreeNode.indi node = Some i → truthy (dim i) = false))).
Proof.
  intros dim pos.
  assert (∃ p, d3_max [pos; Num 0] = Num p ∧ 0 ≤ p
               ∧ (∀ z, pos = Num z → p = Z.max z 0)
               ∧ (pos = NaN ∨ pos = Undefined → p = 0)) as (p & Hp & Hp0 & Hpz & Hpn).
  { rewrite d3_max_clamp. destruct pos as [z| |].
    - exists (Z.max z 0). split; [done|]. split; [lia|]. split; [by intros ? [= <-]|].
      by intros [|].
    - exists 0. repeat split; try done.
    - exists 0. repeat split; try done. }
  assert (getFamTransform getFamPositionVertical getFamPositionHorizontal options node
          = a ← famAnchor dim node;
            Some (if horizontal options
                  then "translate(" +:+ js_str a +:+ ", " +:+ Z_to_string p +:+ ")"
                  else "translate(" +:+ Z_to_string p +:+ ", " +:+ js_str a +:+ ")")%string)
    as ->.
  { unfold getFamTransform. subst dim pos. destruct (horizontal options); by rewrite Hp. }
  destruct (famAnchor_cases dim node)
    as [(-> & Hs & Hi) | [(i & Hi & Ht & ->) | (s & Hs & Hi & ->)]]; cbn [mbind option_bind].
  - split; [done|]. done.
  - split.
    + split; [done|]. intros [_ H]. specialize (H i Hi). congruence.
    + intros t [= <-]. exists (dim i), p. repeat split; try done. left. eauto.
  - split.
    + split; [done|]. intros [H _]. congruence.
    + intros t [= <-]. exists (dim s), p. repeat split; try done. right. eauto.
Qed.

End Layout.

(** X9: the loops that draw the details, in [renderIndi] and in
    [renderFamily], run for the line numbers that some entering person or
    family has: from 0 up to the greatest number of lines, and not at all
    when nothing enters. *)
Theorem loop_bound_rounds (details : gmap string (list DetailsLine)) i :
  i ∈ loop_bound details
  ↔ ∃ id l, details !! id = Some l ∧ (i < length l)%nat.
Proof.
  unfold loop_bound.
  set (vs := map (λ kv : string * list DetailsLine, Num (Z.of_nat (length kv.2)))
               (map_to_list details)).
  split.
  - destruct (d3_max vs) as [m| |] eqn:Hm; try (by rewrite elem_of_nil).
    intros Hi. apply elem_of_seq in Hi.
    apply d3_max_elem, list_elem_of_In, in_map_iff in Hm as ([id l] & Heq & Hin).
    injection Heq as Heq. apply list_elem_of_In, elem_of_map_to_list in Hin.
    exists id, l. split; [done|]. cbn in Heq. lia.
  - intros (id & l & Hl & Hi).
    destruct (d3_max_Num vs (Z.of_nat (length l))) as (m & -> & Hle).
    { apply list_elem_of_In, in_map_iff. exists (id, l). split; [done|].
      by apply list_elem_of_In, elem_of_map_to_list. }
    apply elem_of_seq. lia.
Qed.

(** ** What a pass does to the document *)

Section Footprint.
Context (o : RendererOptions) (I : DOM → Prop).
Hypothesis I_modify : ∀ f e, touch o f → keeps I (modify f e) (λ _, True).
Hypothesis I_create : ∀ tag p dat, creates o tag →
  keeps I (createElement tag p dat) (λ _, True).
Hypothesis I_schedule : ∀ tw, timed tw → animate o = true →
  keeps I (schedule tw) (λ _, True).

Ltac step := eapply (keeps_bind _ _ _ (λ _, True)).

Ltac prim :=
  cbv beta;
  lazymatch goal with
  | |- keeps _ (mbind _ _) _ => step; [prim | intros ? _; prim]
  | |- keeps _ (mret _) _ => by apply keeps_ret
  | |- keeps _ (lift _) _ => eapply keeps_weaken; [apply keeps_lift | done]
  | |- keeps _ (getDatum _) _ => apply keeps_getDatum
  | |- keeps _ getElements _ => eapply keeps_weaken; [apply keeps_getElements | done]
  | |- keeps _ (modify _ _) _ => apply I_modify; by constructor
  | |- keeps _ (createElement _ _ _) _ => by apply I_create
  | |- keeps _ (match ?x with _ => _ end) _ => destruct x; prim
  end.

Lemma footprint_append tag sel : creates o tag → keeps I (d3_append tag sel) (λ _, True).
Proof.
  intros Ht. apply quiet_for_nodes. intros p. unfold appendChild.
  step; [prim|]. intros dat _. step; [prim|]. intros c _.
  step; [|intros; prim]. apply I_modify. apply (touch_children o (λ el, childNodes el ++ [c])).
Qed.

Lemma footprint_attr name v sel : keeps I (d3_attr name v sel) (λ _, True).
Proof. apply quiet_for_nodes. intros e. prim. Qed.

Lemma footprint_attr_const name v sel : keeps I (d3_attr_const name v sel) (λ _, True).
Proof. apply quiet_for_nodes. intros e. prim. Qed.

Lemma footprint_text v sel : keeps I (d3_text v sel) (λ _, True).
Proof. apply quiet_for_nodes. intros e. prim. Qed.

Lemma footprint_on type l sel : listens o type l → keeps I (d3_on type l sel) (λ _, True).
Proof.
  intros Hl. unfold d3_on. step; [|intros; prim].
  apply quiet_for_nodes. intros e. prim.
Qed.

Lemma footprint_select s sel : keeps I (d3_select s sel) (λ _, True).
Proof.
  apply quiet_for_each. intros [e|]; [|prim].
  step; [eapply keeps_weaken; [apply keeps_getElements | done]|].
  intros els _. destruct (querySelector els s e); prim.
Qed.

Lemma footprint_select_this test sel : keeps I (d3_select_this test sel) (λ _, True).
Proof. apply quiet_for_each. intros [e|]; prim. Qed.

Lemma footprint_filter test sel : keeps I (d3_filter test sel) (λ _, True).
Proof. unfold d3_filter. step; [apply footprint_select_this|]. intros; prim. Qed.

Lemma footprint_each {S} (f : option Datum → S → option S) sel acc :
  keeps I (d3_each f sel acc) (λ _, True).
Proof.
  revert acc. induction sel as [|[e|] sel IH]; intros acc; cbn [d3_each];
    [prim| |apply IH].
  step; [prim|]. intros dat _. step; [prim|]. intros acc' _. apply IH.
Qed.

Lemma footprint_nodesByKey key group map :
  keeps I (nodesByKey key group map) (λ _, True).
Proof.
  revert map. induction group as [|n group IH]; intros map; cbn [nodesByKey]; [prim|].
  step; [prim|]. intros dat _. step; [prim|]. intros k _. apply IH.
Qed.

Lemma footprint_bindData key parent data map :
  keeps I (bindData key parent data map) (λ _, True).
Proof.
  revert map. induction data as [|dat data IH]; intros map; cbn [bindData]; [prim|].
  step; [prim|]. intros k _.
  destruct (map !! k).
  - step; [prim|]. intros _ _. step; [apply IH|]. intros; prim.
  - step; [apply IH|]. intros; prim.
Qed.

Lemma footprint_selectAll_data s value key sel :
  keeps I (d3_selectAll_data s value key sel) (λ _, True).
Proof.
  unfold d3_selectAll_data. step; [|intros; prim].
  apply quiet_for_each. intros parent.
  step; [prim|]. intros els _. step; [prim|]. intros dat _.
  step; [prim|]. intros data _.
  step; [apply footprint_nodesByKey|]. intros map _.
  step; [apply footprint_bindData|]. intros; prim.
Qed.

Lemma footprint_enter_append tag sel :
  creates o tag → keeps I (d3_enter_append tag sel) (λ _, True).
Proof.
  intros Ht. apply quiet_for_nodes. intros en. unfold insertBefore.
  step; [prim|]. intros els _. step; [prim|]. intros position _.
  step; [prim|]. intros c _. step; [|intros; prim].
  apply I_modify.
  apply (touch_children o
           (λ el, take position (childNodes el) ++ c :: drop position (childNodes el))).
Qed.

Lemma footprint_target_attr name v t :
  geometry name → Timed_target o t → keeps I (target_attr name v t) (Timed_target o).
Proof.
  intros Hg Ht. destruct t as [sel|t]; cbn [target_attr].
  - step; [apply footprint_attr|]. intros; by apply keeps_ret.
  - destruct Ht as (Ha & Hd & Hdur).
    eapply (keeps_bind _ _ _ (λ r, r = t)); [|intros ? ->; by apply keeps_ret].
    unfold d3_transition_attr. step; [|intros; by apply keeps_ret].
    apply quiet_for_nodes. intros e.
    step; [apply keeps_getDatum|]. intros dat _.
    step; [eapply keeps_weaken; [apply keeps_lift|done]|]. intros val _.
    by apply I_schedule.
Qed.

Ltac tag_ok :=
  unfold creates;
  first [ by left | by (right; left) | by (do 2 right; left) | by (do 3 right; left)
        | by (do 4 right; left)
        | do 5 right; split; [reflexivity|]; first [left; by eexists | right; by eexists] ].

Ltac fp_op :=
  lazymatch goal with
  | |- keeps _ (mret _) _ => by apply (keeps_ret _ _ (λ _, True))
  | |- keeps _ (d3_append _ _) _ => apply footprint_append; tag_ok
  | |- keeps _ (d3_attr_const _ _ _) _ => apply footprint_attr_const
  | |- keeps _ (d3_attr _ _ _) _ => apply footprint_attr
  | |- keeps _ (d3_text _ _) _ => apply footprint_text
  | |- keeps _ (d3_on _ _ _) _ => apply footprint_on; by split
  | |- keeps _ (d3_select _ _) _ => apply footprint_select
  | |- keeps _ (d3_select_this _ _) _ => apply footprint_select_this
  | |- keeps _ (d3_filter _ _) _ => apply footprint_filter
  | |- keeps _ (d3_each _ _ _) _ => apply footprint_each
  | |- keeps _ (d3_enter_append _ _) _ => apply footprint_enter_append; tag_ok
  | |- keeps _ (d3_selectAll_data _ _ _ _) _ => apply footprint_selectAll_data
  | |- keeps _ (target_attr _ _ _) _ =>
      apply footprint_target_attr;
      solve [ assumption | apply Timed_transition
            | apply geometry_transform | apply geometry_width | apply geometry_height ]
  end.

Ltac fp_chain :=
  lazymatch goal with
  | |- keeps _ (mbind _ _) _ =>
      eapply keeps_bind; [fp_chain | intros ? ?; fp_chain]
  | |- keeps _ (let _ := _ in _) _ => cbv zeta; fp_chain
  | |- keeps _ (if ?b then _ else _) _ => destruct b eqn:?; fp_chain
  | |- keeps _ (match ?x with _ => _ end) _ => destruct x eqn:?; fp_chain
  | |- _ => fp_op
  end.

Section Render.
Context (formatDate : Date → option string → string).
Context (getFamPositionVertical getFamPositionHorizontal : TreeNode.t → jsnum).

Lemma footprint_renderFamily_line details enter i :
  keeps I (renderFamily_line details enter i) (λ _, True).
Proof. unfold renderFamily_line. fp_chain. Qed.

Lemma footprint_renderIndi_line details enter i :
  keeps I (renderIndi_line o details enter i) (λ _, True).
Proof. unfold renderIndi_line. fp_chain. Qed.

Lemma footprint_renderFamily enter update :
  keeps I (renderFamily formatDate o enter update) (λ _, True).
Proof.
  unfold renderFamily.
  step; [fp_chain|]. intros enter' _.
  step; [fp_chain|]. intros _ _.
  step; [fp_chain|]. intros _ _.
  step; [fp_chain|]. intros details _.
  step; [|intros _ _; fp_chain].
  apply quiet_for_each. intros i. apply footprint_renderFamily_line.
Qed.

Lemma footprint_renderIndi enter update :
  keeps I (renderIndi o enter update) (λ _, True).
Proof.
  unfold renderIndi.
  step; [fp_chain|]. intros [enter' update'] _.
  eapply keeps_bind; [fp_chain|]. intros _ _.
  eapply keeps_bind; [fp_chain|]. intros background _.
  eapply keeps_bind; [fp_chain|]. intros selected _. cbv zeta.
  eapply keeps_bind; [fp_chain|]. intros _ _.
  eapply keeps_bind; [fp_chain|]. intros clip _.
  eapply keeps_bind; [fp_chain|]. intros selected' _.
  eapply keeps_bind; [fp_chain|]. intros _ _.
  eapply keeps_bind; [fp_chain|]. intros _ _.
  eapply keeps_bind; [fp_chain|]. intros _ _.
  eapply keeps_bind; [fp_chain|]. intros details _.
  step.
  { apply quiet_for_each. intros i. apply footprint_renderIndi_line. }
  intros _ _.
  eapply keeps_bind; [fp_chain|]. intros _ _.
  eapply keeps_bind; [fp_chain|]. intros border _.
  eapply keeps_bind; [fp_chain|]. intros selected'' _.
  eapply keeps_bind; [fp_chain|]. intros _ _.
  fp_chain.
Qed.

(** A pass of [render] acts on the document through the changes of
    [touch], the tags of [creates] and tweens with the timing of the
    renderer, whether it returns or throws. *)
Lemma footprint_render enter update :
  keeps I
    (render formatDate getFamPositionVertical getFamPositionHorizontal o enter update)
    (λ _, True).
Proof.
  unfold render.
  eapply keeps_bind; [fp_chain|]. intros enter' _.
  eapply keeps_bind; [fp_chain|]. intros update' _.
  eapply keeps_bind; [fp_chain|]. intros [indiUpdate indiUpdate_enter] _.
  eapply keeps_bind; [fp_chain|]. intros indiEnter _.
  eapply keeps_bind; [fp_chain|]. intros _ _.
  eapply keeps_bind; [apply footprint_renderIndi|]. intros _ _.
  eapply keeps_bind; [fp_chain|]. intros familyEnter _.
  eapply keeps_bind; [fp_chain|]. intros familyUpdate _.
  eapply keeps_bind; [fp_chain|]. intros _ _.
  apply footprint_renderFamily.
Qed.

End Render.
End Footprint.

Lemma touch_tagName o f el : touch o f → tagName (f el) = tagName el.
Proof. by intros []. Qed.

Lemma touch_listeners o f el type l :
  touch o f → listeners (f el) !! type = Some l →
  listeners el !! type = Some l ∨ listens o type l.
Proof.
  intros [] Hl; cbn in Hl; auto.
  destruct (decide (type0 = type)) as [<-|Hne].
  - rewrite lookup_insert_eq in Hl. injection Hl as <-. by right.
  - rewrite lookup_insert_ne in Hl by done. by left.
Qed.

Section Instances.
Context (o : RendererOptions).

Lemma well_formed_modify f e : keeps well_formed (modify f e) (λ _, True).
Proof.
  intros d Hd. split; [|done]. cbn. intros e' el. cbn.
  rewrite lookup_alter. destruct (decide (e = e')) as [<-|Hne].
  - destruct (elements d !! e) as [el0|] eqn:E; [|done]. intros _. by eapply Hd.
  - apply Hd.
Qed.

Lemma well_formed_create tag p dat : keeps well_formed (createElement tag p dat) (λ _, True).
Proof.
  intros d Hd. split; [|done]. cbn. intros e' el. cbn.
  destruct (decide (next_id d = e')) as [<-|Hne].
  - intros _. lia.
  - rewrite lookup_insert_ne by done. intros H. specialize (Hd _ _ H). cbn in Hd. lia.
Qed.

Lemma well_formed_schedule tw : keeps well_formed (schedule tw) (λ _, True).
Proof. by intros d Hd. Qed.

Lemma Creating_init d0 : well_formed d0 → Creating o d0 d0.
Proof.
  intros Hwf. split; [done|]. split; [done|]. intros e el He Hel.
  specialize (Hwf _ _ Hel). cbn in Hwf. lia.
Qed.

Lemma Creating_modify d0 f e : touch o f → keeps (Creating o d0) (modify f e) (λ _, True).
Proof.
  intros Hf d (Hn & Hold & Hnew). split; [|done]. cbn. split; [done|]. split.
  - intros e' He' H0. cbn. rewrite lookup_alter.
    destruct (decide (e = e')) as [<-|Hne]; [|by apply Hold].
    by rewrite (Hold e He' H0).
  - intros e' el He'. cbn. rewrite lookup_alter.
    destruct (decide (e = e')) as [<-|Hne]; [|by apply Hnew].
    destruct (elements d !! e) as [el0|] eqn:E; [|done]. intros [= <-].
    destruct (Hnew e el0 He' E) as [Ht Hl]. split.
    + by rewrite (touch_tagName o).
    + intros type l H. destruct (touch_listeners o f el0 type l Hf H); auto.
Qed.

Lemma Creating_create d0 tag p dat :
  creates o tag → keeps (Creating o d0) (createElement tag p dat) (λ _, True).
Proof.
  intros Ht d (Hn & Hold & Hnew). split; [|done].
  unfold createElement. cbn [snd elements next_id]. split; [cbn; lia|]. split.
  - intros e' He' H0. cbn [elements]. rewrite lookup_insert_ne by lia. by apply Hold.
  - intros e' el He'. cbn [elements]. destruct (decide (next_id d = e')) as [<-|Hne].
    + rewrite lookup_insert_eq. intros [= <-]. split; [done|]. by intros type l.
    + rewrite lookup_insert_ne by done. by apply Hnew.
Qed.

Lemma Creating_schedule d0 tw : keeps (Creating o d0) (schedule tw) (λ _, True).
Proof. by intros d Hd. Qed.

End Instances.

(** X12: what a pass adds to a well-formed document, whether it returns
    or throws. An element that was not there before has a handle from the
    old counter on; it is a [g], [rect], [clipPath], [text], [image] or [a]
    element, and an [a] element only when a function for the links of
    people or of families is configured; its only listeners are click
    listeners, for people only with [indiCallback] and for families only
    with [famCallback]. *)
Theorem render_created_elements formatDate getFamPositionVertical
    getFamPositionHorizontal options enter update d0 :
  well_formed d0 →
  let d := (render formatDate getFamPositionVertical getFamPositionHorizontal
              options enter update d0).2 in
  ∀ e el, elements d0 !! e = None → elements d !! e = Some el →
    (next_id d0 ≤ e)%nat
    ∧ tagName el ∈ ["g"; "rect"; "clipPath"; "text"; "image"; "a"]%string
    ∧ (tagName el = "a"%string →
       is_Some (indiHrefFunc options) ∨ is_Some (famHrefFunc options))
    ∧ (∀ type l, listeners el !! type = Some l →
         type = "click"%string
         ∧ (l = IndiClick → indiCallback options = true)
         ∧ (l = FamClick → famCallback options = true)).
Proof.
  intros Hwf d e el H0 Hel.
  destruct (footprint_render options (Creating options d0)
              (λ f e H, Creating_modify options d0 f e H)
              (λ tag p dat H, Creating_create options d0 tag p dat H)
              (λ tw _ _, Creating_schedule options d0 tw)
              formatDate getFamPositionVertical getFamPositionHorizontal
              enter update d0 (Creating_init options d0 Hwf)) as [(Hn & Hold & Hnew) _].
  fold d in Hn, Hold, Hnew.
  assert (next_id d0 ≤ e)%nat as He.
  { destruct (decide (next_id d0 ≤ e)%nat) as [|Hlt]; [done|].
    rewrite Hold in Hel; [done|lia|done]. }
  split; [done|].
  destruct (Hnew e el He Hel) as [Ht Hl]. split; [|split].
  - destruct Ht as [->|[->|[->|[->|[->|[-> _]]]]]]; set_solver.
  - intros Ha. destruct Ht as [H|[H|[H|[H|[H|[_ H]]]]]]; try done;
      rewrite Ha in H; done.
  - intros type l H. destruct (Hl type l H) as [-> Hc]. split; [done|].
    split; intros ->; exact Hc.
Qed.

(** ** Passes without elements *)

Lemma d3_merge_empty n m :
  d3_merge (replicate n None) (replicate m None) = replicate n None.
Proof.
  revert m. induction n as [|n IH]; intros m; [done|].
  cbn [replicate d3_merge]. f_equal; [by destruct m|].
  destruct m as [|m]; [apply (IH 0%nat)|apply IH].
Qed.

Lemma d3_selectAll_data_empty s value key n d :
  d3_selectAll_data s value key (replicate n None) d = (Some ([], []), d).
Proof.
  unfold d3_selectAll_data.
  replace (omap id (replicate n None)) with (@nil nat); [done|].
  induction n as [|n IH]; [done|]. done.
Qed.

Lemma target_attr_nil name value o d :
  target_attr name value (transition o []) d = (Some (transition o []), d).
Proof. apply (target_attr_empty name value o 0). Qed.

Lemma renderIndi_without_nodes o d : renderIndi o [] [] d = (Some (), d).
Proof.
  unfold renderIndi.
  destruct (indiHrefFunc o), (indiCallback o);
    rewrite !M_bind_run; cbn;
    repeat first [ rewrite M_bind_run | rewrite target_attr_nil
                 | rewrite loop_bound_empty | rewrite M_ret_run
                 | progress cbn ]; done.
Qed.

(** X10: a pass in which no element enters and none is updated returns
    and leaves the document as it is, whatever the options are. *)
Theorem render_without_nodes formatDate getFamPositionVertical getFamPositionHorizontal
    options n m d :
  render formatDate getFamPositionVertical getFamPositionHorizontal options
    (replicate n None) (replicate m None) d
  = (Some (), d).
Proof.
  unfold render, d3_append, d3_attr_const, d3_enter_append.
  repeat first [ rewrite M_bind_run | rewrite for_nodes_empty | rewrite for_nodes_nil
               | rewrite d3_select_empty | rewrite d3_merge_empty
               | rewrite d3_selectAll_data_empty | rewrite d3_select_this_empty
               | rewrite target_attr_empty | rewrite target_attr_nil
               | rewrite renderIndi_without_nodes
               | rewrite renderFamily_without_enter
               | rewrite M_ret_run | progress cbv beta iota
               | progress cbn [d3_merge] ].
  done.
Qed.

(** ** Passes that return *)

Section Returns.

Lemma extends_refl d : well_formed d → extends d d.
Proof. by split. Qed.

Lemma extends_trans d1 d2 d3 : extends d1 d2 → extends d2 d3 → extends d1 d3.
Proof. intros [_ H1] [Hwf H2]. split; [done|]. eauto. Qed.

Lemma extends_wf d d' : extends d d' → well_formed d'.
Proof. by intros [? _]. Qed.

Lemma Bound_extends P sel d d' : extends d d' → Bound P sel d → Bound P sel d'.
Proof. intros [_ H] HB e He. destruct (HB e He) as (x & Hx & HP). eauto. Qed.

Lemma Bound_weaken (P Q : Datum → Prop) sel d :
  (∀ x, P x → Q x) → Bound P sel d → Bound Q sel d.
Proof. intros HPQ HB e He. destruct (HB e He) as (x & Hx & HP). eauto. Qed.

Lemma Bound_target_extends P t d d' :
  extends d d' → Bound_target P t d → Bound_target P t d'.
Proof. destruct t; apply Bound_extends. Qed.

Lemma returns_ret {A} (a : A) d (Q : A → DOM → Prop) :
  well_formed d → Q a d → returns (mret a) d Q.
Proof. intros Hwf HQ. exists a, d. split; [done|]. split; [by apply extends_refl|done]. Qed.

Lemma returns_bind {A B} (m : M A) (k : A → M B) d (R : A → DOM → Prop)
    (Q : B → DOM → Prop) :
  returns m d R →
  (∀ a d', extends d d' → R a d' → returns (k a) d' Q) →
  returns (m ≫= k) d Q.
Proof.
  intros (a & d' & Hm & Hext & HR) Hk.
  destruct (Hk a d' Hext HR) as (b & d'' & Hb & Hext' & HQ).
  exists b, d''. rewrite M_bind_run, Hm. split; [done|].
  split; [by eapply extends_trans|done].
Qed.

Lemma returns_weaken {A} (m : M A) d (Q Q' : A → DOM → Prop) :
  returns m d Q → (∀ a d', Q a d' → Q' a d') → returns m d Q'.
Proof. intros (a & d' & Hm & Hext & HQ) H. exists a, d'. auto. Qed.

Lemma returns_lift {A} (o : option A) a d :
  well_formed d → o = Some a → returns (lift o) d (λ r _, r = a).
Proof. intros Hwf ->. exists a, d. split; [done|]. split; [by apply extends_refl|done]. Qed.

Lemma returns_getDatum e d :
  well_formed d → returns (getDatum e) d (λ r d', r = datum_of d' e ∧ d' = d).
Proof. intros Hwf. eexists _, d. split; [done|]. split; [by apply extends_refl|done]. Qed.

Lemma datum_of_lt d e x : well_formed d → datum_of d e = Some x → (e < next_id d)%nat.
Proof.
  unfold datum_of. intros Hwf H. destruct (elements d !! e) as [el|] eqn:E; [|done].
  by apply (Hwf e el).
Qed.

Lemma returns_modify f e d :
  well_formed d → (∀ el, datum (f el) = datum el) →
  returns (modify f e) d (λ _ _, True).
Proof.
  intros Hwf Hf. eexists (), _. split; [done|]. split; [|done]. split.
  - by apply (well_formed_modify f e d).
  - intros e' x. unfold datum_of. cbn. rewrite lookup_alter.
    destruct (decide (e = e')) as [<-|]; [|done].
    destruct (elements d !! e); [|done]. cbn. by rewrite Hf.
Qed.

Lemma returns_createElement tag p dat d :
  well_formed d →
  returns (createElement tag p dat) d
    (λ c d', datum_of d' c = dat
             ∧ ∃ el, elements d' !! c = Some el ∧ childNodes el = []).
Proof.
  intros Hwf. eexists _, _. split; [done|]. split; [split|].
  - by apply (well_formed_create tag p dat d).
  - intros e x Hx. pose proof (datum_of_lt d e x Hwf Hx).
    unfold datum_of in *. cbn. rewrite lookup_insert_ne by lia. done.
  - unfold datum_of. cbn. rewrite lookup_insert_eq. split; [done|]. eauto.
Qed.

Lemma returns_schedule tw d : well_formed d → returns (schedule tw) d (λ _ _, True).
Proof. intros Hwf. eexists (), _. split; [done|]. split; [|done]. by split. Qed.

Lemma returns_for_each {A B} (f : A → M B) l d :
  well_formed d →
  (∀ x d1, extends d d1 → returns (f x) d1 (λ _ _, True)) →
  returns (for_each f l) d (λ _ _, True).
Proof.
  revert d. induction l as [|x l IH]; intros d Hwf Hf; cbn [for_each].
  - by apply returns_ret.
  - eapply returns_bind; [apply Hf; by apply extends_refl|]. intros y d1 H1 _.
    eapply returns_bind.
    + apply IH; [by eapply extends_wf|]. intros x' d2 H2. apply Hf.
      by eapply extends_trans.
    + intros ys d2 H2 _. apply returns_ret; [by eapply extends_wf|done].
Qed.

Lemma returns_for_nodes {A B} (f : A → M B) (PA : A → Prop) (R : B → DOM → Prop) sel d :
  well_formed d →
  (∀ a, Some a ∈ sel → PA a) →
  (∀ a d1, extends d d1 → PA a → returns (f a) d1 R) →
  (∀ y d1 d2, R y d1 → extends d1 d2 → R y d2) →
  returns (for_nodes f sel) d (λ r d', ∀ y, Some y ∈ r → R y d').
Proof.
  intros Hwf Hsel Hf Hstable. unfold for_nodes.
  revert d Hwf Hf. induction sel as [|[a|] sel IH]; intros d Hwf Hf; cbn [for_each].
  - apply returns_ret; [done|]. intros y Hy. by apply elem_of_nil in Hy.
  - eapply returns_bind.
    { eapply returns_bind; [apply Hf; [by apply extends_refl|apply Hsel; left]|].
      intros y d1 H1 Hy. apply (returns_ret _ _ (λ s d', ∀ y, s = Some y → R y d'));
        [by eapply extends_wf|]. by intros ? [= <-]. }
    intros s d1 H1 Hs. eapply returns_bind.
    + apply IH; [intros; apply Hsel; by right|by eapply extends_wf|].
      intros a' d2 H2. apply Hf. by eapply extends_trans.
    + intros r d2 H2 Hr. apply returns_ret; [by eapply extends_wf|].
      intros y Hy. apply elem_of_cons in Hy as [Hy|Hy]; [|by apply Hr].
      eapply Hstable; [by apply Hs|done].
  - eapply returns_bind; [by apply (returns_ret _ _ (λ s _, s = None))|].
    intros s d1 H1 ->. eapply returns_bind.
    + apply IH; [intros; apply Hsel; by right|by eapply extends_wf|].
      intros a' d2 H2. apply Hf. by eapply extends_trans.
    + intros r d2 H2 Hr. apply returns_ret; [by eapply extends_wf|].
      intros y Hy. apply elem_of_cons in Hy as [Hy|Hy]; [done|by apply Hr].
Qed.

(** The rule for the operations on the elements of a selection. *)
Lemma returns_for_handles (f : nat → M nat) (P P' : Datum → Prop) sel d :
  well_formed d →
  Bound P sel d →
  (∀ e x d1, well_formed d1 → datum_of d1 e = Some x → P x →
             returns (f e) d1 (λ y d2, ∃ x', datum_of d2 y = Some x' ∧ P' x')) →
  returns (for_nodes f sel) d (λ r d', Bound P' r d').
Proof.
  intros Hwf HB Hf.
  apply (returns_for_nodes f (λ e, ∃ x, datum_of d e = Some x ∧ P x)
           (λ y d', ∃ x', datum_of d' y = Some x' ∧ P' x')); [done|done| |].
  - intros e d1 [Hwf1 H1] (x & Hx & HP). eapply Hf; eauto.
  - intros y d1 d2 (x & Hx & HP) [_ H]. eauto.
Qed.

Lemma datum_set_children c el : datum (set_children c el) = datum el.
Proof. done. Qed.

Lemma returns_appendChild tag p x d :
  well_formed d → datum_of d p = Some x →
  returns (appendChild tag p) d (λ c d', datum_of d' c = Some x).
Proof.
  intros Hwf Hx. unfold appendChild.
  eapply returns_bind; [by apply returns_getDatum|]. intros dat d1 H1 [-> ->].
  eapply returns_bind; [by apply returns_createElement|]. intros c d2 H2 [Hc _].
  eapply returns_bind; [apply returns_modify; [by eapply extends_wf|done]|].
  intros _ d3 H3 _. apply returns_ret; [by eapply extends_wf|].
  destruct H3 as [_ H3]. apply H3. by rewrite Hc.
Qed.

Lemma returns_append P tag sel d :
  well_formed d → Bound P sel d →
  returns (d3_append tag sel) d (λ r d', Bound P r d').
Proof.
  intros Hwf HB. apply (returns_for_handles _ P P); [done|done|].
  intros e x d1 Hwf1 Hx HP. eapply returns_weaken; [by apply returns_appendChild|].
  cbv beta. eauto.
Qed.

Lemma returns_attr P name value sel d :
  well_formed d → Bound P sel d →
  (∀ x, P x → is_Some (value (Some x))) →
  returns (d3_attr name value sel) d (λ r d', Bound P r d').
Proof.
  intros Hwf HB Hv. apply (returns_for_handles _ P P); [done|done|].
  intros e x d1 Hwf1 Hx HP.
  eapply returns_bind; [by apply returns_getDatum|]. intros dat d2 H2 [-> ->].
  rewrite Hx. destruct (Hv x HP) as [v Hval].
  eapply returns_bind; [by apply returns_lift|]. intros ? d3 H3 ->.
  eapply returns_bind; [apply returns_modify; [by eapply extends_wf|done]|].
  intros _ d4 H4 _. apply returns_ret; [by eapply extends_wf|].
  exists x. split; [|done]. destruct H4 as [_ H4]. destruct H3 as [_ H3]. auto.
Qed.

Lemma returns_attr_const P name value sel d :
  well_formed d → Bound P sel d →
  returns (d3_attr_const name value sel) d (λ r d', Bound P r d').
Proof.
  intros Hwf HB. apply (returns_for_handles _ P P); [done|done|].
  intros e x d1 Hwf1 Hx HP.
  eapply returns_bind; [apply returns_modify; [done|done]|].
  intros _ d4 H4 _. apply returns_ret; [by eapply extends_wf|].
  exists x. split; [|done]. destruct H4 as [_ H4]. auto.
Qed.

Lemma returns_text P value sel d :
  well_formed d → Bound P sel d →
  (∀ x, P x → is_Some (value (Some x))) →
  returns (d3_text value sel) d (λ r d', Bound P r d').
Proof.
  intros Hwf HB Hv. apply (returns_for_handles _ P P); [done|done|].
  intros e x d1 Hwf1 Hx HP.
  eapply returns_bind; [by apply returns_getDatum|]. intros dat d2 H2 [-> ->].
  rewrite Hx. destruct (Hv x HP) as [v Hval].
  eapply returns_bind; [by apply returns_lift|]. intros ? d3 H3 ->.
  eapply returns_bind; [apply returns_modify; [by eapply extends_wf|done]|].
  intros _ d4 H4 _. apply returns_ret; [by eapply extends_wf|].
  exists x. split; [|done]. destruct H4 as [_ H4]. destruct H3 as [_ H3]. auto.
Qed.

Lemma returns_on type l sel d :
  well_formed d → returns (d3_on type l sel) d (λ _ _, True).
Proof.
  intros Hwf. unfold d3_on. eapply returns_bind.
  - apply (returns_for_nodes _ (λ _, True) (λ _ _, True)); [done|done| |done].
    intros e d1 H1 _. apply returns_modify; [by eapply extends_wf|done].
  - intros r d1 H1 _. apply returns_ret; [by eapply extends_wf|done].
Qed.

Lemma returns_select_this P test sel d :
  well_formed d → Bound P sel d →
  (∀ x, P x → is_Some (test (Some x))) →
  returns (d3_select_this test sel) d
    (λ r d', Bound (λ x, P x ∧ test (Some x) = Some true) r d').
Proof.
  intros Hwf HB Ht. unfold d3_select_this.
  revert d Hwf HB. induction sel as [|[e|] sel IH]; intros d Hwf HB; cbn [for_each].
  - apply returns_ret; [done|]. intros y Hy. by apply elem_of_nil in Hy.
  - destruct (HB e) as (x & Hx & HP); [left|].
    eapply returns_bind.
    { eapply returns_bind; [by apply returns_getDatum|]. intros dat d1 H1 [-> ->].
      rewrite Hx. destruct (Ht x HP) as [b Hb].
      eapply returns_bind; [by apply returns_lift|]. intros ? d2 H2 ->.
      apply (returns_ret _ _
               (λ s d', ∀ y, s = Some y →
                  ∃ x, datum_of d' y = Some x ∧ P x ∧ test (Some x) = Some true));
        [by eapply extends_wf|].
      destruct b; [|done]. intros ? [= <-]. exists x. destruct H2 as [_ H2]. auto. }
    intros s d1 H1 Hs. eapply returns_bind.
    + apply IH; [by eapply extends_wf|].
      eapply Bound_extends; [done|]. intros e' He'. apply HB. by right.
    + intros r d2 H2 Hr. apply returns_ret; [by eapply extends_wf|].
      intros y Hy. apply elem_of_cons in Hy as [Hy|Hy]; [|by apply Hr].
      destruct (Hs y) as (x' & Hx' & HP'); [done|]. exists x'. split; [|done].
      destruct H2 as [_ H2]. auto.
  - eapply returns_bind; [by apply (returns_ret _ _ (λ s _, s = None))|].
    intros s d1 H1 ->. eapply returns_bind.
    + apply IH; [by eapply extends_wf|].
      eapply Bound_extends; [done|]. intros e' He'. apply HB. by right.
    + intros r d2 H2 Hr. apply returns_ret; [by eapply extends_wf|].
      intros y Hy. apply elem_of_cons in Hy as [Hy|Hy]; [done|by apply Hr].
Qed.

Lemma returns_filter P test sel d :
  well_formed d → Bound P sel d →
  (∀ x, P x → is_Some (test (Some x))) →
  returns (d3_filter test sel) d
    (λ r d', Bound (λ x, P x ∧ test (Some x) = Some true) r d').
Proof.
  intros Hwf HB Ht. unfold d3_filter.
  eapply returns_bind; [by apply (returns_select_this P)|].
  intros r d1 H1 Hr. apply returns_ret; [by eapply extends_wf|].
  intros e He. apply Hr. by apply list_elem_of_filter in He as [_ He].
Qed.

Lemma returns_each {S} (f : option Datum → S → option S) (P : Datum → Prop)
    (J : S → Prop) (covers : S → Datum → Prop) sel acc d :
  well_formed d → Bound P sel d → J acc →
  (∀ x s, P x → J s →
     ∃ s', f (Some x) s = Some s' ∧ J s' ∧ covers s' x ∧ ∀ y, covers s y → covers s' y) →
  returns (d3_each f sel acc) d
    (λ r d', J r ∧ Bound (λ x, P x ∧ covers r x) sel d').
Proof.
  intros Hwf HB HJ Hf.
  enough (∀ seen,
    Bound (λ x, P x ∧ covers acc x) seen d →
    returns (d3_each f sel acc) d
      (λ r d', J r ∧ Bound (λ x, P x ∧ covers r x) (seen ++ sel) d')) as H.
  { apply (H []). intros e He. by apply elem_of_nil in He. }
  revert acc HJ d Hwf HB. induction sel as [|[e|] sel IH];
    intros acc HJ d Hwf HB seen Hseen; cbn [d3_each].
  - apply returns_ret; [done|]. split; [done|]. by rewrite app_nil_r.
  - destruct (HB e) as (x & Hx & HP); [left|].
    eapply returns_bind; [by apply returns_getDatum|]. intros dat d1 H1 [-> ->].
    rewrite Hx. destruct (Hf x acc HP HJ) as (s' & Hs' & HJ' & Hc & Hmono).
    eapply returns_bind; [by apply returns_lift|]. intros ? d2 H2 ->.
    eapply returns_weaken.
    + apply (IH s' HJ' d2); [by eapply extends_wf| |].
      * eapply Bound_extends; [done|]. intros e' He'. apply HB. by right.
      * instantiate (1 := seen ++ [Some e]). intros e' He'.
        apply elem_of_app in He' as [He'|He'].
        -- destruct (Hseen e' He') as (x' & Hx' & HP' & Hc').
           exists x'. destruct H2 as [_ H2]. eauto.
        -- apply elem_of_cons in He' as [[= ->]|He']; [|by apply elem_of_nil in He'].
           exists x. destruct H2 as [_ H2]. eauto.
    + cbv beta. intros r d3. by rewrite <- app_assoc.
  - eapply returns_weaken.
    + apply (IH acc HJ d Hwf); [intros e' He'; apply HB; by right|].
      instantiate (1 := seen ++ [None]). intros e' He'.
      apply elem_of_app in He' as [He'|He']; [by apply Hseen|].
      apply elem_of_cons in He' as [?|He']; [done|by apply elem_of_nil in He'].
    + cbv beta. intros r d3. by rewrite <- app_assoc.
Qed.

Lemma Bound_transition P o sel d : Bound P sel d → Bound_target P (transition o sel) d.
Proof. unfold transition. by destruct (animate o). Qed.

Lemma returns_target_attr P name value t d :
  well_formed d → Bound_target P t d →
  (∀ x, P x → is_Some (value (Some x))) →
  returns (target_attr name value t) d (λ r d', Bound_target P r d').
Proof.
  intros Hwf HB Hv. destruct t as [sel|t]; cbn [target_attr Bound_target] in *.
  - eapply returns_bind; [by apply (returns_attr P)|].
    intros r d1 H1 Hr. apply returns_ret; [by eapply extends_wf|done].
  - eapply returns_bind.
    + unfold d3_transition_attr. eapply returns_bind.
      * apply (returns_for_nodes _ (λ e, ∃ x, datum_of d e = Some x ∧ P x)
                 (λ _ _, True)); [done|done| |done].
        intros e d1 H1 (x & Hx & HP).
        eapply returns_bind; [apply returns_getDatum; by eapply extends_wf|].
        intros dat d2 H2 [-> ->]. destruct H1 as [Hwf1 H1]. rewrite (H1 _ _ Hx).
        destruct (Hv x HP) as [v Hval].
        eapply returns_bind; [by apply returns_lift|]. intros ? d3 H3 ->.
        apply returns_schedule. by eapply extends_wf.
      * intros r d1 H1 _.
        apply (returns_ret _ _ (λ r _, r = t)); [by eapply extends_wf|done].
    + intros r d1 H1 ->. apply returns_ret; [by eapply extends_wf|].
      by eapply Bound_extends.
Qed.

Lemma returns_select_empty s n d :
  well_formed d → returns (d3_select s (replicate n None)) d (λ r _, r = replicate n None).
Proof.
  intros Hwf. eexists _, d. split; [apply d3_select_empty|].
  split; [by apply extends_refl|done].
Qed.

Lemma returns_select_this_empty test n d :
  well_formed d →
  returns (d3_select_this test (replicate n None)) d (λ r _, r = replicate n None).
Proof.
  intros Hwf. eexists _, d. split; [apply d3_select_this_empty|].
  split; [by apply extends_refl|done].
Qed.

Lemma d3_merge_none sel n : d3_merge sel (replicate n None) = sel.
Proof.
  revert n. induction sel as [|slot sel IH]; intros n; [done|].
  cbn [d3_merge]. f_equal.
  - destruct slot; [done|]. by destruct n.
  - destruct n as [|n]; [apply (IH 0%nat)|apply IH].
Qed.

Lemma returns_getElements d :
  well_formed d → returns getElements d (λ r d', r = elements d' ∧ d' = d).
Proof. intros Hwf. eexists _, d. split; [done|]. split; [by apply extends_refl|done]. Qed.

Lemma returns_enter_append P tag ens d :
  well_formed d →
  (∀ en, Some en ∈ ens → en_next en = None ∧ P (en_datum en)) →
  returns (d3_enter_append tag ens) d (λ r d', Bound P r d').
Proof.
  intros Hwf Hens.
  apply (returns_for_nodes _ (λ en, en_next en = None ∧ P (en_datum en))
           (λ y d', ∃ x, datum_of d' y = Some x ∧ P x)); [done|done| |].
  - intros en d1 H1 [Hnext HP]. unfold insertBefore.
    eapply returns_bind; [apply returns_getElements; by eapply extends_wf|].
    intros els d2 H2 [-> ->]. rewrite Hnext.
    eapply returns_bind; [by apply returns_lift; [eapply extends_wf|]|].
    intros ? d3 H3 ->.
    eapply returns_bind; [apply returns_createElement; by eapply extends_wf|].
    intros c d4 H4 [Hc _].
    eapply returns_bind; [apply returns_modify; [by eapply extends_wf|done]|].
    intros _ d5 H5 _. apply returns_ret; [by eapply extends_wf|].
    exists (en_datum en). split; [|done]. destruct H5 as [_ H5]. by apply H5.
  - intros y d1 d2 (x & Hx & HP) [_ H]. eauto.
Qed.

(** *** The join over groups without children *)

Lemma all_None {A} (l : list (option A)) :
  (∀ x, x ∈ l → x = None) → l = replicate (length l) None.
Proof.
  induction l as [|x l IH]; intros H; [done|]. cbn. f_equal.
  - apply H. left.
  - apply IH. intros y Hy. apply H. by right.
Qed.

Lemma querySelectorAll_childless els s p el :
  els !! p = Some el → childNodes el = [] → querySelectorAll els s p = [].
Proof.
  intros Hp Hc. unfold querySelectorAll.
  destruct (size els) as [|n]; [done|]. cbn [descendants]. by rewrite Hp, Hc.
Qed.

Lemma bindData_enter key parent data d :
  Forall (λ dat, is_Some (key (Some dat))) data →
  bindData key parent data ∅ d
  = (Some ((λ dat, (None, Some (mkEnterNode parent dat None))) <$> data), d).
Proof.
  induction 1 as [|dat data [k Hk] _ IH]; [done|].
  cbn [bindData]. rewrite M_bind_run. unfold lift at 1. rewrite Hk.
  rewrite lookup_empty, M_bind_run, IH. done.
Qed.

Lemma linkEnter_enter parent (data : list Datum) :
  linkEnter ((λ dat, (None, Some (mkEnterNode parent dat None))) <$> data)
  = (λ dat, Some (mkEnterNode parent dat None)) <$> data.
Proof.
  induction data as [|dat data IH]; [done|].
  cbn [fmap list_fmap linkEnter]. f_equal; [|apply IH].
  cbn. do 2 f_equal.
  replace (filter _ _) with (@nil (option nat)); [done|].
  clear. induction data as [|dat data IH]; [done|].
  cbn [fmap list_fmap fst]. rewrite filter_cons_False; [done|]. by intros [? ?].
Qed.

Lemma selectAll_data_enter (P PD : Datum → Prop) s value key sel d :
  Bound P sel d → Childless sel d →
  (∀ x, P x → ∃ data, value (Some x) = Some data
                      ∧ Forall (λ dat, PD dat ∧ is_Some (key (Some dat))) data) →
  ∃ k ens, d3_selectAll_data s value key sel d = (Some (replicate k None, ens), d)
           ∧ ∀ en, Some en ∈ ens → en_next en = None ∧ PD (en_datum en).
Proof.
  intros HB HC Hv. unfold d3_selectAll_data. rewrite M_bind_run.
  assert (∀ p, p ∈ omap id sel → Some p ∈ sel) as Hin.
  { intros p Hp. apply list_elem_of_omap in Hp as ([p'|] & Hp' & [= <-]). done. }
  revert Hin. generalize (omap id sel) as ps.
  intros ps Hin.
  match goal with
  | |- context [for_each ?f ps d] =>
      enough (∃ groups,
        for_each f ps d = (Some groups, d)
        ∧ Forall (λ g : list (option nat) * list (option EnterNode),
            (∃ k, g.1 = replicate k None)
            ∧ ∀ en, Some en ∈ g.2 → en_next en = None ∧ PD (en_datum en)) groups)
        as (groups & -> & Hg)
  end.
  { rewrite M_ret_run. rewrite Forall_forall in Hg.
    exists (length (mjoin (fst <$> groups))), (mjoin (snd <$> groups)). split.
    - do 3 f_equal. apply all_None. intros slot Hslot.
      apply list_elem_of_join in Hslot as (l & Hslot & Hl).
      apply list_elem_of_fmap in Hl as (g & -> & Hgin).
      destruct (Hg g Hgin) as [[k Hk] _]. rewrite Hk in Hslot.
      by apply elem_of_replicate in Hslot as [? _].
    - intros en Hen. apply list_elem_of_join in Hen as (l & Hen & Hl).
      apply list_elem_of_fmap in Hl as (g & -> & Hgin).
      destruct (Hg g Hgin) as [_ He]. by apply He. }
  induction ps as [|p ps IH].
  - exists []. by split.
  - destruct IH as (groups & Hrun & Hg); [intros; apply Hin; by right|].
    destruct (HB p) as (x & Hx & HP); [apply Hin; left|].
    destruct (HC p) as (el & Hel & Hc); [apply Hin; left|].
    destruct (Hv x HP) as (data & Hdata & Hall).
    exists (((λ dat, None) <$> data, (λ dat, Some (mkEnterNode p dat None)) <$> data)
              :: groups).
    split.
    + match goal with
      | |- for_each ?f (p :: ps) d = _ =>
          assert (f p d
                  = (Some ((λ dat, None) <$> data,
                           (λ dat, Some (mkEnterNode p dat None)) <$> data), d))
            as Hstep
      end.
      { cbv beta. rewrite M_bind_run. unfold getElements at 1. cbv beta iota zeta.
        rewrite M_bind_run. unfold getDatum at 1. cbv beta iota.
        fold (datum_of d p). rewrite Hx, M_bind_run. unfold lift at 1. rewrite Hdata.
        cbv beta iota. rewrite (querySelectorAll_childless _ _ _ _ Hel Hc).
        cbn [nodesByKey]. rewrite M_bind_run, M_ret_run, M_bind_run.
        rewrite bindData_enter
          by (eapply Forall_impl; [exact Hall|]; by intros ? [_ ?]).
        rewrite M_ret_run. do 3 f_equal.
        - rewrite <- list_fmap_compose. done.
        - apply linkEnter_enter. }
      cbn [for_each]. rewrite M_bind_run, Hstep, M_bind_run, Hrun. done.
    + constructor; [|done]. cbn [fst snd]. split.
      * exists (length data). clear. induction data as [|? data IH]; [done|].
        cbn. by f_equal.
      * intros en Hen. apply list_elem_of_fmap in Hen as (dat & [= ->] & Hdat).
        cbn. split; [done|]. rewrite Forall_forall in Hall. by apply Hall.
Qed.

(** *** Groups created without children *)

Lemma Leaves_modify n0 f e :
  (∀ el, childNodes (f el) = childNodes el) ∨ (e < n0)%nat →
  keeps (Leaves n0) (modify f e) (λ _, True).
Proof.
  intros Hf d [Hn Hl]. split; [|done]. split; [done|].
  intros e' el He'. cbn. rewrite lookup_alter.
  destruct (decide (e = e')) as [<-|]; [|by apply Hl].
  destruct Hf as [Hf|Hlt]; [|lia].
  destruct (elements d !! e) as [el0|] eqn:E; [|done]. intros [= <-].
  rewrite Hf. by eapply Hl.
Qed.

Lemma Leaves_append n0 tag sel :
  (∀ p, Some p ∈ sel → (p < n0)%nat) →
  keeps (Leaves n0) (d3_append tag sel) (λ r, ∀ c, Some c ∈ r → (n0 ≤ c)%nat).
Proof.
  intros Hsel. apply keeps_for_nodes. intros p Hp. unfold appendChild.
  eapply (keeps_bind _ _ _ (λ _, True)); [apply keeps_getDatum|]. intros dat _.
  eapply (keeps_bind _ _ _ (λ c, (n0 ≤ c)%nat)).
  - intros d [Hn Hl]. split; [split|].
    + cbn. lia.
    + intros e el He. cbn. destruct (decide (next_id d = e)) as [<-|Hne].
      * rewrite lookup_insert_eq. by intros [= <-].
      * rewrite lookup_insert_ne by done. by apply Hl.
    + intros c [= <-]. done.
  - intros c Hc. eapply (keeps_bind _ _ _ (λ _, True)).
    + apply Leaves_modify. right. by apply Hsel.
    + intros _ _. by apply keeps_ret.
Qed.

Lemma Leaves_attr_const n0 name v sel :
  keeps (Leaves n0) (d3_attr_const name v sel) (λ r, r = sel).
Proof.
  apply keeps_for_nodes_same. intros e He.
  eapply (keeps_bind _ _ _ (λ _, True)); [apply Leaves_modify; by left|].
  intros _ _. by apply keeps_ret.
Qed.

(** The groups that [render] appends to the entering elements: bound to
    the data of their parents, and without children. *)
Lemma returns_groups P sel d :
  well_formed d → Bound P sel d →
  returns (d3_append "g" sel |> d3_attr_const "class" "detailed") d
    (λ r d', Bound P r d' ∧ Childless r d').
Proof.
  intros Hwf HB.
  assert (∀ p, Some p ∈ sel → (p < next_id d)%nat) as Hlt.
  { intros p Hp. destruct (HB p Hp) as (x & Hx & _). by eapply datum_of_lt. }
  assert (Leaves (next_id d) d) as HL.
  { split; [done|]. intros e el He Hel. specialize (Hwf e el Hel). cbn in Hwf. lia. }
  destruct (returns_append P "g" sel d Hwf HB) as (r1 & d1 & Hrun1 & H1 & HB1).
  destruct (Leaves_append (next_id d) "g" sel Hlt d HL) as [HL1 Hr1].
  rewrite Hrun1 in HL1, Hr1. cbn in HL1. specialize (Hr1 r1 eq_refl).
  destruct (returns_attr_const P "class" "detailed" r1 d1 (extends_wf _ _ H1) HB1)
    as (r2 & d2 & Hrun2 & H2 & HB2).
  destruct (Leaves_attr_const (next_id d) "class" "detailed" r1 d1 HL1) as [HL2 Hr2].
  rewrite Hrun2 in HL2, Hr2. cbn in HL2. specialize (Hr2 r2 eq_refl). subst r2.
  exists r1, d2. split; [by rewrite M_bind_run, Hrun1|].
  split; [by eapply extends_trans|]. split; [done|].
  intros c Hc. destruct (HB2 c Hc) as (x & Hx & _).
  unfold datum_of in Hx. destruct (elements d2 !! c) as [el|] eqn:E; [|done].
  exists el. split; [done|]. destruct HL2 as [_ HL2]. eapply HL2; [|done]. by apply Hr1.
Qed.

Lemma returns_filter_to (P P' : Datum → Prop) test sel d :
  well_formed d → Bound P sel d →
  (∀ x, P x → is_Some (test (Some x))) →
  (∀ x, P x → test (Some x) = Some true → P' x) →
  returns (d3_filter test sel) d (λ r d', Bound P' r d').
Proof.
  intros Hwf HB Ht HP. eapply returns_weaken; [by apply (returns_filter P)|].
  cbv beta. intros r d'. apply Bound_weaken. intros x [? ?]. auto.
Qed.

Ltac wf := first [assumption | eapply extends_wf; eassumption].

Ltac forward H :=
  cbv beta in *;
  match type of H with
  | extends ?d ?d' =>
      repeat match goal with
        | HB : Bound _ _ d |- _ => apply (Bound_extends _ _ _ _ H) in HB
        | HB : Bound_target _ _ d |- _ => apply (Bound_target_extends _ _ _ _ H) in HB
        end;
      pose proof (extends_wf _ _ H)
  end.

Ltac unpack :=
  repeat match goal with
    | H : _ ∧ _ |- _ => destruct H
    | H : ∃ _, _ |- _ => destruct H
    | H : known_person _ _ |- _ => unfold known_person in H
    | H : known_family _ _ |- _ => unfold known_family in H
    | H : listed_person _ _ _ |- _ => unfold listed_person in H
    | H : lined_person _ _ _ _ |- _ => unfold lined_person in H
    | H : drawable_node _ _ _ _ |- _ => unfold drawable_node in H
    | H : listed_family _ _ |- _ => unfold listed_family in H
    | H : lined_family _ _ _ |- _ => unfold lined_family in H
    | H : known_indi _ _ |- _ => unfold known_indi in H
    | H : is_Some _ |- _ => destruct H
    end; subst.

Ltac value_ok :=
  let x := fresh "x" in let Hx := fresh "Hx" in
  intros x Hx; cbv beta in Hx; unpack;
  unfold with_family, has_family; cbn [with_indi with_node];
  unfold background_style, getDetailsWidth, render_getIndi, details_get,
    indi_width, indi_height;
  repeat (cbn [mbind option_bind];
          match goal with
          | H : ?a = Some _ |- context [?a] => rewrite H
          end);
  cbn [mbind option_bind]; by eexists.

Ltac op :=
  lazymatch goal with
  | |- returns (d3_append _ _) _ _ => eapply returns_append; [wf | eassumption]
  | |- returns (d3_attr_const _ _ _) _ _ => eapply returns_attr_const; [wf | eassumption]
  | |- returns (d3_attr _ _ _) _ _ => eapply returns_attr; [wf | eassumption | value_ok]
  | |- returns (d3_text _ _) _ _ => eapply returns_text; [wf | eassumption | value_ok]
  | |- returns (d3_filter _ _) _ _ => eapply returns_filter; [wf | eassumption | value_ok]
  | |- returns (d3_select_this _ _) _ _ =>
      eapply returns_select_this; [wf | eassumption | value_ok]
  | |- returns (target_attr _ _ _) _ _ =>
      eapply returns_target_attr;
      [wf | first [eassumption | apply Bound_transition; eassumption] | value_ok]
  end.

Ltac chain :=
  lazymatch goal with
  | |- returns (mbind _ _) _ _ =>
      eapply returns_bind; [chain | intros ? ? ? ?; cbv beta in *; chain]
  | |- _ => op
  end.

Ltac skip_chain :=
  eapply returns_bind; [chain|];
  let H := fresh "H" in intros ? ? H ?; forward H.

Lemma returns_renderIndi_line o details enter i d :
  well_formed d → Bound (listed_person o details) enter d →
  returns (renderIndi_line o details enter i) d (λ _ _, True).
Proof.
  intros Hwf HB. unfold renderIndi_line.
  eapply returns_bind.
  { apply (returns_filter_to (listed_person o details) (lined_person o details i));
      [done|done|value_ok|].
    intros x Hx Ht. unpack. cbn in Ht. unfold details_get in Ht.
    match goal with H : details !! _ = Some _ |- _ => rewrite H in Ht end.
    cbn in Ht. injection Ht as Ht. apply bool_decide_eq_true in Ht.
    apply lookup_lt_is_Some in Ht as [line Hline].
    eexists _, _, _. split; [done|]. split; [by eexists|]. split; [done|done]. }
  intros lineGroup d1 E1 B1. forward E1.
  eapply returns_bind.
  { apply (returns_filter_to (lined_person o details i) (lined_person o details i));
      [wf|done|value_ok|done]. }
  intros centeredGroup d2 E2 B2. forward E2.
  skip_chain.
  eapply returns_bind.
  { apply (returns_filter_to (lined_person o details i) (lined_person o details i));
      [wf|done|value_ok|done]. }
  intros nonCentered d4 E4 B4. forward E4.
  skip_chain. skip_chain.
  apply returns_ret; [wf|done].
Qed.

Lemma returns_renderIndi o enter m d :
  well_formed d → Bound (known_person o) enter d →
  returns (renderIndi o enter (replicate m None)) d (λ _ _, True).
Proof.
  intros Hwf HB. unfold renderIndi.
  eapply (returns_bind _ _ _
            (λ r d', Bound (known_person o) r.1 d' ∧ r.2 = replicate m None)).
  { destruct (indiHrefFunc o) as [href|].
    - eapply returns_bind; [chain|]. intros en d1 E1 B1. forward E1.
      eapply returns_bind; [apply returns_select_empty; wf|].
      intros up d2 E2 ->. forward E2.
      apply returns_ret; [wf|done].
    - apply returns_ret; [wf|done]. }
  intros [enter' update'] d1 E1 [B1 Hup]. cbn [fst snd] in B1, Hup. subst update'.
  forward E1.
  eapply (returns_bind _ _ _ (λ _ _, True)).
  { destruct (indiCallback o); [apply returns_on; wf | apply returns_ret; [wf|done]]. }
  intros _ d2 E2 _. forward E2.
  (* Background. *)
  eapply returns_bind; [chain|]. intros background d3 E3 B3. forward E3.
  eapply returns_bind; [apply returns_select_empty; wf|].
  intros selected d4 E4 ->. forward E4. cbv zeta. rewrite d3_merge_none.
  eapply returns_bind; [chain|]. intros t5 d5 E5 _. forward E5.
  (* Clip path. *)
  eapply returns_bind; [chain|]. intros clip d6 E6 B6. forward E6.
  eapply returns_bind; [apply returns_select_empty; wf|].
  intros selected d7 E7 ->. forward E7. rewrite d3_merge_none.
  eapply returns_bind; [chain|]. intros t8 d8 E8 _. forward E8.
  (* Name. *)
  eapply returns_bind; [chain|]. intros t9 d9 E9 _. forward E9.
  eapply returns_bind; [chain|]. intros t10 d10 E10 _. forward E10.
  (* Details. *)
  eapply returns_bind.
  { apply (returns_each _ (known_person o) (λ _, True)
             (λ s x, ∃ i l, x = DIndi i
                            ∧ s !! TreeEntry.id (OffsetIndi.indi i) = Some l));
      [wf|done|done|].
    intros x s Hx _. unpack. cbn [with_indi]. unfold render_getIndi.
    repeat (cbn [mbind option_bind];
            match goal with H : ?a = Some _ |- context [?a] => rewrite H end).
    cbn [mbind option_bind]. eexists. split; [done|]. split; [done|]. split.
    - eexists _, _. split; [done|]. apply lookup_insert_eq.
    - intros y (j & l & -> & Hl).
      match goal with
      | |- context [<[?k := ?v]> s] =>
          destruct (decide (k = TreeEntry.id (OffsetIndi.indi j))) as [Heq|Hne];
          [exists j, v; split; [done|]; rewrite <- Heq; apply lookup_insert_eq
          |exists j, l; split; [done|]; by rewrite lookup_insert_ne]
      end. }
  intros details d11 E11 [_ B11]. forward E11.
  assert (Bound (listed_person o details) enter' d11) as Bl.
  { eapply Bound_weaken; [|exact B11]. intros x [Hx (j & l & -> & Hl)].
    destruct Hx as (j' & [= <-] & Hk). by exists j, l. }
  clear B11.
  eapply returns_bind.
  { apply returns_for_each; [wf|]. intros i d' E.
    apply returns_renderIndi_line; [wf|]. by eapply Bound_extends. }
  intros t12 d12 E12 _. forward E12.
  (* Image. *)
  eapply returns_bind; [chain|]. intros t13 d13 E13 _. forward E13.
  (* Border. *)
  eapply returns_bind; [chain|]. intros border d14 E14 B14. forward E14.
  eapply returns_bind; [apply returns_select_empty; wf|].
  intros selected d15 E15 ->. forward E15. rewrite d3_merge_none.
  eapply returns_bind; [chain|]. intros t16 d16 E16 _. forward E16.
  apply returns_ret; [wf|done].
Qed.

Section Render.
Context (formatDate : Date → option string → string).
Context (getFamPositionVertical getFamPositionHorizontal : TreeNode.t → jsnum).
Context (o : RendererOptions).

Lemma returns_renderFamily_line details enter i d :
  well_formed d → Bound (listed_family details) enter d →
  returns (renderFamily_line details enter i) d (λ _ _, True).
Proof.
  intros Hwf HB. unfold renderFamily_line.
  eapply returns_bind.
  { apply (returns_filter_to (listed_family details) (lined_family details i));
      [done|done|value_ok|].
    intros x Hx Ht. unpack. unfold with_family in Ht. cbn in Ht.
    match goal with H : TreeNode.family _ = Some _ |- _ => rewrite H in Ht end.
    cbn [mbind option_bind] in Ht.
    match goal with H : details !! _ = Some _ |- _ => rewrite H in Ht end.
    cbn in Ht. injection Ht as Ht. apply bool_decide_eq_true in Ht.
    apply lookup_lt_is_Some in Ht as [line Hline].
    eexists _, _, _, _. split; [done|]. split; [done|]. split; [done|done]. }
  intros lineGroup d1 E1 B1. forward E1.
  eapply returns_bind; [chain|]. intros t2 d2 E2 _. forward E2.
  eapply returns_bind; [chain|]. intros t3 d3 E3 _. forward E3.
  apply returns_ret; [wf|done].
Qed.

Lemma returns_renderFamily enter update d :
  well_formed d → Bound (known_family o) enter d →
  returns (renderFamily formatDate o enter update) d (λ _ _, True).
Proof.
  intros Hwf HB. unfold renderFamily.
  eapply (returns_bind _ _ _ (λ r d', Bound (known_family o) r d')).
  { destruct (famHrefFunc o) as [href|]; [chain|by apply returns_ret]. }
  intros enter' d1 E1 B1. forward E1.
  eapply (returns_bind _ _ _ (λ _ _, True)).
  { destruct (famCallback o); [apply returns_on; wf | apply returns_ret; [wf|done]]. }
  intros _ d2 E2 _. forward E2.
  eapply returns_bind; [chain|]. intros t3 d3 E3 _. forward E3.
  eapply returns_bind.
  { apply (returns_each _ (known_family o) (λ _, True)
             (λ s x, ∃ node f l, x = DNode node ∧ TreeNode.family node = Some f
                                 ∧ s !! TreeEntry.id f = Some l));
      [wf|done|done|].
    intros x s Hx _. unpack. unfold with_family. cbn [with_node].
    repeat (cbn [mbind option_bind];
            match goal with H : ?a = Some _ |- context [?a] => rewrite H end).
    cbn [mbind option_bind]. cbv zeta.
    repeat (cbn [mbind option_bind];
            match goal with H : ?a = Some _ |- context [?a] => rewrite H end).
    cbn [mbind option_bind]. rewrite getFamDetails_spec. cbn [mbind option_bind].
    eexists. split; [done|]. split; [done|]. split.
    - eexists _, _, _. split; [done|]. split; [done|]. apply lookup_insert_eq.
    - intros y (node' & f' & l & -> & Hf' & Hl).
      match goal with
      | |- context [<[?k := ?v]> s] =>
          destruct (decide (k = TreeEntry.id f')) as [Heq|Hne];
          [exists node', f', v; split; [done|]; split; [done|];
           rewrite <- Heq; apply lookup_insert_eq
          |exists node', f', l; split; [done|]; split; [done|];
           by rewrite lookup_insert_ne]
      end. }
  intros details d4 E4 [_ B4]. forward E4.
  assert (Bound (listed_family details) enter' d4) as Bl.
  { eapply Bound_weaken; [|exact B4]. intros x [_ Hx]. exact Hx. }
  clear B4.
  eapply returns_bind.
  { apply returns_for_each; [wf|]. intros i d' E.
    apply returns_renderFamily_line; [wf|]. by eapply Bound_extends. }
  intros t5 d5 E5 _. forward E5.
  apply returns_ret; [wf|done].
Qed.

Lemma returns_run {A B} (m : M A) (k : A → M B) d a d' (Q : B → DOM → Prop) :
  m d = (Some a, d') → extends d d' → returns (k a) d' Q → returns (m ≫= k) d Q.
Proof.
  intros Hm Hext Hk.
  eapply (returns_bind _ _ _ (λ r d1, r = a ∧ d1 = d'));
    [|intros ? ? _ [-> ->]; exact Hk].
  exists a, d'. split; [done|]. split; [done|]. by cbv beta.
Qed.

Lemma render_data_known node :
  drawable getFamPositionVertical getFamPositionHorizontal o node →
  Forall (λ i, known_indi o (OffsetIndi.indi i))
    (render_data getFamPositionVertical getFamPositionHorizontal o node).
Proof.
  intros (Hi & Hs & _). unfold render_data.
  destruct (TreeNode.indi node) as [i|], (TreeNode.spouse node) as [s|]; cbn [app];
    repeat constructor; cbn; auto.
Qed.

Lemma returns_render enter m d :
  well_formed d →
  Bound (drawable_node getFamPositionVertical getFamPositionHorizontal o) enter d →
  returns (render formatDate getFamPositionVertical getFamPositionHorizontal o
             enter (replicate m None)) d (λ _ _, True).
Proof.
  intros Hwf HB. unfold render.
  destruct (returns_groups _ enter d Hwf HB) as (enter' & d1 & Hrun & E1 & B1 & C1).
  eapply returns_run; [exact Hrun|exact E1|]. forward E1.
  eapply returns_run; [apply d3_select_empty|by apply extends_refl|].
  rewrite d3_merge_none.
  destruct (selectAll_data_enter
              (drawable_node getFamPositionVertical getFamPositionHorizontal o)
              (known_person o)
              (Simple (mkCompound "g" (Some "indi"%string)))
              (with_node (λ node, Some (map DIndi
                 (render_data getFamPositionVertical getFamPositionHorizontal o node))))
              (with_indi (λ d, Some (render_key d)))
              enter' d1 B1 C1)
    as (k & ens & Hjoin & Hens).
  { intros x (node & -> & Hnode). eexists. split; [done|].
    apply Forall_map. eapply Forall_impl; [by apply render_data_known|].
    intros i Hi. cbn. split; [by exists i|by eexists]. }
  eapply returns_run; [exact Hjoin|by apply extends_refl|]. cbv beta iota.
  eapply returns_bind.
  { eapply returns_bind; [by apply (returns_enter_append (known_person o))|].
    intros ? ? ? ?. cbv beta in *. op. }
  intros indiEnter d2 E2 B2. forward E2. rewrite d3_merge_none.
  eapply returns_bind; [chain|]. intros t3 d3 E3 _. forward E3.
  eapply returns_bind; [by apply returns_renderIndi|]. intros _ d4 E4 _. forward E4.
  eapply returns_bind; [chain|]. intros familyEnter d5 E5 B5. forward E5.
  eapply (returns_bind _ _ _ (λ r _, r = replicate m None)).
  { eapply (returns_bind _ _ _ (λ r _, r = replicate m None));
      [apply returns_select_this_empty; wf|].
    intros ? d' E ->. apply returns_select_empty; wf. }
  intros familyUpdate d6 E6 ->. forward E6. rewrite d3_merge_none.
  eapply returns_bind.
  { eapply returns_target_attr; [wf|apply Bound_transition; eassumption|].
    intros x [(node & -> & _ & _ & Hf) Ht]. cbn in Ht. injection Ht as Ht.
    apply bool_decide_eq_true in Ht as [f Hfam]. destruct (Hf f Hfam) as [_ [t Ht]].
    cbn. rewrite Ht. by eexists. }
  intros t7 d7 E7 _. forward E7.
  apply returns_renderFamily; [wf|].
  eapply Bound_weaken; [|exact B5].
  intros x [(node & -> & _ & _ & Hf) Ht]. cbn in Ht. injection Ht as Ht.
  apply bool_decide_eq_true in Ht as [f Hfam]. destruct (Hf f Hfam) as [Hk _].
  by exists node, f.
Qed.

End Render.
End Returns.

(** X13: a first pass over nodes that can be drawn returns. When the
    document is well formed, every entering element is bound to a layout
    node whose people the data provider knows, with dates that
    [getIndiDetails] can read, and whose family, if it has one, is known to
    the data provider and has an anchor for [getFamTransform], and no element
    is updated, [render] does not throw. *)
Theorem render_enter_returns formatDate getFamPositionVertical getFamPositionHorizontal
    options enter m d :
  well_formed d →
  (∀ e, Some e ∈ enter →
        ∃ el node, elements d !! e = Some el ∧ datum el = Some (DNode node)
                   ∧ drawable getFamPositionVertical getFamPositionHorizontal
                       options node) →
  (render formatDate getFamPositionVertical getFamPositionHorizontal options
     enter (replicate m None) d).1 = Some ().
Proof.
  intros Hwf Henter.
  destruct (returns_render formatDate getFamPositionVertical getFamPositionHorizontal
              options enter m d Hwf) as ([] & d' & -> & _).
  - intros e He. destruct (Henter e He) as (el & node & Hel & Hdat & Hnode).
    exists (DNode node). split; [|by exists node]. unfold datum_of. by rewrite Hel.
  - done.
Qed.

(** ** What a pass that returns implies *)

Section Ensures.

Lemma Has_extends x sel d d' : extends d d' → Has x sel d → Has x sel d'.
Proof. intros [_ H] (e & He & Hx). exists e. auto. Qed.

Lemma ensures_ret {A} (a : A) d (Q : A → DOM → Prop) :
  well_formed d → Q a d → ensures (mret a) d Q.
Proof. intros Hwf HQ ? ? [= <- <-]. split; [by apply extends_refl|done]. Qed.

Lemma ensures_bind {A B} (m : M A) (k : A → M B) d (R : A → DOM → Prop)
    (Q : B → DOM → Prop) :
  ensures m d R →
  (∀ a d', extends d d' → R a d' → ensures (k a) d' Q) →
  ensures (m ≫= k) d Q.
Proof.
  intros Hm Hk b d'' Hrun. rewrite M_bind_run in Hrun.
  destruct (m d) as [[a|] d'] eqn:E; [|done].
  destruct (Hm a d' E) as [He HR].
  destruct (Hk a d' He HR b d'' Hrun) as [He' HQ].
  split; [by eapply extends_trans|done].
Qed.

Lemma ensures_weaken {A} (m : M A) d (Q Q' : A → DOM → Prop) :
  ensures m d Q → (∀ a d', extends d d' → Q a d' → Q' a d') → ensures m d Q'.
Proof. intros Hm H a d' Hrun. destruct (Hm a d' Hrun). auto. Qed.

Lemma ensures_returns {A} (m : M A) d (Q : A → DOM → Prop) :
  returns m d Q → ensures m d Q.
Proof. intros (a & d' & Hm & He & HQ) a' d'' Hrun. rewrite Hm in Hrun. by injection Hrun as <- <-. Qed.

Lemma ensures_run {A B} (m : M A) (k : A → M B) d a d' (Q : B → DOM → Prop) :
  m d = (Some a, d') → extends d d' → ensures (k a) d' Q → ensures (m ≫= k) d Q.
Proof.
  intros Hm He Hk b d'' Hrun. rewrite M_bind_run, Hm in Hrun.
  destruct (Hk b d'' Hrun). split; [by eapply extends_trans|done].
Qed.

(** What [keeps] gives for a pass that returns. *)
Lemma ensures_keeps {A} (m : M A) d (Q : A → Prop) :
  well_formed d → keeps (extends d) m Q → ensures m d (λ a _, Q a).
Proof.
  intros Hwf Hk a d' Hrun. destruct (Hk d (extends_refl d Hwf)) as [H HQ].
  rewrite Hrun in H, HQ. split; [done|]. by apply HQ.
Qed.

End Ensures.

(** ** Operations that keep the bound data *)

Section Steady.
Context (d0 : DOM).

Lemma steady_modify f e :
  (∀ el, datum (f el) = datum el) → keeps (extends d0) (modify f e) (λ _, True).
Proof.
  intros Hf d [Hwf H]. split; [|done]. split; [by apply (well_formed_modify f e d)|].
  intros e' x Hx. specialize (H e' x Hx). unfold datum_of in *. cbn.
  rewrite lookup_alter. destruct (decide (e = e')) as [<-|]; [|done].
  destruct (elements d !! e); [|done]. cbn. by rewrite Hf.
Qed.

Lemma steady_create tag p dat : keeps (extends d0) (createElement tag p dat) (λ _, True).
Proof.
  intros d [Hwf H]. split; [|done]. split; [by apply (well_formed_create tag p dat d)|].
  intros e x Hx. specialize (H e x Hx). pose proof (datum_of_lt d e x Hwf H).
  unfold datum_of in *. cbn. rewrite lookup_insert_ne by lia. done.
Qed.

Lemma steady_schedule tw : keeps (extends d0) (schedule tw) (λ _, True).
Proof. by intros d Hd. Qed.

Ltac step := eapply (keeps_bind _ _ _ (λ _, True)).

Ltac basic :=
  cbv beta;
  lazymatch goal with
  | |- keeps _ (mbind _ _) _ => step; [basic | intros ? _; basic]
  | |- keeps _ (mret _) _ => by apply keeps_ret
  | |- keeps _ (lift _) _ => eapply keeps_weaken; [apply keeps_lift | done]
  | |- keeps _ (getDatum _) _ => apply keeps_getDatum
  | |- keeps _ getElements _ => eapply keeps_weaken; [apply keeps_getElements | done]
  | |- keeps _ (modify _ _) _ => by apply steady_modify
  | |- keeps _ (createElement _ _ _) _ => apply steady_create
  | |- keeps _ (schedule _) _ => apply steady_schedule
  | |- keeps _ (match ?x with _ => _ end) _ => destruct x; basic
  end.

Lemma steady_appendChild tag p : keeps (extends d0) (appendChild tag p) (λ _, True).
Proof. unfold appendChild. basic. Qed.

Lemma steady_append tag sel : keeps (extends d0) (d3_append tag sel) (λ _, True).
Proof. apply quiet_for_nodes. intros p. apply steady_appendChild. Qed.

Lemma steady_enter_append tag sel :
  keeps (extends d0) (d3_enter_append tag sel) (λ _, True).
Proof. apply quiet_for_nodes. intros en. unfold insertBefore. basic. Qed.

Lemma steady_attr name v sel : keeps (extends d0) (d3_attr name v sel) (λ _, True).
Proof. apply quiet_for_nodes. intros e. basic. Qed.

Lemma steady_attr_const name v sel :
  keeps (extends d0) (d3_attr_const name v sel) (λ _, True).
Proof. apply quiet_for_nodes. intros e. basic. Qed.

Lemma steady_text v sel : keeps (extends d0) (d3_text v sel) (λ _, True).
Proof. apply quiet_for_nodes. intros e. basic. Qed.

Lemma steady_on type l sel : keeps (extends d0) (d3_on type l sel) (λ _, True).
Proof.
  unfold d3_on. step; [|intros; basic]. apply quiet_for_nodes. intros e. basic.
Qed.

Lemma steady_select_this test sel :
  keeps (extends d0) (d3_select_this test sel) (λ _, True).
Proof. apply quiet_for_each. intros [e|]; basic. Qed.

Lemma steady_filter test sel : keeps (extends d0) (d3_filter test sel) (λ _, True).
Proof. unfold d3_filter. step; [apply steady_select_this|]. intros; basic. Qed.

Lemma steady_each {S} (f : option Datum → S → option S) sel acc :
  keeps (extends d0) (d3_each f sel acc) (λ _, True).
Proof.
  revert acc. induction sel as [|[e|] sel IH]; intros acc; cbn [d3_each];
    [basic| |apply IH].
  step; [basic|]. intros dat _. step; [basic|]. intros acc' _. apply IH.
Qed.

Lemma steady_select_empty s n :
  keeps (extends d0) (d3_select s (replicate n None)) (λ r, r = replicate n None).
Proof. intros d Hd. rewrite d3_select_empty. split; [done|]. by intros ? [= <-]. Qed.

Lemma steady_target_attr name v t :
  keeps (extends d0) (target_attr name v t) (λ _, True).
Proof.
  destruct t as [sel|t]; cbn [target_attr].
  - step; [apply steady_attr|]. intros; basic.
  - step; [|intros; basic]. unfold d3_transition_attr. step; [|intros; basic].
    apply quiet_for_nodes. intros e. basic.
Qed.

Ltac steady_op :=
  lazymatch goal with
  | |- keeps _ (mret _) _ => by apply (keeps_ret _ _ (λ _, True))
  | |- keeps _ (d3_append _ _) _ => apply steady_append
  | |- keeps _ (d3_enter_append _ _) _ => apply steady_enter_append
  | |- keeps _ (d3_attr_const _ _ _) _ => apply steady_attr_const
  | |- keeps _ (d3_attr _ _ _) _ => apply steady_attr
  | |- keeps _ (d3_text _ _) _ => apply steady_text
  | |- keeps _ (d3_on _ _ _) _ => apply steady_on
  | |- keeps _ (d3_select_this _ _) _ => apply steady_select_this
  | |- keeps _ (d3_filter _ _) _ => apply steady_filter
  | |- keeps _ (d3_each _ _ _) _ => apply steady_each
  | |- keeps _ (target_attr _ _ _) _ => apply steady_target_attr
  end.

Ltac steady_chain :=
  lazymatch goal with
  | |- keeps _ (mbind _ _) _ =>
      eapply keeps_bind; [steady_chain | intros ? ?; steady_chain]
  | |- keeps _ (let _ := _ in _) _ => cbv zeta; steady_chain
  | |- keeps _ (if ?b then _ else _) _ => destruct b; steady_chain
  | |- _ => steady_op
  end.

Lemma steady_renderFamily_line details enter i :
  keeps (extends d0) (renderFamily_line details enter i) (λ _, True).
Proof. unfold renderFamily_line. steady_chain. Qed.

Lemma steady_renderIndi_line o details enter i :
  keeps (extends d0) (renderIndi_line o details enter i) (λ _, True).
Proof. unfold renderIndi_line. steady_chain. Qed.

End Steady.

Section Ensured.

Ltac wf := first [assumption | eapply extends_wf; eassumption].

Lemma ensures_getDatum e d :
  well_formed d → ensures (getDatum e) d (λ r d', r = datum_of d' e ∧ d' = d).
Proof. intros Hwf. by apply ensures_returns, returns_getDatum. Qed.

Lemma ensures_lift {A} (o : option A) d :
  well_formed d → ensures (lift o) d (λ a _, o = Some a).
Proof. intros Hwf a d' [= -> <-]. split; [by apply extends_refl|done]. Qed.

Lemma ensures_modify f e d :
  well_formed d → (∀ el, datum (f el) = datum el) →
  ensures (modify f e) d (λ _ _, True).
Proof. intros Hwf Hf. by apply ensures_returns, returns_modify. Qed.

(** The rule for an operation on the elements of a selection: the element
    bound to [x] passes through [f]. *)
Lemma ensures_for_nodes {A B} (src : A → DOM → option Datum)
    (R : B → DOM → Datum → Prop) (f : A → M B) (V : Datum → Prop) x sel d :
  well_formed d →
  (∀ a z d1 d2, src a d1 = Some z → extends d1 d2 → src a d2 = Some z) →
  (∀ y z d1 d2, R y d1 z → extends d1 d2 → R y d2 z) →
  (∀ a d1, well_formed d1 →
     ensures (f a) d1 (λ y d2, ∀ z, src a d1 = Some z → R y d2 z ∧ V z)) →
  ensures (for_nodes f sel) d
    (λ r d', (∃ a, Some a ∈ sel ∧ src a d = Some x)
             → (∃ y, Some y ∈ r ∧ R y d' x) ∧ V x).
Proof.
  intros Hwf Hsrc HR Hf. unfold for_nodes. revert d Hwf.
  induction sel as [|[a|] sel IH]; intros d Hwf; cbn [for_each].
  - apply ensures_ret; [done|]. intros (a & Ha & _). by apply elem_of_nil in Ha.
  - eapply ensures_bind.
    { eapply ensures_bind; [by apply Hf|]. intros y d1 E1 Hy.
      apply (ensures_ret _ _
               (λ s d', ∃ y, s = Some y ∧ ∀ z, src a d = Some z → R y d' z ∧ V z));
        [wf|]. eauto. }
    intros s d1 E1 (y & -> & Hy).
    eapply ensures_bind; [apply IH; wf|]. intros r d2 E2 Hr.
    apply ensures_ret; [wf|].
    intros (a' & Ha' & Hx). apply elem_of_cons in Ha' as [Ha'|Ha'].
    + injection Ha' as <-. destruct (Hy x Hx) as [HRy HV]. split; [|done].
      exists y. split; [left|]. by eapply HR.
    + destruct Hr as [(y' & Hy' & HRy') HV].
      { exists a'. split; [done|]. by eapply Hsrc. }
      split; [|done]. exists y'. split; [by right|done].
  - eapply ensures_bind; [by apply (ensures_ret _ _ (λ s _, s = None))|].
    intros s d1 E1 ->.
    eapply ensures_bind; [apply IH; wf|]. intros r d2 E2 Hr.
    apply ensures_ret; [wf|].
    intros (a' & Ha' & Hx). apply elem_of_cons in Ha' as [Ha'|Ha']; [done|].
    destruct Hr as [(y' & Hy' & HRy') HV].
    { exists a'. split; [done|]. by eapply Hsrc. }
    split; [|done]. exists y'. split; [by right|done].
Qed.

Lemma ensures_for_handles (f : nat → M nat) (V : Datum → Prop) x sel d :
  well_formed d →
  (∀ e d1, well_formed d1 →
     ensures (f e) d1
       (λ y d2, ∀ z, datum_of d1 e = Some z → datum_of d2 y = Some z ∧ V z)) →
  ensures (for_nodes f sel) d (λ r d', Has x sel d → Has x r d' ∧ V x).
Proof.
  intros Hwf Hf.
  apply (ensures_for_nodes (λ e d, datum_of d e) (λ y d z, datum_of d y = Some z));
    [done| | |done].
  - intros a z d1 d2 Hz [_ H]. auto.
  - intros y z d1 d2 Hz [_ H]. auto.
Qed.

Lemma ensures_append x tag sel d :
  well_formed d → ensures (d3_append tag sel) d (λ r d', Has x sel d → Has x r d').
Proof.
  intros Hwf. eapply ensures_weaken.
  - apply (ensures_for_handles _ (λ _, True) x); [done|].
    intros e d1 Hwf1 c d2 Hrun. split.
    + by destruct (ensures_keeps _ d1 _ Hwf1 (steady_appendChild d1 tag e) c d2 Hrun).
    + intros z Hz.
      destruct (returns_appendChild tag e z d1 Hwf1 Hz) as (c' & d2' & Hrun' & _ & Hc).
      rewrite Hrun in Hrun'. by injection Hrun' as <- <-.
  - cbv beta. intros r d' _ H HH. by apply H.
Qed.

(** The operations that compute a value from the datum of each element. *)
Lemma ensures_valued (g : option string → Element → Element)
    (value : option Datum → option (option string)) x sel d :
  well_formed d → (∀ v el, datum (g v el) = datum el) →
  ensures (for_nodes (λ e, dat ← getDatum e;
                           v ← lift (value dat);
                           _ ← modify (g v) e;
                           mret e) sel) d
    (λ r d', Has x sel d → Has x r d' ∧ is_Some (value (Some x))).
Proof.
  intros Hwf Hg. apply (ensures_for_handles _ (λ z, is_Some (value (Some z))) x); [done|].
  intros e d1 Hwf1.
  eapply ensures_bind; [by apply ensures_getDatum|]. intros dat d2 E2 [-> ->].
  eapply ensures_bind; [by apply ensures_lift|]. intros v d3 E3 Hv.
  eapply ensures_bind; [apply ensures_modify; [wf|done]|]. intros _ d4 E4 _.
  apply ensures_ret; [wf|]. intros z Hz. split.
  - destruct E3 as [_ E3], E4 as [_ E4]. auto.
  - rewrite Hz in Hv. by eexists.
Qed.

Lemma ensures_attr x name value sel d :
  well_formed d →
  ensures (d3_attr name value sel) d
    (λ r d', Has x sel d → Has x r d' ∧ is_Some (value (Some x))).
Proof. intros Hwf. by apply (ensures_valued (set_attribute name)). Qed.

Lemma ensures_text x value sel d :
  well_formed d →
  ensures (d3_text value sel) d
    (λ r d', Has x sel d → Has x r d' ∧ is_Some (value (Some x))).
Proof. intros Hwf. by apply (ensures_valued (λ v, set_text (default ""%string v))). Qed.

Lemma ensures_attr_const x name value sel d :
  well_formed d →
  ensures (d3_attr_const name value sel) d (λ r d', Has x sel d → Has x r d').
Proof.
  intros Hwf. eapply ensures_weaken.
  - apply (ensures_for_handles _ (λ _, True) x); [done|].
    intros e d1 Hwf1.
    eapply ensures_bind; [apply ensures_modify; [wf|done]|]. intros _ d4 E4 _.
    apply ensures_ret; [wf|]. intros z Hz. split; [|done]. destruct E4 as [_ E4]. auto.
  - cbv beta. intros r d' _ H HH. by apply H.
Qed.

Lemma ensures_select_this x test sel d :
  well_formed d →
  ensures (d3_select_this test sel) d
    (λ r d', Has x sel d →
             is_Some (test (Some x)) ∧ (test (Some x) = Some true → Has x r d')).
Proof.
  intros Hwf. unfold d3_select_this. revert d Hwf.
  induction sel as [|[e|] sel IH]; intros d Hwf; cbn [for_each].
  - apply ensures_ret; [done|]. intros (e & He & _). by apply elem_of_nil in He.
  - eapply ensures_bind.
    { eapply ensures_bind; [by apply ensures_getDatum|]. intros dat d1 E1 [-> ->].
      eapply ensures_bind; [by apply ensures_lift|]. intros b d2 E2 Hb.
      apply (ensures_ret _ _
               (λ s d', ∃ b, test (datum_of d e) = Some b
                             ∧ s = if b : bool then Some e else None));
        [wf|]. by exists b. }
    intros s d1 E1 (b & Hb & ->).
    eapply ensures_bind; [apply IH; wf|]. intros r d2 E2 Hr.
    apply ensures_ret; [wf|].
    intros (e' & He' & Hx). apply elem_of_cons in He' as [He'|He'].
    + injection He' as ->. rewrite Hx in Hb. split; [by eexists|].
      intros Ht. assert (b = true) as -> by congruence.
      exists e. split; [left|]. destruct E1 as [_ E1], E2 as [_ E2]. auto.
    + destruct Hr as [Hs Hr]. { exists e'. split; [done|]. destruct E1 as [_ E1]. auto. }
      split; [done|]. intros Ht. destruct (Hr Ht) as (e'' & He'' & Hx'').
      exists e''. split; [by right|done].
  - eapply ensures_bind; [by apply (ensures_ret _ _ (λ s _, s = None))|].
    intros s d1 E1 ->.
    eapply ensures_bind; [apply IH; wf|]. intros r d2 E2 Hr.
    apply ensures_ret; [wf|].
    intros (e' & He' & Hx). apply elem_of_cons in He' as [He'|He']; [done|].
    destruct Hr as [Hs Hr]. { exists e'. split; [done|]. destruct E1 as [_ E1]. auto. }
    split; [done|]. intros Ht. destruct (Hr Ht) as (e'' & He'' & Hx'').
    exists e''. split; [by right|done].
Qed.

Lemma ensures_filter x test sel d :
  well_formed d →
  ensures (d3_filter test sel) d
    (λ r d', Has x sel d →
             is_Some (test (Some x)) ∧ (test (Some x) = Some true → Has x r d')).
Proof.
  intros Hwf. unfold d3_filter.
  eapply ensures_bind; [by apply (ensures_select_this x)|]. intros r d1 E1 Hr.
  apply ensures_ret; [wf|]. intros HH.
  assert (Has x sel d1) as HH1 by (by eapply Has_extends).
  clear HH1. destruct (Hr HH) as [Hs Ht]. split; [done|].
  intros Htrue. destruct (Ht Htrue) as (e & He & Hx). exists e. split; [|done].
  apply list_elem_of_filter. split; [by eexists|done].
Qed.

Lemma ensures_each {S} x (f : option Datum → S → option S) sel acc d :
  well_formed d →
  ensures (d3_each f sel acc) d (λ _ _, Has x sel d → ∃ s, is_Some (f (Some x) s)).
Proof.
  intros Hwf. revert acc d Hwf.
  induction sel as [|[e|] sel IH]; intros acc d Hwf; cbn [d3_each].
  - apply ensures_ret; [done|]. intros (e & He & _). by apply elem_of_nil in He.
  - eapply ensures_bind; [by apply ensures_getDatum|]. intros dat d1 E1 [-> ->].
    eapply ensures_bind; [by apply ensures_lift|]. intros acc' d2 E2 Hacc.
    eapply ensures_weaken; [apply IH; wf|]. cbv beta.
    intros _ d3 E3 Hr (e' & He' & Hx). apply elem_of_cons in He' as [He'|He'].
    + injection He' as ->. rewrite Hx in Hacc. exists acc. by eexists.
    + apply Hr. exists e'. split; [done|]. destruct E2 as [_ E2]. auto.
  - eapply ensures_weaken; [by apply IH|]. cbv beta.
    intros _ d3 E3 Hr (e' & He' & Hx). apply elem_of_cons in He' as [He'|He']; [done|].
    apply Hr. by exists e'.
Qed.

Lemma ensures_enter_append x tag ens d :
  well_formed d →
  ensures (d3_enter_append tag ens) d
    (λ r d', (∃ en, Some en ∈ ens ∧ en_datum en = x ∧ en_next en = None) → Has x r d').
Proof.
  intros Hwf. eapply ensures_weaken.
  - apply (ensures_for_nodes (λ en _, Some (en_datum en))
             (λ y d z, datum_of d y = Some z) (insertBefore tag) (λ _, True) x);
      [done|done| |].
    + intros y z d1 d2 Hz [_ H]. auto.
    + intros en d1 Hwf1. unfold insertBefore.
      eapply ensures_bind; [by apply ensures_returns, returns_getElements|].
      intros els d2 E2 [-> ->].
      eapply ensures_bind; [by apply ensures_lift|]. intros pos d3 E3 _.
      eapply ensures_bind; [apply ensures_returns, returns_createElement; wf|].
      intros c d4 E4 [Hc _].
      eapply ensures_bind; [apply ensures_modify; [wf|done]|]. intros _ d5 E5 _.
      apply ensures_ret; [wf|]. intros z [= <-]. split; [|done].
      destruct E5 as [_ E5]. by apply E5.
  - cbv beta. intros r d' _ H (en & Hen & Hx & _). apply H. exists en. by rewrite Hx.
Qed.

Lemma ensures_target_attr x name value t d :
  well_formed d →
  ensures (target_attr name value t) d
    (λ _ _, Has x (target_nodes t) d → is_Some (value (Some x))).
Proof.
  intros Hwf. destruct t as [sel|t]; cbn [target_attr target_nodes].
  - eapply ensures_bind; [by apply (ensures_attr x)|]. intros r d1 E1 Hr.
    apply ensures_ret; [wf|]. intros HH. by destruct (Hr HH).
  - eapply ensures_bind.
    + unfold d3_transition_attr. eapply ensures_bind.
      * apply (ensures_for_nodes (λ e d, datum_of d e) (λ _ _ _, True) _
                 (λ z, is_Some (value (Some z))) x); [done| |done|].
        -- intros a z d1 d2 Hz [_ H]. auto.
        -- intros e d1 Hwf1.
           eapply ensures_bind; [by apply ensures_getDatum|]. intros dat d2 E2 [-> ->].
           eapply ensures_bind; [by apply ensures_lift|]. intros v d3 E3 Hv.
           eapply ensures_weaken;
             [apply ensures_returns, returns_schedule; wf|].
           cbv beta. intros _ d4 E4 _ z Hz. split; [done|]. rewrite Hz in Hv. by eexists.
      * intros r d1 E1 Hr.
        apply (ensures_ret _ _
                 (λ _ _, Has x (tr_nodes t) d → is_Some (value (Some x)))); [wf|].
        intros HH. by destruct (Hr HH).
    + intros r d1 E1 Hr. apply ensures_ret; [wf|done].
Qed.

(** *** The join over groups without children *)

Lemma querySelectorAll_bare els s p :
  (∀ el, els !! p = Some el → childNodes el = []) → querySelectorAll els s p = [].
Proof.
  intros Hc. unfold querySelectorAll.
  destruct (size els) as [|n]; [done|]. cbn [descendants].
  destruct (els !! p) as [el|]; [|done]. by rewrite (Hc el eq_refl).
Qed.

Lemma bindData_returns key parent data d slots d' :
  bindData key parent data ∅ d = (Some slots, d') →
  d' = d ∧ slots = (λ dat, (None, Some (mkEnterNode parent dat None))) <$> data.
Proof.
  revert slots. induction data as [|dat data IH]; intros slots.
  - by intros [= <- <-].
  - cbn [bindData]. rewrite M_bind_run. unfold lift at 1.
    destruct (key (Some dat)) as [k|]; [|done].
    rewrite lookup_empty, M_bind_run.
    destruct (bindData key parent data ∅ d) as [[rest|] d1] eqn:E; [|done].
    intros [= <- <-]. destruct (IH rest eq_refl) as [-> ->]. done.
Qed.

Lemma ensures_selectAll_data s value key sel d :
  well_formed d → Bare sel d →
  ensures (d3_selectAll_data s value key sel) d
    (λ r d', d' = d
             ∧ (∃ k, r.1 = replicate k None)
             ∧ (∀ en, Some en ∈ r.2 → en_next en = None)
             ∧ (∀ p z, Some p ∈ sel → datum_of d p = Some z →
                  ∃ data, value (Some z) = Some data
                          ∧ ∀ dat, dat ∈ data →
                                   ∃ en, Some en ∈ r.2 ∧ en_datum en = dat)).
Proof.
  intros Hwf HC [upd ens] d' Hrun.
  unfold d3_selectAll_data in Hrun. rewrite M_bind_run in Hrun.
  assert (∀ p, Some p ∈ sel → p ∈ omap id sel) as Hin.
  { intros p Hp. apply list_elem_of_omap. by exists (Some p). }
  assert (∀ p, p ∈ omap id sel → Some p ∈ sel) as Hin'.
  { intros p Hp. apply list_elem_of_omap in Hp as ([p'|] & Hp' & [= <-]). done. }
  revert Hrun Hin Hin'. generalize (omap id sel) as ps. intros ps Hrun Hin Hin'.
  match type of Hrun with
  | context [for_each ?f ps d] =>
      assert (∀ groups d1,
        for_each f ps d = (Some groups, d1) →
        d1 = d
        ∧ Forall (λ g : list (option nat) * list (option EnterNode),
            (∃ k, g.1 = replicate k None)
            ∧ ∀ en, Some en ∈ g.2 → en_next en = None) groups
        ∧ (∀ p z, p ∈ ps → datum_of d p = Some z →
             ∃ data, value (Some z) = Some data
                     ∧ ∀ dat, dat ∈ data →
                              ∃ en, Some en ∈ mjoin (snd <$> groups)
                                    ∧ en_datum en = dat)) as Hloop;
      [|destruct (for_each f ps d) as [[groups|] d1] eqn:E; [|done]]
  end.
  { clear Hrun Hin. induction ps as [|p ps IH]; intros groups d1.
    - intros [= <- <-]. split; [done|]. split; [done|]. intros p z Hp.
      by apply elem_of_nil in Hp.
    - cbn [for_each]. rewrite M_bind_run.
      match goal with
      | |- context [let (o, d') := ?b d in _] => destruct (b d) as [[g|] d2] eqn:Hstep
      end; [|done].
      rewrite M_bind_run.
      match goal with
      | |- context [for_each ?f ps d2] =>
          destruct (for_each f ps d2) as [[rest|] d3] eqn:Hrest; [|done]
      end.
      intros [= <- <-].
      (* The step for [p]. *)
      cbv beta in Hstep. rewrite M_bind_run in Hstep. unfold getElements at 1 in Hstep.
      cbv beta iota zeta in Hstep. rewrite M_bind_run in Hstep.
      unfold getDatum at 1 in Hstep. cbv beta iota in Hstep.
      fold (datum_of d p) in Hstep. rewrite M_bind_run in Hstep.
      unfold lift at 1 in Hstep.
      destruct (value (datum_of d p)) as [data|] eqn:Hdata; [|done].
      cbv beta iota in Hstep.
      rewrite (querySelectorAll_bare (elements d) s p) in Hstep
        by (intros el Hel; eapply HC; [apply Hin'; left|done]).
      cbn [nodesByKey] in Hstep. rewrite M_bind_run, M_ret_run, M_bind_run in Hstep.
      destruct (bindData key p data ∅ d) as [[slots|] d4] eqn:Hbind; [|done].
      destruct (bindData_returns _ _ _ _ _ _ Hbind) as [-> ->].
      rewrite M_ret_run in Hstep. injection Hstep as <- <-.
      assert (∀ q, q ∈ ps → Some q ∈ sel) as Hps
        by (intros q Hq; apply Hin'; by right).
      destruct (IH Hps rest d3 Hrest) as (-> & Hall & Hcov).
      split; [done|]. split.
      + constructor; [|done]. cbn [fst snd]. split.
        * exists (length data). rewrite <- list_fmap_compose.
          clear. induction data as [|? data IH]; [done|]. cbn. by f_equal.
        * intros en Hen. rewrite linkEnter_enter in Hen.
          by apply list_elem_of_fmap in Hen as (dat & [= ->] & _).
      + intros q z Hq Hz. apply elem_of_cons in Hq as [->|Hq].
        * rewrite Hz in Hdata. exists data. split; [done|]. intros dat Hdat.
          exists (mkEnterNode p dat None). split; [|done].
          cbn [fmap list_fmap snd]. rewrite linkEnter_enter.
          change (mjoin (?a :: ?l)) with (a ++ mjoin l). apply elem_of_app. left.
          apply list_elem_of_fmap. by exists dat.
        * destruct (Hcov q z Hq Hz) as (data' & Hd' & Hc'). exists data'.
          split; [done|]. intros dat Hdat. destruct (Hc' dat Hdat) as (en & Hen & He).
          exists en. split; [|done]. cbn [fmap list_fmap snd].
          change (mjoin (?a :: ?l)) with (a ++ mjoin l). apply elem_of_app. by right. }
  destruct (Hloop groups d1 eq_refl) as (-> & Hall & Hcov).
  rewrite M_ret_run in Hrun. injection Hrun as <- <- <-.
  split; [by apply extends_refl|]. split; [done|]. cbn [fst snd].
  rewrite Forall_forall in Hall. split; [|split].
  - exists (length (mjoin (fst <$> groups))). apply all_None. intros slot Hslot.
    apply list_elem_of_join in Hslot as (l & Hslot & Hl).
    apply list_elem_of_fmap in Hl as (g & -> & Hgin).
    destruct (Hall g Hgin) as [[k Hk] _]. rewrite Hk in Hslot.
    by apply elem_of_replicate in Hslot as [? _].
  - intros en Hen. apply list_elem_of_join in Hen as (l & Hen & Hl).
    apply list_elem_of_fmap in Hl as (g & -> & Hgin).
    destruct (Hall g Hgin) as [_ He]. by apply He.
  - intros p z Hp Hz. apply (Hcov p z); [by apply Hin|done].
Qed.

End Ensured.

Section Only.

Ltac wf := first [assumption | eapply extends_wf; eassumption].

Ltac fw E :=
  cbv beta in *;
  match type of E with
  | extends ?d ?d' =>
      repeat match goal with
        | H : Has _ _ d |- _ => apply (Has_extends _ _ _ _ E) in H
        end;
      pose proof (extends_wf _ _ E)
  end.

Ltac steady_op :=
  lazymatch goal with
  | |- keeps _ (mret _) _ => by apply (keeps_ret _ _ (λ _, True))
  | |- keeps _ (d3_append _ _) _ => apply steady_append
  | |- keeps _ (d3_enter_append _ _) _ => apply steady_enter_append
  | |- keeps _ (d3_attr_const _ _ _) _ => apply steady_attr_const
  | |- keeps _ (d3_attr _ _ _) _ => apply steady_attr
  | |- keeps _ (d3_text _ _) _ => apply steady_text
  | |- keeps _ (d3_on _ _ _) _ => apply steady_on
  | |- keeps _ (d3_select_this _ _) _ => apply steady_select_this
  | |- keeps _ (d3_filter _ _) _ => apply steady_filter
  | |- keeps _ (d3_each _ _ _) _ => apply steady_each
  | |- keeps _ (target_attr _ _ _) _ => apply steady_target_attr
  | |- keeps _ (d3_select _ (replicate _ None)) _ => apply steady_select_empty
  end.

Ltac steady_chain :=
  lazymatch goal with
  | |- keeps _ (mbind _ _) _ =>
      eapply keeps_bind; [steady_chain | intros ? ?; steady_chain]
  | |- keeps _ (let _ := _ in _) _ => cbv zeta; steady_chain
  | |- keeps _ (if ?b then _ else _) _ => destruct b; steady_chain
  | |- _ => steady_op
  end.

(** A step that keeps the bound data, whatever it returns. *)
Ltac any :=
  eapply ensures_bind; [apply ensures_keeps; [wf|steady_chain]|];
  let E := fresh "E" in intros ? ? E _; fw E.

Lemma steady_renderIndi_lines d0 o details enter :
  keeps (extends d0)
    (for_each (renderIndi_line o details enter) (loop_bound details)) (λ _, True).
Proof. apply quiet_for_each. intros i. apply steady_renderIndi_line. Qed.

Lemma steady_renderFamily_lines d0 details enter :
  keeps (extends d0)
    (for_each (renderFamily_line details enter) (loop_bound details)) (λ _, True).
Proof. apply quiet_for_each. intros i. apply steady_renderFamily_line. Qed.

Lemma steady_renderIndi d0 o enter m :
  keeps (extends d0) (renderIndi o enter (replicate m None)) (λ _, True).
Proof.
  unfold renderIndi.
  eapply (keeps_bind _ _ _ (λ r, r.2 = replicate m None)).
  { destruct (indiHrefFunc o) as [href|]; [|by apply keeps_ret].
    eapply keeps_bind; [steady_chain|]. intros en _.
    eapply keeps_bind; [apply steady_select_empty|]. intros up ->. by apply keeps_ret. }
  intros [enter' update'] Hup. cbn [snd] in Hup. subst update'.
  eapply keeps_bind; [steady_chain|]. intros _ _.
  eapply keeps_bind; [steady_chain|]. intros background _.
  eapply keeps_bind; [steady_chain|]. intros selected _. cbv zeta.
  eapply keeps_bind; [steady_chain|]. intros _ _.
  eapply keeps_bind; [steady_chain|]. intros clip _.
  eapply keeps_bind; [steady_chain|]. intros selected' _.
  eapply keeps_bind; [steady_chain|]. intros _ _.
  eapply keeps_bind; [steady_chain|]. intros _ _.
  eapply keeps_bind; [steady_chain|]. intros _ _.
  eapply keeps_bind; [steady_chain|]. intros details _.
  eapply keeps_bind; [apply steady_renderIndi_lines|]. intros _ _.
  eapply keeps_bind; [steady_chain|]. intros _ _.
  eapply keeps_bind; [steady_chain|]. intros border _.
  eapply keeps_bind; [steady_chain|]. intros selected'' _.
  eapply keeps_bind; [steady_chain|]. intros _ _.
  steady_chain.
Qed.

Lemma steady_renderFamily d0 formatDate o enter update :
  keeps (extends d0) (renderFamily formatDate o enter update) (λ _, True).
Proof.
  unfold renderFamily.
  eapply (keeps_bind _ _ _ (λ _, True)).
  { destruct (famHrefFunc o) as [href|]; steady_chain. }
  intros enter' _.
  eapply keeps_bind; [steady_chain|]. intros _ _.
  eapply keeps_bind; [steady_chain|]. intros _ _.
  eapply keeps_bind; [steady_chain|]. intros details _.
  eapply keeps_bind; [apply steady_renderFamily_lines|]. intros _ _.
  steady_chain.
Qed.

(** If [renderIndi] returns, the data provider knows the people that
    enter, and [getIndiDetails] can read their dates. *)
Lemma ensures_renderIndi o i enter m d :
  well_formed d → Has (DIndi i) enter d →
  ensures (renderIndi o enter (replicate m None)) d
    (λ _ _, known_indi o (OffsetIndi.indi i)).
Proof.
  intros Hwf HH. unfold renderIndi.
  eapply (ensures_bind _ _ _
            (λ r d', Has (DIndi i) r.1 d' ∧ r.2 = replicate m None)).
  { destruct (indiHrefFunc o) as [href|]; [|apply ensures_ret; [done|by split]].
    eapply (ensures_bind _ _ _ (λ r d', Has (DIndi i) r d')).
    { eapply ensures_bind; [by apply (ensures_append (DIndi i))|].
      intros r1 d1 E1 H1. specialize (H1 HH).
      eapply ensures_weaken; [apply (ensures_attr (DIndi i)); wf|].
      cbv beta. intros r2 d2 E2 H2. exact (proj1 (H2 H1)). }
    intros en d1 E1 H1.
    eapply ensures_bind; [apply ensures_keeps; [wf|apply steady_select_empty]|].
    intros up d2 E2 ->. apply ensures_ret; [wf|]. split; [by eapply Has_extends|done]. }
  intros [enter' update'] d1 E1 [H1 Hup]. cbn [fst snd] in H1, Hup. subst update'.
  fw E1.
  any. any. any. cbv zeta. any. any. any. any. any. any.
  eapply ensures_bind; [apply (ensures_each (DIndi i)); wf|].
  intros details d11 E11 Heach. destruct (Heach H1) as (s & v & Hv). clear Heach.
  assert (known_indi o (OffsetIndi.indi i)) as Hk.
  { cbn [with_indi] in Hv. unfold render_getIndi, known_indi in *.
    destruct (getIndi (data o) _) as [indi|]; [|done]. cbn [mbind option_bind] in Hv.
    destruct (getIndiDetails indi) as [l|] eqn:Hl; [|done]. exists indi.
    split; [done|]. by eexists. }
  eapply ensures_weaken; [apply ensures_keeps; [wf|]|by intros].
  eapply keeps_bind; [apply steady_renderIndi_lines|]. intros _ _.
  eapply keeps_bind; [steady_chain|]. intros _ _.
  eapply keeps_bind; [steady_chain|]. intros border _.
  eapply keeps_bind; [steady_chain|]. intros selected'' _.
  eapply keeps_bind; [steady_chain|]. intros _ _.
  steady_chain.
Qed.

(** If [renderFamily] returns, the data provider knows the families that
    enter. *)
Lemma ensures_renderFamily formatDate o node f enter update d :
  well_formed d → Has (DNode node) enter d → TreeNode.family node = Some f →
  ensures (renderFamily formatDate o enter update) d
    (λ _ _, is_Some (getFam (data o) (TreeEntry.id f))).
Proof.
  intros Hwf HH Hf. unfold renderFamily.
  eapply (ensures_bind _ _ _ (λ r d', Has (DNode node) r d')).
  { destruct (famHrefFunc o) as [href|]; [|by apply ensures_ret].
    eapply ensures_bind; [by apply (ensures_append (DNode node))|].
    intros r1 d1 E1 H1. specialize (H1 HH).
    eapply ensures_weaken; [apply (ensures_attr (DNode node)); wf|].
    cbv beta. intros r2 d2 E2 H2. exact (proj1 (H2 H1)). }
  intros enter' d1 E1 H1. fw E1.
  any. any.
  eapply ensures_bind; [apply (ensures_each (DNode node)); wf|].
  intros details d4 E4 Heach. destruct (Heach H1) as (s & v & Hv). clear Heach.
  assert (is_Some (getFam (data o) (TreeEntry.id f))) as Hk.
  { unfold with_family in Hv. cbn [with_node] in Hv. rewrite Hf in Hv.
    cbn [mbind option_bind] in Hv. cbv zeta in Hv.
    destruct (getFam (data o) _) as [fam|]; [by eexists|done]. }
  eapply ensures_weaken; [apply ensures_keeps; [wf|]|by intros].
  eapply keeps_bind; [apply steady_renderFamily_lines|]. intros _ _.
  steady_chain.
Qed.

Section Render.
Context (formatDate : Date → option string → string).
Context (getFamPositionVertical getFamPositionHorizontal : TreeNode.t → jsnum).
Context (o : RendererOptions).

Lemma target_nodes_transition sel : target_nodes (transition o sel) = sel.
Proof. unfold transition. by destruct (animate o). Qed.

(** The groups that [render] appends to the entering elements have the
    data of their parents and no children. *)
Lemma ensures_groups x sel d :
  well_formed d → (∀ p, Some p ∈ sel → (p < next_id d)%nat) →
  ensures (d3_append "g" sel |> d3_attr_const "class" "detailed") d
    (λ r d', Bare r d' ∧ (Has x sel d → Has x r d')).
Proof.
  intros Hwf Hlt r d' Hrun.
  assert (Leaves (next_id d) d) as HL.
  { split; [done|]. intros e el He Hel. specialize (Hwf e el Hel). cbn in Hwf. lia. }
  rewrite M_bind_run in Hrun.
  destruct (d3_append "g" sel d) as [[r1|] d1] eqn:Hrun1; [|done].
  destruct (Leaves_append (next_id d) "g" sel Hlt d HL) as [HL1 Hr1].
  rewrite Hrun1 in HL1, Hr1. cbn in HL1. specialize (Hr1 r1 eq_refl).
  destruct (Leaves_attr_const (next_id d) "class" "detailed" r1 d1 HL1) as [HL2 Hr2].
  rewrite Hrun in HL2, Hr2. cbn in HL2. specialize (Hr2 r eq_refl). subst r.
  destruct (ensures_append x "g" sel d Hwf r1 d1 Hrun1) as [E1 H1].
  destruct (ensures_attr_const x "class" "detailed" r1 d1 (extends_wf _ _ E1) r1 d' Hrun)
    as [E2 H2].
  split; [by eapply extends_trans|]. split; [|by auto].
  intros e el He Hel. destruct HL2 as [_ HL2]. eapply HL2; [|done]. by apply Hr1.
Qed.

Lemma render_data_indi node i :
  TreeNode.indi node = Some i →
  ∃ p, p ∈ render_data getFamPositionVertical getFamPositionHorizontal o node
       ∧ OffsetIndi.indi p = i.
Proof.
  intros Hi. unfold render_data. rewrite Hi.
  destruct (TreeNode.spouse node); cbn [app]; eexists; (split; [left|done]).
Qed.

Lemma render_data_spouse_in node s :
  TreeNode.spouse node = Some s →
  ∃ p, p ∈ render_data getFamPositionVertical getFamPositionHorizontal o node
       ∧ OffsetIndi.indi p = s.
Proof.
  intros Hs. unfold render_data. rewrite Hs.
  destruct (TreeNode.indi node); cbn [app]; eexists.
  - split; [right; left|done].
  - split; [left|done].
Qed.

(** If a first pass of [render] returns, the nodes that enter can be
    drawn. *)
Lemma ensures_render node enter m d :
  well_formed d → (∀ e, Some e ∈ enter → (e < next_id d)%nat) →
  Has (DNode node) enter d →
  ensures (render formatDate getFamPositionVertical getFamPositionHorizontal o
             enter (replicate m None)) d
    (λ _ _, drawable getFamPositionVertical getFamPositionHorizontal o node).
Proof.
  intros Hwf Hlt HH. unfold render.
  eapply ensures_bind; [by apply (ensures_groups (DNode node))|].
  intros enter' d1 E1 [HB H1]. specialize (H1 HH). fw E1.
  eapply ensures_run; [apply d3_select_empty|by apply extends_refl|].
  rewrite d3_merge_none.
  eapply ensures_bind; [by apply ensures_selectAll_data|].
  intros [upd ens] d3 E3 (-> & [k Hk] & Hnext & Hcov). cbn [fst snd] in Hk, Hnext, Hcov.
  subst upd. cbv beta iota. clear E3.
  assert (∀ p, p ∈ render_data getFamPositionVertical getFamPositionHorizontal o node →
               ∃ en, Some en ∈ ens ∧ en_datum en = DIndi p ∧ en_next en = None)
    as Hens.
  { intros p Hp. destruct H1 as (e & He & Hx).
    destruct (Hcov e (DNode node) He Hx) as (data & Hdata & Hin).
    cbn in Hdata. injection Hdata as <-.
    destruct (Hin (DIndi p)) as (en & Hen & Hd).
    { apply list_elem_of_In, in_map. by apply list_elem_of_In. }
    exists en. split; [done|]. split; [done|]. by apply Hnext. }
  clear Hcov Hnext.
  (* The groups of the people. *)
  eapply (ensures_bind _ _ _
            (λ r d', ∀ p, p ∈ render_data getFamPositionVertical
                                getFamPositionHorizontal o node →
                          Has (DIndi p) r d')).
  { intros r d' Hrun. rewrite M_bind_run in Hrun.
    destruct (d3_enter_append "g" ens d1) as [[r1|] d2] eqn:Hrun1; [|done].
    destruct (ensures_keeps _ d1 _ H (steady_enter_append d1 "g" ens) r1 d2 Hrun1)
      as [E2 _].
    destruct (ensures_keeps _ d2 _ (extends_wf _ _ E2)
                (steady_attr_const d2 "class" "indi" r1) r d' Hrun) as [E3 _].
    split; [by eapply extends_trans|]. intros p Hp.
    destruct (ensures_enter_append (DIndi p) "g" ens d1 H r1 d2 Hrun1) as [_ Hr1].
    destruct (ensures_attr_const (DIndi p) "class" "indi" r1 d2 (extends_wf _ _ E2)
                r d' Hrun) as [_ Hr].
    apply Hr, Hr1. destruct (Hens p Hp) as (en & ? & ? & ?). by exists en. }
  intros indiEnter d2 E2 HI. fw E2. rewrite d3_merge_none.
  eapply ensures_bind; [apply ensures_keeps; [wf|apply steady_target_attr]|].
  intros t3 d3 E3 _. fw E3.
  assert (∀ p, p ∈ render_data getFamPositionVertical getFamPositionHorizontal o node →
               Has (DIndi p) indiEnter d3) as HI3.
  { intros p Hp. eapply Has_extends; [exact E3|]. by apply HI. }
  clear HI.
  (* The people. *)
  eapply (ensures_bind _ _ _
            (λ _ _, ∀ p, p ∈ render_data getFamPositionVertical
                               getFamPositionHorizontal o node →
                         known_indi o (OffsetIndi.indi p))).
  { intros a d' Hrun. split.
    - by destruct (ensures_keeps _ d3 _ ltac:(wf) (steady_renderIndi d3 o indiEnter k)
                     a d' Hrun).
    - intros p Hp.
      by destruct (ensures_renderIndi o p indiEnter k d3 ltac:(wf) (HI3 p Hp) a d' Hrun). }
  intros _ d4 E4 Hpeople. fw E4.
  (* The groups of the families. *)
  eapply (ensures_bind _ _ _
            (λ r d', is_Some (TreeNode.family node) → Has (DNode node) r d')).
  { eapply (ensures_bind _ _ _
              (λ r d', is_Some (TreeNode.family node) → Has (DNode node) r d')).
    - eapply (ensures_bind _ _ _
                (λ r d', is_Some (TreeNode.family node) → Has (DNode node) r d')).
      + eapply ensures_weaken; [apply (ensures_select_this (DNode node)); wf|].
        cbv beta. intros r d' E Hr Hf. apply (Hr H1). cbn.
        by rewrite bool_decide_true.
      + intros r d' E Hr. eapply ensures_weaken; [apply (ensures_append (DNode node)); wf|].
        cbv beta. intros r' d'' E' Hr' Hf. auto.
    - intros r d' E Hr.
      eapply ensures_weaken; [apply (ensures_attr_const (DNode node)); wf|].
      cbv beta. intros r' d'' E' Hr' Hf. auto. }
  intros familyEnter d5 E5 HF. fw E5.
  eapply (ensures_bind _ _ _ (λ r _, r = replicate m None)).
  { intros r d' Hrun. rewrite M_bind_run, d3_select_this_empty in Hrun.
    rewrite d3_select_empty in Hrun. injection Hrun as <- <-.
    split; [by apply extends_refl|done]. }
  intros familyUpdate d6 E6 ->. fw E6. rewrite d3_merge_none.
  assert (is_Some (TreeNode.family node) → Has (DNode node) familyEnter d6) as HF6.
  { intros Hf. eapply Has_extends; [exact E6|]. by apply HF. }
  clear HF.
  eapply (ensures_bind _ _ _
            (λ _ _, is_Some (TreeNode.family node) →
                    is_Some (getFamTransform getFamPositionVertical
                               getFamPositionHorizontal o node))).
  { eapply ensures_weaken; [apply (ensures_target_attr (DNode node)); wf|].
    cbv beta. intros r d' E Hr Hf. rewrite target_nodes_transition in Hr.
    destruct (Hr (HF6 Hf)) as [v Hv]. cbn in Hv.
    destruct (getFamTransform _ _ _ _); [by eexists|done]. }
  intros t7 d7 E7 Htransform. fw E7.
  intros a d' Hrun. split.
  { by destruct (ensures_keeps _ d7 _ ltac:(wf)
                   (steady_renderFamily d7 formatDate o familyEnter (replicate m None))
                   a d' Hrun). }
  split; [|split].
  - intros i Hi. destruct (render_data_indi node i Hi) as (p & Hp & <-). by apply Hpeople.
  - intros s Hs. destruct (render_data_spouse_in node s Hs) as (p & Hp & <-).
    by apply Hpeople.
  - intros f Hf. split; [|apply Htransform; by eexists].
    assert (Has (DNode node) familyEnter d7) as HF7.
    { eapply Has_extends; [exact E7|]. apply HF6. by eexists. }
    by destruct (ensures_renderFamily formatDate o node f familyEnter (replicate m None)
                   d7 ltac:(wf) HF7 Hf a d' Hrun).
Qed.

End Render.
End Only.

(** X15: a first pass returns only on nodes that can be drawn. When the
    document is well formed, the entering elements are in the document and
    no element is updated, and [render] returns, then every layout node
    bound to an entering element can be drawn: the data provider knows its
    people, [getIndiDetails] can read their dates, and its family, if it has
    one, is known to the data provider and has an anchor for
    [getFamTransform]. On any other node [render] throws. *)
Theorem render_enter_returns_only formatDate getFamPositionVertical
    getFamPositionHorizontal options enter m d :
  well_formed d →
  (∀ e, Some e ∈ enter → is_Some (elements d !! e)) →
  (render formatDate getFamPositionVertical getFamPositionHorizontal options
     enter (replicate m None) d).1 = Some () →
  ∀ e el node,
    Some e ∈ enter → elements d !! e = Some el → datum el = Some (DNode node) →
    drawable getFamPositionVertical getFamPositionHorizontal options node.
Proof.
  intros Hwf Hex Hrun e el node He Hel Hdat.
  destruct (render formatDate getFamPositionVertical getFamPositionHorizontal options
              enter (replicate m None) d) as [[[]|] d'] eqn:E; [|done].
  eapply (ensures_render formatDate getFamPositionVertical getFamPositionHorizontal
            options node enter m d Hwf); [| |exact E].
  - intros e' He'. destruct (Hex e' He') as [el' Hel']. by apply (Hwf e' el').
  - exists e. split; [done|]. unfold datum_of. by rewrite Hel.
Qed.

(** ** The further properties at concrete inputs *)

Local Open Scope string_scope.

Lemma getIndiDetails_fails_witness :
  lacks from (getBirthDate Edge.born_before1900)
  ∧ getIndiDetails Edge.born_before1900 = None.
Proof.
  assert (lacks from (getBirthDate Edge.born_before1900)) as H.
  { eexists _, _. repeat split; reflexivity. }
  split; [exact H|].
  apply (proj2 (getIndiDetails_fails Edge.born_before1900)). left. exact H.
Defined.

Lemma getIndiDetails_shape_witness :
  getIndiDetails Ex.portrait
  = Some [mkLine "" true "1920 - "; mkLine "" true "Lublin"]
  ∧ Forall (λ l, centered l = true ∧ symbol l = "")
      [mkLine "" true "1920 - "; mkLine "" true "Lublin"].
Proof.
  split; [reflexivity|].
  apply (proj1 (getIndiDetails_shape Ex.portrait _ eq_refl)).
Defined.

Lemma getIndiDetails_place_witness :
  getIndiDetails Ex.portrait
  = Some [mkLine "" true "1920 - "; mkLine "" true "Lublin"]
  ∧ getBirthPlace Ex.portrait = Some "Lublin"
  ∧ getDeathPlace Ex.portrait = Some "Gdynia"
  ∧ last [mkLine "" true "1920 - "; mkLine "" true "Lublin"]
    = Some (mkLine "" true "Lublin").
Proof.
  split; [reflexivity|]. split; [reflexivity|]. split; [reflexivity|].
  apply (proj1 (proj1 (getIndiDetails_place Ex.portrait _ eq_refl)
                  "Lublin" eq_refl ltac:(discriminate))).
Defined.

Lemma getPreferredIndiSize_bounds_witness :
  getIndi (data Ex.options) "I3" = Some Ex.portrait
  ∧ getPreferredIndiSize Ex.getLength Ex.options "I3" = Some (Num 134, Num 90)
  ∧ ∃ w h, (Num 134, Num 90) = (Num w, Num h)
           ∧ (INDI_MIN_WIDTH + image_width Ex.portrait ≤ w)%Z
           ∧ (INDI_MIN_HEIGHT ≤ h)%Z
           ∧ (truthy_s (getImageUrl Ex.portrait) = true → (IMAGE_HEIGHT ≤ h)%Z)
           ∧ (h = 43 ∨ h = 57 ∨ h = 71 ∨ h = 90).
Proof.
  split; [reflexivity|]. split; [reflexivity|].
  apply (proj2 (getPreferredIndiSize_bounds Ex.getLength Ex.options "I3")
           Ex.portrait (Num 134, Num 90)); reflexivity.
Defined.

Lemma getPreferredFamSize_result_witness :
  getFam (data Ex.options) "F1" = Some Ex.married
  ∧ ∃ lines w,
      getFamDetails Ex.formatDate Ex.options Ex.married = Some lines
      ∧ (length lines ≤ 2)%nat
      ∧ getPreferredFamSize Ex.getLength Ex.formatDate Ex.options "F1"
        = Some (Num w, Num (10 + Z.of_nat (length lines) * 14))
      ∧ (FAM_MIN_WIDTH ≤ w)%Z
      ∧ (∀ line z, line ∈ lines → Ex.getLength (text line) "details" = Num z →
                   (z + 22 ≤ w)%Z).
Proof.
  split; [reflexivity|].
  apply (proj2 (getPreferredFamSize_result Ex.getLength Ex.formatDate Ex.options "F1")
           Ex.married eq_refl).
Defined.

Lemma baselines_inside_box_witness :
  getPreferredIndiSize Ex.getLength Ex.options "I3" = Some (Num 134, Num 90)
  ∧ ∃ y, line_y 49 1 = Z_to_string y ∧ (0 < y)%Z ∧ (y + 8 ≤ 90)%Z.
Proof.
  split; [reflexivity|].
  apply (proj1 (baselines_inside_box Ex.getLength Ex.formatDate Ex.options)
           "I3" Ex.portrait
           [mkLine "" true "1920 - "; mkLine "" true "Lublin"] (Num 134) 90 1%nat
           eq_refl eq_refl eq_refl).
  simpl. lia.
Defined.

Lemma render_data_no_overlap_witness :
  TreeNode.indi Ex.couple = Some (TreeEntry.mk "I1" (Num 64) (Num 57))
  ∧ TreeNode.spouse Ex.couple = Some (TreeEntry.mk "I2" (Num 64) (Num 57))
  ∧ ∃ x xs ys,
      render_data Ex.getFamPositionVertical Ex.getFamPositionHorizontal
        Ex.options Ex.couple
      = [OffsetIndi.mk (TreeEntry.mk "I1" (Num 64) (Num 57)) (Num 0) (Num x) (Num 0);
         OffsetIndi.mk (TreeEntry.mk "I2" (Num 64) (Num 57)) (Num 0) (Num xs) (Num ys)]
      ∧ (0 ≤ x)%Z
      ∧ (horizontal Ex.options = false → xs = x + 64 ∧ ys = 0)
      ∧ (horizontal Ex.options = true → x = 0 ∧ xs = 0 ∧ (57 ≤ ys)%Z).
Proof.
  split; [reflexivity|]. split; [reflexivity|].
  apply (render_data_no_overlap Ex.getFamPositionVertical Ex.getFamPositionHorizontal
           Ex.options Ex.couple
           (TreeEntry.mk "I1" (Num 64) (Num 57)) (TreeEntry.mk "I2" (Num 64) (Num 57))
           64 57); reflexivity.
Defined.

Lemma getFamTransform_result_witness :
  getFamTransform Ex.getFamPositionVertical Ex.getFamPositionHorizontal
    Ex.options Ex.couple = Some "translate(35, 57)"
  ∧ ∃ a p, (0 ≤ p)%Z
           ∧ "translate(35, 57)"
             = "translate(" +:+ Z_to_string p +:+ ", " +:+ js_str a +:+ ")".
Proof.
  split; [reflexivity|].
  destruct (proj2 (getFamTransform_result Ex.getFamPositionVertical
                     Ex.getFamPositionHorizontal Ex.options Ex.couple)
              "translate(35, 57)" eq_refl) as (a & p & Ht & Hp & _).
  exists a, p. split; [exact Hp|exact Ht].
Defined.

Lemma loop_bound_rounds_witness :
  Edge.details !! "I1" = Some [mkLine "" true "1900 - "]
  ∧ 0%nat ∈ loop_bound Edge.details.
Proof.
  split; [vm_compute; reflexivity|].
  apply (proj2 (loop_bound_rounds Edge.details 0)).
  exists "I1", [mkLine "" true "1900 - "]. split; [vm_compute; reflexivity|].
  simpl. lia.
Defined.

Lemma render_created_elements_witness :
  well_formed (Ex.document Ex.couple)
  ∧ elements (Ex.document Ex.couple) !! 2%nat = None
  ∧ ∃ el, elements (Ex.entered Ex.options Ex.couple) !! 2%nat = Some el
          ∧ tagName el ∈ ["g"; "rect"; "clipPath"; "text"; "image"; "a"].
Proof.
  assert (well_formed (Ex.document Ex.couple)) as Hwf.
  { apply (bool_decide_unpack _). vm_compute. exact I. }
  assert (∃ el, elements (Ex.entered Ex.options Ex.couple) !! 2%nat = Some el)
    as [el Hel].
  { vm_compute. eexists. reflexivity. }
  split; [exact Hwf|]. split; [vm_compute; reflexivity|].
  exists el. split; [exact Hel|].
  apply (proj1 (proj2 (render_created_elements Ex.formatDate Ex.getFamPositionVertical
                         Ex.getFamPositionHorizontal Ex.options [Some 1%nat] [None]
                         (Ex.document Ex.couple) Hwf 2%nat el eq_refl Hel))).
Defined.

Lemma render_enter_returns_witness :
  well_formed (Ex.document Ex.couple)
  ∧ drawable Ex.getFamPositionVertical Ex.getFamPositionHorizontal Ex.options Ex.couple
  ∧ (Ex.render Ex.options [Some 1%nat] [None] (Ex.document Ex.couple)).1 = Some ().
Proof.
  assert (well_formed (Ex.document Ex.couple)) as Hwf.
  { apply (bool_decide_unpack _). vm_compute. exact I. }
  assert (drawable Ex.getFamPositionVertical Ex.getFamPositionHorizontal
            Ex.options Ex.couple) as Hd.
  { split; [|split].
    - intros i Hi. injection Hi as <-. exists Ex.born1900.
      split; [reflexivity|]. eexists. reflexivity.
    - intros s Hs. injection Hs as <-. exists Ex.died1950.
      split; [reflexivity|]. eexists. reflexivity.
    - intros f Hf. injection Hf as <-. split; eexists; reflexivity. }
  split; [exact Hwf|]. split; [exact Hd|].
  apply (render_enter_returns Ex.formatDate Ex.getFamPositionVertical
           Ex.getFamPositionHorizontal Ex.options [Some 1%nat] 1
           (Ex.document Ex.couple) Hwf).
  intros e He. apply elem_of_cons in He as [He|He]; [|by apply elem_of_nil in He].
  injection He as ->.
  eexists _, Ex.couple. split; [vm_compute; reflexivity|].
  split; [reflexivity|exact Hd].
Defined.

Lemma render_enter_returns_only_witness :
  well_formed (Ex.document Ex.couple)
  ∧ (render Ex.formatDate Ex.getFamPositionVertical Ex.getFamPositionHorizontal
       Ex.options [Some 1%nat] (replicate 1 None) (Ex.document Ex.couple)).1 = Some ()
  ∧ drawable Ex.getFamPositionVertical Ex.getFamPositionHorizontal Ex.options Ex.couple.
Proof.
  assert (well_formed (Ex.document Ex.couple)) as Hwf.
  { apply (bool_decide_unpack _). vm_compute. exact I. }
  assert (∀ e, Some e ∈ [Some 1%nat] → is_Some (elements (Ex.document Ex.couple) !! e))
    as Hex.
  { intros e He. apply elem_of_cons in He as [He|He].
    - injection He as ->. eexists. vm_compute. reflexivity.
    - apply elem_of_nil in He. destruct He. }
  assert (Some 1%nat ∈ [Some 1%nat]) as He by left.
  assert (elements (Ex.document Ex.couple) !! 1%nat
          = Some (mkElement "g" ∅ None [] (Some 0%nat) (Some (DNode Ex.couple)) ∅))
    as Hel.
  { vm_compute. reflexivity. }
  assert ((render Ex.formatDate Ex.getFamPositionVertical Ex.getFamPositionHorizontal
             Ex.options [Some 1%nat] (replicate 1 None) (Ex.document Ex.couple)).1
          = Some ()) as Hrun.
  { vm_compute. reflexivity. }
  split; [exact Hwf|]. split; [exact Hrun|].
  exact (render_enter_returns_only Ex.formatDate Ex.getFamPositionVertical
           Ex.getFamPositionHorizontal Ex.options [Some 1%nat] 1
           (Ex.document Ex.couple) Hwf Hex Hrun 1%nat _ Ex.couple He Hel eq_refl).
Defined.
